(** * Keyed list reconciliation ([repeat]), node range utilities and the
      template cache: a shallow embedding and its verification.

    The embedding follows [src/src/directives/repeat.ts],
    [src/src/lib/dom.ts] and the template factory.  JavaScript objects
    live in explicit stores (nodes, parts, caches) and are named by
    references; exceptions and mutation are threaded by a state and
    exception monad. *)

From stdpp Require Import gmap strings list fin_maps.
From Stdlib Require Import ZArith Lia.

Open Scope Z_scope.

(** ** JavaScript values *)

(** Values of type [unknown] (items, keys, template values).  Numbers are
    the integers and [NaN].  A [Map] compares keys by SameValueZero, which
    on this universe is equality ([NaN] is found under [NaN]); [===]
    differs from it on [NaN] only. *)
Inductive JsValue :=
| VUndefined
| VNull
| VBool (b : bool)
| VNumber (n : Z)
| VNaN
| VString (s : string)
| VObject (ref : nat).

#[global] Instance JsValue_eq_dec : EqDecision JsValue.
Proof. solve_decision. Defined.

Definition JsValue_encode (v : JsValue)
    : unit + unit + bool + Z + unit + string + nat :=
  match v with
  | VUndefined => inl (inl (inl (inl (inl (inl tt)))))
  | VNull => inl (inl (inl (inl (inl (inr tt)))))
  | VBool b => inl (inl (inl (inl (inr b))))
  | VNumber n => inl (inl (inl (inr n)))
  | VNaN => inl (inl (inr tt))
  | VString s => inl (inr s)
  | VObject r => inr r
  end.

Definition JsValue_decode (x : unit + unit + bool + Z + unit + string + nat)
    : JsValue :=
  match x with
  | inl (inl (inl (inl (inl (inl _))))) => VUndefined
  | inl (inl (inl (inl (inl (inr _))))) => VNull
  | inl (inl (inl (inl (inr b)))) => VBool b
  | inl (inl (inl (inr n))) => VNumber n
  | inl (inl (inr _)) => VNaN
  | inl (inr s) => VString s
  | inr r => VObject r
  end.

#[global] Instance JsValue_countable : Countable JsValue.
Proof.
  apply (inj_countable' JsValue_encode JsValue_decode).
  intros []; reflexivity.
Defined.

(** The strict equality [a === b]: [NaN === NaN] is [false]. *)
Definition strict_eq (a b : JsValue) : bool :=
  match a with
  | VNaN => false
  | _ => bool_decide (a = b)
  end.

(** ** The DOM store *)

Abbreviation Node := nat.
Abbreviation PartRef := nat.

Inductive NodeType := ELEMENT_NODE | TEXT_NODE | COMMENT_NODE.

#[global] Instance NodeType_eq_dec : EqDecision NodeType.
Proof. solve_decision. Defined.

Record NodeData := mkNodeData {
  nodeType : NodeType;
  nodeValue : option string;
}.

(** A [NodePart] object: its boundary nodes, the render options it was
    built with, the committed value and the staged one. *)
Record NodePartData := mkNodePart {
  startNode : option Node;
  endNode : option Node;
  options : nat;
  value : JsValue;
  pendingValue : JsValue;
}.

(** An array slot holding [NodePart | null | undefined]. *)
Inductive Slot := SUndefined | SNull | SPart (p : PartRef).

#[global] Instance Slot_eq_dec : EqDecision Slot.
Proof. solve_decision. Defined.

(** [class NodeRemovalToken]: [container] may be [null] at run time. *)
Record NodeRemovalToken := mkToken {
  target : Node;
  container : option Node;
  defaultPrevented : bool;
}.

Definition preventDefault (tok : NodeRemovalToken) : NodeRemovalToken :=
  {| target := target tok; container := container tok; defaultPrevented := true |}.

(** A removal handler receives the token; what the reconciler observes of
    it is whether it called [token.preventDefault()]. *)
Definition NodeRemovalHandler := NodeRemovalToken → bool.

(** Part-level operations performed, in order of occurrence (the most
    recent first).  The trace is only written, never read, by the code. *)
Inductive Event :=
| EvCreate (p : PartRef)
| EvUpdate (p : PartRef) (v : JsValue)
| EvMove (p : PartRef)
| EvRemovePart (p : PartRef)
| EvHandler (tok : NodeRemovalToken)
| EvGenerateMaps.

Record State := mkState {
  nodeData : gmap Node NodeData;
  parentOf : gmap Node Node;
  childNodes : gmap Node (list Node);
  nextNode : Node;
  parts : gmap PartRef NodePartData;
  nextPart : PartRef;
  partListCache : gmap PartRef (list Slot);
  keyListCache : gmap PartRef (list JsValue);
  trace : list Event;
}.

Definition set_dom (pa : gmap Node Node) (ch : gmap Node (list Node)) (σ : State) : State :=
  {| nodeData := nodeData σ; parentOf := pa; childNodes := ch;
     nextNode := nextNode σ; parts := parts σ; nextPart := nextPart σ;
     partListCache := partListCache σ; keyListCache := keyListCache σ;
     trace := trace σ |}.

Definition alloc_node (d : NodeData) (σ : State) : State :=
  {| nodeData := <[nextNode σ := d]> (nodeData σ); parentOf := parentOf σ;
     childNodes := childNodes σ;
     nextNode := S (nextNode σ); parts := parts σ; nextPart := nextPart σ;
     partListCache := partListCache σ; keyListCache := keyListCache σ;
     trace := trace σ |}.

Definition set_parts (ps : gmap PartRef NodePartData) (np : PartRef) (σ : State) : State :=
  {| nodeData := nodeData σ; parentOf := parentOf σ; childNodes := childNodes σ;
     nextNode := nextNode σ; parts := ps; nextPart := np;
     partListCache := partListCache σ; keyListCache := keyListCache σ;
     trace := trace σ |}.

Definition set_caches (pc : gmap PartRef (list Slot)) (kc : gmap PartRef (list JsValue))
    (σ : State) : State :=
  {| nodeData := nodeData σ; parentOf := parentOf σ; childNodes := childNodes σ;
     nextNode := nextNode σ; parts := parts σ; nextPart := nextPart σ;
     partListCache := pc; keyListCache := kc;
     trace := trace σ |}.

Definition add_event (e : Event) (σ : State) : State :=
  {| nodeData := nodeData σ; parentOf := parentOf σ; childNodes := childNodes σ;
     nextNode := nextNode σ; parts := parts σ; nextPart := nextPart σ;
     partListCache := partListCache σ; keyListCache := keyListCache σ;
     trace := e :: trace σ |}.

(** ** Exceptions and the state monad *)

Inductive Exception :=
| JsError (message : string)   (* [throw new Error(message)] *)
| TypeError                    (* property access on null or undefined *)
| NotFoundError.               (* DOMException of insertBefore / removeChild *)

(** [Diverges]: the fuel given to a loop ran out. *)
Inductive Outcome (A : Type) :=
| Returns (a : A)
| Throws (e : Exception)
| Diverges.
Arguments Returns {A} a.
Arguments Throws {A} e.
Arguments Diverges {A}.

Definition M (A : Type) : Type := State → Outcome A * State.

#[global] Instance M_ret : MRet M := λ A a σ, (Returns a, σ).
#[global] Instance M_bind : MBind M := λ A B k m σ,
  match m σ with
  | (Returns a, σ') => k a σ'
  | (Throws e, σ') => (Throws e, σ')
  | (Diverges, σ') => (Diverges, σ')
  end.

Definition throw {A} (e : Exception) : M A := λ σ, (Throws e, σ).
Definition diverge {A} : M A := λ σ, (Diverges, σ).
Definition get_state : M State := λ σ, (Returns σ, σ).
Definition modify (f : State → State) : M unit := λ σ, (Returns tt, f σ).
Definition emit (e : Event) : M unit := modify (add_event e).

(** Dereferencing a possibly-null reference. *)
Definition deref {A} (o : option A) : M A :=
  match o with Some a => mret a | None => throw TypeError end.

(** ** DOM primitives (the host's [Node] interface) *)

Definition children_of (σ : State) (p : Node) : list Node :=
  default [] (childNodes σ !! p).

Fixpoint next_in (n : Node) (l : list Node) : option Node :=
  match l with
  | [] => None
  | x :: l' => if decide (x = n) then head l' else next_in n l'
  end.

Definition parentNode (σ : State) (n : Node) : option Node := parentOf σ !! n.

Definition nextSibling (σ : State) (n : Node) : option Node :=
  match parentNode σ n with
  | Some p => next_in n (children_of σ p)
  | None => None
  end.

Definition remove_node (n : Node) (l : list Node) : list Node :=
  filter (λ x, x ≠ n) l.

Fixpoint insert_before (b : option Node) (n : Node) (l : list Node) : list Node :=
  match l with
  | [] => [n]
  | x :: l' => if decide (Some x = b) then n :: x :: l' else x :: insert_before b n l'
  end.

(** Detaches [n] from its current parent, if it has one. *)
Definition detach (n : Node) (σ : State) : State :=
  match parentOf σ !! n with
  | Some p =>
      set_dom (delete n (parentOf σ))
              (<[p := remove_node n (children_of σ p)]> (childNodes σ)) σ
  | None => σ
  end.

(** [parent.insertBefore(node, before)]: the reference child must be a
    child of [parent]; a node that is its own reference is put before its
    next sibling; the node leaves its previous parent. *)
Definition insertBefore (parent node : Node) (before : option Node) : M Node := λ σ,
  match before with
  | Some b =>
      if decide (parentNode σ b = Some parent) then
        let b' := if decide (b = node) then nextSibling σ node else before in
        let σ1 := detach node σ in
        (Returns node,
         set_dom (<[node := parent]> (parentOf σ1))
                 (<[parent := insert_before b' node (children_of σ1 parent)]> (childNodes σ1)) σ1)
      else (Throws NotFoundError, σ)
  | None =>
      let σ1 := detach node σ in
      (Returns node,
       set_dom (<[node := parent]> (parentOf σ1))
               (<[parent := children_of σ1 parent ++ [node]]> (childNodes σ1)) σ1)
  end.

(** [parent.removeChild(child)]. *)
Definition removeChild (parent : Node) (child : option Node) : M Node := λ σ,
  match child with
  | None => (Throws TypeError, σ)
  | Some ch =>
      if decide (parentNode σ ch = Some parent)
      then (Returns ch, detach ch σ)
      else (Throws NotFoundError, σ)
  end.

(** [document.createComment(data)] and friends: a fresh detached node. *)
Definition createNode (d : NodeData) : M Node := λ σ,
  (Returns (nextNode σ), alloc_node d σ).

(** A marker is a comment node with value ['']. *)
Definition is_marker (σ : State) (n : Node) : bool :=
  match nodeData σ !! n with
  | Some d => bool_decide (nodeType d = COMMENT_NODE) && bool_decide (nodeValue d = Some ""%string)
  | None => false
  end.

(** ** [src/src/lib/dom.ts] *)

(** [reparentNodes(container, start, end, before)]. *)
Fixpoint reparentNodes (fuel : nat) (container : option Node)
    (start end_ before : option Node) : M unit :=
  if decide (start = end_) then mret tt else
  match fuel with
  | O => diverge
  | S fuel' =>
      s ← deref start;
      σ ← get_state;
      let n := nextSibling σ s in
      c ← deref container;
      _ ← insertBefore c s before;
      reparentNodes fuel' container n end_ before
  end.

(** [removeNodes(container, start, end)]. *)
Fixpoint removeNodes (fuel : nat) (container : option Node)
    (start end_ : option Node) : M unit :=
  if decide (start = end_) then mret tt else
  match fuel with
  | O => diverge
  | S fuel' =>
      s ← deref start;
      σ ← get_state;
      let n := nextSibling σ s in
      c ← deref container;
      _ ← removeChild c (Some s);
      removeNodes fuel' container n end_
  end.

(** ** JavaScript arrays *)

(** [l[i]]: out of range reads give [undefined]. *)
Definition js_get {A} (undef : A) (l : list A) (i : Z) : A :=
  if decide (0 ≤ i) then default undef (l !! Z.to_nat i) else undef.

(** [l[i] = x]: writing past the end grows the array, leaving holes. *)
Definition js_set {A} (undef : A) (l : list A) (i : Z) (x : A) : list A :=
  if decide (0 ≤ i) then
    if decide (Z.to_nat i < length l)%nat then <[Z.to_nat i := x]> l
    else l ++ replicate (Z.to_nat i - length l) undef ++ [x]
  else l.

Section Repeat.

(** Modelled from the spec: how the part system materializes a committed
    value into DOM content ([NodePart.commit] is not among the sources);
    the nodes a value renders to, in order. *)
Variable materialize : JsValue → list NodeData.

(** *** The [NodePart] interface *)

Definition getPart (p : PartRef) : M NodePartData := λ σ,
  match parts σ !! p with
  | Some d => (Returns d, σ)
  | None => (Throws TypeError, σ)
  end.

Definition as_part (s : Slot) : M PartRef :=
  match s with SPart p => mret p | _ => throw TypeError end.

(** Modelled from the spec: [createMarker()], an empty comment node. *)
Definition createMarker : M Node :=
  createNode (mkNodeData COMMENT_NODE (Some ""%string)).

(** Modelled from the spec: [new NodePart(options)], a part that is not
    yet attached to boundary markers. *)
Definition newNodePart (opts : nat) : M PartRef := λ σ,
  (Returns (nextPart σ),
   set_parts (<[nextPart σ := mkNodePart None None opts VUndefined VUndefined]> (parts σ))
             (S (nextPart σ)) σ).

(** Modelled from the spec: [NodePart.insertAfterNode(ref)], the part takes
    [ref] and the node after it as its boundary markers. *)
Definition insertAfterNode (p : PartRef) (ref : Node) : M unit :=
  d ← getPart p;
  σ ← get_state;
  modify (set_parts (<[p := mkNodePart (Some ref) (nextSibling σ ref) (options d)
                                      (value d) (pendingValue d)]> (parts σ)) (nextPart σ)).

(** Modelled from the spec: [NodePart.setValue(value)] stages the value. *)
Definition setValue (p : PartRef) (v : JsValue) : M unit :=
  d ← getPart p;
  σ ← get_state;
  modify (set_parts (<[p := mkNodePart (startNode d) (endNode d) (options d)
                                      (value d) v]> (parts σ)) (nextPart σ)).

Fixpoint insert_content (c : Node) (before : option Node) (ds : list NodeData) : M unit :=
  match ds with
  | [] => mret tt
  | d :: ds' =>
      n ← createNode d;
      _ ← insertBefore c n before;
      insert_content c before ds'
  end.

(** Modelled from the spec: [NodePart.commit()] replaces the content the
    part owns, the nodes strictly between its markers, by the
    materialization of the staged value. *)
Definition commit (fuel : nat) (p : PartRef) : M unit :=
  d ← getPart p;
  s ← deref (startNode d);
  σ ← get_state;
  _ ← removeNodes fuel (parentNode σ s) (nextSibling σ s) (endNode d);
  e ← deref (endNode d);
  σ1 ← get_state;
  c ← deref (parentNode σ1 e);
  _ ← insert_content c (Some e) (materialize (pendingValue d));
  σ2 ← get_state;
  modify (set_parts (<[p := mkNodePart (startNode d) (endNode d) (options d)
                                      (pendingValue d) (pendingValue d)]> (parts σ2))
                    (nextPart σ2)).

(** *** [src/src/directives/repeat.ts]: helpers *)

Definition createAndInsertPart (containerPart : PartRef) (beforePart : Slot) : M PartRef :=
  cp ← getPart containerPart;
  cs ← deref (startNode cp);
  σ ← get_state;
  container ← deref (parentNode σ cs);
  beforeNode ← match beforePart with
               | SUndefined => mret (endNode cp)
               | SNull => throw TypeError
               | SPart b => bp ← getPart b; mret (startNode bp)
               end;
  m1 ← createMarker;
  startN ← insertBefore container m1 beforeNode;
  m2 ← createMarker;
  _ ← insertBefore container m2 beforeNode;
  newPart ← newNodePart (options cp);
  _ ← insertAfterNode newPart startN;
  _ ← emit (EvCreate newPart);
  mret newPart.

Definition updatePart (fuel : nat) (part : Slot) (v : JsValue) : M Slot :=
  p ← as_part part;
  _ ← emit (EvUpdate p v);
  _ ← setValue p v;
  _ ← commit fuel p;
  mret part.

Definition insertPartBefore (fuel : nat) (containerPart : PartRef) (part ref : Slot) : M unit :=
  cp ← getPart containerPart;
  cs ← deref (startNode cp);
  σ ← get_state;
  let container := parentNode σ cs in
  beforeNode ← match ref with
               | SPart r => rp ← getPart r; mret (startNode rp)
               | _ => mret (endNode cp)
               end;
  p ← as_part part;
  pd ← getPart p;
  e ← deref (endNode pd);
  let endN := nextSibling σ e in
  if decide (endN = beforeNode) then mret tt
  else
    _ ← emit (EvMove p);
    reparentNodes fuel container (startNode pd) endN beforeNode.

Definition throwIllegalNodeModification {A} : M A :=
  throw (JsError "illegal node mutation").

(** [function commitRemoveNode(node: Node, container: Node)]: the
    parameters in the order of the declaration. *)
Definition commitRemoveNode (node container : option Node) : M unit :=
  _ ← match container with
      | None => throwIllegalNodeModification
      | Some _ => mret tt
      end;
  c ← deref container;
  _ ← removeChild c node;
  mret tt.

(** [NodeRemovalToken.commit()]: [commitRemoveNode(this.container, this.target)]. *)
Definition token_commit (tok : NodeRemovalToken) : M unit :=
  commitRemoveNode (container tok) (Some (target tok)).

Fixpoint removal_walk (fuel : nat) (container : option Node)
    (nodeRemovalHandler : NodeRemovalHandler) (node endNode_ : option Node) : M unit :=
  if decide (node = endNode_) then mret tt else
  match fuel with
  | O => diverge
  | S fuel' =>
      match node with
      | None => throwIllegalNodeModification
      | Some n =>
          σ ← get_state;
          let next := nextSibling σ n in
          _ ← (if is_marker σ n then mret tt
               else
                 let token := mkToken n container false in
                 _ ← emit (EvHandler token);
                 let token' := if nodeRemovalHandler token then preventDefault token
                               else token in
                 if defaultPrevented token' then mret tt else token_commit token');
          removal_walk fuel' container nodeRemovalHandler next endNode_
      end
  end.

Definition removeNodesWithRemovalHandler (fuel : nat) (container : option Node)
    (startNode_ endNode_ : option Node)
    (nodeRemovalHandler : option NodeRemovalHandler) : M unit :=
  match nodeRemovalHandler with
  | None => removeNodes fuel container startNode_ endNode_
  | Some h => removal_walk fuel container h startNode_ endNode_
  end.

Definition removePart (fuel : nat) (part : Slot)
    (nodeRemovalHandler : option NodeRemovalHandler) : M unit :=
  p ← as_part part;
  pd ← getPart p;
  s ← deref (startNode pd);
  e ← deref (endNode pd);
  _ ← emit (EvRemovePart p);
  σ ← get_state;
  removeNodesWithRemovalHandler fuel (parentNode σ s) (startNode pd) (nextSibling σ e)
    nodeRemovalHandler.

(** [generateMap(list, start, end)]: later indices overwrite earlier ones. *)
Definition generateMap (l : list JsValue) (start end_ : Z) : gmap JsValue Z :=
  foldl (λ m i, <[js_get VUndefined l i := i]> m) ∅ (seqZ start (end_ - start + 1)).

(** *** [src/src/directives/repeat.ts]: the directive *)

(** A binding position: a [NodePart] or a part of another class. *)
Inductive Part := NodePartObj (p : PartRef) | OtherPart (p : nat).

(** [KeyFn<T>] and [ItemTemplate<T>]: [(item, index) => any]. *)
Definition ItemFn := JsValue → Z → JsValue.

(** The local variables of one reconciliation pass. *)
Record Loop := mkLoop {
  oldParts : list Slot;
  newParts : list Slot;
  oldHead : Z;
  oldTail : Z;
  newHead : Z;
  newTail : Z;
  newKeyToIndexMap : option (gmap JsValue Z);
  oldKeyToIndexMap : option (gmap JsValue Z);
}.

(** [oldParts[i] = null]: the array is the one held by [partListCache]. *)
Definition write_tombstone (containerPart : PartRef) (ops : list Slot) : M unit :=
  σ ← get_state;
  modify (set_caches (alter (λ _, ops) containerPart (partListCache σ)) (keyListCache σ)).

Section Pass.

Variable fuel : nat.
Variable containerPart : PartRef.
Variable onRemove : option NodeRemovalHandler.
Variables oldKeys newKeys newValues : list JsValue.

Definition step (L : Loop) : M Loop :=
  let oPart i := js_get SUndefined (oldParts L) i in
  let nPart i := js_get SUndefined (newParts L) i in
  let oKey i := js_get VUndefined oldKeys i in
  let nKey i := js_get VUndefined newKeys i in
  let nVal i := js_get VUndefined newValues i in
  if decide (oPart (oldHead L) = SNull) then
    mret (mkLoop (oldParts L) (newParts L) (oldHead L + 1) (oldTail L)
                 (newHead L) (newTail L) (newKeyToIndexMap L) (oldKeyToIndexMap L))
  else if decide (oPart (oldTail L) = SNull) then
    mret (mkLoop (oldParts L) (newParts L) (oldHead L) (oldTail L - 1)
                 (newHead L) (newTail L) (newKeyToIndexMap L) (oldKeyToIndexMap L))
  else if strict_eq (oKey (oldHead L)) (nKey (newHead L)) then
    p ← updatePart fuel (oPart (oldHead L)) (nVal (newHead L));
    mret (mkLoop (oldParts L) (js_set SUndefined (newParts L) (newHead L) p)
                 (oldHead L + 1) (oldTail L) (newHead L + 1) (newTail L)
                 (newKeyToIndexMap L) (oldKeyToIndexMap L))
  else if strict_eq (oKey (oldTail L)) (nKey (newTail L)) then
    p ← updatePart fuel (oPart (oldTail L)) (nVal (newTail L));
    mret (mkLoop (oldParts L) (js_set SUndefined (newParts L) (newTail L) p)
                 (oldHead L) (oldTail L - 1) (newHead L) (newTail L - 1)
                 (newKeyToIndexMap L) (oldKeyToIndexMap L))
  else if strict_eq (oKey (oldHead L)) (nKey (newTail L)) then
    p ← updatePart fuel (oPart (oldHead L)) (nVal (newTail L));
    let nps := js_set SUndefined (newParts L) (newTail L) p in
    _ ← insertPartBefore fuel containerPart (oPart (oldHead L))
          (js_get SUndefined nps (newTail L + 1));
    mret (mkLoop (oldParts L) nps (oldHead L + 1) (oldTail L) (newHead L) (newTail L - 1)
                 (newKeyToIndexMap L) (oldKeyToIndexMap L))
  else if strict_eq (oKey (oldTail L)) (nKey (newHead L)) then
    p ← updatePart fuel (oPart (oldTail L)) (nVal (newHead L));
    _ ← insertPartBefore fuel containerPart (oPart (oldTail L)) (oPart (oldHead L));
    mret (mkLoop (oldParts L) (js_set SUndefined (newParts L) (newHead L) p)
                 (oldHead L) (oldTail L - 1) (newHead L + 1) (newTail L)
                 (newKeyToIndexMap L) (oldKeyToIndexMap L))
  else
    maps ← match newKeyToIndexMap L with
           | None =>
               _ ← emit EvGenerateMaps;
               mret (Some (generateMap newKeys (newHead L) (newTail L)),
                     Some (generateMap oldKeys (oldHead L) (oldTail L)))
           | Some nm => mret (Some nm, oldKeyToIndexMap L)
           end;
    nm ← deref (maps.1);
    if decide (nm !! oKey (oldHead L) = None) then
      _ ← removePart fuel (oPart (oldHead L)) onRemove;
      mret (mkLoop (oldParts L) (newParts L) (oldHead L + 1) (oldTail L)
                   (newHead L) (newTail L) maps.1 maps.2)
    else if decide (nm !! oKey (oldTail L) = None) then
      _ ← removePart fuel (oPart (oldTail L)) onRemove;
      mret (mkLoop (oldParts L) (newParts L) (oldHead L) (oldTail L - 1)
                   (newHead L) (newTail L) maps.1 maps.2)
    else
      om ← deref (maps.2);
      let oldIndex := om !! nKey (newHead L) in
      let oldPart := match oldIndex with
                     | Some i => oPart i
                     | None => SNull
                     end in
      if decide (oldPart = SNull) then
        newPart ← createAndInsertPart containerPart (oPart (oldHead L));
        _ ← updatePart fuel (SPart newPart) (nVal (newHead L));
        mret (mkLoop (oldParts L) (js_set SUndefined (newParts L) (newHead L) (SPart newPart))
                     (oldHead L) (oldTail L) (newHead L + 1) (newTail L) maps.1 maps.2)
      else
        p ← updatePart fuel oldPart (nVal (newHead L));
        _ ← insertPartBefore fuel containerPart oldPart (oPart (oldHead L));
        let ops := js_set SUndefined (oldParts L) (default 0 oldIndex) SNull in
        _ ← write_tombstone containerPart ops;
        mret (mkLoop ops (js_set SUndefined (newParts L) (newHead L) p)
                     (oldHead L) (oldTail L) (newHead L + 1) (newTail L) maps.1 maps.2).

(** [while (oldHead <= oldTail && newHead <= newTail) { ... }] *)
Fixpoint main_loop (k : nat) (L : Loop) : M Loop :=
  if decide (oldHead L ≤ oldTail L ∧ newHead L ≤ newTail L) then
    match k with
    | O => diverge
    | S k' => L' ← step L; main_loop k' L'
    end
  else mret L.

(** [while (newHead <= newTail) { ... }]: add parts for the remaining
    new values. *)
Fixpoint add_loop (k : nat) (L : Loop) : M Loop :=
  if decide (newHead L ≤ newTail L) then
    match k with
    | O => diverge
    | S k' =>
        newPart ← createAndInsertPart containerPart
                    (js_get SUndefined (newParts L) (newTail L + 1));
        _ ← updatePart fuel (SPart newPart) (js_get VUndefined newValues (newHead L));
        add_loop k' (mkLoop (oldParts L)
                            (js_set SUndefined (newParts L) (newHead L) (SPart newPart))
                            (oldHead L) (oldTail L) (newHead L + 1) (newTail L)
                            (newKeyToIndexMap L) (oldKeyToIndexMap L))
    end
  else mret L.

(** [while (oldHead <= oldTail) { ... }]: remove the remaining old parts. *)
Fixpoint remove_loop (k : nat) (L : Loop) : M Loop :=
  if decide (oldHead L ≤ oldTail L) then
    match k with
    | O => diverge
    | S k' =>
        let oldPart := js_get SUndefined (oldParts L) (oldHead L) in
        _ ← (if decide (oldPart = SNull) then mret tt
             else removePart fuel oldPart onRemove);
        remove_loop k' (mkLoop (oldParts L) (newParts L) (oldHead L + 1) (oldTail L)
                               (newHead L) (newTail L)
                               (newKeyToIndexMap L) (oldKeyToIndexMap L))
    end
  else mret L.

End Pass.

(** The [for (const item of items)] loop building [newKeys] and
    [newValues]; a missing [template] is called all the same. *)
Fixpoint build_new (keyFn template : option ItemFn) (items : list JsValue) (index : Z)
    (newKeys newValues : list JsValue) : M (list JsValue * list JsValue) :=
  match items with
  | [] => mret (newKeys, newValues)
  | item :: items' =>
      let key := match keyFn with Some kf => kf item index | None => VNumber index end in
      t ← deref template;
      build_new keyFn template items' (index + 1)
        (js_set VUndefined newKeys index key)
        (js_set VUndefined newValues index (t item index))
  end.

(** [repeat(items, keyFnOrTemplate, template, onRemove)] applied to
    [containerPart].  [fuel] bounds the iterations of each [while] loop. *)
Definition repeat (fuel : nat) (items : list JsValue)
    (keyFnOrTemplate template : option ItemFn)
    (onRemove : option NodeRemovalHandler) (containerPart : Part) : M unit :=
  let '(keyFn, template) :=
    match template with
    | None => (None, keyFnOrTemplate)
    | Some _ => (keyFnOrTemplate, template)
    end in
  match containerPart with
  | OtherPart _ => throw (JsError "repeat can only be used in text bindings")
  | NodePartObj cp =>
      σ ← get_state;
      let oldParts := default [] (partListCache σ !! cp) in
      let oldKeys := default [] (keyListCache σ !! cp) in
      '(newKeys, newValues) ← build_new keyFn template items 0 [] [];
      let L0 := mkLoop oldParts [] 0 (Z.of_nat (length oldParts) - 1)
                       0 (Z.of_nat (length newValues) - 1) None None in
      L1 ← main_loop fuel cp onRemove oldKeys newKeys newValues fuel L0;
      L2 ← add_loop fuel cp newValues fuel L1;
      L3 ← remove_loop fuel onRemove fuel L2;
      σ' ← get_state;
      modify (set_caches (<[cp := newParts L3]> (partListCache σ'))
                         (<[cp := newKeys]> (keyListCache σ')))
  end.

End Repeat.

(** ** The template factory *)

Module TemplateFactory.

(** A [TemplateResult]: its [type] and its [strings], a
    [TemplateStringsArray] object named by its identity. *)
Record TemplateResult := mkResult {
  type : string;
  strings : nat;
}.

(** A compiled [Template] object: its identity and the result it was
    built from ([new Template(result, result.getTemplateElement())]). *)
Record Template := mkTemplate {
  template_id : nat;
  source : TemplateResult;
}.

Record Caches := mkCaches {
  templateCaches : gmap string (gmap nat Template);
  keyedTemplates : gmap string Template;
  nextTemplate : nat;
}.

Definition empty_caches : Caches := mkCaches ∅ ∅ 0%nat.

Section Factory.

(** The private [marker] token of [template.js], and the (frozen) contents
    of every strings array. *)
Variable marker : string.
Variable segments : nat → list string.

(** [result.strings.join(marker)]. *)
Definition content_key (result : TemplateResult) : string :=
  String.concat marker (segments (strings result)).

Definition templateFactory (result : TemplateResult) (σ : Caches) : Template * Caches :=
  let '(templateCache, caches1) :=
    match templateCaches σ !! type result with
    | Some tc => (tc, templateCaches σ)
    | None => (∅, <[type result := ∅]> (templateCaches σ))
    end in
  match templateCache !! strings result with
  | Some template => (template, mkCaches caches1 (keyedTemplates σ) (nextTemplate σ))
  | None =>
      let key := content_key result in
      let '(template, keyed1, next1) :=
        match keyedTemplates σ !! key with
        | Some template => (template, keyedTemplates σ, nextTemplate σ)
        | None =>
            let template := mkTemplate (nextTemplate σ) result in
            (template, <[key := template]> (keyedTemplates σ), S (nextTemplate σ))
        end in
      (template,
       mkCaches (<[type result := <[strings result := template]> templateCache]> caches1)
                keyed1 next1)
  end.

(** The cache states the factory can produce, starting from empty maps. *)
Inductive reachable : Caches → Prop :=
| reachable_init : reachable empty_caches
| reachable_call r σ : reachable σ → reachable (templateFactory r σ).2.

(** A run of calls between two calls of interest. *)
Definition run_calls (rs : list TemplateResult) (σ : Caches) : Caches :=
  foldl (λ σ r, (templateFactory r σ).2) σ rs.

(** A call with [result] is answered from the identity-keyed tier. *)
Definition tier1_hit (result : TemplateResult) (σ : Caches) : Prop :=
  ∃ tc t, templateCaches σ !! type result = Some tc ∧ tc !! strings result = Some t.

End Factory.

End TemplateFactory.

(** * Verification *)

(** ** The template factory *)

Module TemplateFactoryFacts.
Import TemplateFactory.

Section FactoryFacts.

Variable marker : string.
Variable segments : nat → list string.

Abbreviation tf := (templateFactory marker segments).
Abbreviation key_of := (content_key marker segments).

(** Every identity-keyed entry is also the content-keyed entry of its
    joined strings. *)
Definition tiers_agree (σ : Caches) : Prop :=
  ∀ ty tc s t,
    templateCaches σ !! ty = Some tc → tc !! s = Some t →
    keyedTemplates σ !! String.concat marker (segments s) = Some t.

Lemma templateFactory_cases r σ :
  (∃ tc t, templateCaches σ !! type r = Some tc ∧ tc !! strings r = Some t ∧
           tf r σ = (t, σ)) ∨
  (∃ tc t, (templateCaches σ !! type r = Some tc ∨
            (templateCaches σ !! type r = None ∧ tc = ∅)) ∧
           tc !! strings r = None ∧
           (keyedTemplates σ !! key_of r = Some t ∧
              tf r σ = (t, mkCaches (<[type r := <[strings r := t]> tc]> (templateCaches σ))
                                    (keyedTemplates σ) (nextTemplate σ))
            ∨ keyedTemplates σ !! key_of r = None ∧
              t = mkTemplate (nextTemplate σ) r ∧
              tf r σ = (t, mkCaches (<[type r := <[strings r := t]> tc]> (templateCaches σ))
                                    (<[key_of r := t]> (keyedTemplates σ))
                                    (S (nextTemplate σ))))).
Proof.
  unfold templateFactory. cbv zeta.
  destruct (templateCaches σ !! type r) as [tc|] eqn:Hty.
  - destruct (tc !! strings r) as [t|] eqn:Hs.
    + left. exists tc, t. destruct σ; auto.
    + right. destruct (keyedTemplates σ !! key_of r) as [t|] eqn:Hk.
      * exists tc, t. auto 10.
      * exists tc, (mkTemplate (nextTemplate σ) r). auto 10.
  - right. rewrite lookup_empty.
    destruct (keyedTemplates σ !! key_of r) as [t|] eqn:Hk.
    + exists ∅, t. rewrite insert_insert_eq. auto 10.
    + exists ∅, (mkTemplate (nextTemplate σ) r).
      rewrite insert_insert_eq. auto 10.
Qed.


Lemma tiers_agree_empty : tiers_agree empty_caches.
Proof. intros ty tc s t H. simpl in H. by rewrite lookup_empty in H. Qed.

Lemma templateFactory_agree r σ : tiers_agree σ → tiers_agree (tf r σ).2.
Proof.
  intros Hinv.
  destruct (templateFactory_cases r σ) as
    [(tc & t & _ & _ & ->)|(tc & t & Htc & Hmiss & [[Hk ->]|(Hk & Ht & ->)])];
    [done| |]; intros ty tc' s t' Hty Hs; simpl in *.
  - destruct (decide (type r = ty)) as [<-|Hne].
    + rewrite lookup_insert_eq in Hty. injection Hty as <-.
      destruct (decide (strings r = s)) as [<-|Hns].
      * rewrite lookup_insert_eq in Hs. by injection Hs as <-.
      * rewrite lookup_insert_ne in Hs by done.
        destruct Htc as [Htc|[_ ->]]; [by eapply Hinv|by rewrite lookup_empty in Hs].
    + rewrite lookup_insert_ne in Hty by done. by eapply Hinv.
  - assert (Hold : ∀ ty0 tc0, templateCaches σ !! ty0 = Some tc0 → tc0 !! s = Some t' →
              <[key_of r := t]> (keyedTemplates σ) !! String.concat marker (segments s) = Some t').
    { intros ty0 tc0 H1 H2. pose proof (Hinv _ _ _ _ H1 H2) as H3.
      rewrite lookup_insert_ne; [done|]. intros Heq. unfold content_key in *.
      rewrite Heq in Hk. congruence. }
    destruct (decide (type r = ty)) as [<-|Hne].
    + rewrite lookup_insert_eq in Hty. injection Hty as <-.
      destruct (decide (strings r = s)) as [<-|Hns].
      * rewrite lookup_insert_eq in Hs. injection Hs as <-. apply lookup_insert_eq.
      * rewrite lookup_insert_ne in Hs by done.
        destruct Htc as [Htc|[_ ->]]; [by eapply Hold|by rewrite lookup_empty in Hs].
    + rewrite lookup_insert_ne in Hty by done. by eapply Hold.
Qed.

Lemma reachable_agree σ : reachable marker segments σ → tiers_agree σ.
Proof. induction 1; [apply tiers_agree_empty|by apply templateFactory_agree]. Qed.

(** After a call both tiers hold the returned template. *)
Lemma templateFactory_populates r σ :
  tiers_agree σ →
  keyedTemplates (tf r σ).2 !! key_of r = Some (tf r σ).1 ∧
  ∃ tc, templateCaches (tf r σ).2 !! type r = Some tc ∧
        tc !! strings r = Some (tf r σ).1.
Proof.
  intros Hinv.
  destruct (templateFactory_cases r σ) as
    [(tc & t & Hty & Hs & ->)|(tc & t & Htc & Hmiss & [[Hk ->]|(Hk & Ht & ->)])]; simpl.
  - split; [by eapply Hinv|eauto].
  - split; [done|]. eexists. by rewrite !lookup_insert_eq.
  - split; [apply lookup_insert_eq|]. eexists. by rewrite !lookup_insert_eq.
Qed.

(** Entries are never overwritten or dropped. *)
Lemma templateFactory_keeps r σ :
  tiers_agree σ →
  (∀ k t, keyedTemplates σ !! k = Some t → keyedTemplates (tf r σ).2 !! k = Some t) ∧
  (∀ ty tc s t, templateCaches σ !! ty = Some tc → tc !! s = Some t →
     ∃ tc', templateCaches (tf r σ).2 !! ty = Some tc' ∧ tc' !! s = Some t).
Proof.
  intros Hinv.
  destruct (templateFactory_cases r σ) as
    [(tc & t & Hty & Hs & ->)|(tc & t & Htc & Hmiss & [[Hk ->]|(Hk & Ht & ->)])]; simpl.
  - eauto.
  - split; [done|]. intros ty tc0 s t0 H1 H2.
    destruct (decide (type r = ty)) as [<-|Hne].
    + destruct Htc as [Htc|[Htc _]]; [|congruence].
      rewrite Htc in H1. injection H1 as <-.
      eexists. rewrite lookup_insert_eq. split; [done|].
      rewrite lookup_insert_ne; [done|congruence].
    + exists tc0. by rewrite lookup_insert_ne.
  - split.
    + intros k t0 H1. rewrite lookup_insert_ne; [done|congruence].
    + intros ty tc0 s t0 H1 H2.
      destruct (decide (type r = ty)) as [<-|Hne].
      * destruct Htc as [Htc|[Htc _]]; [|congruence].
        rewrite Htc in H1. injection H1 as <-.
        eexists. rewrite lookup_insert_eq. split; [done|].
        rewrite lookup_insert_ne; [done|congruence].
      * exists tc0. by rewrite lookup_insert_ne.
Qed.

Lemma run_calls_agree rs σ : tiers_agree σ → tiers_agree (run_calls marker segments rs σ).
Proof.
  revert σ. induction rs as [|r rs IH]; intros σ H; [done|].
  simpl. apply IH. by apply templateFactory_agree.
Qed.

Lemma run_calls_keeps rs σ :
  tiers_agree σ →
  (∀ k t, keyedTemplates σ !! k = Some t →
     keyedTemplates (run_calls marker segments rs σ) !! k = Some t) ∧
  (∀ ty tc s t, templateCaches σ !! ty = Some tc → tc !! s = Some t →
     ∃ tc', templateCaches (run_calls marker segments rs σ) !! ty = Some tc' ∧
            tc' !! s = Some t).
Proof.
  revert σ. induction rs as [|r rs IH]; intros σ H; [eauto|].
  simpl. destruct (templateFactory_keeps r σ H) as [K1 K2].
  destruct (IH _ (templateFactory_agree r σ H)) as [I1 I2].
  split; [eauto|].
  intros ty tc s t H1 H2. destruct (K2 _ _ _ _ H1 H2) as (tc' & H3 & H4). eauto.
Qed.

(** A call whose content key is already cached returns the cached template. *)
Lemma templateFactory_keyed r σ t :
  tiers_agree σ → keyedTemplates σ !! key_of r = Some t → (tf r σ).1 = t.
Proof.
  intros Hinv Hk.
  destruct (templateFactory_cases r σ) as
    [(tc & t' & Hty & Hs & ->)|(tc & t' & Htc & Hmiss & [[Hk' ->]|(Hk' & Ht & ->)])]; simpl.
  - pose proof (Hinv _ _ _ _ Hty Hs) as H. unfold content_key in Hk. congruence.
  - congruence.
  - congruence.
Qed.

(** C5: two template results of the same type whose joined static strings
    are equal get the identical [Template] from [templateFactory], whether or
    not their strings arrays are the same object and whatever calls happen in
    between; the first call populates both the content-keyed and the
    identity-keyed map, so every later call with that type and strings array
    is answered from the identity-keyed tier with the same [Template]. *)
Theorem templateFactory_shares_by_content (σ : Caches) (r1 r2 : TemplateResult)
    (rs : list TemplateResult) :
  reachable marker segments σ →
  type r1 = type r2 →
  key_of r1 = key_of r2 →
  let t1 := (tf r1 σ).1 in
  let σ1 := (tf r1 σ).2 in
  let σ2 := run_calls marker segments rs σ1 in
  (tf r2 σ2).1 = t1 ∧
  keyedTemplates σ1 !! key_of r1 = Some t1 ∧
  (∃ tc, templateCaches σ1 !! type r1 = Some tc ∧ tc !! strings r1 = Some t1) ∧
  (∀ r, type r = type r1 → strings r = strings r1 →
        tier1_hit r σ2 ∧ (tf r σ2).1 = t1).
Proof.
  intros Hreach Hty Hkey t1 σ1 σ2.
  pose proof (reachable_agree σ Hreach) as Hinv.
  destruct (templateFactory_populates r1 σ Hinv) as (Hk & tc & Htc & Hs).
  pose proof (templateFactory_agree r1 σ Hinv) as Hinv1.
  pose proof (run_calls_agree rs _ Hinv1) as Hinv2.
  destruct (run_calls_keeps rs _ Hinv1) as [K1 K2].
  split; [|split; [done|split; [eauto|]]].
  - apply templateFactory_keyed; [done|]. rewrite <- Hkey. by apply K1.
  - intros r Hrt Hrs.
    destruct (K2 _ _ _ _ Htc Hs) as (tc' & H1 & H2).
    split.
    + exists tc', t1. by rewrite Hrt, Hrs.
    + apply templateFactory_keyed; [done|]. unfold content_key. rewrite Hrs.
      by apply K1.
Qed.

End FactoryFacts.

Definition demo_segments (s : nat) : list string := ["<p>"; "</p>"]%string.

Lemma templateFactory_shares_by_content_witness :
  let m := "{{lit-7}}"%string in
  let r1 := mkResult "html" 0 in
  let r2 := mkResult "html" 1 in
  reachable m demo_segments empty_caches ∧
  type r1 = type r2 ∧
  content_key m demo_segments r1 = content_key m demo_segments r2 ∧
  (templateFactory m demo_segments r2
     (run_calls m demo_segments [] (templateFactory m demo_segments r1 empty_caches).2)).1
  = (templateFactory m demo_segments r1 empty_caches).1.
Proof.
  intros m r1 r2.
  split; [constructor|]. split; [reflexivity|]. split; [reflexivity|].
  exact (proj1 (templateFactory_shares_by_content m demo_segments empty_caches r1 r2 []
                  (reachable_init _ _) eq_refl eq_refl)).
Defined.

End TemplateFactoryFacts.

(** ** The monad *)

Lemma bind_unfold {A B} (m : M A) (k : A → M B) (σ : State) :
  (m ≫= k) σ = match m σ with
               | (Returns a, σ') => k a σ'
               | (Throws e, σ') => (Throws e, σ')
               | (Diverges, σ') => (Diverges, σ')
               end.
Proof. reflexivity. Qed.

Lemma bind_returns {A B} (m : M A) (k : A → M B) (σ σ' : State) (b : B) :
  (m ≫= k) σ = (Returns b, σ') →
  ∃ a σ1, m σ = (Returns a, σ1) ∧ k a σ1 = (Returns b, σ').
Proof.
  rewrite bind_unfold. destruct (m σ) as [[a| |] σ1]; [eauto|done|done].
Qed.

Lemma bind_of_returns {A B} (m : M A) (k : A → M B) (σ σ1 : State) (a : A) :
  m σ = (Returns a, σ1) → (m ≫= k) σ = k a σ1.
Proof. intros H. by rewrite bind_unfold, H. Qed.

(** ** Strict equality *)

Lemma strict_eq_true (a b : JsValue) : strict_eq a b = true ↔ a = b ∧ a ≠ VNaN.
Proof.
  unfold strict_eq. destruct a; rewrite ?bool_decide_eq_true; naive_solver.
Qed.

Lemma strict_eq_false (a b : JsValue) : strict_eq a b = false ↔ a ≠ b ∨ a = VNaN.
Proof.
  unfold strict_eq. destruct a; rewrite ?bool_decide_eq_false; naive_solver.
Qed.

Lemma strict_eq_refl (a : JsValue) : a ≠ VNaN → strict_eq a a = true.
Proof. intros H. by apply strict_eq_true. Qed.

(** Against a value that is not [NaN], [===] decides equality. *)
Lemma strict_eq_false_ne (a b : JsValue) : b ≠ VNaN → strict_eq a b = false → a ≠ b.
Proof. intros Hb [H| ->]%strict_eq_false; congruence. Qed.

(** ** Node range utilities: the removal callback *)

(** A container holding one text node. *)
Definition text_in_container : State :=
  mkState (<[0%nat := mkNodeData ELEMENT_NODE None]>
             (<[1%nat := mkNodeData TEXT_NODE (Some "x"%string)]> ∅))
          (<[1%nat := 0%nat]> ∅)
          (<[0%nat := [1%nat]]> ∅)
          2%nat ∅ 0%nat ∅ ∅ [].

(** A handler that never calls [preventDefault]. *)
Definition allow_removal : NodeRemovalHandler := λ _, false.

(** C2 (the code departs from the claim): with a handler that does not call
    [preventDefault], the walk over a container holding one text node does
    not remove the node: [token.commit()] passes [(container, target)] to
    [commitRemoveNode(node, container)], so the target is asked to remove
    the container and the call throws [NotFoundError]; the node stays a
    child of its container. *)
Theorem removal_with_handler_throws_not_found :
  let r := removeNodesWithRemovalHandler 8 (Some 0%nat) (Some 1%nat) None
             (Some allow_removal) text_in_container in
  r.1 = Throws NotFoundError ∧
  children_of r.2 0%nat = [1%nat] ∧
  parentNode r.2 1%nat = Some 0%nat ∧
  trace r.2 = [EvHandler (mkToken 1%nat (Some 0%nat) false)].
Proof. vm_compute. done. Qed.

(** ** The directive on a wrong binding position *)

(** C6: applied to a part that is not a [NodePart], [repeat] throws its
    usage error at once; no node, part, cache entry or trace entry
    changes. *)
Theorem repeat_rejects_other_parts (materialize : JsValue → list NodeData)
    (fuel : nat) (items : list JsValue) (keyFnOrTemplate template : option ItemFn)
    (onRemove : option NodeRemovalHandler) (p : nat) (σ : State) :
  repeat materialize fuel items keyFnOrTemplate template onRemove (OtherPart p) σ
  = (Throws (JsError "repeat can only be used in text bindings"), σ).
Proof. unfold repeat. by destruct template. Qed.

(** ** What an operation leaves unchanged *)

(** [preserves R m]: whatever the outcome of [m], the states before and
    after are related by [R]. *)
Definition preserves {A} (R : relation State) (m : M A) : Prop :=
  ∀ σ r σ', m σ = (r, σ') → R σ σ'.

Section Preserves.
Context (R : relation State) `{!PreOrder R}.

Lemma preserves_ret {A} (a : A) : preserves R (mret a).
Proof. intros σ r σ' [= _ <-]. reflexivity. Qed.

Lemma preserves_throw {A} e : preserves R (@throw A e).
Proof. intros σ r σ' [= _ <-]. reflexivity. Qed.

Lemma preserves_diverge {A} : preserves R (@diverge A).
Proof. intros σ r σ' [= _ <-]. reflexivity. Qed.

Lemma preserves_get_state : preserves R get_state.
Proof. intros σ r σ' [= _ <-]. reflexivity. Qed.

Lemma preserves_deref {A} (o : option A) : preserves R (deref o).
Proof. destruct o; [apply preserves_ret|apply preserves_throw]. Qed.

Lemma preserves_bind {A B} (m : M A) (k : A → M B) :
  preserves R m → (∀ a, preserves R (k a)) → preserves R (m ≫= k).
Proof.
  intros Hm Hk σ r σ'. rewrite bind_unfold.
  destruct (m σ) as [[a|e|] σ1] eqn:E; intros H.
  - transitivity σ1; [by eapply Hm|by eapply Hk].
  - injection H as _ <-. by eapply Hm.
  - injection H as _ <-. by eapply Hm.
Qed.

Lemma preserves_modify (f : State → State) :
  (∀ σ, R σ (f σ)) → preserves R (modify f).
Proof. intros H σ r σ' [= _ <-]. apply H. Qed.

Lemma preserves_throwIllegal {A} : preserves R (@throwIllegalNodeModification A).
Proof. apply preserves_throw. Qed.

End Preserves.

Create HintDb pres.
#[global] Hint Resolve preserves_ret preserves_throw preserves_diverge preserves_get_state
  preserves_deref preserves_throwIllegal : pres.

(** [keeps f]: the view [f] of the state is unchanged. *)
Definition keeps {B} (f : State → B) : relation State := λ σ σ', f σ' = f σ.

#[global] Instance keeps_po {B} (f : State → B) : PreOrder (keeps f).
Proof. split; [done|]. intros x y z; unfold keeps; congruence. Qed.

Lemma preserves_weaken {A} (R R' : relation State) (m : M A) :
  (∀ σ σ', R σ σ' → R' σ σ') → preserves R m → preserves R' m.
Proof. intros H Hm σ r σ' E. eapply H, Hm, E. Qed.

(** Everything but the DOM store. *)
Definition non_dom (σ : State) :=
  (parts σ, nextPart σ, partListCache σ, keyListCache σ, trace σ).

(** Views of the state. *)
Definition caches (σ : State) := (partListCache σ, keyListCache σ).

Lemma keeps_non_dom_caches σ σ' : keeps non_dom σ σ' → keeps caches σ σ'.
Proof. unfold keeps, non_dom, caches. congruence. Qed.
Lemma keeps_non_dom_trace σ σ' : keeps non_dom σ σ' → keeps trace σ σ'.
Proof. unfold keeps, non_dom. congruence. Qed.
Lemma keeps_non_dom_parts σ σ' : keeps non_dom σ σ' → keeps parts σ σ'.
Proof. unfold keeps, non_dom. congruence. Qed.

(** [emits P]: the trace grew by events that all satisfy [P]. *)
Definition emits (P : Event → Prop) : relation State := λ σ σ',
  ∃ evs, trace σ' = evs ++ trace σ ∧ Forall P evs.

#[global] Instance emits_po P : PreOrder (emits P).
Proof.
  split.
  - intros σ. by exists [].
  - intros x y z (e1 & H1 & F1) (e2 & H2 & F2). exists (e2 ++ e1).
    rewrite H2, H1, app_assoc. split; [done|]. by apply Forall_app.
Qed.

Lemma keeps_trace_emits P σ σ' : keeps trace σ σ' → emits P σ σ'.
Proof. intros H. exists []. by rewrite H. Qed.

Lemma emit_emits (P : Event → Prop) e : P e → preserves (emits P) (emit e).
Proof. intros H σ r σ' [= _ <-]. exists [e]. split; [done|]. by constructor. Qed.

Ltac pres_weaken :=
  match goal with
  | |- preserves (keeps caches) _ =>
      eapply preserves_weaken; [apply keeps_non_dom_caches|]
  | |- preserves (keeps trace) _ =>
      eapply preserves_weaken; [apply keeps_non_dom_trace|]
  | |- preserves (keeps parts) _ =>
      eapply preserves_weaken; [apply keeps_non_dom_parts|]
  | |- preserves (emits _) _ =>
      eapply preserves_weaken; [apply keeps_trace_emits|]
  end.

Ltac pres_step :=
  match goal with
  | |- preserves _ (mbind _ _) => apply preserves_bind; [try apply _| |intros ?]
  | |- preserves _ (match ?x with _ => _ end) => destruct x
  | |- preserves _ (let _ := _ in _) => cbv zeta
  | |- preserves _ _ => solve [eauto with pres typeclass_instances]
  | |- preserves _ _ => pres_weaken; solve [eauto with pres typeclass_instances]
  | |- preserves _ _ => pres_weaken; pres_weaken; solve [eauto with pres typeclass_instances]
  end.

Ltac pres := repeat pres_step.

Lemma detach_non_dom n σ : non_dom (detach n σ) = non_dom σ.
Proof. unfold detach. by destruct (parentOf σ !! n). Qed.

Lemma insertBefore_non_dom p n b : preserves (keeps non_dom) (insertBefore p n b).
Proof.
  intros σ r σ'. unfold insertBefore, keeps.
  destruct b as [b|]; [destruct (decide _)|]; intros [= _ <-];
    try reflexivity; apply (detach_non_dom n σ).
Qed.

Lemma removeChild_non_dom p c : preserves (keeps non_dom) (removeChild p c).
Proof.
  intros σ r σ'. unfold removeChild.
  destruct c as [c|]; [destruct (decide _)|]; intros [= _ <-];
    try reflexivity. apply detach_non_dom.
Qed.

Lemma createNode_non_dom d : preserves (keeps non_dom) (createNode d).
Proof. intros σ r σ' [= _ <-]. done. Qed.

#[global] Hint Resolve insertBefore_non_dom removeChild_non_dom createNode_non_dom : pres.

Lemma reparentNodes_non_dom fuel c s e b :
  preserves (keeps non_dom) (reparentNodes fuel c s e b).
Proof.
  revert s. induction fuel as [|fuel IH]; intros s; simpl; pres.
Qed.

Lemma removeNodes_non_dom fuel c s e : preserves (keeps non_dom) (removeNodes fuel c s e).
Proof.
  revert s. induction fuel as [|fuel IH]; intros s; simpl; pres.
Qed.

#[global] Hint Resolve reparentNodes_non_dom removeNodes_non_dom : pres.

Section RepeatFacts.
Variable materialize : JsValue → list NodeData.

Lemma getPart_keeps {B} (f : State → B) p : preserves (keeps f) (getPart p).
Proof. intros σ r σ'. unfold getPart. destruct (parts σ !! p); by intros [= _ <-]. Qed.

Lemma getPart_emits P p : preserves (emits P) (getPart p).
Proof. pres_weaken. apply getPart_keeps. Qed.

Lemma as_part_preserves R `{!PreOrder R} s : preserves R (as_part s).
Proof. destruct s; simpl; pres. Qed.

#[local] Hint Resolve getPart_keeps getPart_emits as_part_preserves : pres.

Lemma createMarker_non_dom : preserves (keeps non_dom) createMarker.
Proof. unfold createMarker. pres. Qed.
#[local] Hint Resolve createMarker_non_dom : pres.

Lemma set_parts_keeps_caches ps np : preserves (keeps caches) (modify (set_parts ps np)).
Proof. by apply preserves_modify. Qed.
Lemma set_parts_keeps_trace ps np : preserves (keeps trace) (modify (set_parts ps np)).
Proof. by apply preserves_modify. Qed.
#[local] Hint Resolve set_parts_keeps_caches set_parts_keeps_trace : pres.

Lemma newNodePart_keeps_caches o : preserves (keeps caches) (newNodePart o).
Proof. by intros σ r σ' [= _ <-]. Qed.
Lemma newNodePart_keeps_trace o : preserves (keeps trace) (newNodePart o).
Proof. by intros σ r σ' [= _ <-]. Qed.
#[local] Hint Resolve newNodePart_keeps_caches newNodePart_keeps_trace : pres.

Lemma insertAfterNode_keeps_caches p n : preserves (keeps caches) (insertAfterNode p n).
Proof. unfold insertAfterNode. pres. Qed.
Lemma insertAfterNode_keeps_trace p n : preserves (keeps trace) (insertAfterNode p n).
Proof. unfold insertAfterNode. pres. Qed.
Lemma setValue_keeps_caches p v : preserves (keeps caches) (setValue p v).
Proof. unfold setValue. pres. Qed.
Lemma setValue_keeps_trace p v : preserves (keeps trace) (setValue p v).
Proof. unfold setValue. pres. Qed.
#[local] Hint Resolve insertAfterNode_keeps_caches insertAfterNode_keeps_trace
  setValue_keeps_caches setValue_keeps_trace : pres.

Lemma insert_content_non_dom c b ds : preserves (keeps non_dom) (insert_content c b ds).
Proof. induction ds; simpl; pres. Qed.
#[local] Hint Resolve insert_content_non_dom : pres.

Lemma commit_keeps_caches fuel p : preserves (keeps caches) (commit materialize fuel p).
Proof. unfold commit. pres. Qed.
Lemma commit_keeps_trace fuel p : preserves (keeps trace) (commit materialize fuel p).
Proof. unfold commit. pres. Qed.
#[local] Hint Resolve commit_keeps_caches commit_keeps_trace : pres.

Lemma emit_keeps_caches e : preserves (keeps caches) (emit e).
Proof. by apply preserves_modify. Qed.
#[local] Hint Resolve emit_keeps_caches : pres.

Lemma createAndInsertPart_keeps_caches cp b :
  preserves (keeps caches) (createAndInsertPart cp b).
Proof. unfold createAndInsertPart. pres. Qed.

Lemma updatePart_keeps_caches fuel s v :
  preserves (keeps caches) (updatePart materialize fuel s v).
Proof. unfold updatePart. pres. Qed.

Lemma insertPartBefore_keeps_caches fuel cp s r :
  preserves (keeps caches) (insertPartBefore fuel cp s r).
Proof. unfold insertPartBefore. pres. Qed.

Lemma commitRemoveNode_non_dom n c : preserves (keeps non_dom) (commitRemoveNode n c).
Proof. unfold commitRemoveNode. pres. Qed.
#[local] Hint Resolve commitRemoveNode_non_dom : pres.

Lemma removal_walk_keeps_caches fuel c h s e :
  preserves (keeps caches) (removal_walk fuel c h s e).
Proof.
  revert s. induction fuel as [|fuel IH]; intros s; simpl; pres.
  all: unfold token_commit; pres.
Qed.
#[local] Hint Resolve removal_walk_keeps_caches : pres.

Lemma removePart_keeps_caches fuel s h :
  preserves (keeps caches) (removePart fuel s h).
Proof. unfold removePart, removeNodesWithRemovalHandler. pres. Qed.

(** ** JavaScript arrays *)

Lemma js_get_nat {A} (u : A) (l : list A) (i : nat) :
  js_get u l (Z.of_nat i) = default u (l !! i).
Proof.
  unfold js_get. destruct (decide _) as [_|H]; [|lia]. by rewrite Nat2Z.id.
Qed.

Lemma js_get_neg {A} (u : A) (l : list A) (i : Z) : i < 0 → js_get u l i = u.
Proof. intros H. unfold js_get. destruct (decide _); [lia|done]. Qed.

Lemma js_get_ge {A} (u : A) (l : list A) (i : Z) :
  Z.of_nat (length l) ≤ i → js_get u l i = u.
Proof.
  intros H. unfold js_get. destruct (decide _); [|done].
  rewrite (proj2 (lookup_ge_None l (Z.to_nat i))); [done|lia].
Qed.

Lemma js_get_lookup {A} (u : A) (l : list A) (i : nat) (x : A) :
  l !! i = Some x → js_get u l (Z.of_nat i) = x.
Proof. intros H. by rewrite js_get_nat, H. Qed.

Lemma js_get_Forall {A} (P : A → Prop) (u : A) (l : list A) (i : Z) :
  P u → Forall P l → P (js_get u l i).
Proof.
  intros Hu HF. unfold js_get. destruct (decide _); [|done].
  destruct (l !! Z.to_nat i) as [x|] eqn:E; [|done].
  by eapply (Forall_lookup_1 P l).
Qed.

Definition not_nan (k : JsValue) : Prop := k ≠ VNaN.

#[global] Instance not_nan_dec k : Decision (not_nan k).
Proof. unfold not_nan. apply _. Defined.

Lemma js_get_not_nan (l : list JsValue) (i : Z) :
  Forall not_nan l → js_get VUndefined l i ≠ VNaN.
Proof. intros H. by apply (js_get_Forall not_nan). Qed.

Lemma js_get_set_eq {A} (u : A) (l : list A) (i : Z) (x : A) :
  0 ≤ i → js_get u (js_set u l i x) i = x.
Proof.
  intros H. unfold js_get, js_set. rewrite !decide_True by done.
  destruct (decide _) as [Hlt|Hge].
  - by rewrite list_lookup_insert_eq.
  - rewrite app_assoc, lookup_app_r; rewrite length_app, length_replicate; [|lia].
    replace (Z.to_nat i - _)%nat with 0%nat by lia. done.
Qed.

Lemma js_get_set_ne {A} (u : A) (l : list A) (i j : Z) (x : A) :
  i ≠ j → js_get u (js_set u l i x) j = js_get u l j.
Proof.
  intros H. unfold js_get, js_set.
  destruct (decide (0 ≤ i)); [|done].
  destruct (decide (0 ≤ j)); [|done].
  destruct (decide (Z.to_nat i < length l)%nat) as [Hlt|Hge].
  - rewrite list_lookup_insert_ne; [done|lia].
  - destruct (decide (Z.to_nat j < length l)%nat).
    + by rewrite lookup_app_l.
    + rewrite (proj2 (lookup_ge_None l (Z.to_nat j))) by lia.
      rewrite lookup_app_r by lia.
      destruct (decide (Z.to_nat j - length l < Z.to_nat i - length l)%nat).
      * rewrite lookup_app_l by (rewrite length_replicate; lia).
        rewrite lookup_replicate_2; [done|lia].
      * rewrite lookup_app_r by (rewrite length_replicate; lia).
        rewrite length_replicate.
        rewrite (proj2 (lookup_ge_None _ _)); [done|simpl; lia].
Qed.

Lemma js_set_length {A} (u : A) (l : list A) (i : Z) (x : A) :
  0 ≤ i → Z.of_nat (length (js_set u l i x)) = Z.max (Z.of_nat (length l)) (i + 1).
Proof.
  intros H. unfold js_set. rewrite decide_True by done.
  destruct (decide _).
  - rewrite length_insert. lia.
  - rewrite !length_app, length_replicate. simpl. lia.
Qed.

Lemma js_set_append {A} (u : A) (l : list A) (x : A) :
  js_set u l (Z.of_nat (length l)) x = l ++ [x].
Proof.
  unfold js_set. rewrite decide_True by lia. rewrite decide_False by lia.
  replace (Z.to_nat _ - _)%nat with 0%nat by lia. done.
Qed.

(** ** Building the new keys and values *)

Definition new_keys (keyFn : option ItemFn) (items : list JsValue) : list JsValue :=
  imap (λ i item, match keyFn with
                  | Some kf => kf item (Z.of_nat i)
                  | None => VNumber (Z.of_nat i)
                  end) items.

Definition new_values (template : ItemFn) (items : list JsValue) : list JsValue :=
  imap (λ i item, template item (Z.of_nat i)) items.

Lemma build_new_returns keyFn template items ks vs ks' vs' σ σ' :
  length vs = length ks →
  build_new keyFn template items (Z.of_nat (length ks)) ks vs σ = (Returns (ks', vs'), σ') →
  σ' = σ ∧
  ks' = ks ++ imap (λ i item, match keyFn with
                              | Some kf => kf item (Z.of_nat (length ks + i))
                              | None => VNumber (Z.of_nat (length ks + i))
                              end) items ∧
  length vs' = (length vs + length items)%nat ∧
  (∀ t, template = Some t →
        vs' = vs ++ imap (λ i item, t item (Z.of_nat (length ks + i))) items).
Proof.
  revert ks vs. induction items as [|item items IH]; intros ks vs Hlen; simpl.
  - intros [= <- <- <-]. rewrite !app_nil_r. split; [done|]. split; [done|].
    split; [lia|done].
  - destruct template as [t|]; [|done]. simpl.
    rewrite bind_unfold. simpl.
    rewrite js_set_append.
    replace (js_set VUndefined vs (Z.of_nat (length ks)) (t item (Z.of_nat (length ks))))
      with (vs ++ [t item (Z.of_nat (length ks))])
      by (rewrite <- Hlen; by rewrite js_set_append).
    set (key := match keyFn with
                | Some kf => kf item (Z.of_nat (length ks))
                | None => VNumber (Z.of_nat (length ks))
                end).
    replace (Z.of_nat (length ks) + 1) with (Z.of_nat (length (ks ++ [key])))
      by (rewrite length_app; simpl; lia).
    intros H. apply IH in H; [|rewrite !length_app; simpl; lia].
    destruct H as (Hσ & Hk & Hl & Hv). split; [done|].
    rewrite !length_app in *. simpl in *.
    assert (Hidx : ∀ i, (length ks + 1 + i)%nat = (length ks + S i)%nat) by (intros; lia).
    split; [|split; [lia|]].
    + rewrite Hk, <- app_assoc. simpl. rewrite Nat.add_0_r. fold key.
      f_equal. f_equal. apply imap_ext. intros i x _. simpl. by rewrite Hidx.
    + intros t' [= <-]. rewrite (Hv t eq_refl), <- app_assoc. simpl.
      rewrite Nat.add_0_r.
      f_equal. f_equal. apply imap_ext. intros i x _. simpl. by rewrite Hidx.
Qed.

Lemma build_new_spec keyFn template items ks vs σ σ' :
  build_new keyFn template items 0 [] [] σ = (Returns (ks, vs), σ') →
  σ' = σ ∧ ks = new_keys keyFn items ∧ length vs = length items ∧
  (∀ t, template = Some t → vs = new_values t items).
Proof.
  intros H. apply (build_new_returns keyFn template items [] []) in H; [|done].
  destruct H as (-> & -> & Hl & Hv). repeat split; [done|].
  intros t Ht. by rewrite (Hv t Ht).
Qed.

Lemma new_keys_length keyFn items : length (new_keys keyFn items) = length items.
Proof. apply length_imap. Qed.

(** ** Inverting a run that returns *)

Lemma ret_inv {A} (a : A) (r : Outcome A) (σ σ' : State) :
  @mret M _ A a σ = (r, σ') → r = Returns a ∧ σ' = σ.
Proof. by intros [= <- <-]. Qed.

Lemma get_state_inv (r : Outcome State) (σ σ' : State) :
  get_state σ = (r, σ') → r = Returns σ ∧ σ' = σ.
Proof. by intros [= <- <-]. Qed.

Lemma modify_inv f (r : Outcome unit) (σ σ' : State) :
  modify f σ = (r, σ') → r = Returns tt ∧ σ' = f σ.
Proof. by intros [= <- <-]. Qed.

Lemma emit_inv e (r : Outcome unit) (σ σ' : State) :
  emit e σ = (r, σ') → r = Returns tt ∧ σ' = add_event e σ.
Proof. by intros [= <- <-]. Qed.

Lemma deref_inv {A} (o : option A) (a : A) (σ σ' : State) :
  deref o σ = (Returns a, σ') → o = Some a ∧ σ' = σ.
Proof. destruct o; [by intros [= <- <-]|done]. Qed.

Lemma as_part_inv (s : Slot) (p : PartRef) (σ σ' : State) :
  as_part s σ = (Returns p, σ') → s = SPart p ∧ σ' = σ.
Proof. destruct s; try done. by intros [= <- <-]. Qed.

Lemma getPart_inv (p : PartRef) (d : NodePartData) (σ σ' : State) :
  getPart p σ = (Returns d, σ') → parts σ !! p = Some d ∧ σ' = σ.
Proof. unfold getPart. destruct (parts σ !! p); [by intros [= <- <-]|done]. Qed.

Ltac minv_one :=
  match goal with
  | H : (_ ≫= _) _ = (Returns _, _) |- _ =>
      let a := fresh "a" in let σa := fresh "σ" in let E := fresh "E" in
      apply bind_returns in H as (a & σa & E & H)
  | H : @mret M _ _ _ _ = (_, _) |- _ => apply ret_inv in H as [? ?]
  | H : get_state _ = (_, _) |- _ => apply get_state_inv in H as [? ?]
  | H : emit _ _ = (_, _) |- _ => apply emit_inv in H as [? ?]
  | H : modify _ _ = (_, _) |- _ => apply modify_inv in H as [? ?]
  | H : deref _ _ = (Returns _, _) |- _ => apply deref_inv in H as [? ?]
  | H : as_part _ _ = (Returns _, _) |- _ => apply as_part_inv in H as [? ?]
  | H : getPart _ _ = (Returns _, _) |- _ => apply getPart_inv in H as [? ?]
  | H : throw _ _ = (Returns _, _) |- _ => discriminate H
  | H : diverge _ = (Returns _, _) |- _ => discriminate H
  | H : throwIllegalNodeModification _ = (Returns _, _) |- _ => discriminate H
  | H : Returns _ = Returns _ |- _ => injection H as H
  end.
Ltac minv := repeat (minv_one; subst).

(** For every recorded run [m σa = (_, σb)] whose operation leaves the
    view [f] alone, records [keeps f σa σb]. *)
Ltac derive_keeps f :=
  repeat match goal with
  | E : ?m ?σa = (_, ?σb) |- _ =>
      lazymatch goal with
      | _ : keeps f σa σb |- _ => fail
      | _ => idtac
      end;
      let K := fresh "K" in
      assert (K : keeps f σa σb)
        by (let P := fresh in
            assert (P : preserves (keeps f) m) by pres; exact (P _ _ _ E))
  end.

(** The trace only grows. *)
Definition any_event : Event → Prop := λ _, True.

Lemma emit_any e : preserves (emits any_event) (emit e).
Proof. by apply emit_emits. Qed.
#[local] Hint Resolve emit_any : pres.

Lemma createAndInsertPart_grows cp b : preserves (emits any_event) (createAndInsertPart cp b).
Proof. unfold createAndInsertPart. pres. Qed.
Lemma updatePart_grows fuel s v : preserves (emits any_event) (updatePart materialize fuel s v).
Proof. unfold updatePart. pres. Qed.
Lemma insertPartBefore_grows fuel cp s r : preserves (emits any_event) (insertPartBefore fuel cp s r).
Proof. unfold insertPartBefore. pres. Qed.
Lemma removal_walk_grows fuel c h s e : preserves (emits any_event) (removal_walk fuel c h s e).
Proof.
  revert s. induction fuel as [|fuel IH]; intros s; simpl; pres.
  all: unfold token_commit; pres.
Qed.
#[local] Hint Resolve removal_walk_grows : pres.
Lemma removePart_grows fuel s h : preserves (emits any_event) (removePart fuel s h).
Proof. unfold removePart, removeNodesWithRemovalHandler. pres. Qed.
Lemma write_tombstone_keeps_trace cp ops : preserves (keeps trace) (write_tombstone cp ops).
Proof. unfold write_tombstone. pres. by apply preserves_modify. Qed.
#[local] Hint Resolve createAndInsertPart_grows updatePart_grows insertPartBefore_grows
  removePart_grows write_tombstone_keeps_trace : pres.

Lemma step_grows fuel cp h oks nks nvs L :
  preserves (emits any_event) (step materialize fuel cp h oks nks nvs L).
Proof. unfold step. pres. Qed.

(** What the helpers return. *)
Lemma updatePart_returns fuel s v r σ σ' :
  updatePart materialize fuel s v σ = (Returns r, σ') →
  r = s ∧ ∃ p, s = SPart p ∧ trace σ' = EvUpdate p v :: trace σ.
Proof.
  unfold updatePart. intros H. minv. derive_keeps trace.
  split; [done|]. eexists. split; [done|].
  unfold keeps in *. simpl in *. congruence.
Qed.

Lemma createAndInsertPart_returns cp b q σ σ' :
  createAndInsertPart cp b σ = (Returns q, σ') →
  trace σ' = EvCreate q :: trace σ.
Proof.
  unfold createAndInsertPart. intros H. minv. derive_keeps trace.
  unfold keeps in *. simpl in *. congruence.
Qed.

(** ** The new part list is filled from both ends *)

Definition is_part_slot (Q : PartRef → Prop) (s : Slot) : Prop :=
  ∃ p, s = SPart p ∧ Q p.

(** The slots below [nh] and above [nt] of the sparse array [nps] hold
    parts; the array has grown to its final length [n] as soon as a slot
    was written from the tail. *)
Record filled (Q : PartRef → Prop) (n : Z) (nps : list Slot) (nh nt : Z) : Prop := mkFilled {
  filled_head : 0 ≤ nh ≤ nt + 1;
  filled_tail : nt < n;
  filled_len : (nt = n - 1 ∧ Z.of_nat (length nps) = nh) ∨
               (nt < n - 1 ∧ Z.of_nat (length nps) = n);
  filled_slots : ∀ i, 0 ≤ i < nh ∨ nt < i < n → is_part_slot Q (js_get SUndefined nps i);
}.

Lemma filled_mono (Q Q' : PartRef → Prop) n nps nh nt :
  (∀ p, Q p → Q' p) → filled Q n nps nh nt → filled Q' n nps nh nt.
Proof.
  intros HQ [H1 H2 H3 H4]. split; try done.
  intros i Hi. destruct (H4 i Hi) as (p & -> & Hp). exists p. auto.
Qed.

Lemma filled_init Q n : 0 ≤ n → filled Q n [] 0 (n - 1).
Proof. intros Hn. split; simpl; try lia. Qed.

Lemma filled_head_write Q n nps nh nt p :
  filled Q n nps nh nt → nh ≤ nt → Q p →
  filled Q n (js_set SUndefined nps nh (SPart p)) (nh + 1) nt.
Proof.
  intros [H1 H2 H3 H4] Hle Hp. split; try lia.
  - rewrite js_set_length by lia. lia.
  - intros i Hi. destruct (decide (i = nh)) as [->|Hne].
    + rewrite js_get_set_eq by lia. by exists p.
    + rewrite js_get_set_ne by done. apply H4. lia.
Qed.

Lemma filled_tail_write Q n nps nh nt p :
  filled Q n nps nh nt → nh ≤ nt → Q p →
  filled Q n (js_set SUndefined nps nt (SPart p)) nh (nt - 1).
Proof.
  intros [H1 H2 H3 H4] Hle Hp. split; try lia.
  - rewrite js_set_length by lia. lia.
  - intros i Hi. destruct (decide (i = nt)) as [->|Hne].
    + rewrite js_get_set_eq by lia. by exists p.
    + rewrite js_get_set_ne by done. apply H4. lia.
Qed.

Lemma filled_done Q n nps nh nt :
  filled Q n nps nh nt → nt < nh →
  Z.of_nat (length nps) = n ∧ Forall (is_part_slot Q) nps.
Proof.
  intros [H1 H2 H3 H4] Hlt.
  assert (Hlen : Z.of_nat (length nps) = n) by lia.
  split; [done|]. apply Forall_lookup. intros i s Hi.
  rewrite <- (js_get_lookup SUndefined nps i s Hi). apply H4.
  apply lookup_lt_Some in Hi. lia.
Qed.

(** Where a part of the new list comes from: the old list, or a creation
    recorded since the pass began in [σ0]. *)
Definition provenance (σ0 : State) (ops0 : list Slot) (σ : State) (p : PartRef) : Prop :=
  SPart p ∈ ops0 ∨ ∃ evs, trace σ = evs ++ trace σ0 ∧ EvCreate p ∈ evs.

Lemma provenance_mono σ0 ops0 σ σ' p :
  emits any_event σ σ' → provenance σ0 ops0 σ p → provenance σ0 ops0 σ' p.
Proof.
  intros (evs' & Ht & _) [H|(evs & He & Hin)]; [by left|right].
  exists (evs' ++ evs). rewrite Ht, He, app_assoc. split; [done|].
  apply elem_of_app. by right.
Qed.

Lemma provenance_created σ0 ops0 σ σ' q :
  emits any_event σ0 σ → trace σ' = EvCreate q :: trace σ → provenance σ0 ops0 σ' q.
Proof.
  intros (evs & He & _) Ht. right. exists (EvCreate q :: evs).
  rewrite Ht, He. split; [done|]. apply elem_of_cons. by left.
Qed.

Lemma emits_add_event P σ0 σ e : P e → emits P σ0 σ → emits P σ0 (add_event e σ).
Proof.
  intros HP (evs & H & F). exists (e :: evs). simpl. rewrite H.
  split; [done|]. by constructor.
Qed.

(** The old list only loses parts (to tombstones). *)
Definition old_within (ops0 ops : list Slot) : Prop :=
  ∀ i p, js_get SUndefined ops i = SPart p → SPart p ∈ ops0.

Lemma old_within_refl ops : old_within ops ops.
Proof.
  intros i p. unfold js_get. destruct (decide _); [|done].
  destruct (ops !! Z.to_nat i) eqn:E; simpl; [|done].
  intros ->. by eapply list_elem_of_lookup_2.
Qed.

Lemma old_within_tombstone ops0 ops i :
  old_within ops0 ops → old_within ops0 (js_set SUndefined ops i SNull).
Proof.
  intros H j p. destruct (decide (i = j)) as [<-|Hne].
  - destruct (decide (0 ≤ i)).
    + by rewrite js_get_set_eq.
    + unfold js_set. rewrite decide_False by done. apply H.
  - rewrite js_get_set_ne by done. apply H.
Qed.

Ltac mcase H :=
  match type of H with
  | (if ?c then _ else _) _ = _ => destruct c
  | (match ?x with _ => _ end) _ = _ => destruct x
  end.
Ltac mrun :=
  repeat first
    [ minv_one; subst
    | match goal with H : _ = (Returns _, _) |- _ => mcase H end ].

Section PassFacts.
Variables (fuel : nat) (cp : PartRef) (h : option NodeRemovalHandler).
Variables (oks nks nvs : list JsValue).
Variables (σ0 : State) (ops0 : list Slot) (n : Z).

Definition pass_inv (L : Loop) (σ : State) : Prop :=
  emits any_event σ0 σ ∧
  old_within ops0 (oldParts L) ∧
  filled (provenance σ0 ops0 σ) n (newParts L) (newHead L) (newTail L).

Lemma step_pass_inv L L' σ σ' :
  pass_inv L σ → newHead L ≤ newTail L →
  step materialize fuel cp h oks nks nvs L σ = (Returns L', σ') →
  pass_inv L' σ'.
Proof.
  intros (He & Ho & Hf) Hle H.
  pose proof (step_grows _ _ _ _ _ _ _ _ _ _ H) as Hg.
  assert (He' : emits any_event σ0 σ') by (by etrans).
  assert (Hf' : filled (provenance σ0 ops0 σ') n (newParts L) (newHead L) (newTail L)).
  { eapply filled_mono; [|done]. intros p. by apply provenance_mono. }
  split; [done|].
  unfold step in H. cbv zeta in H.
  mrun; simpl;
    repeat match goal with
    | E : updatePart _ _ _ _ _ = (Returns _, _) |- _ =>
        let Hs := fresh "Hs" in
        apply updatePart_returns in E as (-> & ? & Hs & ?); try rewrite Hs
    end.
  all: try solve [split; [done|done]].
  all: try solve [split; [done|];
            first [apply filled_head_write|apply filled_tail_write]; [done|done|];
            left; eapply Ho; eauto].
  1,2: (* a part created for the new head *)
    injection Hs as <-;
    (split; [done|]); (apply filled_head_write; [done|done|]);
    match goal with
    | E : createAndInsertPart _ _ _ = _ |- _ =>
        apply createAndInsertPart_returns in E
    end;
    (eapply provenance_mono;
       [|eapply provenance_created; [|eassumption];
         first [exact He|by apply emits_add_event]]);
    eexists [_]; (split; [eassumption|]); by constructor.
  (* an old part reused from inside the window *)
  all: split; [by apply old_within_tombstone|].
  all: apply filled_head_write; [done|done|].
  all: left.
  all: match goal with
       | Hm : match ?o with Some _ => _ | None => _ end = SPart _ |- _ =>
           destruct o; [|done]; eapply Ho; eauto
       end.
Qed.

Lemma main_loop_pass_inv k L L' σ σ' :
  pass_inv L σ →
  main_loop materialize fuel cp h oks nks nvs k L σ = (Returns L', σ') →
  pass_inv L' σ'.
Proof.
  revert L σ. induction k as [|k IH]; intros L σ HI H; simpl in H.
  - destruct (decide _); [done|]. by minv.
  - destruct (decide _) as [[_ Hle]|_]; [|by minv].
    minv. eapply IH; [|done]. by eapply step_pass_inv.
Qed.

Lemma add_loop_pass_inv k L L' σ σ' :
  pass_inv L σ →
  add_loop materialize fuel cp nvs k L σ = (Returns L', σ') →
  pass_inv L' σ' ∧ newTail L' < newHead L'.
Proof.
  revert L σ. induction k as [|k IH]; intros L σ HI H; simpl in H.
  - destruct (decide _); [done|]. minv. split; [done|lia].
  - destruct (decide _) as [Hle|Hgt]; [|minv; split; [done|lia]].
    minv. eapply IH; [|done].
    destruct HI as (He & Ho & Hf).
    pose proof (createAndInsertPart_grows _ _ _ _ _ E) as Hc.
    pose proof (updatePart_grows _ _ _ _ _ _ E0) as Hu.
    apply createAndInsertPart_returns in E.
    split; [|split; [done|]]; simpl.
    + etrans; [|done]. by etrans.
    + apply filled_head_write; [|done|].
      * eapply filled_mono; [|done]. intros p Hp.
        eapply provenance_mono; [|done]. by etrans.
      * eapply provenance_mono; [done|]. by eapply provenance_created.
Qed.

Lemma remove_loop_pass_inv k L L' σ σ' :
  pass_inv L σ →
  remove_loop fuel h k L σ = (Returns L', σ') →
  pass_inv L' σ' ∧ newParts L' = newParts L ∧
  newHead L' = newHead L ∧ newTail L' = newTail L.
Proof.
  revert L σ. induction k as [|k IH]; intros L σ HI H; simpl in H.
  - destruct (decide _); [done|]. by minv.
  - destruct (decide _) as [Hle|Hgt]; [|by minv].
    minv. apply IH in H; [done|].
    destruct HI as (He & Ho & Hf).
    assert (Hg : emits any_event σ σ1).
    { destruct (decide _); [by minv|]. by eapply removePart_grows. }
    split; [by etrans|]. split; [done|]. simpl.
    eapply filled_mono; [|done]. intros p. by apply provenance_mono.
Qed.

End PassFacts.

(** ** The whole call *)

Definition pass_keyFn (keyFnOrTemplate template : option ItemFn) : option ItemFn :=
  match template with None => None | Some _ => keyFnOrTemplate end.

Definition pass_template (keyFnOrTemplate template : option ItemFn) : option ItemFn :=
  match template with None => keyFnOrTemplate | Some _ => template end.

Definition initial_loop (ops : list Slot) (nvs : list JsValue) : Loop :=
  mkLoop ops [] 0 (Z.of_nat (length ops) - 1) 0 (Z.of_nat (length nvs) - 1) None None.

Lemma repeat_unfold fuel items kfot t h cp :
  repeat materialize fuel items kfot t h (NodePartObj cp)
  = (σa ← get_state;
     '(newKeys, newValues) ← build_new (pass_keyFn kfot t) (pass_template kfot t)
                               items 0 [] [];
     L1 ← main_loop materialize fuel cp h (default [] (keyListCache σa !! cp))
            newKeys newValues fuel
            (initial_loop (default [] (partListCache σa !! cp)) newValues);
     L2 ← add_loop materialize fuel cp newValues fuel L1;
     L3 ← remove_loop fuel h fuel L2;
     σb ← get_state;
     modify (set_caches (<[cp := newParts L3]> (partListCache σb))
                        (<[cp := newKeys]> (keyListCache σb)))).
Proof. unfold repeat. by destruct t. Qed.

Lemma repeat_returns fuel items kfot t h cp σ σ' :
  repeat materialize fuel items kfot t h (NodePartObj cp) σ = (Returns tt, σ') →
  ∃ nvs L1 L2 L3 σ1 σ2 σ3,
    let ops := default [] (partListCache σ !! cp) in
    let oks := default [] (keyListCache σ !! cp) in
    let nks := new_keys (pass_keyFn kfot t) items in
    length nvs = length items ∧
    (∀ tf, pass_template kfot t = Some tf → nvs = new_values tf items) ∧
    main_loop materialize fuel cp h oks nks nvs fuel (initial_loop ops nvs) σ
      = (Returns L1, σ1) ∧
    add_loop materialize fuel cp nvs fuel L1 σ1 = (Returns L2, σ2) ∧
    remove_loop fuel h fuel L2 σ2 = (Returns L3, σ3) ∧
    σ' = set_caches (<[cp := newParts L3]> (partListCache σ3))
                    (<[cp := nks]> (keyListCache σ3)) σ3.
Proof.
  unfold repeat. intros H.
  assert (H' : (σa ← get_state;
           '(newKeys, newValues) ← build_new (pass_keyFn kfot t) (pass_template kfot t)
                                     items 0 [] [];
           L1 ← main_loop materialize fuel cp h (default [] (keyListCache σa !! cp))
                  newKeys newValues fuel
                  (initial_loop (default [] (partListCache σa !! cp)) newValues);
           L2 ← add_loop materialize fuel cp newValues fuel L1;
           L3 ← remove_loop fuel h fuel L2;
           σb ← get_state;
           modify (set_caches (<[cp := newParts L3]> (partListCache σb))
                              (<[cp := newKeys]> (keyListCache σb)))) σ = (Returns tt, σ')).
  { by destruct t. }
  clear H.
  apply bind_returns in H' as (σa & ? & E & H'). apply get_state_inv in E as [[= ->] ->].
  apply bind_returns in H' as ([nks nvs] & ? & E & H').
  apply build_new_spec in E as (-> & -> & Hlen & Hv).
  apply bind_returns in H' as (L1 & σ1 & E1 & H').
  apply bind_returns in H' as (L2 & σ2 & E2 & H').
  apply bind_returns in H' as (L3 & σ3 & E3 & H').
  apply bind_returns in H' as (σb & ? & E & H'). apply get_state_inv in E as [[= ->] ->].
  apply modify_inv in H' as [_ ->].
  exists nvs, L1, L2, L3, σ1, σ2, σ3. done.
Qed.

Lemma repeat_fills_lists (fuel : nat) (items : list JsValue)
    (keyFnOrTemplate template : option ItemFn) (onRemove : option NodeRemovalHandler)
    (containerPart : PartRef) (σ σ' : State) :
  repeat materialize fuel items keyFnOrTemplate template onRemove
    (NodePartObj containerPart) σ = (Returns tt, σ') →
  ∃ (nps : list Slot) (nks : list JsValue) (evs : list Event),
    partListCache σ' !! containerPart = Some nps ∧
    keyListCache σ' !! containerPart = Some nks ∧
    length nps = length items ∧
    length nks = length items ∧
    trace σ' = evs ++ trace σ ∧
    Forall (λ s, ∃ p, s = SPart p ∧
                 (SPart p ∈ default [] (partListCache σ !! containerPart) ∨
                  EvCreate p ∈ evs)) nps.
Proof.
  intros H. apply repeat_returns in H
    as (nvs & L1 & L2 & L3 & σ1 & σ2 & σ3 & Hlen & _ & Hm & Ha & Hr & ->).
  set (ops := default [] (partListCache σ !! containerPart)) in *.
  assert (H0 : pass_inv σ ops (Z.of_nat (length nvs)) (initial_loop ops nvs) σ).
  { split; [reflexivity|]. split; [apply old_within_refl|].
    apply filled_init. lia. }
  eapply main_loop_pass_inv in Hm; [|done].
  eapply add_loop_pass_inv in Ha as [Ha Hlt]; [|done].
  eapply remove_loop_pass_inv in Hr as (Hr & Hnp & Hnh & Hnt); [|done].
  destruct Hr as ((evs & Htr & _) & _ & Hf).
  apply filled_done in Hf as [Hl HF]; [|lia].
  exists (newParts L3), (new_keys (pass_keyFn keyFnOrTemplate template) items), evs.
  simpl. rewrite !lookup_insert_eq, new_keys_length.
  split; [done|]. split; [done|]. split; [lia|]. split; [done|]. split; [done|].
  eapply Forall_impl; [done|]. intros s (p & -> & [Hp|(evs' & He & Hin)]).
  - exists p. auto.
  - exists p. split; [done|]. right.
    rewrite Htr in He. by apply app_inv_tail in He as ->.
Qed.

(** ** Passes in which every old part matches at the head *)

Definition is_update (e : Event) : Prop := ∃ p v, e = EvUpdate p v.

Lemma updatePart_emits_update fuel s v :
  preserves (emits is_update) (updatePart materialize fuel s v).
Proof.
  unfold updatePart. pres. apply emit_emits. by eexists _, _.
Qed.

Lemma build_new_pure keyFn template items i ks vs :
  preserves (λ σ σ', σ' = σ) (build_new keyFn template items i ks vs).
Proof.
  revert i ks vs. induction items as [|item items IH]; intros i ks vs; simpl.
  - by intros σ r σ' [= _ <-].
  - destruct template as [t|]; [|by intros σ r σ' [= _ <-]].
    intros σ r σ'. rewrite bind_unfold. simpl. apply IH.
Qed.

(** The events of updating the parts [ps], from index [i] on, in place. *)
Definition update_events (nvs : list JsValue) (i : nat) (ps : list PartRef) : list Event :=
  imap (λ j p, EvUpdate p (js_get VUndefined nvs (Z.of_nat (i + j)))) ps.

Lemma update_events_cons nvs i p ps :
  update_events nvs i (p :: ps)
  = EvUpdate p (js_get VUndefined nvs (Z.of_nat i)) :: update_events nvs (S i) ps.
Proof.
  unfold update_events. simpl. rewrite Nat.add_0_r. f_equal.
  apply imap_ext. intros j q _. simpl. f_equal. f_equal. lia.
Qed.

Section HeadsMatch.
Variables (fuel : nat) (cp : PartRef) (h : option NodeRemovalHandler).
Variables (oks nks nvs : list JsValue) (ps : list PartRef).
Hypothesis Hkeys : ∀ i, 0 ≤ i < Z.of_nat (length ps) →
  strict_eq (js_get VUndefined oks i) (js_get VUndefined nks i) = true.
Hypothesis Hlen : (length ps ≤ length nvs)%nat.

Definition heads_loop (i : nat) : Loop :=
  mkLoop (SPart <$> ps) (SPart <$> take i ps) (Z.of_nat i) (Z.of_nat (length ps) - 1)
         (Z.of_nat i) (Z.of_nat (length nvs) - 1) None None.

Lemma heads_loop_initial : initial_loop (SPart <$> ps) nvs = heads_loop 0.
Proof. unfold initial_loop, heads_loop. by rewrite length_fmap. Qed.

Lemma step_heads_match (i : nat) (p : PartRef) :
  ps !! i = Some p →
  step materialize fuel cp h oks nks nvs (heads_loop i)
  = (s ← updatePart materialize fuel (SPart p) (js_get VUndefined nvs (Z.of_nat i));
     mret (mkLoop (SPart <$> ps) (js_set SUndefined (SPart <$> take i ps) (Z.of_nat i) s)
                  (Z.of_nat (S i)) (Z.of_nat (length ps) - 1)
                  (Z.of_nat (S i)) (Z.of_nat (length nvs) - 1) None None)).
Proof.
  intros Hp. pose proof (lookup_lt_Some _ _ _ Hp) as Hlt.
  assert (Hlast : ∃ q, ps !! (length ps - 1)%nat = Some q).
  { apply lookup_lt_is_Some. lia. }
  destruct Hlast as [q Hq].
  unfold step, heads_loop. cbv zeta. simpl.
  rewrite (js_get_lookup SUndefined (SPart <$> ps) i (SPart p))
    by (by rewrite list_lookup_fmap, Hp).
  rewrite decide_False by done.
  replace (Z.of_nat (length ps) - 1) with (Z.of_nat (length ps - 1)) by lia.
  rewrite (js_get_lookup SUndefined (SPart <$> ps) _ (SPart q))
    by (by rewrite list_lookup_fmap, Hq).
  rewrite decide_False by done.
  rewrite Hkeys by lia.
  by replace (Z.of_nat i + 1) with (Z.of_nat (S i)) by lia.
Qed.

Lemma main_loop_heads_match (k i : nat) (σ σ' : State) (r : Outcome Loop) :
  (i ≤ length ps)%nat →
  main_loop materialize fuel cp h oks nks nvs k (heads_loop i) σ = (r, σ') →
  emits is_update σ σ' ∧ keeps caches σ σ' ∧
  ∀ L', r = Returns L' →
        L' = heads_loop (length ps) ∧
        trace σ' = rev (update_events nvs i (drop i ps)) ++ trace σ.
Proof.
  revert i σ. induction k as [|k IH]; intros i σ Hi H.
  - simpl in H. destruct (decide _) as [[H1 H2]|Hn].
    + injection H as <- <-. split; [reflexivity|]. split; [done|]. done.
    + apply ret_inv in H as [-> ->]. split; [reflexivity|]. split; [done|].
      intros L' [= <-]. simpl in Hn.
      assert (i = length ps) as -> by lia.
      by rewrite drop_all.
  - simpl in H. destruct (decide _) as [[H1 H2]|Hn].
    + simpl in H1.
      destruct (lookup_lt_is_Some_2 ps i) as [p Hp]; [lia|].
      rewrite (step_heads_match i p Hp) in H.
      rewrite bind_unfold in H. rewrite bind_unfold in H.
      destruct (updatePart _ _ _ _ _) as [[s|e|] σ1] eqn:E.
      * pose proof (updatePart_emits_update _ _ _ _ _ _ E) as He.
        pose proof (updatePart_keeps_caches _ _ _ _ _ _ E) as Hc.
        apply updatePart_returns in E as (-> & p' & [= <-] & Ht).
        simpl in H.
        replace (js_set SUndefined (SPart <$> take i ps) (Z.of_nat i) (SPart p))
          with (SPart <$> take (S i) ps) in H.
        2:{ rewrite (take_S_r _ _ _ Hp), fmap_app. simpl.
            rewrite <- (js_set_append SUndefined). f_equal.
            rewrite length_fmap, length_take. lia. }
        apply (IH (S i)) in H as (He' & Hc' & HR); [|lia].
        split; [by etrans|]. split; [by etrans|].
        intros L' ->. destruct (HR _ eq_refl) as [-> Ht']. split; [done|].
        rewrite Ht', Ht. rewrite (drop_S _ _ _ Hp), update_events_cons. simpl.
        by rewrite <- app_assoc.
      * injection H as <- <-.
        split; [by eapply updatePart_emits_update|].
        split; [by eapply updatePart_keeps_caches|]. done.
      * injection H as <- <-.
        split; [by eapply updatePart_emits_update|].
        split; [by eapply updatePart_keeps_caches|]. done.
    + apply ret_inv in H as [-> ->]. split; [reflexivity|]. split; [done|].
      intros L' [= <-]. simpl in Hn.
      assert (i = length ps) as -> by lia.
      by rewrite drop_all.
Qed.

End HeadsMatch.

(** What a returning call leaves in the caches, in the form the next
    call reads it. *)
Lemma repeat_leaves fuel items kfot t h cp σ σ' :
  repeat materialize fuel items kfot t h (NodePartObj cp) σ = (Returns tt, σ') →
  ∃ ps, length ps = length items ∧
        partListCache σ' !! cp = Some (SPart <$> ps) ∧
        keyListCache σ' !! cp = Some (new_keys (pass_keyFn kfot t) items).
Proof.
  intros H. pose proof (repeat_fills_lists _ _ _ _ _ _ _ _ H)
    as (nps & nks & evs & Hp & Hk & Hl & _ & _ & HF).
  apply repeat_returns in H as (? & ? & ? & L3 & ? & ? & σ3 & _ & _ & _ & _ & _ & ->).
  simpl in *. rewrite lookup_insert_eq in Hk. injection Hk as <-.
  assert (Hps : ∃ ps, nps = SPart <$> ps).
  { clear -HF. induction HF as [|s l (p & -> & _) _ [ps ->]]; [by exists []|].
    by exists (p :: ps). }
  destruct Hps as [ps ->]. exists ps. rewrite length_fmap in Hl.
  split; [done|]. split; [done|]. apply lookup_insert_eq.
Qed.

Lemma add_loop_done fuel cp nvs k L :
  newTail L < newHead L → add_loop materialize fuel cp nvs k L = mret L.
Proof. intros H. destruct k; simpl; by rewrite decide_False by lia. Qed.

Lemma remove_loop_done fuel h k L :
  oldTail L < oldHead L → remove_loop fuel h k L = mret L.
Proof. intros H. destruct k; simpl; by rewrite decide_False by lia. Qed.

(** When a call of [repeat] has returned and no key is [NaN], a second
    call for the same container part with the same items, key function and
    template performs no move and creates no part: whatever its outcome,
    every event it adds to the trace is an in-place update (all items match
    at the head comparison), and if it returns, the persisted part and key
    lists are the ones the first call left. *)
Lemma second_pass_only_updates (fuel1 fuel2 : nat) (items : list JsValue)
    (keyFnOrTemplate template : option ItemFn)
    (onRemove1 onRemove2 : option NodeRemovalHandler)
    (containerPart : PartRef) (σ0 σ1 σ2 : State) (r : Outcome unit) :
  Forall not_nan (new_keys (pass_keyFn keyFnOrTemplate template) items) →
  repeat materialize fuel1 items keyFnOrTemplate template onRemove1
    (NodePartObj containerPart) σ0 = (Returns tt, σ1) →
  repeat materialize fuel2 items keyFnOrTemplate template onRemove2
    (NodePartObj containerPart) σ1 = (r, σ2) →
  (∃ evs, trace σ2 = evs ++ trace σ1 ∧
          Forall (λ e, ∃ p v, e = EvUpdate p v) evs) ∧
  (r = Returns tt →
   partListCache σ2 !! containerPart = partListCache σ1 !! containerPart ∧
   keyListCache σ2 !! containerPart = keyListCache σ1 !! containerPart).
Proof.
  intros Hnan H1 H2. apply repeat_leaves in H1 as (ps & Hl & Hp & Hk).
  rewrite repeat_unfold, bind_unfold in H2. simpl in H2.
  rewrite bind_unfold in H2.
  destruct (build_new _ _ _ _ _ _ _) as [[[nks nvs]|e|] σx] eqn:Eb;
    pose proof (build_new_pure _ _ _ _ _ _ _ _ _ Eb) as ->.
  2,3: injection H2 as <- <-; split; [by exists []|done].
  apply build_new_spec in Eb as (_ & -> & Hlv & _).
  rewrite Hp, Hk in H2. simpl in H2.
  rewrite heads_loop_initial, bind_unfold in H2.
  destruct (main_loop _ _ _ _ _ _ _ _ _ _) as [[L1|e|] σa] eqn:Em;
    eapply main_loop_heads_match in Em as (He & Hc & HR); try done; try lia;
    try (by intros i _; apply strict_eq_refl, js_get_not_nan).
  2,3: injection H2 as <- <-; split; [done|done].
  destruct (HR _ eq_refl) as [-> Ht].
  rewrite add_loop_done in H2 by (simpl; lia).
  rewrite bind_unfold in H2. simpl in H2.
  rewrite remove_loop_done in H2 by (simpl; lia).
  injection H2 as <- <-. split; [done|]. intros _. simpl.
  rewrite !lookup_insert_eq, Hp, Hk, firstn_all. done.
Qed.

(** ** Without a key function *)

Lemma imap_index_keys {A} (items : list A) (k : nat) :
  imap (λ i _, VNumber (Z.of_nat (k + i))) items
  = VNumber <$> seqZ (Z.of_nat k) (Z.of_nat (length items)).
Proof.
  revert k. induction items as [|x items IH]; intros k; [done|].
  simpl length. rewrite seqZ_cons by lia. simpl. rewrite Nat.add_0_r. f_equal.
  replace (Z.pred (Z.of_nat (S (length items)))) with (Z.of_nat (length items)) by lia.
  replace (Z.succ (Z.of_nat k)) with (Z.of_nat (S k)) by lia.
  rewrite <- IH. apply imap_ext. intros i y _. simpl. f_equal. lia.
Qed.

Lemma new_keys_None items :
  new_keys None items = VNumber <$> seqZ 0 (Z.of_nat (length items)).
Proof. apply (imap_index_keys items 0). Qed.

Lemma js_get_new_keys_None items i :
  0 ≤ i < Z.of_nat (length items) →
  js_get VUndefined (new_keys None items) i = VNumber i.
Proof.
  intros Hi. rewrite new_keys_None.
  replace i with (Z.of_nat (Z.to_nat i)) at 1 by lia.
  apply js_get_lookup. rewrite list_lookup_fmap, lookup_seqZ_lt by lia.
  simpl. f_equal. f_equal. lia.
Qed.

(** ** Child lists *)

Lemma next_in_app_notin (n : Node) (l1 l2 : list Node) :
  n ∉ l1 → next_in n (l1 ++ l2) = next_in n l2.
Proof.
  induction l1 as [|x l1 IH]; intros H; [done|]. simpl.
  rewrite decide_False by (intros ->; apply H; left).
  apply IH. intros Hin. apply H. by right.
Qed.

Lemma next_in_middle (n : Node) (l1 l2 : list Node) :
  n ∉ l1 → next_in n (l1 ++ n :: l2) = head l2.
Proof. intros H. rewrite next_in_app_notin by done. simpl. by rewrite decide_True. Qed.

Lemma remove_node_notin (n : Node) (l : list Node) : n ∉ l → remove_node n l = l.
Proof.
  intros H. unfold remove_node. induction l as [|x l IH]; [done|].
  rewrite filter_cons_True by (intros ->; apply H; left).
  f_equal. apply IH. intros Hin. apply H. by right.
Qed.

Lemma remove_node_app (n : Node) (l1 l2 : list Node) :
  remove_node n (l1 ++ l2) = remove_node n l1 ++ remove_node n l2.
Proof. apply filter_app. Qed.

Lemma remove_node_middle (n : Node) (l1 l2 : list Node) :
  n ∉ l1 → n ∉ l2 → remove_node n (l1 ++ n :: l2) = l1 ++ l2.
Proof.
  intros H1 H2. rewrite remove_node_app, (remove_node_notin n l1) by done.
  f_equal. unfold remove_node. rewrite filter_cons_False by (by intros H).
  by apply remove_node_notin.
Qed.

Lemma elem_of_remove_node (n x : Node) (l : list Node) :
  x ∈ remove_node n l ↔ x ∈ l ∧ x ≠ n.
Proof. unfold remove_node. rewrite list_elem_of_filter. tauto. Qed.

Lemma insert_before_middle (b n : Node) (l1 l2 : list Node) :
  b ∉ l1 → insert_before (Some b) n (l1 ++ b :: l2) = l1 ++ n :: b :: l2.
Proof.
  induction l1 as [|x l1 IH]; intros H; simpl.
  - by rewrite decide_True.
  - rewrite decide_False by (intros [= ->]; apply H; left).
    f_equal. apply IH. intros Hin. apply H. by right.
Qed.

Lemma insert_before_none (n : Node) (l : list Node) : insert_before None n l = l ++ [n].
Proof. induction l as [|x l IH]; simpl; [done|]. by rewrite IH. Qed.

(** ** The DOM store of one container *)

(** The child list of [c] and the parent pointers agree, no node occurs
    twice, the container is not below one of its own children, and the
    nodes that are not allocated yet are detached. *)
Record dom_wf (σ : State) (c : Node) : Prop := mkDomWf {
  wf_nodup : NoDup (children_of σ c);
  wf_parent : ∀ n, n ∈ children_of σ c ↔ parentOf σ !! n = Some c;
  wf_acyclic : ∀ p, parentOf σ !! c = Some p →
                    (p < nextNode σ)%nat ∧ parentOf σ !! p ≠ Some c;
  wf_fresh : ∀ n, (nextNode σ ≤ n)%nat → parentOf σ !! n = None;
  wf_container : (c < nextNode σ)%nat;
  wf_listed : is_Some (childNodes σ !! c);
}.

Lemma children_of_set_dom pa ch σ c : children_of (set_dom pa ch σ) c = default [] (ch !! c).
Proof. done. Qed.

Lemma parentOf_set_dom pa ch σ : parentOf (set_dom pa ch σ) = pa.
Proof. done. Qed.

Lemma wf_not_self σ c : dom_wf σ c → c ∉ children_of σ c.
Proof.
  intros W Hin. apply (wf_parent _ _ W) in Hin.
  by apply (wf_acyclic _ _ W c Hin).
Qed.

Lemma wf_child_parent σ c n : dom_wf σ c → n ∈ children_of σ c → parentNode σ n = Some c.
Proof. intros W. apply (wf_parent _ _ W). Qed.

Lemma wf_nextSibling σ c n l1 l2 :
  dom_wf σ c → children_of σ c = l1 ++ n :: l2 → nextSibling σ n = head l2.
Proof.
  intros W Hl. unfold nextSibling.
  rewrite (wf_child_parent σ c n W) by (rewrite Hl; set_solver).
  rewrite Hl. apply next_in_middle.
  pose proof (wf_nodup _ _ W) as Hnd. rewrite Hl in Hnd.
  apply NoDup_app in Hnd as (_ & Hnd & _). intros Hin. apply (Hnd _ Hin). left.
Qed.

(** Moving a child of [c] to another place among the children of [c]. *)
Lemma insertBefore_child σ c n b l :
  dom_wf σ c → children_of σ c = l → n ∈ l → b ∈ l → n ≠ b →
  insertBefore c n (Some b) σ
  = (Returns n,
     set_dom (parentOf σ)
             (<[c := insert_before (Some b) n (remove_node n l)]> (childNodes σ)) σ).
Proof.
  intros W Hl Hn Hb Hne. unfold insertBefore.
  rewrite decide_True by (apply (wf_child_parent σ c b W); by rewrite Hl).
  rewrite decide_False by done.
  unfold detach. rewrite <- Hl in Hn.
  pose proof (wf_child_parent σ c n W Hn) as Hp. unfold parentNode in Hp. rewrite Hp.
  rewrite children_of_set_dom, lookup_insert_eq. simpl.
  rewrite insert_insert_eq, insert_delete_eq, insert_id by done. by rewrite Hl.
Qed.

Lemma dom_wf_rearrange σ c l' :
  dom_wf σ c → l' ≡ₚ children_of σ c →
  dom_wf (set_dom (parentOf σ) (<[c := l']> (childNodes σ)) σ) c.
Proof.
  intros W Hperm. split; simpl.
  - rewrite children_of_set_dom, lookup_insert_eq. simpl.
    rewrite Hperm. apply W.
  - intros n. rewrite children_of_set_dom, lookup_insert_eq. simpl.
    rewrite Hperm. apply W.
  - apply (wf_acyclic _ _ W).
  - apply (wf_fresh _ _ W).
  - apply (wf_container _ _ W).
  - by rewrite lookup_insert_eq.
Qed.

Lemma insert_before_perm b n l : insert_before b n l ≡ₚ n :: l.
Proof.
  induction l as [|x l IH]; simpl; [done|].
  destruct (decide _); [done|]. rewrite IH. apply Permutation_swap.
Qed.

Lemma remove_node_perm n l : NoDup l → n ∈ l → n :: remove_node n l ≡ₚ l.
Proof.
  intros Hnd Hin. apply list_elem_of_split in Hin as (l1 & l2 & ->).
  apply NoDup_app in Hnd as (_ & H1 & H2). apply NoDup_cons in H2 as [H2 _].
  rewrite remove_node_middle; [|intros H; apply (H1 _ H); left|done].
  by rewrite Permutation_middle.
Qed.

Lemma wf_child_old σ c n : dom_wf σ c → n ∈ children_of σ c → (n < nextNode σ)%nat.
Proof.
  intros W Hin. apply (wf_parent _ _ W) in Hin.
  destruct (decide (n < nextNode σ)%nat); [done|].
  rewrite (wf_fresh _ _ W n) in Hin by lia. done.
Qed.

Lemma set_dom_same σ c l :
  childNodes σ !! c = Some l →
  set_dom (parentOf σ) (<[c := l]> (childNodes σ)) σ = σ.
Proof. intros H. rewrite insert_id by done. by destruct σ. Qed.

Lemma children_of_lookup σ c l :
  dom_wf σ c → children_of σ c = l → childNodes σ !! c = Some l.
Proof.
  intros W. unfold children_of. destruct (wf_listed _ _ W) as [l' ->]. simpl. congruence.
Qed.

Lemma set_dom_set_dom pa1 ch1 pa2 ch2 σ :
  set_dom pa2 ch2 (set_dom pa1 ch1 σ) = set_dom pa2 ch2 σ.
Proof. done. Qed.

(** A child given as its own reference stays where it is. *)
Lemma insertBefore_self σ c n l1 l2 :
  dom_wf σ c → children_of σ c = l1 ++ n :: l2 →
  insertBefore c n (Some n) σ = (Returns n, σ).
Proof.
  intros W Hl. unfold insertBefore.
  assert (Hn : n ∈ children_of σ c) by (rewrite Hl; set_solver).
  pose proof (wf_child_parent σ c n W Hn) as Hp.
  rewrite decide_True by done. rewrite decide_True by done.
  rewrite (wf_nextSibling σ c n l1 l2 W Hl).
  unfold detach. unfold parentNode in Hp. rewrite Hp.
  rewrite children_of_set_dom, lookup_insert_eq. simpl.
  pose proof (wf_nodup _ _ W) as Hnd. rewrite Hl in Hnd.
  apply NoDup_app in Hnd as (Hnd1 & Hnd2 & Hnd3). apply NoDup_cons in Hnd3 as [Hn2 Hnd3].
  assert (Hn1 : n ∉ l1) by (intros Hin; apply (Hnd2 _ Hin); left).
  rewrite Hl, remove_node_middle by done.
  assert (Hins : insert_before (head l2) n (l1 ++ l2) = l1 ++ n :: l2).
  { destruct l2 as [|y r]; simpl.
    - by rewrite app_nil_r, insert_before_none.
    - apply insert_before_middle. intros Hin. apply (Hnd2 _ Hin). right. left. }
  rewrite Hins, insert_insert_eq, insert_delete_eq, insert_id by done.
  f_equal. rewrite set_dom_set_dom, <- Hl. by apply set_dom_same, children_of_lookup.
Qed.

(** ** Runs that need fuel *)

(** With at least [need] units of fuel the operation returns [a] in state
    [σ']; with less it diverges. *)
Definition fueled {A} (m : nat → M A) (σ : State) (need : nat) (a : A) (σ' : State) : Prop :=
  ∀ fuel, if decide (need ≤ fuel)%nat then m fuel σ = (Returns a, σ')
          else (m fuel σ).1 = Diverges.

Lemma fueled_returns {A} (m : nat → M A) σ need a σ' fuel a' σ'' :
  fueled m σ need a σ' → m fuel σ = (Returns a', σ'') →
  a' = a ∧ σ'' = σ' ∧ (need ≤ fuel)%nat.
Proof.
  intros H E. specialize (H fuel). destruct (decide _).
  - rewrite H in E. by injection E as <- <-.
  - by rewrite E in H.
Qed.

Lemma fueled_enough {A} (m : nat → M A) σ need a σ' fuel :
  fueled m σ need a σ' → (need ≤ fuel)%nat → m fuel σ = (Returns a, σ').
Proof. intros H Hle. specialize (H fuel). by rewrite decide_True in H. Qed.

(** Evaluating the first operation of a sequence. *)
Lemma bind_ret {A B} (a : A) (k : A → M B) σ : (mret a ≫= k) σ = k a σ.
Proof. done. Qed.
Lemma bind_get {B} (k : State → M B) σ : (get_state ≫= k) σ = k σ σ.
Proof. done. Qed.
Lemma bind_modify {B} f (k : unit → M B) σ : (modify f ≫= k) σ = k tt (f σ).
Proof. done. Qed.
Lemma bind_emit {B} e (k : unit → M B) σ : (emit e ≫= k) σ = k tt (add_event e σ).
Proof. done. Qed.
Lemma bind_deref {A B} (a : A) (k : A → M B) σ : (deref (Some a) ≫= k) σ = k a σ.
Proof. done. Qed.
Lemma bind_as_part {B} p (k : PartRef → M B) σ : (as_part (SPart p) ≫= k) σ = k p σ.
Proof. done. Qed.
Lemma bind_getPart {B} p d (k : NodePartData → M B) σ :
  parts σ !! p = Some d → (getPart p ≫= k) σ = k d σ.
Proof. intros H. rewrite bind_unfold. unfold getPart. by rewrite H. Qed.
Lemma bind_diverges {A B} (m : M A) (k : A → M B) σ :
  (m σ).1 = Diverges → ((m ≫= k) σ).1 = Diverges.
Proof. rewrite bind_unfold. by destruct (m σ) as [[| |] ?]. Qed.

Ltac msimpl :=
  repeat first
    [ rewrite bind_ret | rewrite bind_get | rewrite bind_modify | rewrite bind_emit
    | rewrite bind_deref | rewrite bind_as_part | progress cbv zeta ].

(** *** [reparentNodes] *)

Lemma reparentNodes_unfold fuel c s e b :
  reparentNodes fuel c s e b
  = if decide (s = e) then mret tt else
    match fuel with
    | O => diverge
    | S fuel' =>
        s' ← deref s;
        σ ← get_state;
        let n := nextSibling σ s' in
        c' ← deref c;
        _ ← insertBefore c' s' b;
        reparentNodes fuel' c n e b
    end.
Proof. by destruct fuel. Qed.

Lemma NoDup_sub {A} (l k : list A) : NoDup l → k ⊆+ l → NoDup k.
Proof.
  intros Hl Hk. apply submseteq_Permutation in Hk as [k' Hk].
  rewrite Hk in Hl. by apply NoDup_app in Hl as [? _].
Qed.

(** Facts that follow from a child list having no duplicates. *)
Ltac nodup_from H := eapply (NoDup_sub _ _ H); solve_submseteq.
Ltac notin_from H :=
  match goal with
  | |- ?x ∉ ?l =>
      let N := fresh in
      assert (N : NoDup (x :: l)) by nodup_from H;
      by apply NoDup_cons in N as [? _]
  | |- ?x ≠ ?y =>
      let N := fresh in
      assert (N : NoDup [x; y]) by nodup_from H;
      apply NoDup_cons in N as [N _]; intros ->; apply N; left
  end.

Lemma reparentNodes_forward c R : ∀ X Y1 M b Y2 σ,
  dom_wf σ c →
  children_of σ c = X ++ R ++ Y1 ++ M ++ b :: Y2 →
  Y1 ≠ [] →
  fueled (λ fuel, reparentNodes fuel (Some c) (head (R ++ Y1)) (head Y1) (Some b))
    σ (length R) tt
    (set_dom (parentOf σ) (<[c := X ++ Y1 ++ M ++ R ++ b :: Y2]> (childNodes σ)) σ).
Proof.
  induction R as [|r R IH]; intros X Y1 M b Y2 σ W Hl HY1 fuel.
  - cbn beta. rewrite (decide_True (P := (length [] ≤ fuel)%nat)) by (simpl; lia).
    assert (Hsame : set_dom (parentOf σ)
              (<[c := X ++ Y1 ++ M ++ [] ++ b :: Y2]> (childNodes σ)) σ = σ).
    { by apply set_dom_same, children_of_lookup. }
    rewrite Hsame, reparentNodes_unfold. by rewrite decide_True by done.
  - pose proof (wf_nodup _ _ W) as Hnd. rewrite Hl in Hnd.
    destruct Y1 as [|y Y1]; [done|]. simpl head.
    assert (Hry' : r ≠ y) by notin_from Hnd.
    assert (Hry : Some r ≠ Some y) by congruence.
    assert (Hrb : r ≠ b) by notin_from Hnd.
    cbn beta. change (head ((r :: R) ++ y :: Y1)) with (Some r).
    change (head (y :: Y1)) with (Some y).
    destruct fuel as [|fuel].
    { rewrite decide_False by (simpl; lia). rewrite reparentNodes_unfold.
      by rewrite decide_False by done. }
    assert (Hrem : remove_node r (X ++ (r :: R) ++ (y :: Y1) ++ M ++ b :: Y2)
                   = X ++ R ++ (y :: Y1) ++ M ++ b :: Y2).
    { apply remove_node_middle; notin_from Hnd. }
    assert (Hins : insert_before (Some b) r (X ++ R ++ (y :: Y1) ++ M ++ b :: Y2)
                   = X ++ R ++ (y :: Y1) ++ (M ++ [r]) ++ b :: Y2).
    { replace (X ++ R ++ (y :: Y1) ++ M ++ b :: Y2)
        with ((X ++ R ++ (y :: Y1) ++ M) ++ b :: Y2) by (by rewrite <- !app_assoc).
      rewrite insert_before_middle.
      - by rewrite <- ?app_assoc; simpl; rewrite <- ?app_assoc.
      - notin_from Hnd. }
    set (σ1 := set_dom (parentOf σ)
                 (<[c := X ++ R ++ (y :: Y1) ++ (M ++ [r]) ++ b :: Y2]> (childNodes σ)) σ).
    assert (E : reparentNodes (S fuel) (Some c) (Some r) (Some y) (Some b) σ
                = reparentNodes fuel (Some c) (head (R ++ y :: Y1)) (Some y) (Some b) σ1).
    { rewrite reparentNodes_unfold, decide_False by done. msimpl.
      rewrite (bind_of_returns _ _ _ _ _
                 (insertBefore_child σ c r b _ W Hl ltac:(set_solver) ltac:(set_solver) Hrb)).
      rewrite Hrem, Hins.
      rewrite (wf_nextSibling σ c r X (R ++ (y :: Y1) ++ M ++ b :: Y2) W Hl).
      by replace (head (R ++ (y :: Y1) ++ M ++ b :: Y2)) with (head (R ++ y :: Y1))
        by (by destruct R). }
    rewrite E.
    assert (W1 : dom_wf σ1 c).
    { apply dom_wf_rearrange; [done|]. rewrite Hl. solve_Permutation. }
    assert (Hl1 : children_of σ1 c = X ++ R ++ (y :: Y1) ++ (M ++ [r]) ++ b :: Y2).
    { unfold σ1. by rewrite children_of_set_dom, lookup_insert_eq. }
    specialize (IH X (y :: Y1) (M ++ [r]) b Y2 σ1 W1 Hl1 HY1 fuel).
    cbn beta in IH. change (head (y :: Y1)) with (Some y) in IH.
    replace (set_dom (parentOf σ1)
               (<[c := X ++ (y :: Y1) ++ (M ++ [r]) ++ R ++ b :: Y2]> (childNodes σ1)) σ1)
      with (set_dom (parentOf σ)
               (<[c := X ++ (y :: Y1) ++ M ++ (r :: R) ++ b :: Y2]> (childNodes σ)) σ) in IH.
    2:{ unfold σ1. rewrite set_dom_set_dom. simpl. rewrite insert_insert_eq.
        by rewrite <- !app_assoc. }
    destruct (decide (length R ≤ fuel)%nat).
    + rewrite decide_True by (simpl; lia). done.
    + rewrite decide_False by (simpl; lia). done.
Qed.

Lemma reparentNodes_backward c R : ∀ X1 M b X2 Y σ,
  dom_wf σ c →
  children_of σ c = X1 ++ M ++ b :: X2 ++ R ++ Y →
  fueled (λ fuel, reparentNodes fuel (Some c) (head (R ++ Y)) (head Y) (Some b))
    σ (length R) tt
    (set_dom (parentOf σ) (<[c := X1 ++ M ++ R ++ b :: X2 ++ Y]> (childNodes σ)) σ).
Proof.
  induction R as [|r R IH]; intros X1 M b X2 Y σ W Hl fuel.
  - cbn beta. rewrite (decide_True (P := (length [] ≤ fuel)%nat)) by (simpl; lia).
    assert (Hsame : set_dom (parentOf σ)
              (<[c := X1 ++ M ++ [] ++ b :: X2 ++ Y]> (childNodes σ)) σ = σ).
    { by apply set_dom_same, children_of_lookup. }
    rewrite Hsame, reparentNodes_unfold. by rewrite decide_True by done.
  - pose proof (wf_nodup _ _ W) as Hnd. rewrite Hl in Hnd.
    assert (Hry : Some r ≠ head Y).
    { destruct Y as [|y Y]; [done|]. simpl.
      assert (r ≠ y) by notin_from Hnd. congruence. }
    assert (Hrb : r ≠ b) by (apply not_eq_sym; notin_from Hnd).
    cbn beta. change (head ((r :: R) ++ Y)) with (Some r).
    destruct fuel as [|fuel].
    { rewrite decide_False by (simpl; lia). rewrite reparentNodes_unfold.
      by rewrite decide_False by done. }
    assert (Hrem : remove_node r (X1 ++ M ++ b :: X2 ++ (r :: R) ++ Y)
                   = X1 ++ M ++ b :: X2 ++ R ++ Y).
    { replace (X1 ++ M ++ b :: X2 ++ (r :: R) ++ Y)
        with ((X1 ++ M ++ b :: X2) ++ r :: R ++ Y)
        by (by rewrite <- ?app_assoc; simpl; rewrite <- ?app_assoc).
      rewrite remove_node_middle by notin_from Hnd.
      by rewrite <- ?app_assoc; simpl; rewrite <- ?app_assoc. }
    assert (Hins : insert_before (Some b) r (X1 ++ M ++ b :: X2 ++ R ++ Y)
                   = X1 ++ (M ++ [r]) ++ b :: X2 ++ R ++ Y).
    { replace (X1 ++ M ++ b :: X2 ++ R ++ Y)
        with ((X1 ++ M) ++ b :: X2 ++ R ++ Y) by (by rewrite <- !app_assoc).
      rewrite insert_before_middle.
      - by rewrite <- ?app_assoc; simpl; rewrite <- ?app_assoc.
      - notin_from Hnd. }
    set (σ1 := set_dom (parentOf σ)
                 (<[c := X1 ++ (M ++ [r]) ++ b :: X2 ++ R ++ Y]> (childNodes σ)) σ).
    assert (E : reparentNodes (S fuel) (Some c) (Some r) (head Y) (Some b) σ
                = reparentNodes fuel (Some c) (head (R ++ Y)) (head Y) (Some b) σ1).
    { rewrite reparentNodes_unfold, decide_False by done. msimpl.
      rewrite (bind_of_returns _ _ _ _ _
                 (insertBefore_child σ c r b _ W Hl ltac:(set_solver) ltac:(set_solver) Hrb)).
      rewrite Hrem, Hins.
      replace (X1 ++ M ++ b :: X2 ++ (r :: R) ++ Y)
        with ((X1 ++ M ++ b :: X2) ++ r :: R ++ Y) in Hl
        by (by rewrite <- ?app_assoc; simpl; rewrite <- ?app_assoc).
      by rewrite (wf_nextSibling σ c r _ _ W Hl). }
    rewrite E.
    assert (W1 : dom_wf σ1 c).
    { apply dom_wf_rearrange; [done|]. rewrite Hl. solve_Permutation. }
    assert (Hl1 : children_of σ1 c = X1 ++ (M ++ [r]) ++ b :: X2 ++ R ++ Y).
    { unfold σ1. by rewrite children_of_set_dom, lookup_insert_eq. }
    specialize (IH X1 (M ++ [r]) b X2 Y σ1 W1 Hl1 fuel).
    cbn beta in IH.
    replace (set_dom (parentOf σ1)
               (<[c := X1 ++ (M ++ [r]) ++ R ++ b :: X2 ++ Y]> (childNodes σ1)) σ1)
      with (set_dom (parentOf σ)
               (<[c := X1 ++ M ++ (r :: R) ++ b :: X2 ++ Y]> (childNodes σ)) σ) in IH.
    2:{ unfold σ1. rewrite set_dom_set_dom. simpl. rewrite insert_insert_eq.
        by rewrite <- !app_assoc. }
    destruct (decide (length R ≤ fuel)%nat).
    + rewrite decide_True by (simpl; lia). done.
    + rewrite decide_False by (simpl; lia). done.
Qed.

(** A run moved before its own first node: the first node stays, the
    others are put before it. *)
Lemma reparentNodes_self c R : ∀ X s Y σ,
  dom_wf σ c →
  children_of σ c = X ++ s :: R ++ Y →
  fueled (λ fuel, reparentNodes fuel (Some c) (Some s) (head Y) (Some s))
    σ (S (length R)) tt
    (set_dom (parentOf σ) (<[c := X ++ R ++ s :: Y]> (childNodes σ)) σ).
Proof.
  intros X s Y σ W Hl fuel.
  pose proof (wf_nodup _ _ W) as Hnd. rewrite Hl in Hnd.
  assert (Hsy : Some s ≠ head Y).
  { destruct Y as [|y Y]; [done|]. simpl.
    assert (s ≠ y) by notin_from Hnd. congruence. }
  cbn beta. destruct fuel as [|fuel].
  { rewrite decide_False by lia. rewrite reparentNodes_unfold.
    by rewrite decide_False by done. }
  assert (E : reparentNodes (S fuel) (Some c) (Some s) (head Y) (Some s) σ
              = reparentNodes fuel (Some c) (head (R ++ Y)) (head Y) (Some s) σ).
  { rewrite reparentNodes_unfold, decide_False by done. msimpl.
    rewrite (bind_of_returns _ _ _ _ _ (insertBefore_self σ c s X (R ++ Y) W Hl)).
    by rewrite (wf_nextSibling σ c s _ _ W Hl). }
  rewrite E.
  pose proof (reparentNodes_backward c R X [] s [] Y σ W Hl fuel) as HF.
  cbn beta in HF. simpl in HF.
  destruct (decide (length R ≤ fuel)%nat).
  - rewrite decide_True by lia. done.
  - rewrite decide_False by lia. done.
Qed.

(** *** [removeNodes] *)

Definition detach_all (R : list Node) (pa : gmap Node Node) : gmap Node Node :=
  foldl (λ pa n, delete n pa) pa R.

Lemma lookup_detach_all R pa n :
  detach_all R pa !! n = if decide (n ∈ R) then None else pa !! n.
Proof.
  revert pa. induction R as [|r R IH]; intros pa.
  - destruct (decide _) as [H|_]; [by apply not_elem_of_nil in H|done].
  - change (detach_all (r :: R) pa) with (detach_all R (delete r pa)).
    rewrite IH. destruct (decide (n ∈ R)) as [Hin|Hin].
    + by rewrite decide_True by set_solver.
    + destruct (decide (n = r)) as [->|Hne].
      * rewrite decide_True by set_solver. apply lookup_delete_eq.
      * rewrite decide_False by set_solver. by apply lookup_delete_ne.
Qed.

Lemma removeChild_child σ c n l :
  dom_wf σ c → children_of σ c = l → n ∈ l →
  removeChild c (Some n) σ
  = (Returns n,
     set_dom (delete n (parentOf σ)) (<[c := remove_node n l]> (childNodes σ)) σ).
Proof.
  intros W Hl Hn. unfold removeChild. rewrite <- Hl in Hn.
  pose proof (wf_child_parent σ c n W Hn) as Hp.
  rewrite decide_True by done. unfold detach.
  unfold parentNode in Hp. rewrite Hp. by rewrite Hl.
Qed.

Lemma dom_wf_remove σ c n :
  dom_wf σ c →
  dom_wf (set_dom (delete n (parentOf σ))
            (<[c := remove_node n (children_of σ c)]> (childNodes σ)) σ) c.
Proof.
  intros W. split; simpl.
  - rewrite children_of_set_dom, lookup_insert_eq. simpl.
    apply NoDup_filter, W.
  - intros x. rewrite children_of_set_dom, lookup_insert_eq. simpl.
    rewrite elem_of_remove_node, (wf_parent _ _ W), lookup_delete_Some. naive_solver.
  - intros p Hp. apply lookup_delete_Some in Hp as [_ Hp].
    destruct (wf_acyclic _ _ W p Hp) as [H1 H2]. split; [done|].
    intros H. apply lookup_delete_Some in H as [_ H]. done.
  - intros x Hx. apply lookup_delete_None. right. by apply (wf_fresh _ _ W).
  - apply (wf_container _ _ W).
  - by rewrite lookup_insert_eq.
Qed.

Lemma removeNodes_unfold fuel c s e :
  removeNodes fuel c s e
  = if decide (s = e) then mret tt else
    match fuel with
    | O => diverge
    | S fuel' =>
        s' ← deref s;
        σ ← get_state;
        let n := nextSibling σ s' in
        c' ← deref c;
        _ ← removeChild c' (Some s');
        removeNodes fuel' c n e
    end.
Proof. by destruct fuel. Qed.

Lemma removeNodes_range c R : ∀ X Y σ,
  dom_wf σ c →
  children_of σ c = X ++ R ++ Y →
  fueled (λ fuel, removeNodes fuel (Some c) (head (R ++ Y)) (head Y))
    σ (length R) tt
    (set_dom (detach_all R (parentOf σ)) (<[c := X ++ Y]> (childNodes σ)) σ) ∧
  dom_wf (set_dom (detach_all R (parentOf σ)) (<[c := X ++ Y]> (childNodes σ)) σ) c.
Proof.
  induction R as [|r R IH]; intros X Y σ W Hl.
  - assert (Hsame : set_dom (detach_all [] (parentOf σ))
              (<[c := X ++ Y]> (childNodes σ)) σ = σ).
    { by apply set_dom_same, children_of_lookup. }
    rewrite Hsame. split; [|done]. intros fuel.
    cbn beta. rewrite (decide_True (P := (length [] ≤ fuel)%nat)) by (simpl; lia).
    rewrite removeNodes_unfold. by rewrite decide_True by done.
  - pose proof (wf_nodup _ _ W) as Hnd. rewrite Hl in Hnd.
    assert (Hry : Some r ≠ head Y).
    { destruct Y as [|y Y]; [done|]. simpl.
      assert (r ≠ y) by notin_from Hnd. congruence. }
    assert (Hrem : remove_node r (X ++ (r :: R) ++ Y) = X ++ R ++ Y).
    { apply remove_node_middle; notin_from Hnd. }
    set (σ1 := set_dom (delete r (parentOf σ)) (<[c := X ++ R ++ Y]> (childNodes σ)) σ).
    assert (W1 : dom_wf σ1 c).
    { pose proof (dom_wf_remove σ c r W) as W1. by rewrite Hl, Hrem in W1. }
    assert (Hl1 : children_of σ1 c = X ++ R ++ Y).
    { unfold σ1. by rewrite children_of_set_dom, lookup_insert_eq. }
    destruct (IH X Y σ1 W1 Hl1) as [IH1 IH2].
    replace (set_dom (detach_all R (parentOf σ1)) (<[c := X ++ Y]> (childNodes σ1)) σ1)
      with (set_dom (detach_all (r :: R) (parentOf σ)) (<[c := X ++ Y]> (childNodes σ)) σ)
      in IH1, IH2.
    2:{ unfold σ1. rewrite set_dom_set_dom. simpl. by rewrite insert_insert_eq. }
    split; [|done]. intros fuel.
    cbn beta. change (head ((r :: R) ++ Y)) with (Some r).
    destruct fuel as [|fuel].
    { rewrite decide_False by (simpl; lia). rewrite removeNodes_unfold.
      by rewrite decide_False by done. }
    assert (E : removeNodes (S fuel) (Some c) (Some r) (head Y) σ
                = removeNodes fuel (Some c) (head (R ++ Y)) (head Y) σ1).
    { rewrite removeNodes_unfold, decide_False by done. msimpl.
      rewrite (bind_of_returns _ _ _ _ _
                 (removeChild_child σ c r _ W Hl ltac:(set_solver))).
      rewrite Hrem. by rewrite (wf_nextSibling σ c r _ _ W Hl). }
    rewrite E. specialize (IH1 fuel). cbn beta in IH1.
    destruct (decide (length R ≤ fuel)%nat).
    + rewrite decide_True by (simpl; lia). done.
    + rewrite decide_False by (simpl; lia). done.
Qed.

(** *** Inserting a node that was just created *)

Lemma insert_fresh σ c d b l1 l2 :
  dom_wf σ c → children_of σ c = l1 ++ b :: l2 →
  (n ← createNode d; insertBefore c n (Some b)) σ
  = (Returns (nextNode σ),
     set_dom (<[nextNode σ := c]> (parentOf σ))
             (<[c := l1 ++ nextNode σ :: b :: l2]> (childNodes σ))
             (alloc_node d σ)) ∧
  dom_wf (set_dom (<[nextNode σ := c]> (parentOf σ))
            (<[c := l1 ++ nextNode σ :: b :: l2]> (childNodes σ))
            (alloc_node d σ)) c.
Proof.
  intros W Hl. pose proof (wf_nodup _ _ W) as Hnd. rewrite Hl in Hnd.
  assert (Hb : b ∈ children_of σ c) by (rewrite Hl; set_solver).
  assert (Hbn : b ≠ nextNode σ).
  { pose proof (wf_child_old σ c b W Hb). lia. }
  assert (Hfresh : nextNode σ ∉ children_of σ c).
  { intros Hin. pose proof (wf_child_old σ c _ W Hin). lia. }
  split.
  - rewrite bind_unfold. unfold createNode, insertBefore.
    rewrite decide_True by (by apply (wf_child_parent σ c b W)).
    rewrite decide_False by done. unfold detach. simpl.
    rewrite (wf_fresh _ _ W) by lia. simpl.
    unfold children_of in Hl |- *. simpl. rewrite Hl.
    rewrite insert_before_middle by notin_from Hnd. done.
  - split; simpl.
    + rewrite children_of_set_dom, lookup_insert_eq. simpl.
      rewrite Hl in Hfresh.
      assert (Hp : l1 ++ nextNode σ :: b :: l2 ≡ₚ nextNode σ :: l1 ++ b :: l2)
        by solve_Permutation.
      rewrite Hp. by apply NoDup_cons.
    + intros x. rewrite children_of_set_dom, lookup_insert_eq. simpl.
      assert (Hp : l1 ++ nextNode σ :: b :: l2 ≡ₚ nextNode σ :: l1 ++ b :: l2)
        by solve_Permutation.
      rewrite Hp, elem_of_cons, <- Hl, (wf_parent _ _ W), lookup_insert_Some.
      split.
      * intros [->|H]; [by left|]. right. split; [|done].
        intros <-. by rewrite (wf_fresh _ _ W) in H by lia.
      * intros [[-> _]|[_ H]]; auto.
    + intros p Hp. pose proof (wf_container _ _ W).
      rewrite lookup_insert_ne in Hp by lia.
      destruct (wf_acyclic _ _ W p Hp) as [H1 H2]. split; [lia|].
      rewrite lookup_insert_ne by lia. done.
    + intros x Hx. rewrite lookup_insert_ne by lia. apply (wf_fresh _ _ W). lia.
    + pose proof (wf_container _ _ W). lia.
    + by rewrite lookup_insert_eq.
Qed.

(** *** The walk with a removal handler *)

(** Everything but the trace. *)
Definition non_trace (σ : State) :=
  (nodeData σ, parentOf σ, childNodes σ, nextNode σ, parts σ, nextPart σ,
   partListCache σ, keyListCache σ).

Lemma dom_wf_keeps σ σ' c :
  parentOf σ' = parentOf σ → childNodes σ' = childNodes σ → nextNode σ' = nextNode σ →
  dom_wf σ c → dom_wf σ' c.
Proof.
  intros Hp Hc Hn [W1 W2 W3 W4 W5 W6]. unfold children_of in *.
  split; unfold children_of; rewrite ?Hp, ?Hc, ?Hn; done.
Qed.

Lemma dom_wf_add_event σ c e : dom_wf σ c → dom_wf (add_event e σ) c.
Proof. by apply dom_wf_keeps. Qed.

Lemma next_in_elem n l x : next_in n l = Some x → x ∈ l.
Proof.
  induction l as [|y l IH]; simpl; [done|].
  destruct (decide (y = n)).
  - destruct l; simpl; [done|]. intros [= ->]. set_solver.
  - intros H. right. by apply IH.
Qed.

Lemma wf_nextSibling_child σ c n x :
  dom_wf σ c → n ∈ children_of σ c → nextSibling σ n = Some x → x ∈ children_of σ c.
Proof.
  intros W Hn. unfold nextSibling. rewrite (wf_child_parent σ c n W Hn).
  apply next_in_elem.
Qed.

(** On a child [n] of [c], [token.commit()] asks [n] to remove [c]. *)
Lemma token_commit_child σ c n prevented :
  dom_wf σ c → n ∈ children_of σ c →
  token_commit (mkToken n (Some c) prevented) σ = (Throws NotFoundError, σ).
Proof.
  intros W Hn. unfold token_commit, commitRemoveNode. cbn [target container].
  rewrite bind_ret, bind_deref, bind_unfold. unfold removeChild.
  rewrite decide_False; [done|].
  intros Hc. destruct (wf_acyclic _ _ W n Hc) as [_ H].
  by apply H, (wf_parent _ _ W).
Qed.

Definition handler_event_on (σ : State) (c : Node) (ev : Event) : Prop :=
  ∃ tok, ev = EvHandler tok ∧ is_marker σ (target tok) = false ∧
         container tok = Some c ∧ target tok ∈ children_of σ c.

Lemma removal_walk_unfold fuel c h node e :
  removal_walk fuel c h node e
  = if decide (node = e) then mret tt else
    match fuel with
    | O => diverge
    | S fuel' =>
        match node with
        | None => throwIllegalNodeModification
        | Some n =>
            σ ← get_state;
            let next := nextSibling σ n in
            _ ← (if is_marker σ n then mret tt
                 else
                   let token := mkToken n c false in
                   _ ← emit (EvHandler token);
                   let token' := if h token then preventDefault token else token in
                   if defaultPrevented token' then mret tt else token_commit token');
            removal_walk fuel' c h next e
        end
    end.
Proof. by destruct fuel. Qed.

Lemma removal_walk_frame fuel c h : ∀ start e σ r σ',
  dom_wf σ c →
  (∀ n, start = Some n → n ∈ children_of σ c) →
  removal_walk fuel (Some c) h start e σ = (r, σ') →
  non_trace σ' = non_trace σ ∧
  ∃ evs, trace σ' = evs ++ trace σ ∧ Forall (handler_event_on σ c) evs.
Proof.
  induction fuel as [|fuel IH]; intros start e σ r σ' W Hs;
    rewrite removal_walk_unfold;
    (destruct (decide _) as [|Hne]; [intros [= _ <-]; split; [done|by exists []]|]).
  - intros [= _ <-]. split; [done|by exists []].
  - destruct start as [n|]; [|intros [= _ <-]; split; [done|by exists []]].
    specialize (Hs n eq_refl). rewrite bind_get. cbv zeta.
    destruct (is_marker σ n) eqn:Hm.
    + rewrite bind_ret. intros H. eapply IH in H; [done|done|].
      intros x Hx. by eapply wf_nextSibling_child.
    + rewrite bind_unfold, bind_emit.
      assert (Wev : dom_wf (add_event (EvHandler (mkToken n (Some c) false)) σ) c)
        by (by apply dom_wf_add_event).
      assert (Hev : handler_event_on σ c (EvHandler (mkToken n (Some c) false))).
      { by eexists. }
      destruct (h _); simpl.
      * intros H. eapply IH in H as (Hnt & evs & Ht & HF); [| |].
        -- split; [done|]. exists (evs ++ [EvHandler (mkToken n (Some c) false)]).
           rewrite Ht. simpl. rewrite <- app_assoc. split; [done|].
           apply Forall_app. split; [|by constructor].
           eapply Forall_impl; [done|]. intros ev (tok & -> & H1 & H2 & H3).
           by exists tok.
        -- done.
        -- intros x Hx. by eapply wf_nextSibling_child.
      * rewrite token_commit_child; [|done|done].
        intros [= _ <-]. split; [done|].
        exists [EvHandler (mkToken n (Some c) false)]. split; [done|]. by constructor.
Qed.

(** *** [removePart] *)

Lemma removePart_unfold fuel p d s e h σ :
  parts σ !! p = Some d → startNode d = Some s → endNode d = Some e →
  removePart fuel (SPart p) h σ
  = removeNodesWithRemovalHandler fuel (parentNode σ s) (Some s) (nextSibling σ e) h
      (add_event (EvRemovePart p) σ).
Proof.
  intros Hp Hs He. unfold removePart.
  rewrite bind_as_part, (bind_getPart _ _ _ _ Hp), Hs, He.
  by rewrite !bind_deref, bind_emit, bind_get.
Qed.

(** *** Walks that do not reach their end node *)





Lemma removePart_handler fuel p d s e h c σ r σ' :
  dom_wf σ c →
  parts σ !! p = Some d → startNode d = Some s → endNode d = Some e →
  s ∈ children_of σ c →
  removePart fuel (SPart p) (Some h) σ = (r, σ') →
  non_trace σ' = non_trace σ ∧
  ∃ evs, trace σ' = evs ++ EvRemovePart p :: trace σ ∧ Forall (handler_event_on σ c) evs.
Proof.
  intros W Hp Hs He Hin. rewrite (removePart_unfold _ _ _ _ _ _ _ Hp Hs He).
  rewrite (wf_child_parent σ c s W Hin). simpl. intros H.
  eapply removal_walk_frame in H; [done|by apply dom_wf_add_event|].
  by intros n [= <-].
Qed.

Lemma removePart_plain p d s m e c X Y σ :
  dom_wf σ c →
  parts σ !! p = Some d → startNode d = Some s → endNode d = Some e →
  children_of σ c = X ++ (s :: m ++ [e]) ++ Y →
  fueled (λ fuel, removePart fuel (SPart p) None) σ (S (S (length m))) tt
    (set_dom (detach_all (s :: m ++ [e]) (parentOf σ)) (<[c := X ++ Y]> (childNodes σ))
       (add_event (EvRemovePart p) σ)) ∧
  dom_wf (set_dom (detach_all (s :: m ++ [e]) (parentOf σ)) (<[c := X ++ Y]> (childNodes σ))
            (add_event (EvRemovePart p) σ)) c.
Proof.
  intros W Hp Hs He Hl.
  assert (Hin : s ∈ children_of σ c) by (rewrite Hl; set_solver).
  assert (Hnext : nextSibling σ e = head Y).
  { eapply (wf_nextSibling σ c e (X ++ s :: m)); [done|].
    rewrite Hl. by rewrite <- ?app_assoc; simpl; rewrite <- ?app_assoc. }
  assert (Wev : dom_wf (add_event (EvRemovePart p) σ) c) by (by apply dom_wf_add_event).
  destruct (removeNodes_range c (s :: m ++ [e]) X Y _ Wev Hl) as [HF HW].
  split; [|done]. intros fuel.
  rewrite (removePart_unfold _ _ _ _ _ _ _ Hp Hs He).
  rewrite (wf_child_parent σ c s W Hin), Hnext. simpl.
  specialize (HF fuel). cbn beta in HF. simpl in HF.
  rewrite length_app in HF. simpl in HF.
  replace (S (length m + 1)) with (S (S (length m))) in HF by lia. done.
Qed.

(** C9: in a well-formed container, the walk with a removal handler never
    passes a marker to the handler and removes no node, so no marker
    either; hence removing a part with a handler leaves the nodes of the
    part, its two boundary markers among them, in the child list, whereas
    without a handler every node from the start marker to the end marker
    is taken out of the container. *)
Theorem removal_with_handler_keeps_markers (σ : State) (c : Node) :
  dom_wf σ c →
  (∀ fuel h start end_ r σ',
     (∀ n, start = Some n → n ∈ children_of σ c) →
     removeNodesWithRemovalHandler fuel (Some c) start end_ (Some h) σ = (r, σ') →
     children_of σ' c = children_of σ c ∧
     (∀ n, parentNode σ' n = parentNode σ n) ∧
     ∃ evs, trace σ' = evs ++ trace σ ∧
            Forall (λ ev, ∃ tok, ev = EvHandler tok ∧
                                 is_marker σ (target tok) = false) evs) ∧
  (∀ fuel h p d s e r σ',
     parts σ !! p = Some d → startNode d = Some s → endNode d = Some e →
     s ∈ children_of σ c → e ∈ children_of σ c →
     removePart fuel (SPart p) (Some h) σ = (r, σ') →
     s ∈ children_of σ' c ∧ e ∈ children_of σ' c) ∧
  (∀ fuel p d s m e X Y,
     parts σ !! p = Some d → startNode d = Some s → endNode d = Some e →
     children_of σ c = X ++ (s :: m ++ [e]) ++ Y →
     (S (S (length m)) ≤ fuel)%nat →
     ∃ σ', removePart fuel (SPart p) None σ = (Returns tt, σ') ∧
           children_of σ' c = X ++ Y ∧
           ∀ n, n ∈ s :: m ++ [e] → parentNode σ' n = None).
Proof.
  intros W. split; [|split].
  - intros fuel h start end_ r σ' Hs H. simpl in H.
    eapply removal_walk_frame in H as (Hnt & evs & Ht & HF); [|done|done].
    unfold non_trace in Hnt. injection Hnt as _ Hp Hc _ _ _ _ _.
    split; [by unfold children_of; rewrite Hc|].
    split; [by intros n; unfold parentNode; rewrite Hp|].
    exists evs. split; [done|]. eapply Forall_impl; [done|].
    intros ev (tok & -> & Hm & _). by exists tok.
  - intros fuel h p d s e r σ' Hp Hs He Hsin Hein H.
    eapply removePart_handler in H as (Hnt & _); [|done..].
    unfold non_trace in Hnt. injection Hnt as _ _ Hc _ _ _ _ _.
    unfold children_of in *. by rewrite Hc.
  - intros fuel p d s m e X Y Hp Hs He Hl Hfuel.
    destruct (removePart_plain p d s m e c X Y σ W Hp Hs He Hl) as [HF _].
    eexists. split; [by apply (fueled_enough _ _ _ _ _ _ HF)|].
    split; [by rewrite children_of_set_dom, lookup_insert_eq|].
    intros n Hn. unfold parentNode. rewrite parentOf_set_dom.
    rewrite (lookup_detach_all (s :: m ++ [e])). by rewrite decide_True.
Qed.

(** ** Layout of a child list *)

(** The place a part, or a single boundary node, takes in a child list. *)
Inductive Bound := Single (x : Node) | Range (s e : Node).

Definition first_node (b : Bound) : Node :=
  match b with Single x => x | Range s _ => s end.

Inductive block : Bound → list Node → Prop :=
| block_single x : block (Single x) [x]
| block_range s m e : block (Range s e) (s :: m ++ [e]).

(** [layout bs l]: the blocks [bs] occur in [l] in this order, each as a
    contiguous run, with arbitrary other nodes before, between and after
    them. *)
Inductive layout : list Bound → list Node → Prop :=
| layout_nil j : layout [] j
| layout_cons b bs j blk rest :
    block b blk → layout bs rest → layout (b :: bs) (j ++ blk ++ rest).

Lemma block_head b blk : block b blk → ∃ tl, blk = first_node b :: tl.
Proof. intros []; simpl; eauto. Qed.

(** The markers of a range of the layout occur in the child list, the
    start marker before the end marker. *)
Lemma layout_range_in s e bs l :
  layout bs l → Range s e ∈ bs → ∃ l1 l2 l3, l = l1 ++ s :: l2 ++ e :: l3.
Proof.
  induction 1 as [j|b bs j blk rest Hb Hl IH]; intros Hin.
  - by apply elem_of_nil in Hin.
  - apply elem_of_cons in Hin as [<-|Hin].
    + inversion Hb; subst. exists j, m, rest. simpl. by rewrite <- app_assoc.
    + destruct (IH Hin) as (l1 & l2 & l3 & ->).
      exists (j ++ blk ++ l1), l2, l3. by rewrite <- !app_assoc.
Qed.

Lemma layout_junk bs j l : layout bs l → layout bs (j ++ l).
Proof.
  intros [j'|b bs' j' blk rest Hb Hl]; [constructor|].
  rewrite app_assoc. by constructor.
Qed.

Lemma layout_trailing bs l j : layout bs l → layout bs (l ++ j).
Proof.
  induction 1 as [j'|b bs' j' blk rest Hb Hl IH]; [constructor|].
  rewrite <- !app_assoc. by constructor.
Qed.

Lemma layout_app bs1 bs2 l1 l2 :
  layout bs1 l1 → layout bs2 l2 → layout (bs1 ++ bs2) (l1 ++ l2).
Proof.
  induction 1 as [j|b bs' j blk rest Hb Hl IH]; intros H2; simpl.
  - by apply layout_junk.
  - rewrite <- !app_assoc. constructor; [done|]. by apply IH.
Qed.

Lemma layout_app_inv bs1 bs2 l :
  layout (bs1 ++ bs2) l → ∃ l1 l2, l = l1 ++ l2 ∧ layout bs1 l1 ∧ layout bs2 l2.
Proof.
  revert l. induction bs1 as [|b bs1 IH]; intros l H; simpl in H.
  - exists [], l. split; [done|]. split; [constructor|done].
  - inversion H as [|b' bs' j blk rest Hb Hl]; subst.
    destruct (IH _ Hl) as (l1 & l2 & -> & H1 & H2).
    exists (j ++ blk ++ l1), l2. rewrite <- !app_assoc.
    split; [done|]. split; [by constructor|done].
Qed.

Lemma layout_split bs1 b bs2 l :
  layout (bs1 ++ b :: bs2) l →
  ∃ X blk Y, l = X ++ blk ++ Y ∧ block b blk ∧ layout bs1 X ∧ layout bs2 Y.
Proof.
  intros H. apply layout_app_inv in H as (l1 & l2 & -> & H1 & H2).
  inversion H2 as [|b' bs' j blk rest Hb Hl]; subst.
  exists (l1 ++ j), blk, rest. rewrite <- !app_assoc.
  split; [done|]. split; [done|]. split; [by apply layout_trailing|done].
Qed.

Lemma layout_join bs1 b bs2 X blk Y :
  layout bs1 X → block b blk → layout bs2 Y → layout (bs1 ++ b :: bs2) (X ++ blk ++ Y).
Proof.
  intros H1 Hb H2. apply layout_app; [done|].
  by apply (layout_cons b bs2 [] blk Y).
Qed.

Lemma layout_drop bs1 b bs2 l : layout (bs1 ++ b :: bs2) l → layout (bs1 ++ bs2) l.
Proof.
  intros H. apply layout_split in H as (X & blk & Y & -> & Hb & H1 & H2).
  apply layout_app; [done|]. by apply layout_junk.
Qed.

Lemma layout_head b bs l :
  layout (b :: bs) l →
  ∃ j tl rest, l = j ++ first_node b :: tl ++ rest ∧ block b (first_node b :: tl) ∧
               layout bs rest.
Proof.
  inversion 1 as [|b' bs' j blk rest Hb Hl]; subst.
  destruct (block_head _ _ Hb) as [tl ->]. by exists j, tl, rest.
Qed.

Lemma layout_elem bs l b x : layout bs l → b ∈ bs → first_node b = x → x ∈ l.
Proof.
  intros H Hin <-. apply list_elem_of_split in Hin as (bs1 & bs2 & ->).
  apply layout_split in H as (X & blk & Y & -> & Hb & _).
  destruct (block_head _ _ Hb) as [tl ->]. set_solver.
Qed.

(** ** Parts in the DOM *)

Definition part_markers (σ : State) (p : PartRef) : option (option Node * option Node) :=
  (λ d, (startNode d, endNode d)) <$> parts σ !! p.

(** Existing parts keep their boundary markers; part references are only
    added. *)
Definition markers_kept : relation State := λ σ σ',
  (nextPart σ ≤ nextPart σ')%nat ∧
  ∀ p, (p < nextPart σ)%nat → part_markers σ' p = part_markers σ p.

#[global] Instance markers_kept_po : PreOrder markers_kept.
Proof.
  split.
  - intros σ. split; [lia|done].
  - intros x y z [H1 H2] [H3 H4]. split; [lia|].
    intros p Hp. rewrite H4 by lia. by apply H2.
Qed.

Lemma markers_kept_parts σ σ' :
  parts σ' = parts σ → nextPart σ' = nextPart σ → markers_kept σ σ'.
Proof. intros H1 H2. split; [lia|]. intros p _. unfold part_markers. by rewrite H1. Qed.

Lemma markers_kept_non_dom σ σ' : keeps non_dom σ σ' → markers_kept σ σ'.
Proof. unfold keeps, non_dom. intros [= ? ? ? ? ?]. by apply markers_kept_parts. Qed.

(** A part whose reference is allocated and which has both markers. *)
Definition live (σ : State) (p : PartRef) : Prop :=
  (p < nextPart σ)%nat ∧ ∃ s e, part_markers σ p = Some (Some s, Some e).

Definition bound_of (σ : State) (p : PartRef) : Bound :=
  match part_markers σ p with
  | Some (Some s, Some e) => Range s e
  | _ => Single 0%nat
  end.

Lemma live_kept σ σ' p : markers_kept σ σ' → live σ p → live σ' p.
Proof.
  intros [H1 H2] [Hp (s & e & Hm)]. split; [lia|]. exists s, e. by rewrite H2.
Qed.

Lemma bound_of_kept σ σ' p :
  markers_kept σ σ' → (p < nextPart σ)%nat → bound_of σ' p = bound_of σ p.
Proof. intros [_ H] Hp. unfold bound_of. by rewrite H. Qed.

Lemma bounds_kept σ σ' seq :
  markers_kept σ σ' → Forall (live σ) seq → bound_of σ' <$> seq = bound_of σ <$> seq.
Proof.
  intros Hk HF. apply list_fmap_ext. intros i p Hi.
  apply bound_of_kept; [done|]. eapply Forall_lookup in HF; [|done]. apply HF.
Qed.

Lemma live_bound σ p : live σ p → ∃ s e, part_markers σ p = Some (Some s, Some e) ∧
                                         bound_of σ p = Range s e.
Proof. intros [_ (s & e & H)]. exists s, e. unfold bound_of. by rewrite H. Qed.

Lemma part_markers_lookup σ p s e :
  part_markers σ p = Some (Some s, Some e) →
  ∃ d, parts σ !! p = Some d ∧ startNode d = Some s ∧ endNode d = Some e.
Proof.
  unfold part_markers. destruct (parts σ !! p) as [d|]; [|done].
  intros [= H1 H2]. eauto.
Qed.

(** *** Content insertion *)

Lemma insert_content_spec c ds : ∀ σ e l1 l2,
  dom_wf σ c → children_of σ c = l1 ++ e :: l2 →
  ∃ σ' fresh,
    insert_content c (Some e) ds σ = (Returns tt, σ') ∧
    children_of σ' c = l1 ++ fresh ++ e :: l2 ∧
    dom_wf σ' c ∧ keeps non_dom σ σ'.
Proof.
  induction ds as [|d ds IH]; intros σ e l1 l2 W Hl.
  - exists σ, []. done.
  - destruct (insert_fresh σ c d e l1 l2 W Hl) as [E W1].
    set (σ1 := set_dom _ _ (alloc_node d σ)) in *.
    assert (Hl1 : children_of σ1 c = (l1 ++ [nextNode σ]) ++ e :: l2).
    { unfold σ1. rewrite children_of_set_dom, lookup_insert_eq. simpl.
      by rewrite <- app_assoc. }
    destruct (IH σ1 e _ l2 W1 Hl1) as (σ' & fresh & E' & Hl' & W' & K').
    exists σ', (nextNode σ :: fresh). split; [|split; [|split]].
    + simpl. rewrite bind_unfold.
      rewrite bind_unfold in E.
      destruct (createNode d σ) as [[n| |] σn] eqn:En; try done.
      rewrite bind_unfold. rewrite E. done.
    + rewrite Hl'. by rewrite <- app_assoc.
    + done.
    + etrans; [|exact K']. done.
Qed.

(** *** [updatePart] *)

Lemma setValue_eval σ p d v :
  parts σ !! p = Some d →
  setValue p v σ
  = (Returns tt,
     set_parts (<[p := mkNodePart (startNode d) (endNode d) (options d) (value d) v]>
                  (parts σ)) (nextPart σ) σ).
Proof. intros H. unfold setValue. by rewrite (bind_getPart _ _ _ _ H), bind_get. Qed.

Lemma part_markers_insert σ σ' p d d' :
  parts σ !! p = Some d →
  parts σ' = <[p := d']> (parts σ) → nextPart σ' = nextPart σ →
  startNode d' = startNode d → endNode d' = endNode d →
  markers_kept σ σ'.
Proof.
  intros Hp Hps Hn Hs He. split; [lia|]. intros q _. unfold part_markers. rewrite Hps.
  destruct (decide (p = q)) as [<-|Hne].
  - rewrite lookup_insert_eq, Hp. simpl. by rewrite Hs, He.
  - by rewrite lookup_insert_ne.
Qed.

Lemma updatePart_spec c σ p s e X m Y v fuel r σ' :
  dom_wf σ c →
  part_markers σ p = Some (Some s, Some e) →
  children_of σ c = X ++ (s :: m ++ [e]) ++ Y →
  updatePart materialize fuel (SPart p) v σ = (Returns r, σ') →
  r = SPart p ∧
  ∃ m', children_of σ' c = X ++ (s :: m' ++ [e]) ++ Y ∧
        dom_wf σ' c ∧ markers_kept σ σ'.
Proof.
  intros W Hm Hl H.
  apply part_markers_lookup in Hm as (d & Hp & Hs & He).
  unfold updatePart in H. rewrite bind_as_part, bind_emit in H.
  set (σa := add_event (EvUpdate p v) σ) in *.
  assert (Wa : dom_wf σa c) by (by apply dom_wf_add_event).
  rewrite (bind_of_returns _ _ _ _ _ (setValue_eval σa p d v Hp)) in H.
  set (d1 := mkNodePart (startNode d) (endNode d) (options d) (value d) v) in *.
  set (σb := set_parts _ _ σa) in *.
  assert (Wb : dom_wf σb c) by (by eapply dom_wf_keeps; [..|exact Wa]).
  assert (Hlb : children_of σb c = (X ++ [s]) ++ m ++ e :: Y).
  { change (children_of σb c) with (children_of σ c). rewrite Hl.
    by rewrite <- ?app_assoc; simpl; rewrite <- ?app_assoc. }
  apply bind_returns in H as ([] & σ2 & H & Hr). apply ret_inv in Hr as [[= <-] ->].
  split; [done|].
  unfold commit in H.
  assert (Hpb : parts σb !! p = Some d1) by apply lookup_insert_eq.
  rewrite (bind_getPart _ _ _ _ Hpb) in H. simpl startNode in H. rewrite Hs in H.
  rewrite bind_deref, bind_get in H. simpl endNode in H. rewrite He in H.
  assert (Hsin : s ∈ children_of σb c) by (rewrite Hlb; set_solver).
  rewrite (wf_child_parent σb c s Wb Hsin) in H.
  assert (Hns : nextSibling σb s = head (m ++ e :: Y)).
  { apply (wf_nextSibling σb c s X (m ++ e :: Y) Wb).
    rewrite Hlb. by rewrite <- app_assoc. }
  rewrite Hns in H.
  apply bind_returns in H as ([] & σc & E & H).
  destruct (removeNodes_range c m (X ++ [s]) (e :: Y) σb Wb Hlb) as [HF Wc].
  apply (fueled_returns _ _ _ _ _ _ _ _ HF) in E as (_ & -> & _).
  set (σc := set_dom _ _ σb) in *.
  assert (Hlc : children_of σc c = (X ++ [s]) ++ e :: Y).
  { unfold σc. by rewrite children_of_set_dom, lookup_insert_eq. }
  rewrite bind_deref, bind_get in H.
  assert (Hein : e ∈ children_of σc c) by (rewrite Hlc; set_solver).
  rewrite (wf_child_parent σc c e Wc Hein), bind_deref in H.
  destruct (insert_content_spec c (materialize (pendingValue d1)) σc e _ Y Wc Hlc)
    as (σd & fresh & E & Hld & Wd & Kd).
  rewrite (bind_of_returns _ _ _ _ _ E), bind_get in H.
  apply modify_inv in H as [_ ->].
  exists fresh. split; [|split].
  - change (children_of (set_parts _ _ σd) c) with (children_of σd c). rewrite Hld.
    by rewrite <- ?app_assoc; simpl; rewrite <- ?app_assoc.
  - by eapply dom_wf_keeps; [..|exact Wd].
  - unfold keeps, non_dom in Kd. injection Kd as Kp Kn _ _ _.
    eapply (part_markers_insert σ _ p d); [done| |simpl..]; simpl.
    + rewrite Kp. unfold σc, σb. simpl. by rewrite insert_insert_eq.
    + by rewrite Kn.
    + done.
    + done.
Qed.

(** *** The helpers of [repeat] inside one container *)

Lemma insert_fresh_eval σ c d b l1 l2 :
  dom_wf σ c → children_of σ c = l1 ++ b :: l2 →
  insertBefore c (nextNode σ) (Some b) (alloc_node d σ)
  = (Returns (nextNode σ),
     set_dom (<[nextNode σ := c]> (parentOf σ))
             (<[c := l1 ++ nextNode σ :: b :: l2]> (childNodes σ))
             (alloc_node d σ)).
Proof. intros W Hl. by destruct (insert_fresh σ c d b l1 l2 W Hl) as [E _]. Qed.

Lemma bind_createMarker {B} (k : Node → M B) σ :
  (createMarker ≫= k) σ
  = k (nextNode σ) (alloc_node (mkNodeData COMMENT_NODE (Some ""%string)) σ).
Proof. done. Qed.

Section Container.
Variables (c : Node) (cp : PartRef) (cs ce : Node).

(** The node a part given as reference stands for: its start marker, or
    the end marker of the container part when there is no reference. *)
Definition ref_is (σ : State) (ref : Slot) (b : Node) : Prop :=
  match ref with
  | SPart r => ∃ x, part_markers σ r = Some (Some b, x)
  | SUndefined => b = ce
  | SNull => False
  end.

Lemma insertPartBefore_eval σ p s e ref b fuel :
  dom_wf σ c →
  part_markers σ cp = Some (Some cs, Some ce) → cs ∈ children_of σ c →
  part_markers σ p = Some (Some s, Some e) →
  ref_is σ ref b →
  insertPartBefore fuel cp (SPart p) ref σ
  = if decide (nextSibling σ e = Some b) then (Returns tt, σ)
    else reparentNodes fuel (Some c) (Some s) (nextSibling σ e) (Some b)
           (add_event (EvMove p) σ).
Proof.
  intros W Hcp Hcs Hp Hr.
  apply part_markers_lookup in Hcp as (cd & Hcd & Hcds & Hcde).
  apply part_markers_lookup in Hp as (d & Hd & Hds & Hde).
  unfold insertPartBefore.
  rewrite (bind_getPart _ _ _ _ Hcd), Hcds, bind_deref, bind_get. cbv zeta.
  rewrite (wf_child_parent σ c cs W Hcs).
  assert (Hb : (match ref with
                | SPart r => rp ← getPart r; mret (startNode rp)
                | _ => mret (endNode cd)
                end) σ = (Returns (Some b), σ)).
  { destruct ref as [| |r]; simpl in Hr.
    - subst b. by rewrite Hcde.
    - done.
    - destruct Hr as [x Hr]. unfold part_markers in Hr.
      destruct (parts σ !! r) as [rd|] eqn:Hrd; [|done]. injection Hr as Hr _.
      rewrite (bind_getPart _ _ _ _ Hrd). by rewrite Hr. }
  rewrite (bind_of_returns _ _ _ _ _ Hb).
  rewrite bind_as_part, (bind_getPart _ _ _ _ Hd), Hde, bind_deref, Hds.
  destruct (decide _); [done|]. by rewrite bind_emit.
Qed.

Lemma insertPartBefore_forward σ p s e m X Y1 b Y2 ref fuel σ' :
  dom_wf σ c →
  part_markers σ cp = Some (Some cs, Some ce) → cs ∈ children_of σ c →
  part_markers σ p = Some (Some s, Some e) →
  children_of σ c = X ++ (s :: m ++ [e]) ++ Y1 ++ b :: Y2 →
  ref_is σ ref b →
  insertPartBefore fuel cp (SPart p) ref σ = (Returns tt, σ') →
  children_of σ' c = X ++ Y1 ++ (s :: m ++ [e]) ++ b :: Y2 ∧
  dom_wf σ' c ∧ markers_kept σ σ'.
Proof.
  intros W Hcp Hcs Hp Hl Hr H.
  rewrite (insertPartBefore_eval σ p s e ref b fuel W Hcp Hcs Hp Hr) in H.
  pose proof (wf_nodup _ _ W) as Hnd. rewrite Hl in Hnd.
  assert (Hns : nextSibling σ e = head (Y1 ++ b :: Y2)).
  { apply (wf_nextSibling σ c e (X ++ s :: m) _ W).
    rewrite Hl. by rewrite <- ?app_assoc; simpl; rewrite <- ?app_assoc. }
  rewrite Hns in H. destruct Y1 as [|y Y1].
  - simpl in H. rewrite decide_True in H by done. injection H as <-. done.
  - change (head ((y :: Y1) ++ b :: Y2)) with (Some y) in H.
    assert (y ≠ b) by notin_from Hnd.
    rewrite decide_False in H by congruence.
    assert (Wa : dom_wf (add_event (EvMove p) σ) c) by (by apply dom_wf_add_event).
    pose proof (reparentNodes_forward c (s :: m ++ [e]) X (y :: Y1) [] b Y2 _ Wa Hl
                  ltac:(done)) as HF.
    apply (fueled_returns _ _ _ _ _ _ _ _ HF) in H as (_ & -> & _).
    split; [by rewrite children_of_set_dom, lookup_insert_eq|].
    split; [|by apply markers_kept_parts].
    apply (dom_wf_rearrange _ c _ Wa).
    change (children_of (add_event (EvMove p) σ) c) with (children_of σ c).
    rewrite Hl. solve_Permutation.
Qed.

Lemma insertPartBefore_backward σ p s e m X1 b X2 Y ref fuel σ' :
  dom_wf σ c →
  part_markers σ cp = Some (Some cs, Some ce) → cs ∈ children_of σ c →
  part_markers σ p = Some (Some s, Some e) →
  children_of σ c = X1 ++ b :: X2 ++ (s :: m ++ [e]) ++ Y →
  ref_is σ ref b →
  insertPartBefore fuel cp (SPart p) ref σ = (Returns tt, σ') →
  children_of σ' c = X1 ++ (s :: m ++ [e]) ++ b :: X2 ++ Y ∧
  dom_wf σ' c ∧ markers_kept σ σ'.
Proof.
  intros W Hcp Hcs Hp Hl Hr H.
  rewrite (insertPartBefore_eval σ p s e ref b fuel W Hcp Hcs Hp Hr) in H.
  pose proof (wf_nodup _ _ W) as Hnd. rewrite Hl in Hnd.
  assert (Hns : nextSibling σ e = head Y).
  { apply (wf_nextSibling σ c e (X1 ++ b :: X2 ++ s :: m) _ W).
    rewrite Hl. by rewrite <- ?app_assoc; simpl; rewrite <- ?app_assoc. }
  rewrite Hns in H.
  assert (Hne : head Y ≠ Some b).
  { destruct Y as [|y Y]; [done|]. simpl.
    assert (b ≠ y) by notin_from Hnd. congruence. }
  rewrite decide_False in H by done.
  assert (Wa : dom_wf (add_event (EvMove p) σ) c) by (by apply dom_wf_add_event).
  pose proof (reparentNodes_backward c (s :: m ++ [e]) X1 [] b X2 Y _ Wa Hl) as HF.
  apply (fueled_returns _ _ _ _ _ _ _ _ HF) in H as (_ & -> & _).
  split; [by rewrite children_of_set_dom, lookup_insert_eq|].
  split; [|by apply markers_kept_parts].
  apply (dom_wf_rearrange _ c _ Wa).
  change (children_of (add_event (EvMove p) σ) c) with (children_of σ c).
  rewrite Hl. solve_Permutation.
Qed.

Lemma removePart_spec σ p s e m X Y h fuel σ' :
  dom_wf σ c →
  part_markers σ p = Some (Some s, Some e) →
  children_of σ c = X ++ (s :: m ++ [e]) ++ Y →
  removePart fuel (SPart p) h σ = (Returns tt, σ') →
  dom_wf σ' c ∧ markers_kept σ σ' ∧
  (children_of σ' c = X ++ Y ∨ children_of σ' c = children_of σ c).
Proof.
  intros W Hp Hl H.
  apply part_markers_lookup in Hp as (d & Hd & Hds & Hde).
  destruct h as [h|].
  - eapply removePart_handler in H as (Hnt & _); [|done..|rewrite Hl; set_solver].
    unfold non_trace in Hnt. injection Hnt as _ H1 H2 H3 H4 H5 _ _.
    split; [by eapply dom_wf_keeps|]. split; [by apply markers_kept_parts|].
    right. unfold children_of. by rewrite H2.
  - destruct (removePart_plain p d s m e c X Y σ W Hd Hds Hde Hl) as [HF W'].
    apply (fueled_returns _ _ _ _ _ _ _ _ HF) in H as (_ & -> & _).
    split; [done|]. split; [by apply markers_kept_parts|].
    left. by rewrite children_of_set_dom, lookup_insert_eq.
Qed.

Lemma createAndInsertPart_spec σ ref b l1 l2 q σ' :
  dom_wf σ c →
  part_markers σ cp = Some (Some cs, Some ce) → cs ∈ children_of σ c →
  children_of σ c = l1 ++ b :: l2 →
  ref_is σ ref b →
  createAndInsertPart cp ref σ = (Returns q, σ') →
  q = nextPart σ ∧
  children_of σ' c = l1 ++ nextNode σ :: S (nextNode σ) :: b :: l2 ∧
  dom_wf σ' c ∧ markers_kept σ σ' ∧
  part_markers σ' q = Some (Some (nextNode σ), Some (S (nextNode σ))) ∧
  nextPart σ' = S (nextPart σ).
Proof.
  intros W Hcp Hcs Hl Hr H.
  apply part_markers_lookup in Hcp as (cd & Hcd & Hcds & Hcde).
  unfold createAndInsertPart in H.
  rewrite (bind_getPart _ _ _ _ Hcd), Hcds, bind_deref, bind_get in H.
  rewrite (wf_child_parent σ c cs W Hcs), bind_deref in H.
  assert (Hb : (match ref with
                | SUndefined => mret (endNode cd)
                | SNull => throw TypeError
                | SPart b => bp ← getPart b; mret (startNode bp)
                end) σ = (Returns (Some b), σ)).
  { destruct ref as [| |r]; simpl in Hr.
    - subst b. by rewrite Hcde.
    - done.
    - destruct Hr as [x Hr]. unfold part_markers in Hr.
      destruct (parts σ !! r) as [rd|] eqn:Hrd; [|done]. injection Hr as Hr _.
      rewrite (bind_getPart _ _ _ _ Hrd). by rewrite Hr. }
  rewrite (bind_of_returns _ _ _ _ _ Hb), bind_createMarker in H.
  set (mk := mkNodeData COMMENT_NODE (Some ""%string)) in *.
  destruct (insert_fresh σ c mk b l1 l2 W Hl) as [_ W1].
  rewrite (bind_of_returns _ _ _ _ _ (insert_fresh_eval σ c mk b l1 l2 W Hl)) in H.
  set (σ1 := set_dom _ _ (alloc_node mk σ)) in *.
  assert (Hl1 : children_of σ1 c = (l1 ++ [nextNode σ]) ++ b :: l2).
  { unfold σ1. rewrite children_of_set_dom, lookup_insert_eq. simpl.
    by rewrite <- app_assoc. }
  rewrite bind_createMarker in H. fold mk in H.
  destruct (insert_fresh σ1 c mk b _ l2 W1 Hl1) as [_ W2].
  rewrite (bind_of_returns _ _ _ _ _ (insert_fresh_eval σ1 c mk b _ l2 W1 Hl1)) in H.
  set (σ2 := set_dom _ _ (alloc_node mk σ1)) in *.
  assert (Hl2 : children_of σ2 c = l1 ++ nextNode σ :: S (nextNode σ) :: b :: l2).
  { unfold σ2. rewrite children_of_set_dom, lookup_insert_eq. simpl.
    by rewrite <- app_assoc. }
  assert (Hns : nextSibling σ2 (nextNode σ) = Some (S (nextNode σ))).
  { by rewrite (wf_nextSibling σ2 c (nextNode σ) l1 _ W2 Hl2). }
  unfold newNodePart in H. rewrite bind_unfold in H. cbv beta iota in H.
  unfold insertAfterNode in H.
  set (σ3 := set_parts _ _ σ2) in *.
  assert (Hq : parts σ3 !! nextPart σ
               = Some (mkNodePart None None (options cd) VUndefined VUndefined))
    by apply lookup_insert_eq.
  rewrite bind_unfold, (bind_getPart _ _ _ _ Hq), bind_get in H.
  change (nextSibling σ3 (nextNode σ)) with (nextSibling σ2 (nextNode σ)) in H.
  rewrite Hns in H. unfold modify at 1 in H. cbv beta iota in H.
  rewrite bind_emit in H. apply ret_inv in H as [[= ->] ->].
  split; [done|]. split; [exact Hl2|].
  split; [by eapply dom_wf_keeps; [..|exact W2]|].
  split; [|split; [|done]].
  - split; [simpl; lia|]. intros p Hp. unfold part_markers. simpl.
    rewrite !lookup_insert_ne by lia. done.
  - unfold part_markers. simpl. by rewrite lookup_insert_eq.
Qed.

(** *** The parts of a container, in document order *)

(** [dom_inv σ seq]: the container is well formed, and between the markers
    of the container part the ranges of the parts [seq] lie in this order
    (other nodes may lie around and between the ranges). *)
Record dom_inv (σ : State) (seq : list PartRef) : Prop := mkDomInv {
  di_wf : dom_wf σ c;
  di_cp : part_markers σ cp = Some (Some cs, Some ce);
  di_cp_old : (cp < nextPart σ)%nat;
  di_live : Forall (live σ) seq;
  di_layout : layout (Single cs :: (bound_of σ <$> seq) ++ [Single ce]) (children_of σ c);
}.

Definition ref_of (C : list PartRef) : Slot :=
  match C with q :: _ => SPart q | [] => SUndefined end.

Ltac assoc := rewrite <- ?app_assoc; simpl; rewrite <- ?app_assoc; simpl.

Lemma di_cs_child σ seq : dom_inv σ seq → cs ∈ children_of σ c.
Proof.
  intros D. eapply (layout_elem _ _ (Single cs)); [apply (di_layout _ _ D)| |done].
  set_solver.
Qed.

Lemma dom_inv_next σ seq σ' seq' :
  dom_inv σ seq → dom_wf σ' c → markers_kept σ σ' →
  Forall (live σ') seq' →
  layout (Single cs :: (bound_of σ' <$> seq') ++ [Single ce]) (children_of σ' c) →
  dom_inv σ' seq'.
Proof.
  intros D W K HL Hlay. split; try done.
  - destruct K as [_ K]. rewrite K; [apply D|apply D].
  - destruct K as [K _]. pose proof (di_cp_old _ _ D). lia.
Qed.

Lemma block_range_inv s e blk : block (Range s e) blk → ∃ m, blk = s :: m ++ [e].
Proof. inversion 1; eauto. Qed.

(** Exposing the range of one part of the sequence. *)
Lemma di_split σ A p C :
  dom_inv σ (A ++ p :: C) →
  ∃ s e m X Y,
    part_markers σ p = Some (Some s, Some e) ∧
    bound_of σ p = Range s e ∧
    children_of σ c = X ++ (s :: m ++ [e]) ++ Y ∧
    layout (Single cs :: (bound_of σ <$> A)) X ∧
    layout ((bound_of σ <$> C) ++ [Single ce]) Y.
Proof.
  intros D. pose proof (di_live _ _ D) as HL.
  apply Forall_app in HL as [_ HL]. apply Forall_cons in HL as [Hp _].
  destruct (live_bound σ p Hp) as (s & e & Hm & Hb).
  pose proof (di_layout _ _ D) as Hlay.
  rewrite fmap_app, fmap_cons, Hb in Hlay.
  replace (Single cs :: ((bound_of σ <$> A) ++ Range s e :: (bound_of σ <$> C))
             ++ [Single ce])
    with ((Single cs :: (bound_of σ <$> A)) ++ Range s e ::
            ((bound_of σ <$> C) ++ [Single ce])) in Hlay by (by assoc).
  apply layout_split in Hlay as (X & blk & Y & Hl & Hblk & H1 & H2).
  apply block_range_inv in Hblk as [m ->].
  by exists s, e, m, X, Y.
Qed.

(** The node that stands for the reference [ref_of C]. *)
Lemma target_split σ C Y :
  Forall (live σ) C →
  layout ((bound_of σ <$> C) ++ [Single ce]) Y →
  ∃ j b tl, Y = j ++ b :: tl ∧ ref_is σ (ref_of C) b ∧
            ∀ j', layout ((bound_of σ <$> C) ++ [Single ce]) (j' ++ b :: tl).
Proof.
  intros HL Hlay. destruct C as [|q C]; simpl in *.
  - apply layout_head in Hlay as (j & tl & rest & -> & Hb & Hr). simpl in *.
    exists j, ce, (tl ++ rest). split; [done|]. split; [done|].
    intros j'. by apply (layout_cons (Single ce) [] j' (ce :: tl) rest).
  - apply Forall_cons in HL as [Hq _].
    destruct (live_bound σ q Hq) as (s & e & Hm & Hb). rewrite Hb in *.
    apply layout_head in Hlay as (j & tl & rest & -> & Hblk & Hr). simpl in *.
    exists j, s, (tl ++ rest). split; [done|]. split; [by exists (Some e)|].
    intros j'. by apply (layout_cons (Range s e) _ j' (s :: tl) rest).
Qed.

Lemma updatePart_dom σ A p C v fuel r σ' :
  dom_inv σ (A ++ p :: C) →
  updatePart materialize fuel (SPart p) v σ = (Returns r, σ') →
  r = SPart p ∧ dom_inv σ' (A ++ p :: C) ∧ markers_kept σ σ'.
Proof.
  intros D H. destruct (di_split σ A p C D) as (s & e & m & X & Y & Hm & Hb & Hl & H1 & H2).
  destruct (updatePart_spec c σ p s e X m Y v fuel r σ' (di_wf _ _ D) Hm Hl H)
    as (-> & m' & Hl' & W' & K).
  split; [done|]. split; [|done].
  eapply dom_inv_next; [done|done|done| |].
  - eapply Forall_impl; [apply (di_live _ _ D)|]. intros q. by apply live_kept.
  - rewrite (bounds_kept σ σ' _ K (di_live _ _ D)), Hl'.
    rewrite fmap_app, fmap_cons, Hb.
    replace (Single cs :: ((bound_of σ <$> A) ++ Range s e :: (bound_of σ <$> C))
               ++ [Single ce])
      with ((Single cs :: (bound_of σ <$> A)) ++ Range s e ::
              ((bound_of σ <$> C) ++ [Single ce])) by (by assoc).
    apply layout_join; [done|constructor|done].
Qed.

Lemma live_all_kept σ σ' seq : markers_kept σ σ' → Forall (live σ) seq → Forall (live σ') seq.
Proof. intros K H. eapply Forall_impl; [exact H|]. intros q. by apply live_kept. Qed.

Lemma insertPartBefore_dom_forward σ A p Mi C fuel σ' :
  dom_inv σ (A ++ p :: Mi ++ C) →
  insertPartBefore fuel cp (SPart p) (ref_of C) σ = (Returns tt, σ') →
  dom_inv σ' (A ++ Mi ++ p :: C) ∧ markers_kept σ σ'.
Proof.
  intros D H.
  destruct (di_split σ A p (Mi ++ C) D) as (s & e & m & X & Y & Hm & Hb & Hl & H1 & H2).
  pose proof (di_live _ _ D) as HL.
  assert (HLA : Forall (live σ) A) by (by apply Forall_app in HL as [? _]).
  assert (HLp : live σ p).
  { apply Forall_app in HL as [_ HL]. by apply Forall_cons in HL as [? _]. }
  assert (HLM : Forall (live σ) Mi).
  { apply Forall_app in HL as [_ HL]. apply Forall_cons in HL as [_ HL].
    by apply Forall_app in HL as [? _]. }
  assert (HLC : Forall (live σ) C).
  { apply Forall_app in HL as [_ HL]. apply Forall_cons in HL as [_ HL].
    by apply Forall_app in HL as [_ ?]. }
  rewrite fmap_app, <- app_assoc in H2.
  apply layout_app_inv in H2 as (YM & YC & -> & HM & HC).
  destruct (target_split σ C YC HLC HC) as (j & b & tl & -> & Hr & Hre).
  replace (X ++ (s :: m ++ [e]) ++ YM ++ j ++ b :: tl)
    with (X ++ (s :: m ++ [e]) ++ (YM ++ j) ++ b :: tl) in Hl by (by assoc).
  destruct (insertPartBefore_forward σ p s e m X (YM ++ j) b tl (ref_of C)
              fuel σ' (di_wf _ _ D) (di_cp _ _ D) (di_cs_child _ _ D) Hm Hl Hr H)
    as (Hl' & W' & K).
  split; [|done].
  eapply dom_inv_next; [done|done|done| |].
  - eapply live_all_kept; [done|].
    apply Forall_app. split; [done|]. apply Forall_app. split; [done|].
    by apply Forall_cons.
  - assert (HL' : Forall (live σ) (A ++ Mi ++ p :: C)).
    { apply Forall_app. split; [done|]. apply Forall_app. split; [done|].
      by apply Forall_cons. }
    rewrite (bounds_kept σ σ' _ K HL'), Hl'.
    rewrite !fmap_app, fmap_cons, Hb.
    replace (Single cs :: ((bound_of σ <$> A) ++ (bound_of σ <$> Mi) ++
               Range s e :: (bound_of σ <$> C)) ++ [Single ce])
      with (((Single cs :: (bound_of σ <$> A)) ++ (bound_of σ <$> Mi)) ++ Range s e ::
              ((bound_of σ <$> C) ++ [Single ce])) by (by assoc).
    replace (X ++ (YM ++ j) ++ (s :: m ++ [e]) ++ b :: tl)
      with ((X ++ YM ++ j) ++ (s :: m ++ [e]) ++ ([] ++ b :: tl)) by (by assoc).
    apply layout_join; [|constructor|apply Hre].
    apply layout_app; [done|]. by apply layout_trailing.
Qed.

Lemma insertPartBefore_dom_backward σ A q Mi p C fuel σ' :
  dom_inv σ (A ++ q :: Mi ++ p :: C) →
  insertPartBefore fuel cp (SPart p) (SPart q) σ = (Returns tt, σ') →
  dom_inv σ' (A ++ p :: q :: Mi ++ C) ∧ markers_kept σ σ'.
Proof.
  intros D H.
  replace (A ++ q :: Mi ++ p :: C) with ((A ++ q :: Mi) ++ p :: C) in D by (by assoc).
  destruct (di_split σ _ p C D) as (s & e & m & X & Y & Hm & Hb & Hl & H1 & H2).
  pose proof (di_live _ _ D) as HL.
  apply Forall_app in HL as [HL HLpC]. apply Forall_app in HL as [HLA HLqM].
  apply Forall_cons in HLqM as [HLq HLM]. apply Forall_cons in HLpC as [HLp HLC].
  destruct (live_bound σ q HLq) as (sq & eq & Hmq & Hbq).
  rewrite fmap_app, fmap_cons, Hbq in H1.
  replace (Single cs :: (bound_of σ <$> A) ++ Range sq eq :: (bound_of σ <$> Mi))
    with ((Single cs :: (bound_of σ <$> A)) ++ Range sq eq :: (bound_of σ <$> Mi))
    in H1 by done.
  apply layout_split in H1 as (X1 & blk & X2 & -> & Hblk & HA & HM).
  apply block_range_inv in Hblk as [mq ->].
  replace ((X1 ++ (sq :: mq ++ [eq]) ++ X2) ++ (s :: m ++ [e]) ++ Y)
    with (X1 ++ sq :: (mq ++ [eq] ++ X2) ++ (s :: m ++ [e]) ++ Y) in Hl by (by assoc).
  assert (Hr : ref_is σ (SPart q) sq) by (by exists (Some eq)).
  destruct (insertPartBefore_backward σ p s e m X1 sq _ Y (SPart q)
              fuel σ' (di_wf _ _ D) (di_cp _ _ D) (di_cs_child _ _ D) Hm Hl Hr H)
    as (Hl' & W' & K).
  split; [|done].
  assert (HL' : Forall (live σ) (A ++ p :: q :: Mi ++ C)).
  { apply Forall_app. split; [done|]. apply Forall_cons. split; [done|].
    apply Forall_cons. split; [done|]. by apply Forall_app. }
  eapply dom_inv_next; [done|done|done|by eapply live_all_kept|].
  rewrite (bounds_kept σ σ' _ K HL'), Hl'.
  rewrite !fmap_app, !fmap_cons, fmap_app, Hb, Hbq.
  replace (Single cs :: ((bound_of σ <$> A) ++ Range s e :: Range sq eq ::
             (bound_of σ <$> Mi) ++ (bound_of σ <$> C)) ++ [Single ce])
    with ((Single cs :: (bound_of σ <$> A)) ++ Range s e ::
            (Range sq eq :: (bound_of σ <$> Mi) ++ (bound_of σ <$> C) ++ [Single ce]))
    by (by assoc).
  apply layout_join; [done|constructor|].
  replace (sq :: (mq ++ [eq] ++ X2) ++ Y) with ([] ++ (sq :: mq ++ [eq]) ++ (X2 ++ Y))
    by (by assoc).
  constructor; [constructor|]. by apply layout_app.
Qed.

(** A part given as its own reference: the start marker ends up after
    the end marker, and the nodes no longer form the range of the part. *)
Lemma insertPartBefore_self σ p s e m X Y :
  dom_wf σ c →
  part_markers σ cp = Some (Some cs, Some ce) → cs ∈ children_of σ c →
  part_markers σ p = Some (Some s, Some e) →
  children_of σ c = X ++ (s :: m ++ [e]) ++ Y →
  ∃ σ', fueled (λ fuel, insertPartBefore fuel cp (SPart p) (SPart p)) σ
          (S (S (length m))) tt σ' ∧
        children_of σ' c = X ++ (m ++ [e]) ++ s :: Y ∧
        dom_wf σ' c ∧ markers_kept σ σ'.
Proof.
  intros W Hcp Hcs Hp Hl.
  assert (Hr : ref_is σ (SPart p) s) by (by exists (Some e)).
  pose proof (wf_nodup _ _ W) as Hnd. rewrite Hl in Hnd.
  assert (Hns : nextSibling σ e = head Y).
  { apply (wf_nextSibling σ c e (X ++ s :: m) _ W).
    rewrite Hl. by assoc. }
  assert (Hne : head Y ≠ Some s).
  { destruct Y as [|y Y]; [done|]. simpl.
    assert (s ≠ y) by notin_from Hnd. congruence. }
  assert (Wa : dom_wf (add_event (EvMove p) σ) c) by (by apply dom_wf_add_event).
  assert (Hl' : children_of (add_event (EvMove p) σ) c = X ++ s :: (m ++ [e]) ++ Y).
  { change (children_of (add_event (EvMove p) σ) c) with (children_of σ c).
    rewrite Hl. by assoc. }
  pose proof (reparentNodes_self c (m ++ [e]) X s Y _ Wa Hl') as HF.
  eexists. split; [|split; [|split]].
  - intros fuel. rewrite (insertPartBefore_eval σ p s e (SPart p) s fuel W Hcp Hcs Hp Hr).
    rewrite Hns, (decide_False (P := head Y = Some s)) by done.
    specialize (HF fuel). cbn beta in HF. rewrite length_app in HF. simpl in HF.
    replace (S (length m + 1)) with (S (S (length m))) in HF by lia. exact HF.
  - by rewrite children_of_set_dom, lookup_insert_eq.
  - apply (dom_wf_rearrange _ c _ Wa).
    change (children_of (add_event (EvMove p) σ) c) with (children_of σ c).
    rewrite Hl. solve_Permutation.
  - by apply markers_kept_parts.
Qed.

Lemma insertPartBefore_dom_self σ A p C :
  dom_inv σ (A ++ p :: C) →
  ∃ need σ', fueled (λ fuel, insertPartBefore fuel cp (SPart p) (SPart p)) σ need tt σ' ∧
             (need ≤ length (children_of σ c))%nat ∧
             length (children_of σ' c) = length (children_of σ c) ∧
             dom_inv σ' (A ++ C) ∧ markers_kept σ σ'.
Proof.
  intros D. destruct (di_split σ A p C D) as (s & e & m & X & Y & Hm & Hb & Hl & H1 & H2).
  destruct (insertPartBefore_self σ p s e m X Y (di_wf _ _ D) (di_cp _ _ D)
              (di_cs_child _ _ D) Hm Hl) as (σ' & HF & Hl' & W' & K).
  pose proof (di_live _ _ D) as HL.
  apply Forall_app in HL as [HLA HLpC]. apply Forall_cons in HLpC as [HLp HLC].
  assert (HL' : Forall (live σ) (A ++ C)) by (by apply Forall_app).
  exists (S (S (length m))), σ'. split; [done|].
  split; [rewrite Hl, !length_app; simpl; rewrite length_app; simpl; lia|].
  split; [rewrite Hl', Hl, !length_app; simpl; rewrite !length_app; simpl; lia|].
  split; [|done].
  eapply dom_inv_next; [done|done|done|by eapply live_all_kept|].
  rewrite (bounds_kept σ σ' _ K HL'), fmap_app, Hl'.
  replace (Single cs :: ((bound_of σ <$> A) ++ (bound_of σ <$> C)) ++ [Single ce])
    with ((Single cs :: (bound_of σ <$> A)) ++ ((bound_of σ <$> C) ++ [Single ce]))
    by (by assoc).
  apply layout_app; [done|].
  replace ((m ++ [e]) ++ s :: Y) with (((m ++ [e]) ++ [s]) ++ Y) by (by assoc).
  by apply layout_junk.
Qed.

Lemma removePart_dom σ A p C h fuel σ' :
  dom_inv σ (A ++ p :: C) →
  removePart fuel (SPart p) h σ = (Returns tt, σ') →
  dom_inv σ' (A ++ C) ∧ markers_kept σ σ'.
Proof.
  intros D H. destruct (di_split σ A p C D) as (s & e & m & X & Y & Hm & Hb & Hl & H1 & H2).
  destruct (removePart_spec σ p s e m X Y h fuel σ' (di_wf _ _ D) Hm Hl H)
    as (W' & K & Hl').
  pose proof (di_live _ _ D) as HL.
  apply Forall_app in HL as [HLA HLpC]. apply Forall_cons in HLpC as [HLp HLC].
  assert (HL' : Forall (live σ) (A ++ C)) by (by apply Forall_app).
  split; [|done].
  eapply dom_inv_next; [done|done|done|by eapply live_all_kept|].
  rewrite (bounds_kept σ σ' _ K HL'), fmap_app.
  replace (Single cs :: ((bound_of σ <$> A) ++ (bound_of σ <$> C)) ++ [Single ce])
    with ((Single cs :: (bound_of σ <$> A)) ++ ((bound_of σ <$> C) ++ [Single ce]))
    by (by assoc).
  destruct Hl' as [-> | ->].
  - by apply layout_app.
  - rewrite Hl. apply layout_app; [done|]. by apply layout_junk.
Qed.

Lemma createAndInsertPart_dom σ A C q σ' :
  dom_inv σ (A ++ C) →
  createAndInsertPart cp (ref_of C) σ = (Returns q, σ') →
  dom_inv σ' (A ++ q :: C) ∧ markers_kept σ σ' ∧ q = nextPart σ.
Proof.
  intros D H. pose proof (di_live _ _ D) as HL.
  apply Forall_app in HL as [HLA HLC].
  pose proof (di_layout _ _ D) as Hlay. rewrite fmap_app in Hlay.
  replace (Single cs :: ((bound_of σ <$> A) ++ (bound_of σ <$> C)) ++ [Single ce])
    with ((Single cs :: (bound_of σ <$> A)) ++ ((bound_of σ <$> C) ++ [Single ce]))
    in Hlay by (by assoc).
  apply layout_app_inv in Hlay as (X & Y & Hl & H1 & H2).
  destruct (target_split σ C Y HLC H2) as (j & b & tl & -> & Hr & Hre).
  replace (X ++ j ++ b :: tl) with ((X ++ j) ++ b :: tl) in Hl by (by assoc).
  destruct (createAndInsertPart_spec σ (ref_of C) b _ tl q σ'
              (di_wf _ _ D) (di_cp _ _ D) (di_cs_child _ _ D) Hl Hr H)
    as (-> & Hl' & W' & K & Hq & Hn).
  split; [|done].
  assert (Hlq : live σ' (nextPart σ)).
  { split; [lia|]. eauto. }
  eapply dom_inv_next; [done|done|done| |].
  - apply Forall_app. split; [by eapply live_all_kept|].
    apply Forall_cons. split; [done|]. by eapply live_all_kept.
  - rewrite fmap_app, fmap_cons.
    rewrite (bounds_kept σ σ' _ K HLA), (bounds_kept σ σ' _ K HLC).
    unfold bound_of at 2. rewrite Hq, Hl'.
    replace (Single cs :: ((bound_of σ <$> A) ++
               Range (nextNode σ) (S (nextNode σ)) :: (bound_of σ <$> C)) ++ [Single ce])
      with ((Single cs :: (bound_of σ <$> A)) ++
               Range (nextNode σ) (S (nextNode σ)) :: ((bound_of σ <$> C) ++ [Single ce]))
      by (by assoc).
    replace ((X ++ j) ++ nextNode σ :: S (nextNode σ) :: b :: tl)
      with ((X ++ j) ++ (nextNode σ :: [] ++ [S (nextNode σ)]) ++ ([] ++ b :: tl))
      by (by assoc).
    apply layout_join; [by apply layout_trailing|constructor|apply Hre].
Qed.

End Container.

(** ** Windows of the part arrays *)

Definition slot_part (s : Slot) : option PartRef :=
  match s with SPart p => Some p | _ => None end.

(** The parts held by a run of slots, tombstones and holes skipped. *)
Definition slot_parts (l : list Slot) : list PartRef := omap slot_part l.

(** The elements with indices [a..b]. *)
Definition window {A} (l : list A) (a b : Z) : list A :=
  take (Z.to_nat (b + 1 - a)) (drop (Z.to_nat a) l).

Definition window_parts (ops : list Slot) (a b : Z) : list PartRef :=
  slot_parts (window ops a b).

Lemma window_empty {A} (l : list A) a b : b < a → window l a b = [].
Proof. intros H. unfold window. by replace (Z.to_nat (b + 1 - a)) with 0%nat by lia. Qed.

Lemma window_head {A} (l : list A) a b x :
  0 ≤ a ≤ b → l !! Z.to_nat a = Some x → window l a b = x :: window l (a + 1) b.
Proof.
  intros H Hx. unfold window.
  replace (Z.to_nat (b + 1 - a)) with (S (Z.to_nat (b + 1 - (a + 1)))) by lia.
  rewrite (drop_S _ _ _ Hx). simpl. do 2 f_equal. f_equal. lia.
Qed.

Lemma window_last {A} (l : list A) a b x :
  0 ≤ a ≤ b → l !! Z.to_nat b = Some x →
  window l a b = window l a (b - 1) ++ [x].
Proof.
  intros Hab Hx. unfold window.
  replace (Z.to_nat (b + 1 - a)) with (S (Z.to_nat (b - 1 + 1 - a))) by lia.
  erewrite take_S_r; [done|]. rewrite lookup_drop. rewrite <- Hx. f_equal. lia.
Qed.

Lemma take_add_split {A} (l : list A) n k :
  take (n + k) l = take n l ++ take k (drop n l).
Proof.
  revert l. induction n as [|n IH]; intros [|x l]; simpl; try done.
  - by rewrite take_nil.
  - by rewrite IH.
Qed.

Lemma window_split {A} (l : list A) a i b x :
  0 ≤ a → a ≤ i ≤ b → l !! Z.to_nat i = Some x →
  window l a b = window l a (i - 1) ++ x :: window l (i + 1) b.
Proof.
  intros Ha Hi Hx. unfold window.
  replace (Z.to_nat (b + 1 - a))
    with (Z.to_nat (i - 1 + 1 - a) + S (Z.to_nat (b + 1 - (i + 1))))%nat by lia.
  rewrite take_add_split. f_equal. rewrite drop_drop.
  replace (Z.to_nat a + Z.to_nat (i - 1 + 1 - a))%nat with (Z.to_nat i) by lia.
  rewrite (drop_S _ _ _ Hx). simpl. do 2 f_equal. f_equal. lia.
Qed.

Lemma window_insert_inside {A} (l : list A) a i b x y :
  0 ≤ a → a ≤ i ≤ b → l !! Z.to_nat i = Some x →
  window (<[Z.to_nat i := y]> l) a b = window l a (i - 1) ++ y :: window l (i + 1) b.
Proof.
  intros Ha Hi Hx.
  assert (Hlt : (Z.to_nat i < length l)%nat) by (by eapply lookup_lt_Some).
  rewrite (window_split _ a i b y) by (done || by rewrite list_lookup_insert_eq).
  f_equal; [|f_equal]; unfold window.
  - rewrite drop_insert_ge by lia. rewrite take_insert_ge by lia. done.
  - rewrite drop_insert_lt by lia. done.
Qed.

Lemma slot_parts_app l1 l2 : slot_parts (l1 ++ l2) = slot_parts l1 ++ slot_parts l2.
Proof. apply omap_app. Qed.

Lemma js_get_part_lookup ops i p :
  js_get SUndefined ops i = SPart p → 0 ≤ i ∧ ops !! Z.to_nat i = Some (SPart p).
Proof.
  unfold js_get. destruct (decide _); [|done].
  destruct (ops !! Z.to_nat i); simpl; [|done]. by intros ->.
Qed.

Lemma js_get_null_lookup ops i :
  js_get SUndefined ops i = SNull → 0 ≤ i ∧ ops !! Z.to_nat i = Some SNull.
Proof.
  unfold js_get. destruct (decide _); [|done].
  destruct (ops !! Z.to_nat i); simpl; [|done]. by intros ->.
Qed.

Lemma js_set_in_range {A} (u : A) l i x :
  0 ≤ i < Z.of_nat (length l) → js_set u l i x = <[Z.to_nat i := x]> l.
Proof.
  intros H. unfold js_set. rewrite decide_True by lia. by rewrite decide_True by lia.
Qed.

Lemma window_parts_head ops a b p :
  a ≤ b → js_get SUndefined ops a = SPart p →
  window_parts ops a b = p :: window_parts ops (a + 1) b.
Proof.
  intros Hab H. apply js_get_part_lookup in H as [Ha H].
  unfold window_parts. by rewrite (window_head ops a b _ ltac:(lia) H).
Qed.

Lemma window_parts_skip_head ops a b :
  a ≤ b → js_get SUndefined ops a = SNull →
  window_parts ops a b = window_parts ops (a + 1) b.
Proof.
  intros Hab H. apply js_get_null_lookup in H as [Ha H].
  unfold window_parts. by rewrite (window_head ops a b _ ltac:(lia) H).
Qed.

Lemma window_parts_last ops a b p :
  0 ≤ a ≤ b → js_get SUndefined ops b = SPart p →
  window_parts ops a b = window_parts ops a (b - 1) ++ [p].
Proof.
  intros Hab H. apply js_get_part_lookup in H as [Hb H].
  unfold window_parts. rewrite (window_last ops a b _ Hab H).
  by rewrite slot_parts_app.
Qed.

Lemma window_parts_skip_last ops a b :
  0 ≤ a ≤ b → js_get SUndefined ops b = SNull →
  window_parts ops a b = window_parts ops a (b - 1).
Proof.
  intros Hab H. apply js_get_null_lookup in H as [Hb H].
  unfold window_parts. rewrite (window_last ops a b _ Hab H).
  rewrite slot_parts_app. simpl. by rewrite app_nil_r.
Qed.

Lemma window_parts_tombstone ops a i b p :
  0 ≤ a → a ≤ i ≤ b → js_get SUndefined ops i = SPart p →
  window_parts ops a b = window_parts ops a (i - 1) ++ p :: window_parts ops (i + 1) b ∧
  window_parts (js_set SUndefined ops i SNull) a b
  = window_parts ops a (i - 1) ++ window_parts ops (i + 1) b.
Proof.
  intros Ha Hi H. apply js_get_part_lookup in H as [_ H].
  assert (Hlt : (Z.to_nat i < length ops)%nat) by (by eapply lookup_lt_Some).
  unfold window_parts. split.
  - rewrite (window_split ops a i b _ Ha Hi H). by rewrite slot_parts_app.
  - rewrite js_set_in_range by lia.
    rewrite (window_insert_inside ops a i b _ SNull Ha Hi H).
    by rewrite slot_parts_app.
Qed.

(** ** The key-to-index maps *)

Lemma foldl_index_Some l idx (m0 : gmap JsValue Z) k i :
  foldl (λ m i, <[js_get VUndefined l i := i]> m) m0 idx !! k = Some i →
  m0 !! k = Some i ∨ (i ∈ idx ∧ js_get VUndefined l i = k).
Proof.
  revert m0. induction idx as [|j idx IH]; intros m0; simpl; [auto|].
  intros H. apply IH in H as [H|[H1 H2]].
  - destruct (decide (js_get VUndefined l j = k)) as [<-|Hne].
    + rewrite lookup_insert_eq in H. injection H as ->. right. split; [left|done].
    + rewrite lookup_insert_ne in H by done. by left.
  - right. split; [by right|done].
Qed.

Lemma foldl_index_None l idx (m0 : gmap JsValue Z) k :
  foldl (λ m i, <[js_get VUndefined l i := i]> m) m0 idx !! k = None →
  m0 !! k = None ∧ ∀ i, i ∈ idx → js_get VUndefined l i ≠ k.
Proof.
  revert m0. induction idx as [|j idx IH]; intros m0; simpl.
  - intros H. split; [done|]. intros i Hi. by apply elem_of_nil in Hi.
  - intros H. apply IH in H as [H1 H2].
    destruct (decide (js_get VUndefined l j = k)) as [<-|Hne].
    + by rewrite lookup_insert_eq in H1.
    + rewrite lookup_insert_ne in H1 by done. split; [done|].
      intros i [->|Hi]%elem_of_cons; [done|by apply H2].
Qed.

Lemma generateMap_Some l a b k i :
  generateMap l a b !! k = Some i → a ≤ i ≤ b ∧ js_get VUndefined l i = k.
Proof.
  unfold generateMap. intros [H|[H1 H2]]%foldl_index_Some; [done|].
  apply elem_of_seqZ in H1. split; [lia|done].
Qed.

Lemma generateMap_None l a b k :
  generateMap l a b !! k = None → ∀ i, a ≤ i ≤ b → js_get VUndefined l i ≠ k.
Proof.
  unfold generateMap. intros [_ H]%foldl_index_None i Hi. apply H.
  apply elem_of_seqZ. lia.
Qed.

(** ** The new part array during a pass *)

(** [hp] are the parts already placed at the head of the new array, [tp]
    those placed at its tail; the slots in between are still to be
    filled. *)
Record new_inv (n : Z) (nps : list Slot) (nh nt : Z) (hp tp : list PartRef) : Prop := {
  ni_head : 0 ≤ nh ≤ nt + 1;
  ni_tail : nt < n;
  ni_len : (nt = n - 1 ∧ Z.of_nat (length nps) = nh) ∨
           (nt < n - 1 ∧ Z.of_nat (length nps) = n);
  ni_hp_len : Z.of_nat (length hp) = nh;
  ni_tp_len : Z.of_nat (length tp) = n - 1 - nt;
  ni_hp : ∀ i p, hp !! i = Some p → js_get SUndefined nps (Z.of_nat i) = SPart p;
  ni_tp : ∀ i p, tp !! i = Some p → js_get SUndefined nps (nt + 1 + Z.of_nat i) = SPart p;
}.

Lemma new_inv_init n : 0 ≤ n → new_inv n [] 0 (n - 1) [] [].
Proof. intros H. split; simpl; try done; try lia. Qed.

Lemma new_inv_head n nps nh nt hp tp p :
  new_inv n nps nh nt hp tp → nh ≤ nt →
  new_inv n (js_set SUndefined nps nh (SPart p)) (nh + 1) nt (hp ++ [p]) tp.
Proof.
  intros [H1 H2 H3 H4 H5 H6 H7] Hle. split; try lia.
  - rewrite js_set_length by lia. lia.
  - rewrite length_app. simpl. lia.
  - intros i q Hi. apply lookup_app_Some in Hi as [Hi|[Hge Hi]].
    + pose proof (lookup_lt_Some _ _ _ Hi). rewrite js_get_set_ne by lia. by apply H6.
    + apply list_lookup_singleton_Some in Hi as [Hi ->].
      replace (Z.of_nat i) with nh by lia. apply js_get_set_eq. lia.
  - intros i q Hi. rewrite js_get_set_ne by lia. by apply H7.
Qed.

Lemma new_inv_tail n nps nh nt hp tp p :
  new_inv n nps nh nt hp tp → nh ≤ nt →
  new_inv n (js_set SUndefined nps nt (SPart p)) nh (nt - 1) hp (p :: tp).
Proof.
  intros [H1 H2 H3 H4 H5 H6 H7] Hle. split; try lia.
  - rewrite js_set_length by lia. lia.
  - simpl. lia.
  - intros i q Hi. pose proof (lookup_lt_Some _ _ _ Hi).
    rewrite js_get_set_ne by lia. by apply H6.
  - intros [|i] q Hi; simpl in Hi.
    + injection Hi as ->. replace (nt - 1 + 1 + Z.of_nat 0) with nt by lia.
      apply js_get_set_eq. lia.
    + rewrite js_get_set_ne by lia.
      replace (nt - 1 + 1 + Z.of_nat (S i)) with (nt + 1 + Z.of_nat i) by lia.
      by apply H7.
Qed.

Lemma new_inv_ref n nps nh nt hp tp :
  new_inv n nps nh nt hp tp → js_get SUndefined nps (nt + 1) = ref_of tp.
Proof.
  intros [H1 H2 H3 H4 H5 H6 H7]. destruct tp as [|p tp]; simpl in *.
  - apply js_get_ge. lia.
  - specialize (H7 0%nat p eq_refl). by replace (nt + 1 + Z.of_nat 0) with (nt + 1) in H7 by lia.
Qed.

Lemma new_inv_done n nps nh nt hp tp :
  new_inv n nps nh nt hp tp → nt < nh → nps = SPart <$> (hp ++ tp).
Proof.
  intros [H1 H2 H3 H4 H5 H6 H7] Hlt. apply list_eq. intros i.
  rewrite list_lookup_fmap. destruct ((hp ++ tp) !! i) as [p|] eqn:E; simpl.
  - apply lookup_app_Some in E as [E|[Hge E]].
    + apply H6 in E. apply js_get_part_lookup in E as [_ E]. by rewrite Nat2Z.id in E.
    + apply H7 in E. apply js_get_part_lookup in E as [_ E].
      by replace (Z.to_nat (nt + 1 + Z.of_nat (i - length hp))) with i in E by lia.
  - apply lookup_ge_None in E. rewrite length_app in E. apply lookup_ge_None. lia.
Qed.

Lemma new_inv_length n nps nh nt hp tp :
  new_inv n nps nh nt hp tp → nt < nh → Z.of_nat (length (hp ++ tp)) = n.
Proof. intros [H1 H2 H3 H4 H5 H6 H7] Hlt. rewrite length_app. lia. Qed.

(** ** The order invariant of a pass *)

Section Order.

Variables (c : Node) (cp : PartRef) (cs ce : Node).
Variables (fuel : nat) (h : option NodeRemovalHandler).
Variables (oks nks nvs : list JsValue).
Variables (n m : Z).

(** The keys of the pass are unique. *)
Hypothesis nks_inj : ∀ i j, 0 ≤ i < n → 0 ≤ j < n →
  js_get VUndefined nks i = js_get VUndefined nks j → i = j.

(** An old index outside the window, or tombstoned, has a key that no
    longer occurs among the new keys still to be placed. *)
Definition keys_inv (ops : list Slot) (oh ot nh nt : Z) : Prop :=
  ∀ i, 0 ≤ i < m →
    (oh ≤ i ≤ ot ∧ ∃ p, js_get SUndefined ops i = SPart p) ∨
    (∀ j, nh ≤ j ≤ nt → js_get VUndefined oks i ≠ js_get VUndefined nks j).

Definition maps_ok (nm om : option (gmap JsValue Z)) (nh nt : Z) : Prop :=
  (∀ nm', nm = Some nm' → ∀ k, nm' !! k = None →
     ∀ j, nh ≤ j ≤ nt → js_get VUndefined nks j ≠ k) ∧
  (∀ om', om = Some om' → ∀ k i, om' !! k = Some i →
     0 ≤ i < m ∧ js_get VUndefined oks i = k).

Record idx_inv (L : Loop) (hp tp : list PartRef) : Prop := {
  ix_new : new_inv n (newParts L) (newHead L) (newTail L) hp tp;
  ix_len : Z.of_nat (length (oldParts L)) = m;
  ix_slots : ∀ i, 0 ≤ i < m →
    js_get SUndefined (oldParts L) i = SNull ∨ ∃ p, js_get SUndefined (oldParts L) i = SPart p;
  ix_win : 0 ≤ oldHead L ∧ oldTail L < m;
  ix_keys : keys_inv (oldParts L) (oldHead L) (oldTail L) (newHead L) (newTail L);
  ix_maps : maps_ok (newKeyToIndexMap L) (oldKeyToIndexMap L) (newHead L) (newTail L);
}.

(** The parts in document order: those placed at the head, the old parts
    still in the window, those placed at the tail. *)
Definition seq_of (L : Loop) (hp tp : list PartRef) : list PartRef :=
  hp ++ window_parts (oldParts L) (oldHead L) (oldTail L) ++ tp.

Lemma keys_inv_shrink ops oh ot nh nt oh' ot' nh' nt' :
  keys_inv ops oh ot nh nt → nh ≤ nh' → nt' ≤ nt →
  (∀ i, 0 ≤ i < m → oh ≤ i ≤ ot → ¬ (oh' ≤ i ≤ ot') →
     ∀ j, nh' ≤ j ≤ nt' → js_get VUndefined oks i ≠ js_get VUndefined nks j) →
  keys_inv ops oh' ot' nh' nt'.
Proof.
  intros K H1 H2 Hout i Hi. destruct (K i Hi) as [[Hw Hp]|Hk].
  - destruct (decide (oh' ≤ i ≤ ot')); [by left|]. right. by apply Hout.
  - right. intros j Hj. apply Hk. lia.
Qed.

Lemma keys_inv_tombstone ops oh ot nh nt i0 nh' nt' :
  keys_inv ops oh ot nh nt → nh ≤ nh' → nt' ≤ nt →
  (∀ j, nh' ≤ j ≤ nt' → js_get VUndefined oks i0 ≠ js_get VUndefined nks j) →
  keys_inv (js_set SUndefined ops i0 SNull) oh ot nh' nt'.
Proof.
  intros K H1 H2 Hout i Hi. destruct (decide (i = i0)) as [->|Hne]; [by right|].
  rewrite js_get_set_ne by done. destruct (K i Hi) as [?|Hk]; [by left|].
  right. intros j Hj. apply Hk. lia.
Qed.

Lemma key_used i j0 :
  js_get VUndefined oks i = js_get VUndefined nks j0 → 0 ≤ j0 < n →
  ∀ j, 0 ≤ j < n → j ≠ j0 → js_get VUndefined oks i ≠ js_get VUndefined nks j.
Proof. intros -> H0 j Hj Hne Heq. apply Hne. symmetry. by apply nks_inj. Qed.

Lemma maps_ok_shrink nm om nh nt nh' nt' :
  maps_ok nm om nh nt → nh ≤ nh' → nt' ≤ nt → maps_ok nm om nh' nt'.
Proof.
  intros [H1 H2] ? ?. split; [|done]. intros nm' -> k Hk j Hj.
  eapply H1; [done|done|lia].
Qed.

Lemma maps_ok_generate oh ot nh nt :
  0 ≤ oh → ot < m →
  maps_ok (Some (generateMap nks nh nt)) (Some (generateMap oks oh ot)) nh nt.
Proof.
  intros H1 H2. split.
  - intros ? [= <-] k Hk j Hj. by eapply generateMap_None.
  - intros ? [= <-] k i Hk. apply generateMap_Some in Hk as [? ?]. split; [lia|done].
Qed.

Lemma old_head_part L hp tp :
  idx_inv L hp tp → oldHead L ≤ oldTail L →
  js_get SUndefined (oldParts L) (oldHead L) ≠ SNull →
  ∃ p, js_get SUndefined (oldParts L) (oldHead L) = SPart p ∧
       window_parts (oldParts L) (oldHead L) (oldTail L)
       = p :: window_parts (oldParts L) (oldHead L + 1) (oldTail L).
Proof.
  intros I Hle Hnn. destruct (ix_win _ _ _ I) as [H0 Hm].
  destruct (ix_slots _ _ _ I (oldHead L) ltac:(lia)) as [?|[p Hp]]; [done|].
  exists p. split; [done|]. by apply window_parts_head.
Qed.

Lemma old_tail_part L hp tp :
  idx_inv L hp tp → oldHead L ≤ oldTail L →
  js_get SUndefined (oldParts L) (oldTail L) ≠ SNull →
  ∃ p, js_get SUndefined (oldParts L) (oldTail L) = SPart p ∧
       ∀ a, 0 ≤ a ≤ oldTail L →
         window_parts (oldParts L) a (oldTail L)
         = window_parts (oldParts L) a (oldTail L - 1) ++ [p].
Proof.
  intros I Hle Hnn. destruct (ix_win _ _ _ I) as [H0 Hm].
  destruct (ix_slots _ _ _ I (oldTail L) ltac:(lia)) as [?|[p Hp]]; [done|].
  exists p. split; [done|]. intros a Ha. by apply window_parts_last.
Qed.

Lemma dom_inv_frame σ σ' seq :
  parentOf σ' = parentOf σ → childNodes σ' = childNodes σ → nextNode σ' = nextNode σ →
  parts σ' = parts σ → nextPart σ' = nextPart σ →
  dom_inv c cp cs ce σ seq → dom_inv c cp cs ce σ' seq.
Proof.
  intros H1 H2 H3 H4 H5 D.
  assert (K : markers_kept σ σ') by (by apply markers_kept_parts).
  assert (Hc : children_of σ' c = children_of σ c) by (unfold children_of; by rewrite H2).
  eapply dom_inv_next; [exact D| | exact K | |].
  - eapply dom_wf_keeps; [done..|apply D].
  - eapply live_all_kept; [done|apply D].
  - rewrite (bounds_kept σ σ' _ K (di_live _ _ _ _ _ _ D)), Hc. apply D.
Qed.

Ltac flat := rewrite <- ?app_assoc; simpl; rewrite <- ?app_assoc; simpl.

Lemma stuck_maps L hp tp σ (r : option (gmap JsValue Z) * option (gmap JsValue Z)) σ1 seq :
  idx_inv L hp tp → dom_inv c cp cs ce σ seq →
  match newKeyToIndexMap L with
  | None =>
      _ ← emit EvGenerateMaps;
      mret (Some (generateMap nks (newHead L) (newTail L)),
            Some (generateMap oks (oldHead L) (oldTail L)))
  | Some nm => mret (Some nm, oldKeyToIndexMap L)
  end σ = (Returns r, σ1) →
  maps_ok r.1 r.2 (newHead L) (newTail L) ∧ dom_inv c cp cs ce σ1 seq.
Proof.
  intros I D H. destruct (ix_win _ _ _ I) as [H0 Hm].
  destruct (newKeyToIndexMap L) as [nm|] eqn:En.
  - minv. simpl. split; [|done]. pose proof (ix_maps _ _ _ I) as Hmaps.
    by rewrite En in Hmaps.
  - minv. simpl. split; [by apply maps_ok_generate|].
    by eapply dom_inv_frame; [..|exact D].
Qed.

Lemma step_order L hp tp hd σ L' σ' :
  idx_inv L hp tp → dom_inv c cp cs ce σ (seq_of L hd tp) →
  oldHead L ≤ oldTail L → newHead L ≤ newTail L →
  step materialize fuel cp h oks nks nvs L σ = (Returns L', σ') →
  ∃ hp' tp' hd', idx_inv L' hp' tp' ∧ dom_inv c cp cs ce σ' (seq_of L' hd' tp') ∧
                 (js_get VUndefined nks (newHead L) ≠ VNaN → hd = hp → hd' = hp').
Proof.
  intros I D Ho Hn H. unfold step in H. cbv zeta in H.
  pose proof I as [INew ILen ISlots [IW0 IWm] IKeys IMaps].
  pose proof INew as [N1 N2 N3 N4 N5 N6 N7].
  unfold seq_of in *.
  destruct (decide (js_get SUndefined (oldParts L) (oldHead L) = SNull)) as [Hoh|Hoh].
  { (* a tombstone at the old head *)
    minv. exists hp, tp, hd. cbn [oldParts oldHead oldTail].
    rewrite <- window_parts_skip_head by done. split; [|done].
    split; cbn; try done; try lia.
    eapply keys_inv_shrink; [done|lia|lia|]. intros i Hi Hin Hout j Hj.
    assert (i = oldHead L) as -> by lia.
    destruct (IKeys _ Hi) as [[_ [p Hp]]|Hk]; [congruence|by apply Hk]. }
  destruct (decide (js_get SUndefined (oldParts L) (oldTail L) = SNull)) as [Hot|Hot].
  { (* a tombstone at the old tail *)
    minv. exists hp, tp, hd. cbn [oldParts oldHead oldTail].
    rewrite <- window_parts_skip_last by (done || lia). split; [|done].
    split; cbn; try done; try lia.
    eapply keys_inv_shrink; [done|lia|lia|]. intros i Hi Hin Hout j Hj.
    assert (i = oldTail L) as -> by lia.
    destruct (IKeys _ Hi) as [[_ [p Hp]]|Hk]; [congruence|by apply Hk]. }
  destruct (old_head_part L hp tp I Ho Hoh) as (ph & Hph & Hwh).
  destruct (old_tail_part L hp tp I Ho Hot) as (pt & Hpt & Hwt).
  rewrite ?Hph, ?Hpt in H.
  destruct (strict_eq _ _) eqn:E1 in H.
  { (* old head and new head agree *)
    apply strict_eq_true in E1 as [E1 _].
    apply bind_returns in H as (r & σ1 & Eu & H).
    rewrite Hwh in D.
    destruct (updatePart_dom c cp cs ce σ hd ph _ _ _ _ _ D Eu) as (Hr & D1 & _).
    subst r. apply ret_inv in H as [[= ->] ->].
    exists (hp ++ [ph]), tp, (hd ++ [ph]). cbn [oldParts oldHead oldTail newHead].
    split; [|split; [by rewrite <- app_assoc|by intros _ ->]].
    split; cbn; try done; try lia.
    + by apply new_inv_head.
    + eapply keys_inv_shrink; [done|lia|lia|]. intros i Hi Hin Hout j Hj.
      assert (i = oldHead L) as -> by lia.
      eapply key_used; [exact E1|lia|lia|lia].
    + eapply maps_ok_shrink; [done|lia|lia]. }
  set (W' := window_parts (oldParts L) (oldHead L + 1) (oldTail L)) in *.
  destruct (strict_eq _ _) eqn:E2 in H.
  { (* old tail and new tail agree *)
    apply strict_eq_true in E2 as [E2 _].
    apply bind_returns in H as (r & σ1 & Eu & H).
    rewrite (Hwt (oldHead L)) in D by lia.
    set (W := window_parts (oldParts L) (oldHead L) (oldTail L - 1)) in *.
    replace (hd ++ (W ++ [pt]) ++ tp) with ((hd ++ W) ++ pt :: tp) in D by (by flat).
    destruct (updatePart_dom c cp cs ce σ (hd ++ W) pt _ _ _ _ _ D Eu) as (Hr & D1 & _).
    subst r. apply ret_inv in H as [[= ->] ->].
    exists hp, (pt :: tp), hd. cbn [oldParts oldHead oldTail newHead].
    split; [|split; [by rewrite <- app_assoc in D1|done]].
    split; cbn; try done; try lia.
    + by apply new_inv_tail.
    + eapply keys_inv_shrink; [done|lia|lia|]. intros i Hi Hin Hout j Hj.
      assert (i = oldTail L) as -> by lia.
      eapply key_used; [exact E2|lia|lia|lia].
    + eapply maps_ok_shrink; [done|lia|lia]. }
  destruct (strict_eq _ _) eqn:E3 in H.
  { (* the old head moved to the new tail *)
    apply strict_eq_true in E3 as [E3 _].
    apply bind_returns in H as (r & σ1 & Eu & H).
    rewrite Hwh in D.
    destruct (updatePart_dom c cp cs ce σ hd ph _ _ _ _ _ D Eu) as (Hr & D1 & _).
    subst r. apply bind_returns in H as ([] & σ2 & Ei & H).
    rewrite js_get_set_ne in Ei by lia. rewrite (new_inv_ref _ _ _ _ _ _ INew) in Ei.
    destruct (insertPartBefore_dom_forward c cp cs ce σ1 hd ph W' tp _ _ D1 Ei) as (D2 & _).
    apply ret_inv in H as [[= ->] ->].
    exists hp, (ph :: tp), hd. cbn [oldParts oldHead oldTail newHead].
    split; [|done].
    split; cbn; try done; try lia.
    + by apply new_inv_tail.
    + eapply keys_inv_shrink; [done|lia|lia|]. intros i Hi Hin Hout j Hj.
      assert (i = oldHead L) as -> by lia.
      eapply key_used; [exact E3|lia|lia|lia].
    + eapply maps_ok_shrink; [done|lia|lia]. }
  destruct (strict_eq _ _) eqn:E4 in H.
  { (* the old tail moved to the new head *)
    assert (Hlt : oldHead L < oldTail L).
    { destruct (decide (oldHead L = oldTail L)) as [Heq|]; [|lia].
      rewrite Heq in E1. congruence. }
    apply strict_eq_true in E4 as [E4 _].
    apply bind_returns in H as (r & σ1 & Eu & H).
    rewrite Hwh in D. unfold W' in D. rewrite (Hwt (oldHead L + 1)) in D by lia.
    set (W := window_parts (oldParts L) (oldHead L + 1) (oldTail L - 1)) in *.
    replace (hd ++ (ph :: W ++ [pt]) ++ tp) with ((hd ++ ph :: W) ++ pt :: tp) in D
      by (by flat).
    destruct (updatePart_dom c cp cs ce σ (hd ++ ph :: W) pt _ _ _ _ _ D Eu) as (Hr & D1 & _).
    subst r. apply bind_returns in H as ([] & σ2 & Ei & H).
    replace ((hd ++ ph :: W) ++ pt :: tp) with (hd ++ ph :: W ++ pt :: tp) in D1
      by (by flat).
    destruct (insertPartBefore_dom_backward c cp cs ce σ1 hd ph W pt tp _ _ D1 Ei) as (D2 & _).
    apply ret_inv in H as [[= ->] ->].
    exists (hp ++ [pt]), tp, (hd ++ [pt]). cbn [oldParts oldHead oldTail newHead].
    split; [|split; [|by intros _ ->]].
    - split; cbn; try done; try lia.
      + by apply new_inv_head.
      + eapply keys_inv_shrink; [done|lia|lia|]. intros i Hi Hin Hout j Hj.
        assert (i = oldTail L) as -> by lia.
        eapply key_used; [exact E4|lia|lia|lia].
      + eapply maps_ok_shrink; [done|lia|lia].
    - rewrite (window_parts_head _ _ _ ph) by (done || lia). fold W.
      by flat. }
  (* stuck: no end matches *)
  apply bind_returns in H as (maps & σ1 & Em & H).
  destruct (stuck_maps L hp tp σ maps σ1 _ I D Em) as [Hmaps D1].
  apply bind_returns in H as (nm & σ1' & En & H). apply deref_inv in En as [En ->].
  destruct (decide (nm !! _ = None)) as [Hr1|Hr1] in H.
  { (* the old head's key is gone *)
    apply bind_returns in H as ([] & σ2 & Er & H).
    rewrite Hwh in D1.
    destruct (removePart_dom c cp cs ce σ1 hd ph _ _ _ _ D1 Er) as (D2 & _).
    apply ret_inv in H as [[= ->] ->].
    exists hp, tp, hd. cbn [oldParts oldHead oldTail newHead]. split; [|done].
    split; cbn; try done; try lia.
    eapply keys_inv_shrink; [done|lia|lia|]. intros i Hi Hin Hout j Hj.
    assert (i = oldHead L) as -> by lia.
    intros Heq. by eapply (proj1 Hmaps nm En _ Hr1 j Hj). }
  destruct (decide (nm !! _ = None)) as [Hr2|Hr2] in H.
  { (* the old tail's key is gone *)
    apply bind_returns in H as ([] & σ2 & Er & H).
    rewrite (Hwt (oldHead L)) in D1 by lia.
    set (W := window_parts (oldParts L) (oldHead L) (oldTail L - 1)) in *.
    replace (hd ++ (W ++ [pt]) ++ tp) with ((hd ++ W) ++ pt :: tp) in D1 by (by flat).
    destruct (removePart_dom c cp cs ce σ1 (hd ++ W) pt _ _ _ _ D1 Er) as (D2 & _).
    apply ret_inv in H as [[= ->] ->].
    exists hp, tp, hd. cbn [oldParts oldHead oldTail newHead].
    split; [|split; [by rewrite <- app_assoc in D2|done]].
    split; cbn; try done; try lia.
    eapply keys_inv_shrink; [done|lia|lia|]. intros i Hi Hin Hout j Hj.
    assert (i = oldTail L) as -> by lia.
    intros Heq. by eapply (proj1 Hmaps nm En _ Hr2 j Hj). }
  apply bind_returns in H as (om & σ1' & Eo & H). apply deref_inv in Eo as [Eo ->].
  rewrite Hwh in D1.
  destruct (decide (_ = SNull)) as [Hnull|Hlive] in H.
  { (* a new part for the new head *)
    apply bind_returns in H as (q & σ2 & Ec & H).
    destruct (createAndInsertPart_dom c cp cs ce σ1 hd (ph :: W' ++ tp) q σ2 D1 Ec)
      as (D2 & _ & _).
    apply bind_returns in H as (r & σ3 & Eu & H).
    destruct (updatePart_dom c cp cs ce σ2 hd q _ _ _ _ _ D2 Eu) as (_ & D3 & _).
    apply ret_inv in H as [[= ->] ->].
    exists (hp ++ [q]), tp, (hd ++ [q]). cbn [oldParts oldHead oldTail newHead].
    split; [|split; [|by intros _ ->]].
    - split; cbn; try done; try lia.
      + by apply new_inv_head.
      + eapply keys_inv_shrink; [done|lia|lia|]. intros i Hi Hin Hout. lia.
      + eapply maps_ok_shrink; [done|lia|lia].
    - rewrite Hwh. by flat. }
  (* an old part of the window is reused for the new head *)
  destruct (om !! js_get VUndefined nks (newHead L)) as [i|] eqn:Ei; [|done].
  destruct (proj2 Hmaps om Eo _ _ Ei) as [Hi Hki].
  destruct (ISlots i Hi) as [?|[p Hp]]; [done|].
  assert (Hwin : oldHead L ≤ i ≤ oldTail L).
  { destruct (IKeys i Hi) as [[Hw _]|Hk]; [done|].
    exfalso. apply (Hk (newHead L)); [lia|done]. }
  cbn [default] in H. rewrite Hp in H.
  apply bind_returns in H as (r & σ2 & Eu & H).
  assert (I' : idx_inv
            (mkLoop (js_set SUndefined (oldParts L) i SNull)
                    (js_set SUndefined (newParts L) (newHead L) (SPart p))
                    (oldHead L) (oldTail L) (newHead L + 1) (newTail L) maps.1 maps.2)
            (hp ++ [p]) tp).
  { split; cbn; try done; try lia.
    + by apply new_inv_head.
    + rewrite js_set_in_range by lia. by rewrite length_insert.
    + intros i' Hi'. destruct (decide (i' = i)) as [->|Hne].
      * left. apply js_get_set_eq. lia.
      * rewrite js_get_set_ne by done. by apply ISlots.
    + eapply keys_inv_tombstone; [done|lia|lia|]. intros j Hj.
      eapply key_used; [exact Hki|lia|lia|lia].
    + eapply maps_ok_shrink; [done|lia|lia]. }
  destruct (decide (i = oldHead L)) as [->|Hih].
  { (* the old head given as its own reference: only a [NaN] key gets here *)
    assert (p = ph) as -> by congruence.
    destruct (updatePart_dom c cp cs ce σ1 hd ph _ _ _ _ _ D1 Eu) as (Hr & D2 & _).
    subst r. apply bind_returns in H as ([] & σ3 & Eb & H).
    destruct (insertPartBefore_dom_self c cp cs ce σ2 hd ph (W' ++ tp) D2)
      as (need & σ3' & HF & _ & _ & D3 & _).
    apply (fueled_returns _ _ _ _ _ _ _ _ HF) in Eb as (_ & -> & _).
    apply bind_returns in H as ([] & σ4 & Ew & H).
    apply ret_inv in H as [[= ->] ->].
    assert (D4 : dom_inv c cp cs ce σ4 (hd ++ W' ++ tp)).
    { unfold write_tombstone in Ew. minv. by eapply dom_inv_frame; [..|exact D3]. }
    exists (hp ++ [ph]), tp, hd. cbn [oldParts oldHead oldTail newHead].
    split; [exact I'|]. split.
    - destruct (window_parts_tombstone (oldParts L) (oldHead L) (oldHead L) (oldTail L) ph
                  ltac:(lia) ltac:(lia) Hph) as [_ Hs2].
      rewrite Hs2. unfold window_parts at 1. rewrite window_empty by lia. done.
    - intros Hnan _. exfalso.
      assert (strict_eq (js_get VUndefined oks (oldHead L))
                (js_get VUndefined nks (newHead L)) = true); [|congruence].
      rewrite Hki. by apply strict_eq_refl. }
  destruct (window_parts_tombstone (oldParts L) (oldHead L + 1) i (oldTail L) p
              ltac:(lia) ltac:(lia) Hp) as [Hs1 Hs2].
  fold W' in Hs1.
  set (m1 := window_parts (oldParts L) (oldHead L + 1) (i - 1)) in *.
  set (m2 := window_parts (oldParts L) (i + 1) (oldTail L)) in *.
  rewrite Hs1 in D1.
  replace (hd ++ (ph :: m1 ++ p :: m2) ++ tp) with ((hd ++ ph :: m1) ++ p :: m2 ++ tp) in D1
    by (by flat).
  destruct (updatePart_dom c cp cs ce σ1 (hd ++ ph :: m1) p _ _ _ _ _ D1 Eu) as (Hr & D2 & _).
  subst r. apply bind_returns in H as ([] & σ3 & Eb & H).
  replace ((hd ++ ph :: m1) ++ p :: m2 ++ tp) with (hd ++ ph :: m1 ++ p :: m2 ++ tp) in D2
    by (by flat).
  destruct (insertPartBefore_dom_backward c cp cs ce σ2 hd ph m1 p (m2 ++ tp) _ _ D2 Eb)
    as (D3 & _).
  apply bind_returns in H as ([] & σ4 & Ew & H).
  apply ret_inv in H as [[= ->] ->].
  assert (D4 : dom_inv c cp cs ce σ4 (hd ++ p :: ph :: m1 ++ m2 ++ tp)).
  { unfold write_tombstone in Ew. minv. by eapply dom_inv_frame; [..|exact D3]. }
  exists (hp ++ [p]), tp, (hd ++ [p]). cbn [oldParts oldHead oldTail newHead].
  split; [exact I'|]. split; [|by intros _ ->].
  rewrite (window_parts_head _ _ _ ph); [|lia|by rewrite js_get_set_ne by lia].
  rewrite Hs2. by flat.
Qed.

Lemma main_loop_order k L hp tp hd σ L' σ' :
  idx_inv L hp tp → dom_inv c cp cs ce σ (seq_of L hd tp) →
  main_loop materialize fuel cp h oks nks nvs k L σ = (Returns L', σ') →
  ∃ hp' tp' hd', idx_inv L' hp' tp' ∧ dom_inv c cp cs ce σ' (seq_of L' hd' tp') ∧
                 ¬ (oldHead L' ≤ oldTail L' ∧ newHead L' ≤ newTail L') ∧
                 ((∀ j, 0 ≤ j < n → js_get VUndefined nks j ≠ VNaN) → hd = hp → hd' = hp').
Proof.
  revert L hp tp hd σ. induction k as [|k IH]; intros L hp tp hd σ I D H; simpl in H.
  - destruct (decide _) as [|Hn]; [done|]. apply ret_inv in H as [[= ->] ->].
    exists hp, tp, hd. eauto.
  - destruct (decide _) as [[Ho Hn]|Hn];
      [|apply ret_inv in H as [[= ->] ->]; exists hp, tp, hd; eauto].
    apply bind_returns in H as (L1 & σ1 & Es & H).
    destruct (step_order L hp tp hd σ L1 σ1 I D Ho Hn Es) as (hp1 & tp1 & hd1 & I1 & D1 & E1).
    destruct (IH _ _ _ _ _ I1 D1 H) as (hp2 & tp2 & hd2 & I2 & D2 & Hx & E2).
    exists hp2, tp2, hd2. split; [done|]. split; [done|]. split; [done|].
    intros Hnan Heq. apply E2; [done|]. apply E1; [|done].
    pose proof (ix_new _ _ _ I) as [N1 N2 _ _ _ _ _]. apply Hnan. lia.
Qed.

Lemma add_loop_order k L hp tp hd σ L' σ' :
  idx_inv L hp tp → dom_inv c cp cs ce σ (seq_of L hd tp) →
  ¬ (oldHead L ≤ oldTail L ∧ newHead L ≤ newTail L) →
  add_loop materialize fuel cp nvs k L σ = (Returns L', σ') →
  ∃ hp' tp' hd', idx_inv L' hp' tp' ∧ dom_inv c cp cs ce σ' (seq_of L' hd' tp') ∧
                 newTail L' < newHead L' ∧ (hd = hp → hd' = hp').
Proof.
  revert L hp tp hd σ. induction k as [|k IH]; intros L hp tp hd σ I D Hx H; simpl in H.
  - destruct (decide _) as [|Hn]; [done|]. apply ret_inv in H as [[= ->] ->].
    exists hp, tp, hd. split; [done|split; [done|split; [lia|done]]].
  - destruct (decide _) as [Hn|Hn];
      [|apply ret_inv in H as [[= ->] ->]; exists hp, tp, hd;
        split; [done|split; [done|split; [lia|done]]]].
    pose proof I as [INew ILen ISlots [IW0 IWm] IKeys IMaps].
    assert (Hw : window_parts (oldParts L) (oldHead L) (oldTail L) = []).
    { unfold window_parts. rewrite window_empty by lia. done. }
    apply bind_returns in H as (q & σ1 & Ec & H).
    apply bind_returns in H as (r & σ2 & Eu & H).
    unfold seq_of in D. rewrite Hw in D. simpl in D.
    rewrite (new_inv_ref _ _ _ _ _ _ INew) in Ec.
    destruct (createAndInsertPart_dom c cp cs ce σ hd tp q σ1 D Ec) as (D1 & _ & _).
    destruct (updatePart_dom c cp cs ce σ1 hd q _ _ _ _ _ D1 Eu) as (_ & D2 & _).
    edestruct (λ I D X, IH _ (hp ++ [q]) tp (hd ++ [q]) _ I D X H)
      as (hp2 & tp2 & hd2 & I2 & D3 & Hn2 & E2).
    + split; cbn; try done; try lia.
      * by apply new_inv_head.
      * eapply keys_inv_shrink; [done|lia|lia|]. intros i Hi Hin Hout. lia.
      * eapply maps_ok_shrink; [done|lia|lia].
    + unfold seq_of. cbn [oldParts oldHead oldTail]. rewrite Hw. by flat.
    + cbn; lia.
    + exists hp2, tp2, hd2. split; [done|]. split; [done|]. split; [done|].
      intros ->. by apply E2.
Qed.

Lemma remove_loop_order k L hp tp hd σ L' σ' :
  idx_inv L hp tp → dom_inv c cp cs ce σ (seq_of L hd tp) →
  newTail L < newHead L →
  remove_loop fuel h k L σ = (Returns L', σ') →
  idx_inv L' hp tp ∧ dom_inv c cp cs ce σ' (seq_of L' hd tp) ∧
  newTail L' < newHead L' ∧ oldTail L' < oldHead L'.
Proof.
  revert L σ. induction k as [|k IH]; intros L σ I D Hx H; simpl in H.
  - destruct (decide _) as [|Hn]; [done|]. apply ret_inv in H as [[= ->] ->].
    split; [done|split; [done|lia]].
  - destruct (decide _) as [Ho|Hn];
      [|apply ret_inv in H as [[= ->] ->]; split; [done|split; [done|lia]]].
    pose proof I as [INew ILen ISlots [IW0 IWm] IKeys IMaps].
    apply bind_returns in H as ([] & σ1 & Er & H).
    refine (IH _ _ _ _ _ H); [| |cbn; lia].
    + split; cbn; try done; try lia.
      eapply keys_inv_shrink; [done|lia|lia|]. intros i Hi Hin Hout j Hj. lia.
    + unfold seq_of in *. cbn [oldParts oldHead oldTail].
      destruct (decide (js_get SUndefined (oldParts L) (oldHead L) = SNull)) as [Hoh|Hoh].
      * apply ret_inv in Er as [_ ->]. by rewrite <- window_parts_skip_head.
      * destruct (old_head_part L hp tp I Ho Hoh) as (ph & Hph & Hwh).
        rewrite Hph in Er. rewrite Hwh in D.
        by destruct (removePart_dom c cp cs ce σ hd ph _ _ _ _ D Er) as (D2 & _).
Qed.

End Order.

Lemma slot_parts_fmap ps : slot_parts (SPart <$> ps) = ps.
Proof.
  induction ps as [|p ps IH]; [done|].
  change (p :: slot_parts (SPart <$> ps) = p :: ps). by rewrite IH.
Qed.

Lemma window_all {A} (l : list A) : window l 0 (Z.of_nat (length l) - 1) = l.
Proof.
  unfold window. simpl. rewrite drop_0.
  replace (Z.to_nat _) with (length l) by lia. apply firstn_all.
Qed.

Lemma NoDup_js_get_inj (l : list JsValue) :
  NoDup l → ∀ i j, 0 ≤ i < Z.of_nat (length l) → 0 ≤ j < Z.of_nat (length l) →
  js_get VUndefined l i = js_get VUndefined l j → i = j.
Proof.
  intros Hnd i j Hi Hj. unfold js_get. rewrite !decide_True by lia.
  destruct (lookup_lt_is_Some_2 l (Z.to_nat i) ltac:(lia)) as [x Hx].
  destruct (lookup_lt_is_Some_2 l (Z.to_nat j) ltac:(lia)) as [y Hy].
  rewrite Hx, Hy. simpl. intros <-.
  pose proof (NoDup_lookup _ _ _ _ Hnd Hx Hy). lia.
Qed.

Lemma idx_inv_initial oks nks n ps :
  0 ≤ n →
  idx_inv oks nks n (Z.of_nat (length ps))
    (mkLoop (SPart <$> ps) [] 0 (Z.of_nat (length (SPart <$> ps)) - 1) 0 (n - 1) None None)
    [] [].
Proof.
  intros Hn. rewrite length_fmap. split; cbn.
  - by apply new_inv_init.
  - by rewrite length_fmap.
  - intros i Hi. right.
    destruct (lookup_lt_is_Some_2 ps (Z.to_nat i) ltac:(lia)) as [p Hp].
    exists p. unfold js_get. rewrite decide_True by lia.
    by rewrite list_lookup_fmap, Hp.
  - lia.
  - intros i Hi. left. split; [lia|].
    destruct (lookup_lt_is_Some_2 ps (Z.to_nat i) ltac:(lia)) as [p Hp].
    exists p. unfold js_get. rewrite decide_True by lia.
    by rewrite list_lookup_fmap, Hp.
  - split; intros ? [=].
Qed.
(** The order of the parts after a call with unique keys, none of them
    [NaN]. *)
Lemma repeat_order c cp cs ce fuel items kfot t h σ σ' ps0 :
  dom_inv c cp cs ce σ ps0 →
  default [] (partListCache σ !! cp) = SPart <$> ps0 →
  NoDup (new_keys (pass_keyFn kfot t) items) →
  Forall not_nan (new_keys (pass_keyFn kfot t) items) →
  repeat materialize fuel items kfot t h (NodePartObj cp) σ = (Returns tt, σ') →
  ∃ ps, partListCache σ' !! cp = Some (SPart <$> ps) ∧
        keyListCache σ' !! cp = Some (new_keys (pass_keyFn kfot t) items) ∧
        length ps = length items ∧
        Forall (live σ') ps ∧
        layout (Single cs :: (bound_of σ' <$> ps) ++ [Single ce]) (children_of σ' c) ∧
        dom_inv c cp cs ce σ' ps.
Proof.
  intros D Hc Hnd Hnan H.
  apply repeat_returns in H
    as (nvs & L1 & L2 & L3 & σ1 & σ2 & σ3 & Hlen & _ & Hm & Ha & Hr & ->).
  cbv zeta in *. rewrite Hc in Hm. unfold initial_loop in Hm.
  set (nks := new_keys (pass_keyFn kfot t) items) in *.
  set (oks := default [] (keyListCache σ !! cp)) in *.
  assert (Hinj : ∀ i j, 0 ≤ i < Z.of_nat (length nvs) → 0 ≤ j < Z.of_nat (length nvs) →
            js_get VUndefined nks i = js_get VUndefined nks j → i = j).
  { intros i j Hi Hj. apply NoDup_js_get_inj; [done| |];
      unfold nks; rewrite new_keys_length; lia. }
  pose proof (idx_inv_initial oks nks (Z.of_nat (length nvs)) ps0 ltac:(lia)) as I0.
  assert (D0 : dom_inv c cp cs ce σ
            (seq_of (mkLoop (SPart <$> ps0) [] 0 (Z.of_nat (length (SPart <$> ps0)) - 1) 0
                            (Z.of_nat (length nvs) - 1) None None) [] [])).
  { unfold seq_of, window_parts. cbn [oldParts oldHead oldTail].
    rewrite window_all, slot_parts_fmap, app_nil_r. done. }
  edestruct main_loop_order as (hp1 & tp1 & hd1 & I1 & D1 & Hx1 & E1);
    [exact Hinj|exact I0|exact D0|exact Hm|].
  rewrite (E1 (λ j _, js_get_not_nan nks j Hnan) eq_refl) in D1.
  edestruct add_loop_order as (hp2 & tp2 & hd2 & I2 & D2 & Hn2 & E2);
    [exact I1|exact D1|exact Hx1|exact Ha|].
  rewrite (E2 eq_refl) in D2.
  edestruct remove_loop_order as (I3 & D3 & Hn3 & Ho3); [exact I2|exact D2|exact Hn2|exact Hr|].
  assert (D4 : dom_inv c cp cs ce
            (set_caches (<[cp := newParts L3]> (partListCache σ3))
                        (<[cp := nks]> (keyListCache σ3)) σ3) (hp2 ++ tp2)).
  { unfold seq_of, window_parts in D3. rewrite window_empty in D3 by lia.
    by eapply dom_inv_frame; [..|exact D3]. }
  exists (hp2 ++ tp2). split; [|split; [|split; [|split; [|split]]]].
  - simpl. rewrite lookup_insert_eq. f_equal.
    eapply new_inv_done; [apply I3|done].
  - simpl. by rewrite lookup_insert_eq.
  - pose proof (new_inv_length _ _ _ _ _ _ (ix_new _ _ _ _ _ _ _ I3) Hn3). lia.
  - apply D4.
  - apply D4.
  - exact D4.
Qed.

(** X17: for every call of [repeat] that returns, with unique keys none
    of which is [NaN], on a container whose cached parts lie in document
    order between the markers of the container part: the persisted parts
    are live, one per item, and their ranges lie in the container in the
    order of the new keys. *)
Theorem repeat_orders_parts_by_key c cp cs ce fuel items kfot t h σ σ' ps0 :
  dom_inv c cp cs ce σ ps0 →
  default [] (partListCache σ !! cp) = SPart <$> ps0 →
  NoDup (new_keys (pass_keyFn kfot t) items) →
  Forall not_nan (new_keys (pass_keyFn kfot t) items) →
  repeat materialize fuel items kfot t h (NodePartObj cp) σ = (Returns tt, σ') →
  ∃ ps, partListCache σ' !! cp = Some (SPart <$> ps) ∧
        keyListCache σ' !! cp = Some (new_keys (pass_keyFn kfot t) items) ∧
        length ps = length items ∧
        Forall (live σ') ps ∧
        layout (Single cs :: (bound_of σ' <$> ps) ++ [Single ce]) (children_of σ' c) ∧
        dom_inv c cp cs ce σ' ps.
Proof. apply repeat_order. Qed.
(** ** A swap of two neighbours *)

Section Swap.

Variables (c : Node) (cp : PartRef) (cs ce : Node).
Variables (fuel : nat) (h : option NodeRemovalHandler).
Variables (oks nks nvs : list JsValue).

(** Moving a part over at least one other part reparents its nodes. *)
Lemma insertPartBefore_moves σ A p q Mi C σ' :
  dom_inv c cp cs ce σ (A ++ p :: (q :: Mi) ++ C) →
  insertPartBefore fuel cp (SPart p) (ref_of C) σ = (Returns tt, σ') →
  trace σ' = EvMove p :: trace σ.
Proof.
  intros D H.
  destruct (di_split c cp cs ce σ A p ((q :: Mi) ++ C) D)
    as (s & e & m & X & Y & Hm & Hb & Hl & H1 & H2).
  pose proof (di_live _ _ _ _ _ _ D) as HL.
  assert (HLC : Forall (live σ) C).
  { apply Forall_app in HL as [_ HL]. apply Forall_cons in HL as [_ HL].
    by apply Forall_app in HL as [_ ?]. }
  rewrite fmap_app, <- app_assoc in H2.
  apply layout_app_inv in H2 as (YM & YC & -> & HM & HC).
  destruct (target_split ce σ C YC HLC HC) as (j & b & tl & -> & Hr & _).
  rewrite fmap_cons in HM.
  apply layout_head in HM as (j0 & tl0 & rest0 & -> & _ & _).
  pose proof (di_wf _ _ _ _ _ _ D) as W.
  rewrite (insertPartBefore_eval c cp cs ce σ p s e (ref_of C) b fuel W
             (di_cp _ _ _ _ _ _ D) (di_cs_child _ _ _ _ _ _ D) Hm Hr) in H.
  pose proof (wf_nodup _ _ W) as Hnd. rewrite Hl in Hnd.
  set (y := first_node (bound_of σ q)) in *.
  assert (Hns : nextSibling σ e = head ((j0 ++ y :: tl0 ++ rest0) ++ j ++ b :: tl)).
  { apply (wf_nextSibling σ c e (X ++ s :: m) _ W).
    rewrite Hl. by rewrite <- ?app_assoc; simpl; rewrite <- ?app_assoc. }
  assert (Hne : nextSibling σ e ≠ Some b).
  { rewrite Hns. destruct j0 as [|z j0]; simpl.
    - assert (y ≠ b) by notin_from Hnd. congruence.
    - assert (z ≠ b) by notin_from Hnd. congruence. }
  rewrite decide_False in H by done.
  pose proof (reparentNodes_non_dom _ _ _ _ _ _ _ _ H) as K.
  unfold keeps, non_dom in K. simpl in K. congruence.
Qed.

Lemma main_loop_run k L σ L' σ' :
  oldHead L ≤ oldTail L → newHead L ≤ newTail L →
  main_loop materialize fuel cp h oks nks nvs k L σ = (Returns L', σ') →
  ∃ k' L1 σ1, k = S k' ∧
    step materialize fuel cp h oks nks nvs L σ = (Returns L1, σ1) ∧
    main_loop materialize fuel cp h oks nks nvs k' L1 σ1 = (Returns L', σ').
Proof.
  intros Ho Hn H. destruct k as [|k]; simpl in H; rewrite decide_True in H by done.
  - done.
  - apply bind_returns in H as (L1 & σ1 & Es & H). by exists k, L1, σ1.
Qed.

Lemma main_loop_stop k L σ L' σ' :
  ¬ (oldHead L ≤ oldTail L ∧ newHead L ≤ newTail L) →
  main_loop materialize fuel cp h oks nks nvs k L σ = (Returns L', σ') →
  L' = L ∧ σ' = σ.
Proof.
  intros Hx H. destruct k as [|k]; simpl in H; rewrite decide_False in H by done;
    by apply ret_inv in H as [[= ->] ->].
Qed.

Lemma add_loop_stop k L σ L' σ' :
  newTail L < newHead L →
  add_loop materialize fuel cp nvs k L σ = (Returns L', σ') → L' = L ∧ σ' = σ.
Proof.
  intros Hx H. destruct k as [|k]; simpl in H; rewrite decide_False in H by lia;
    by apply ret_inv in H as [[= ->] ->].
Qed.

Lemma remove_loop_stop k L σ L' σ' :
  oldTail L < oldHead L →
  remove_loop fuel h k L σ = (Returns L', σ') → L' = L ∧ σ' = σ.
Proof.
  intros Hx H. destruct k as [|k]; simpl in H; rewrite decide_False in H by lia;
    by apply ret_inv in H as [[= ->] ->].
Qed.

(** The third comparison of the loop: the old head and the new head have
    the same key. *)
Lemma step_head_head L p :
  js_get SUndefined (oldParts L) (oldHead L) = SPart p →
  js_get SUndefined (oldParts L) (oldTail L) ≠ SNull →
  strict_eq (js_get VUndefined oks (oldHead L)) (js_get VUndefined nks (newHead L)) = true →
  step materialize fuel cp h oks nks nvs L
  = (r ← updatePart materialize fuel (SPart p) (js_get VUndefined nvs (newHead L));
     mret (mkLoop (oldParts L) (js_set SUndefined (newParts L) (newHead L) r)
                  (oldHead L + 1) (oldTail L) (newHead L + 1) (newTail L)
                  (newKeyToIndexMap L) (oldKeyToIndexMap L))).
Proof.
  intros H1 H2 H3. unfold step. cbv zeta. rewrite H1.
  rewrite (decide_False (P := SPart p = SNull)) by done.
  rewrite decide_False by done.
  by rewrite H3.
Qed.

(** The fifth comparison of the loop: the old head has the key of the new
    tail, and neither the heads nor the tails agree. *)
Lemma step_head_tail L p :
  js_get SUndefined (oldParts L) (oldHead L) = SPart p →
  js_get SUndefined (oldParts L) (oldTail L) ≠ SNull →
  strict_eq (js_get VUndefined oks (oldHead L)) (js_get VUndefined nks (newHead L)) = false →
  strict_eq (js_get VUndefined oks (oldTail L)) (js_get VUndefined nks (newTail L)) = false →
  strict_eq (js_get VUndefined oks (oldHead L)) (js_get VUndefined nks (newTail L)) = true →
  step materialize fuel cp h oks nks nvs L
  = (r ← updatePart materialize fuel (SPart p) (js_get VUndefined nvs (newTail L));
     _ ← insertPartBefore fuel cp (SPart p)
           (js_get SUndefined (js_set SUndefined (newParts L) (newTail L) r)
                   (newTail L + 1));
     mret (mkLoop (oldParts L) (js_set SUndefined (newParts L) (newTail L) r)
                  (oldHead L + 1) (oldTail L) (newHead L) (newTail L - 1)
                  (newKeyToIndexMap L) (oldKeyToIndexMap L))).
Proof.
  intros H1 H2 H3 H4 H5. unfold step. cbv zeta. rewrite H1.
  rewrite (decide_False (P := SPart p = SNull)) by done.
  rewrite decide_False by done.
  by rewrite H3, H4, H5.
Qed.

End Swap.
(** C3 (amended): with previous keys [k1; k2; k3] and new keys
    [k1; k3; k2], [k2 ≠ k3], none of them [NaN] (as the keys 1, 2, 3), a
    call that returns handles the swap in the comparison of the old head
    with the new tail: the three old parts are updated and kept, the part
    of [k2] is moved once (to the end), no part is created and the
    key-to-index maps are never built. *)
Theorem swap_moves_old_head_to_tail c cp cs ce fuel items kfot t h σ σ' p1 p2 p3 k1 k2 k3 :
  dom_inv c cp cs ce σ [p1; p2; p3] →
  partListCache σ !! cp = Some [SPart p1; SPart p2; SPart p3] →
  keyListCache σ !! cp = Some [k1; k2; k3] →
  new_keys (pass_keyFn kfot t) items = [k1; k3; k2] →
  k2 ≠ k3 →
  Forall not_nan [k1; k2; k3] →
  repeat materialize fuel items kfot t h (NodePartObj cp) σ = (Returns tt, σ') →
  ∃ v1 v2 v3,
    trace σ' = [EvUpdate p3 v3; EvMove p2; EvUpdate p2 v2; EvUpdate p1 v1] ++ trace σ ∧
    partListCache σ' !! cp = Some [SPart p1; SPart p3; SPart p2] ∧
    keyListCache σ' !! cp = Some [k1; k3; k2] ∧
    dom_inv c cp cs ce σ' [p1; p3; p2].
Proof.
  intros D Hp Hk Hnk Hne Hnan H.
  apply Forall_cons in Hnan as [Hn1 Hnan]. apply Forall_cons in Hnan as [Hn2 Hnan].
  apply Forall_cons in Hnan as [Hn3' _].
  apply repeat_returns in H
    as (nvs & L1 & L2 & L3 & σ1 & σ2 & σ3 & Hlen & _ & Hm & Ha & Hr & ->).
  cbv zeta in *. rewrite Hp, Hk, Hnk in Hm. rewrite Hnk.
  assert (Hn3 : length nvs = 3%nat).
  { rewrite Hlen, <- (new_keys_length (pass_keyFn kfot t)), Hnk. done. }
  unfold initial_loop in Hm. rewrite Hn3 in Hm.
  change (default [] (Some ?x)) with x in Hm.
  change (Z.of_nat (length [SPart p1; SPart p2; SPart p3]) - 1) with 2 in Hm.
  change (Z.of_nat 3 - 1) with 2 in Hm.
  (* first iteration: the heads agree on [k1] *)
  apply main_loop_run in Hm as (f1 & La & σa & -> & Es & Hm); [|cbn; lia..].
  rewrite (step_head_head cp _ h _ _ nvs _ p1) in Es;
    [|reflexivity|intros Hx; vm_compute in Hx; discriminate Hx
     |exact (strict_eq_refl k1 Hn1)].
  apply bind_returns in Es as (r & σx & Eu & Es).
  destruct (updatePart_dom c cp cs ce σ [] p1 [p2; p3] _ _ _ _ D Eu) as (-> & Da & _).
  apply updatePart_returns in Eu as (_ & ? & [= <-] & Ta).
  apply ret_inv in Es as [[= ->] ->].
  cbn [oldParts newParts oldHead oldTail newHead newTail] in Hm.
  (* second iteration: the old head [k2] is the new tail *)
  apply main_loop_run in Hm as (f2 & Lb & σb & -> & Es & Hm); [|cbn; lia..].
  rewrite (step_head_tail cp _ h _ _ nvs _ p2) in Es;
    [|reflexivity|intros Hx; vm_compute in Hx; discriminate Hx
     |exact (proj2 (strict_eq_false k2 k3) (or_introl Hne))
     |exact (proj2 (strict_eq_false k3 k2) (or_introl (not_eq_sym Hne)))
     |exact (strict_eq_refl k2 Hn2)].
  apply bind_returns in Es as (r & σy & Eu & Es).
  destruct (updatePart_dom c cp cs ce σx [p1] p2 [p3] _ _ _ _ Da Eu) as (-> & Db & _).
  apply updatePart_returns in Eu as (_ & ? & [= <-] & Tb).
  apply bind_returns in Es as ([] & σz & Ei & Es).
  match type of Ei with
  | insertPartBefore _ _ _ ?ref _ = _ => change ref with (ref_of (@nil PartRef)) in Ei
  end.
  pose proof (insertPartBefore_moves c cp cs ce _ σy [p1] p2 p3 [] [] σz Db Ei) as Tm.
  destruct (insertPartBefore_dom_forward c cp cs ce σy [p1] p2 [p3] [] _ _ Db Ei)
    as (Dc & _).
  apply ret_inv in Es as [[= ->] ->].
  cbn [oldParts newParts oldHead oldTail newHead newTail] in Hm.
  (* third iteration: the heads agree on [k3] *)
  apply main_loop_run in Hm as (f3 & Lc & σc & -> & Es & Hm); [|cbn; lia..].
  rewrite (step_head_head cp _ h _ _ nvs _ p3) in Es;
    [|reflexivity|intros Hx; vm_compute in Hx; discriminate Hx
     |exact (strict_eq_refl k3 Hn3')].
  apply bind_returns in Es as (r & σw & Eu & Es).
  destruct (updatePart_dom c cp cs ce σz [p1] p3 [p2] _ _ _ _ Dc Eu) as (-> & Dd & _).
  apply updatePart_returns in Eu as (_ & ? & [= <-] & Tc).
  apply ret_inv in Es as [[= ->] ->].
  cbn [oldParts newParts oldHead oldTail newHead newTail] in Hm.
  (* the three loops are over *)
  apply main_loop_stop in Hm as [-> ->]; [|cbn; lia].
  apply add_loop_stop in Ha as [-> ->]; [|cbn; lia].
  apply remove_loop_stop in Hr as [-> ->]; [|cbn; lia].
  eexists _, _, _. split; [|split; [|split]].
  - simpl. rewrite Tc, Tm, Tb, Ta. reflexivity.
  - simpl. rewrite lookup_insert_eq. reflexivity.
  - simpl. by rewrite lookup_insert_eq.
  - by eapply dom_inv_frame; [..|exact Dd].
Qed.
(** * Further properties of the code *)

(** ** [src/src/lib/dom.ts] *)

(** X1: [reparentNodes] on a run [R] of consecutive children, given by its
    first node and the node after its last, moves the run, in its order,
    to just before the child [before] of the same container, whether
    [before] comes later or earlier in the child list; the other children
    keep their order and no node changes its parent. *)
Theorem reparentNodes_moves_run (σ : State) (c : Node) :
  dom_wf σ c →
  (∀ X R Y b Z fuel,
     children_of σ c = X ++ R ++ Y ++ b :: Z → Y ≠ [] → (length R ≤ fuel)%nat →
     ∃ σ', reparentNodes fuel (Some c) (head (R ++ Y)) (head Y) (Some b) σ
             = (Returns tt, σ') ∧
           children_of σ' c = X ++ Y ++ R ++ b :: Z ∧
           parentOf σ' = parentOf σ ∧ dom_wf σ' c) ∧
  (∀ X b Mi R Y fuel,
     children_of σ c = X ++ b :: Mi ++ R ++ Y → (length R ≤ fuel)%nat →
     ∃ σ', reparentNodes fuel (Some c) (head (R ++ Y)) (head Y) (Some b) σ
             = (Returns tt, σ') ∧
           children_of σ' c = X ++ R ++ b :: Mi ++ Y ∧
           parentOf σ' = parentOf σ ∧ dom_wf σ' c).
Proof.
  intros W. split.
  - intros X R Y b Z fuel Hl HY Hf.
    pose proof (reparentNodes_forward c R X Y [] b Z σ W Hl HY fuel) as H.
    cbn beta in H. rewrite decide_True in H by done.
    eexists. split; [exact H|]. split; [|split; [done|]].
    + by rewrite children_of_set_dom, lookup_insert_eq.
    + apply dom_wf_rearrange; [done|]. rewrite Hl. solve_Permutation.
  - intros X b Mi R Y fuel Hl Hf.
    pose proof (reparentNodes_backward c R X [] b Mi Y σ W Hl fuel) as H.
    cbn beta in H. rewrite decide_True in H by done.
    eexists. split; [exact H|]. split; [|split; [done|]].
    + by rewrite children_of_set_dom, lookup_insert_eq.
    + apply dom_wf_rearrange; [done|]. rewrite Hl. solve_Permutation.
Qed.

(** X2: [removeNodes] on a run [R] of consecutive children removes exactly
    the nodes of the run: the remaining children keep their order, the
    removed nodes have no parent any more, and the container stays well
    formed. *)
Theorem removeNodes_removes_run (σ : State) (c : Node) :
  dom_wf σ c →
  ∀ X R Y fuel,
    children_of σ c = X ++ R ++ Y → (length R ≤ fuel)%nat →
    ∃ σ', removeNodes fuel (Some c) (head (R ++ Y)) (head Y) σ = (Returns tt, σ') ∧
          children_of σ' c = X ++ Y ∧
          (∀ n, parentOf σ' !! n = if decide (n ∈ R) then None else parentOf σ !! n) ∧
          dom_wf σ' c.
Proof.
  intros W X R Y fuel Hl Hf.
  destruct (removeNodes_range c R X Y σ W Hl) as [H W'].
  specialize (H fuel). cbn beta in H. rewrite decide_True in H by done.
  eexists. split; [exact H|]. split; [|split; [|done]].
  - by rewrite children_of_set_dom, lookup_insert_eq.
  - intros n. simpl. apply lookup_detach_all.
Qed.

(** The nodes from a child to the end of the child list are removed one
    by one when the end node given is not among them; the walk then steps
    off the list. *)
Lemma removeNodes_past_the_end c R : ∀ X e σ fuel,
  dom_wf σ c → children_of σ c = X ++ R → e ∉ R → (length R < fuel)%nat →
  removeNodes fuel (Some c) (head R) (Some e) σ
  = (Throws TypeError,
     set_dom (detach_all R (parentOf σ)) (<[c := X]> (childNodes σ)) σ).
Proof.
  induction R as [|r R IH]; intros X e σ fuel W Hl He Hf.
  - assert (Hsame : set_dom (detach_all [] (parentOf σ)) (<[c := X]> (childNodes σ)) σ = σ).
    { apply set_dom_same, children_of_lookup; [done|]. by rewrite Hl, app_nil_r. }
    rewrite Hsame, removeNodes_unfold. rewrite decide_False by done.
    destruct fuel as [|fuel]; [simpl in Hf; lia|]. done.
  - pose proof (wf_nodup _ _ W) as Hnd. rewrite Hl in Hnd.
    assert (Hre : Some r ≠ Some e) by (intros [= ->]; apply He; by left).
    assert (Hrem : remove_node r (X ++ (r :: R) ++ []) = X ++ R ++ []).
    { apply remove_node_middle; rewrite ?app_nil_r; notin_from Hnd. }
    rewrite !app_nil_r in Hrem.
    set (σ1 := set_dom (delete r (parentOf σ)) (<[c := X ++ R]> (childNodes σ)) σ).
    assert (W1 : dom_wf σ1 c).
    { pose proof (dom_wf_remove σ c r W) as W1. by rewrite Hl, Hrem in W1. }
    assert (Hl1 : children_of σ1 c = X ++ R).
    { unfold σ1. by rewrite children_of_set_dom, lookup_insert_eq. }
    destruct fuel as [|fuel]; [simpl in Hf; lia|].
    change (head (r :: R)) with (Some r).
    rewrite removeNodes_unfold, decide_False by done. msimpl.
    rewrite (bind_of_returns _ _ _ _ _
               (removeChild_child σ c r _ W Hl ltac:(set_solver))).
    rewrite Hrem. rewrite (wf_nextSibling σ c r X R W Hl). fold σ1.
    rewrite (IH X e σ1 fuel W1 Hl1); [|set_solver|simpl in Hf; lia].
    unfold σ1. rewrite set_dom_set_dom. simpl. by rewrite insert_insert_eq.
Qed.

(** X3: when the end node given to [removeNodes] is not among the
    siblings from the start node on, every child from the start node to
    the last one is removed and the call then fails with a [TypeError]
    (on [start!.nextSibling] of [null]). *)
Theorem removeNodes_without_end_throws (σ : State) (c : Node) :
  dom_wf σ c →
  ∀ X R e fuel,
    children_of σ c = X ++ R → e ∉ R → (length R < fuel)%nat →
    ∃ σ', removeNodes fuel (Some c) (head R) (Some e) σ = (Throws TypeError, σ') ∧
          children_of σ' c = X ∧
          ∀ n, parentOf σ' !! n = if decide (n ∈ R) then None else parentOf σ !! n.
Proof.
  intros W X R e fuel Hl He Hf.
  eexists. split; [by apply removeNodes_past_the_end|]. split.
  - by rewrite children_of_set_dom, lookup_insert_eq.
  - intros n. simpl. apply lookup_detach_all.
Qed.
(** ** [src/src/directives/repeat.ts]: the part helpers *)

Lemma createAndInsertPart_total c cp cs ce σ ref b l1 l2 :
  dom_wf σ c →
  part_markers σ cp = Some (Some cs, Some ce) → cs ∈ children_of σ c →
  children_of σ c = l1 ++ b :: l2 →
  ref_is ce σ ref b →
  ∃ q σ', createAndInsertPart cp ref σ = (Returns q, σ').
Proof.
  intros W Hcp Hcs Hl Hr.
  apply part_markers_lookup in Hcp as (cd & Hcd & Hcds & Hcde).
  eexists _, _. unfold createAndInsertPart.
  rewrite (bind_getPart _ _ _ _ Hcd), Hcds, bind_deref, bind_get.
  rewrite (wf_child_parent σ c cs W Hcs), bind_deref.
  assert (Hb : (match ref with
                | SUndefined => mret (endNode cd)
                | SNull => throw TypeError
                | SPart b => bp ← getPart b; mret (startNode bp)
                end) σ = (Returns (Some b), σ)).
  { destruct ref as [| |r]; simpl in Hr.
    - subst b. by rewrite Hcde.
    - done.
    - destruct Hr as [x Hr]. unfold part_markers in Hr.
      destruct (parts σ !! r) as [rd|] eqn:Hrd; [|done]. injection Hr as Hr _.
      rewrite (bind_getPart _ _ _ _ Hrd). by rewrite Hr. }
  rewrite (bind_of_returns _ _ _ _ _ Hb), bind_createMarker.
  set (mk := mkNodeData COMMENT_NODE (Some ""%string)) in *.
  destruct (insert_fresh σ c mk b l1 l2 W Hl) as [_ W1].
  rewrite (bind_of_returns _ _ _ _ _ (insert_fresh_eval σ c mk b l1 l2 W Hl)).
  set (σ1 := set_dom _ _ (alloc_node mk σ)) in *.
  assert (Hl1 : children_of σ1 c = (l1 ++ [nextNode σ]) ++ b :: l2).
  { unfold σ1. rewrite children_of_set_dom, lookup_insert_eq. simpl.
    by rewrite <- app_assoc. }
  rewrite bind_createMarker. fold mk.
  destruct (insert_fresh σ1 c mk b _ l2 W1 Hl1) as [_ W2].
  rewrite (bind_of_returns _ _ _ _ _ (insert_fresh_eval σ1 c mk b _ l2 W1 Hl1)).
  set (σ2 := set_dom _ _ (alloc_node mk σ1)) in *.
  unfold newNodePart. rewrite bind_unfold. cbv beta iota.
  unfold insertAfterNode.
  set (σ3 := set_parts _ _ σ2) in *.
  assert (Hq : parts σ3 !! nextPart σ
               = Some (mkNodePart None None (options cd) VUndefined VUndefined))
    by apply lookup_insert_eq.
  rewrite bind_unfold, (bind_getPart _ _ _ _ Hq), bind_get.
  unfold modify at 1. cbv beta iota.
  rewrite bind_emit. reflexivity.
Qed.

(** X5: [createAndInsertPart] always succeeds on a well-formed container:
    it creates two marker nodes, inserts them next to each other just
    before the reference node (the start marker of [beforePart], or the
    end marker of the container part when [beforePart] is [undefined]),
    and returns the next unused part reference, bounded by the two markers;
    the other children keep their order and the parts that existed keep
    their markers. *)
Theorem createAndInsertPart_adds_empty_part c cp cs ce (σ : State) :
  dom_wf σ c →
  part_markers σ cp = Some (Some cs, Some ce) → cs ∈ children_of σ c →
  ∀ ref b l1 l2,
    children_of σ c = l1 ++ b :: l2 → ref_is ce σ ref b →
    ∃ σ', createAndInsertPart cp ref σ = (Returns (nextPart σ), σ') ∧
          children_of σ' c = l1 ++ nextNode σ :: S (nextNode σ) :: b :: l2 ∧
          part_markers σ' (nextPart σ) = Some (Some (nextNode σ), Some (S (nextNode σ))) ∧
          (nextNode σ ∉ children_of σ c) ∧ (S (nextNode σ) ∉ children_of σ c) ∧
          (∀ p, (p < nextPart σ)%nat → part_markers σ' p = part_markers σ p) ∧
          trace σ' = EvCreate (nextPart σ) :: trace σ ∧
          dom_wf σ' c.
Proof.
  intros W Hcp Hcs ref b l1 l2 Hl Hr.
  destruct (createAndInsertPart_total c cp cs ce σ ref b l1 l2 W Hcp Hcs Hl Hr)
    as (q & σ' & H).
  pose proof (createAndInsertPart_returns _ _ _ _ _ H) as Ht.
  destruct (createAndInsertPart_spec c cp cs ce σ ref b l1 l2 q σ' W Hcp Hcs Hl Hr H)
    as (-> & Hl' & W' & [_ K] & Hq & _).
  assert (Hfresh : ∀ n, (nextNode σ ≤ n)%nat → n ∉ children_of σ c).
  { intros n Hn Hin. apply (wf_parent _ _ W) in Hin.
    by rewrite (wf_fresh _ _ W n Hn) in Hin. }
  exists σ'. split; [done|]. split; [done|]. split; [done|].
  split; [apply Hfresh; lia|]. split; [apply Hfresh; lia|]. done.
Qed.
Lemma generateMap_prefix l a (n : nat) :
  generateMap l a (a + Z.of_nat n - 1)
  = foldl (λ m i, <[js_get VUndefined l i := i]> m) ∅ (seqZ a (Z.of_nat n)).
Proof. unfold generateMap. f_equal. f_equal. lia. Qed.

Lemma generateMap_step l a (n : nat) :
  generateMap l a (a + Z.of_nat (S n) - 1)
  = <[js_get VUndefined l (a + Z.of_nat n) := a + Z.of_nat n]>
      (generateMap l a (a + Z.of_nat n - 1)).
Proof.
  rewrite !generateMap_prefix.
  replace (Z.of_nat (S n)) with (Z.of_nat n + 1) by lia.
  rewrite seqZ_app by lia. rewrite foldl_app. done.
Qed.

Lemma generateMap_lookup_prefix l a (n : nat) k :
  (generateMap l a (a + Z.of_nat n - 1) !! k = None ↔
     ∀ i, a ≤ i < a + Z.of_nat n → js_get VUndefined l i ≠ k) ∧
  (∀ i, generateMap l a (a + Z.of_nat n - 1) !! k = Some i ↔
     a ≤ i < a + Z.of_nat n ∧ js_get VUndefined l i = k ∧
     ∀ j, i < j < a + Z.of_nat n → js_get VUndefined l j ≠ k).
Proof.
  induction n as [|n [IH1 IH2]].
  - rewrite generateMap_prefix. simpl. split.
    + split; [intros _ i Hi; lia|done].
    + intros i. split; [done|lia].
  - rewrite generateMap_step.
    destruct (decide (js_get VUndefined l (a + Z.of_nat n) = k)) as [Hk|Hk].
    + rewrite Hk, lookup_insert_eq. split.
      * split; [done|]. intros H. exfalso. apply (H (a + Z.of_nat n)); [lia|done].
      * intros i. split.
        -- intros [= <-]. split; [lia|]. split; [done|]. intros j Hj. lia.
        -- intros (Hi & Hki & Hlast).
           destruct (decide (i = a + Z.of_nat n)) as [->|Hne]; [done|].
           exfalso. apply (Hlast (a + Z.of_nat n)); [lia|done].
    + rewrite lookup_insert_ne by done. split.
      * rewrite IH1. split.
        -- intros H i Hi. destruct (decide (i = a + Z.of_nat n)) as [->|Hne]; [done|].
           apply H. lia.
        -- intros H i Hi. apply H. lia.
      * intros i. rewrite IH2. split.
        -- intros (Hi & Hki & Hlast). split; [lia|]. split; [done|].
           intros j Hj. destruct (decide (j = a + Z.of_nat n)) as [->|Hne]; [done|].
           apply Hlast. lia.
        -- intros (Hi & Hki & Hlast).
           assert (i ≠ a + Z.of_nat n) by (intros ->; done).
           split; [lia|]. split; [done|]. intros j Hj. apply Hlast. lia.
Qed.

(** X6: [generateMap(list, start, end)] maps a key to the greatest index
    of [start..end] at which the list holds it, and holds no entry for a
    key that occurs at none of these indices; an index past the end of the
    list counts as holding [undefined]. *)
Theorem generateMap_finds_last_index (l : list JsValue) (a b : Z) (k : JsValue) :
  (generateMap l a b !! k = None ↔
     ∀ i, a ≤ i ≤ b → js_get VUndefined l i ≠ k) ∧
  (∀ i, generateMap l a b !! k = Some i ↔
     a ≤ i ≤ b ∧ js_get VUndefined l i = k ∧
     ∀ j, i < j ≤ b → js_get VUndefined l j ≠ k).
Proof.
  destruct (decide (a ≤ b)) as [Hab|Hab].
  - pose proof (generateMap_lookup_prefix l a (Z.to_nat (b - a + 1)) k) as [H1 H2].
    replace (a + Z.of_nat (Z.to_nat (b - a + 1)) - 1) with b in * by lia.
    split.
    + rewrite H1. split; intros H i Hi; apply H; lia.
    + intros i. rewrite H2. split.
      * intros (Hi & Hk & Hl). split; [lia|]. split; [done|]. intros j Hj. apply Hl. lia.
      * intros (Hi & Hk & Hl). split; [lia|]. split; [done|]. intros j Hj. apply Hl. lia.
  - assert (E : generateMap l a b = ∅).
    { unfold generateMap. rewrite seqZ_nil by lia. done. }
    rewrite E. split.
    + split; [intros _ i Hi; lia|done].
    + intros i. split; [done|lia].
Qed.
(** ** [src/src/directives/repeat.ts]: calls of the directive *)

Lemma keeps_non_dom_nextPart σ σ' : keeps non_dom σ σ' → nextPart σ' = nextPart σ.
Proof. unfold keeps, non_dom. congruence. Qed.

(** [updatePart] rewrites the record of its part and no other. *)
Lemma updatePart_parts fuel p v r σ σ' :
  updatePart materialize fuel (SPart p) v σ = (Returns r, σ') →
  nextPart σ' = nextPart σ ∧
  ∃ d, parts σ !! p = Some d ∧
       parts σ' = <[p := mkNodePart (startNode d) (endNode d) (options d) v v]> (parts σ).
Proof.
  unfold updatePart, setValue, commit. intros H. minv. derive_keeps non_dom.
  repeat match goal with
  | K : keeps non_dom _ _ |- _ =>
      pose proof (keeps_non_dom_nextPart _ _ K);
      apply keeps_non_dom_parts in K; unfold keeps in K
  end.
  simpl in *.
  match goal with
  | H : <[_ := _]> _ !! _ = Some _ |- _ => rewrite lookup_insert_eq in H; injection H as <-
  end.
  match goal with H : SPart _ = SPart _ |- _ => injection H as <- end.
  split; [congruence|]. eexists. split; [eassumption|].
  match goal with
  | H1 : parts ?a = parts ?b, H2 : parts ?b = _ |- _ => rewrite H1, H2
  end.
  by rewrite insert_insert_eq.
Qed.

Lemma updatePart_nextPart fuel s v r σ σ' :
  updatePart materialize fuel s v σ = (Returns r, σ') → nextPart σ' = nextPart σ.
Proof.
  intros H. pose proof H as H'. apply updatePart_returns in H' as (-> & p & -> & _).
  by apply updatePart_parts in H as [? _].
Qed.

Lemma createAndInsertPart_nextPart cp b q σ σ' :
  createAndInsertPart cp b σ = (Returns q, σ') →
  q = nextPart σ ∧ nextPart σ' = S (nextPart σ).
Proof.
  unfold createAndInsertPart, insertAfterNode. intros H. minv. derive_keeps non_dom.
  repeat match goal with
  | K : keeps non_dom _ _ |- _ => apply keeps_non_dom_nextPart in K
  end.
  match goal with
  | E : newNodePart _ _ = _ |- _ => unfold newNodePart in E; injection E as <- <-
  end.
  simpl. split; congruence.
Qed.
(** The events of creating the parts [qs] for the values from index [i]
    on, in the order in which they happen. *)
Fixpoint create_events (nvs : list JsValue) (i : Z) (qs : list PartRef) : list Event :=
  match qs with
  | [] => []
  | q :: qs' =>
      EvCreate q :: EvUpdate q (js_get VUndefined nvs i) :: create_events nvs (i + 1) qs'
  end.

Lemma main_loop_heads_nextPart fuel cp h oks nks nvs ps k i σ σ' L' :
  (∀ i, 0 ≤ i < Z.of_nat (length ps) →
        strict_eq (js_get VUndefined oks i) (js_get VUndefined nks i) = true) →
  (length ps ≤ length nvs)%nat →
  (i ≤ length ps)%nat →
  main_loop materialize fuel cp h oks nks nvs k (heads_loop nvs ps i) σ = (Returns L', σ') →
  nextPart σ' = nextPart σ.
Proof.
  intros Hkeys Hlen. revert i σ. induction k as [|k IH]; intros i σ Hi H; simpl in H.
  - destruct (decide _); [done|]. by apply ret_inv in H as [_ ->].
  - destruct (decide _) as [[H1 H2]|Hn]; [|by apply ret_inv in H as [_ ->]].
    simpl in H1.
    destruct (lookup_lt_is_Some_2 ps i) as [p Hp]; [lia|].
    rewrite (step_heads_match fuel cp h oks nks nvs ps Hkeys Hlen i p Hp) in H.
    apply bind_returns in H as (L1 & σ1 & Es & H).
    apply bind_returns in Es as (r & σ2 & Eu & Es).
    apply ret_inv in Es as [[= ->] ->].
    pose proof (updatePart_nextPart _ _ _ _ _ _ Eu) as Hn.
    apply updatePart_returns in Eu as (-> & _).
    replace (js_set SUndefined (SPart <$> take i ps) (Z.of_nat i) (SPart p))
      with (SPart <$> take (S i) ps) in H.
    2:{ rewrite (take_S_r _ _ _ Hp), fmap_app. simpl.
        rewrite <- (js_set_append SUndefined). f_equal.
        rewrite length_fmap, length_take. lia. }
    apply (IH (S i)) in H; [congruence|lia].
Qed.

Lemma add_loop_appends fuel cp nvs k : ∀ L σ L' σ',
  add_loop materialize fuel cp nvs k L σ = (Returns L', σ') →
  Z.of_nat (length (newParts L)) = newHead L →
  let qs := seq (nextPart σ) (Z.to_nat (newTail L + 1 - newHead L)) in
  newParts L' = newParts L ++ (SPart <$> qs) ∧
  oldParts L' = oldParts L ∧ oldHead L' = oldHead L ∧ oldTail L' = oldTail L ∧
  trace σ' = rev (create_events nvs (newHead L) qs) ++ trace σ.
Proof.
  induction k as [|k IH]; intros L σ L' σ' H Hlen; simpl in H.
  - destruct (decide _) as [|Hn]; [done|]. apply ret_inv in H as [[= ->] ->].
    replace (Z.to_nat _) with 0%nat by lia. simpl. by rewrite app_nil_r.
  - destruct (decide _) as [Hle|Hn].
    2:{ apply ret_inv in H as [[= ->] ->].
        replace (Z.to_nat _) with 0%nat by lia. simpl. by rewrite app_nil_r. }
    apply bind_returns in H as (q & σ1 & Ec & H).
    apply bind_returns in H as (r & σ2 & Eu & H).
    pose proof (createAndInsertPart_nextPart _ _ _ _ _ Ec) as [-> Hn1].
    pose proof (updatePart_nextPart _ _ _ _ _ _ Eu) as Hn2.
    apply createAndInsertPart_returns in Ec.
    apply updatePart_returns in Eu as (_ & ? & [= <-] & Hu).
    apply IH in H as (Hp & Ho & Hoh & Hot & Ht).
    2:{ cbn. rewrite js_set_length by lia. lia. }
    cbn [newParts oldParts oldHead oldTail newHead newTail] in *.
    replace (Z.to_nat (newTail L + 1 - newHead L))
      with (S (Z.to_nat (newTail L + 1 - (newHead L + 1)))) by lia.
    cbn zeta. simpl seq. rewrite fmap_cons. simpl create_events.
    split; [|split; [done|split; [done|split; [done|]]]].
    + rewrite Hp, Hn2, Hn1. rewrite <- Hlen, js_set_append. by rewrite <- app_assoc.
    + rewrite Ht, Hu, Ec, Hn2, Hn1. simpl. by rewrite <- !app_assoc.
Qed.
Definition is_handler_event (e : Event) : bool :=
  match e with EvHandler _ => true | _ => false end.

Lemma removal_walk_emits_handler fuel c h s e :
  preserves (emits (λ ev, is_handler_event ev = true)) (removal_walk fuel c h s e).
Proof.
  revert s. induction fuel as [|fuel IH]; intros s; simpl; pres.
  all: try (apply emit_emits; done).
  all: unfold token_commit; pres.
Qed.

(** The events of removing a part: the removal itself, then one call of
    the handler for each node offered to it. *)
Lemma removePart_events fuel p h σ σ' :
  removePart fuel (SPart p) h σ = (Returns tt, σ') →
  ∃ evs, trace σ' = evs ++ EvRemovePart p :: trace σ ∧
         Forall (λ ev, is_handler_event ev = true) evs.
Proof.
  unfold removePart, removeNodesWithRemovalHandler. intros H. minv.
  match goal with H : SPart _ = SPart _ |- _ => injection H as <- end.
  destruct h as [h|].
  - match goal with
    | E : removal_walk _ _ _ _ _ _ = _ |- _ =>
        apply removal_walk_emits_handler in E as (evs & Ht & F)
    end.
    exists evs. split; [|done]. by rewrite Ht.
  - match goal with
    | E : removeNodes _ _ _ _ _ = _ |- _ =>
        apply removeNodes_non_dom, keeps_non_dom_trace in E
    end.
    exists []. split; [|done]. unfold keeps in *. simpl in *. congruence.
Qed.

Lemma filter_handler_events evs :
  Forall (λ ev, is_handler_event ev = true) evs →
  filter (λ ev, is_handler_event ev = false) evs = [].
Proof.
  induction 1 as [|e evs He _ IH]; [done|].
  rewrite filter_cons_False by congruence. done.
Qed.

Lemma main_loop_heads_short fuel cp h oks nks nvs ps k i σ σ' L' :
  (∀ i, 0 ≤ i < Z.of_nat (length nvs) →
        strict_eq (js_get VUndefined oks i) (js_get VUndefined nks i) = true) →
  (length nvs ≤ length ps)%nat →
  (i ≤ length nvs)%nat →
  main_loop materialize fuel cp h oks nks nvs k (heads_loop nvs ps i) σ = (Returns L', σ') →
  L' = heads_loop nvs ps (length nvs) ∧
  trace σ' = rev (update_events nvs i (take (length nvs - i) (drop i ps))) ++ trace σ.
Proof.
  intros Hkeys Hlen. revert i σ. induction k as [|k IH]; intros i σ Hi H; simpl in H.
  - destruct (decide _) as [|Hn]; [done|]. apply ret_inv in H as [[= ->] ->].
    assert (i = length nvs) as -> by lia. by rewrite Nat.sub_diag, take_0.
  - destruct (decide _) as [[H1 H2]|Hn].
    2:{ apply ret_inv in H as [[= ->] ->].
        assert (i = length nvs) as -> by lia. by rewrite Nat.sub_diag, take_0. }
    destruct (lookup_lt_is_Some_2 ps i) as [p Hp]; [lia|].
    destruct (lookup_lt_is_Some_2 ps (length ps - 1)) as [q Hq]; [lia|].
    apply bind_returns in H as (L1 & σ1 & Es & H).
    rewrite (step_head_head cp fuel h oks nks nvs _ p) in Es.
    + apply bind_returns in Es as (r & σ2 & Eu & Es).
      apply ret_inv in Es as [[= ->] ->].
      apply updatePart_returns in Eu as (-> & ? & [= <-] & Ht).
      cbn [heads_loop oldParts newParts oldHead oldTail newHead newTail
           newKeyToIndexMap oldKeyToIndexMap] in H.
      replace (js_set SUndefined (SPart <$> take i ps) (Z.of_nat i) (SPart p))
        with (SPart <$> take (S i) ps) in H.
      2:{ rewrite (take_S_r _ _ _ Hp), fmap_app. simpl.
          rewrite <- (js_set_append SUndefined). f_equal.
          rewrite length_fmap, length_take. lia. }
      replace (Z.of_nat i + 1) with (Z.of_nat (S i)) in H by lia.
      apply (IH (S i)) in H as [-> Ht']; [|lia]. split; [done|].
      rewrite Ht', Ht. rewrite (drop_S _ _ _ Hp).
      replace (length nvs - i)%nat with (S (length nvs - S i)) by lia.
      simpl take. rewrite update_events_cons. simpl. by rewrite <- app_assoc.
    + simpl. apply js_get_lookup. by rewrite list_lookup_fmap, Hp.
    + simpl. replace (Z.of_nat (length ps) - 1) with (Z.of_nat (length ps - 1)) by lia.
      rewrite (js_get_lookup SUndefined _ _ (SPart q)); [done|].
      by rewrite list_lookup_fmap, Hq.
    + simpl. apply Hkeys. simpl in H2. lia.
Qed.

Lemma remove_loop_removes fuel h ps k : ∀ L σ L' σ',
  remove_loop fuel h k L σ = (Returns L', σ') →
  oldParts L = SPart <$> ps → 0 ≤ oldHead L → oldTail L = Z.of_nat (length ps) - 1 →
  newParts L' = newParts L ∧
  ∃ evs, trace σ' = evs ++ trace σ ∧
         filter (λ ev, is_handler_event ev = false) evs
         = rev (EvRemovePart <$> drop (Z.to_nat (oldHead L)) ps).
Proof.
  induction k as [|k IH]; intros L σ L' σ' H Hops Hoh Hot; simpl in H.
  - destruct (decide _) as [|Hn]; [done|]. apply ret_inv in H as [[= ->] ->].
    split; [done|]. exists []. rewrite drop_ge by lia. done.
  - destruct (decide _) as [Hle|Hn].
    2:{ apply ret_inv in H as [[= ->] ->].
        split; [done|]. exists []. rewrite drop_ge by lia. done. }
    destruct (lookup_lt_is_Some_2 ps (Z.to_nat (oldHead L))) as [p Hp]; [lia|].
    assert (Hg : js_get SUndefined (oldParts L) (oldHead L) = SPart p).
    { rewrite Hops. unfold js_get. rewrite decide_True by done.
      by rewrite list_lookup_fmap, Hp. }
    rewrite Hg in H. rewrite (decide_False (P := SPart p = SNull)) in H by done.
    apply bind_returns in H as ([] & σ1 & Er & H).
    apply removePart_events in Er as (evs1 & Ht1 & F1).
    apply IH in H as (Hnp & evs & Ht & Hf); [|done|cbn; lia|done].
    cbn [newParts oldHead] in *. split; [done|].
    exists (evs ++ evs1 ++ [EvRemovePart p]). split.
    + rewrite Ht, Ht1. by rewrite <- !app_assoc.
    + rewrite !filter_app, Hf, (filter_handler_events _ F1).
      rewrite filter_cons_True by done. rewrite filter_nil.
      replace (Z.to_nat (oldHead L + 1)) with (S (Z.to_nat (oldHead L))) by lia.
      rewrite (drop_S _ _ _ Hp). rewrite fmap_cons. simpl. done.
Qed.
(** *** Parts are reused by key *)

Lemma keeps_non_dom_same_nextPart σ σ' : keeps non_dom σ σ' → keeps nextPart σ σ'.
Proof. unfold keeps, non_dom. congruence. Qed.

Ltac pres_count :=
  repeat first
    [ pres_step
    | eapply preserves_weaken; [apply keeps_non_dom_same_nextPart|];
      solve [eauto with pres typeclass_instances] ].

Lemma emit_keeps_nextPart e : preserves (keeps nextPart) (emit e).
Proof. by apply preserves_modify. Qed.
#[local] Hint Resolve emit_keeps_nextPart : pres.

Lemma insertPartBefore_keeps_nextPart fuel cp s r :
  preserves (keeps nextPart) (insertPartBefore fuel cp s r).
Proof. unfold insertPartBefore. pres_count. Qed.

Lemma removal_walk_keeps_nextPart fuel c h s e :
  preserves (keeps nextPart) (removal_walk fuel c h s e).
Proof.
  revert s. induction fuel as [|fuel IH]; intros s; simpl; pres_count.
  all: unfold token_commit; pres_count.
Qed.
#[local] Hint Resolve removal_walk_keeps_nextPart : pres.

Lemma removePart_keeps_nextPart fuel s h :
  preserves (keeps nextPart) (removePart fuel s h).
Proof. unfold removePart, removeNodesWithRemovalHandler. pres_count. Qed.

Lemma write_tombstone_keeps_nextPart cp ops :
  preserves (keeps nextPart) (write_tombstone cp ops).
Proof. unfold write_tombstone. pres_count. by apply preserves_modify. Qed.

(** The old array only changes by tombstones. *)
Definition old_same (ops0 ops : list Slot) : Prop :=
  ∀ i p, js_get SUndefined ops i = SPart p → js_get SUndefined ops0 i = SPart p.

Lemma old_same_tombstone ops0 ops i :
  old_same ops0 ops → old_same ops0 (js_set SUndefined ops i SNull).
Proof.
  intros H j p. destruct (decide (i = j)) as [<-|Hne].
  - destruct (decide (0 ≤ i)).
    + by rewrite js_get_set_eq.
    + unfold js_set. rewrite decide_False by done. apply H.
  - rewrite js_get_set_ne by done. apply H.
Qed.

Section KeyedReuse.

Variables (fuel : nat) (cp : PartRef) (h : option NodeRemovalHandler).
Variables (oks nks nvs : list JsValue) (n : Z).
Variables (np0 : nat) (ops0 : list Slot).

(** Where the part placed for the new index [j] comes from: it was created
    during the call, or it is a part of the old array whose old key is the
    key of [j]. *)
Definition origin (p : PartRef) (j : Z) : Prop :=
  (np0 ≤ p)%nat ∨
  ∃ i, js_get SUndefined ops0 i = SPart p ∧
       js_get VUndefined oks i = js_get VUndefined nks j.

Record reuse_inv (L : Loop) (hp tp : list PartRef) : Prop := {
  ri_new : new_inv n (newParts L) (newHead L) (newTail L) hp tp;
  ri_old : old_same ops0 (oldParts L);
  ri_hp : ∀ j p, hp !! j = Some p → origin p (Z.of_nat j);
  ri_tp : ∀ j p, tp !! j = Some p → origin p (newTail L + 1 + Z.of_nat j);
  ri_map : ∀ om, oldKeyToIndexMap L = Some om →
           ∀ k i, om !! k = Some i → js_get VUndefined oks i = k;
}.

Lemma origin_head hp p :
  (∀ j q, hp !! j = Some q → origin q (Z.of_nat j)) →
  origin p (Z.of_nat (length hp)) →
  ∀ j q, (hp ++ [p]) !! j = Some q → origin q (Z.of_nat j).
Proof.
  intros H Hp j q Hj. apply lookup_app_Some in Hj as [Hj|[Hge Hj]]; [by apply H|].
  apply list_lookup_singleton_Some in Hj as [Hj ->].
  by replace j with (length hp) by lia.
Qed.

Lemma origin_tail tp p nt :
  (∀ j q, tp !! j = Some q → origin q (nt + 1 + Z.of_nat j)) →
  origin p nt →
  ∀ j q, (p :: tp) !! j = Some q → origin q (nt - 1 + 1 + Z.of_nat j).
Proof.
  intros H Hp [|j] q Hj; simpl in Hj.
  - injection Hj as <-. by replace (nt - 1 + 1 + Z.of_nat 0) with nt by lia.
  - replace (nt - 1 + 1 + Z.of_nat (S j)) with (nt + 1 + Z.of_nat j) by lia. by apply H.
Qed.

Lemma step_reuse L hp tp σ L' σ' :
  reuse_inv L hp tp → (np0 ≤ nextPart σ)%nat → newHead L ≤ newTail L →
  step materialize fuel cp h oks nks nvs L σ = (Returns L', σ') →
  ∃ hp' tp', reuse_inv L' hp' tp' ∧ (np0 ≤ nextPart σ')%nat.
Proof.
  intros [INew IOld IHp ITp IMap] Hnp Hn H. unfold step in H. cbv zeta in H.
  pose proof (ni_hp_len _ _ _ _ _ _ INew) as Hlen.
  destruct (decide (js_get SUndefined (oldParts L) (oldHead L) = SNull)) as [Hoh|Hoh].
  { apply ret_inv in H as [[= ->] ->]. exists hp, tp. split; [|done]. by split. }
  destruct (decide (js_get SUndefined (oldParts L) (oldTail L) = SNull)) as [Hot|Hot].
  { apply ret_inv in H as [[= ->] ->]. exists hp, tp. split; [|done]. by split. }
  destruct (strict_eq _ _) eqn:E1 in H.
  { apply strict_eq_true in E1 as [E1 _].
    apply bind_returns in H as (r & σ1 & Eu & H). apply ret_inv in H as [[= ->] ->].
    pose proof (updatePart_nextPart _ _ _ _ _ _ Eu) as Hk.
    apply updatePart_returns in Eu as (-> & p & Hp & _). rewrite Hp.
    exists (hp ++ [p]), tp. split; [|lia]. split; cbn; try done.
    - by apply new_inv_head.
    - apply origin_head; [done|]. right. exists (oldHead L).
      split; [by apply IOld|]. by rewrite Hlen. }
  destruct (strict_eq _ _) eqn:E2 in H.
  { apply strict_eq_true in E2 as [E2 _].
    apply bind_returns in H as (r & σ1 & Eu & H). apply ret_inv in H as [[= ->] ->].
    pose proof (updatePart_nextPart _ _ _ _ _ _ Eu) as Hk.
    apply updatePart_returns in Eu as (-> & p & Hp & _). rewrite Hp.
    exists hp, (p :: tp). split; [|lia]. split; cbn; try done.
    - by apply new_inv_tail.
    - apply origin_tail; [done|]. right. exists (oldTail L). split; [by apply IOld|done]. }
  destruct (strict_eq _ _) eqn:E3 in H.
  { apply strict_eq_true in E3 as [E3 _].
    apply bind_returns in H as (r & σ1 & Eu & H).
    apply bind_returns in H as ([] & σ2 & Ei & H). apply ret_inv in H as [[= ->] ->].
    pose proof (updatePart_nextPart _ _ _ _ _ _ Eu) as Hk.
    pose proof (insertPartBefore_keeps_nextPart _ _ _ _ _ _ _ Ei) as Hk2.
    unfold keeps in Hk2.
    apply updatePart_returns in Eu as (-> & p & Hp & _). rewrite Hp.
    exists hp, (p :: tp). split; [|lia]. split; cbn; try done.
    - by apply new_inv_tail.
    - apply origin_tail; [done|]. right. exists (oldHead L). split; [by apply IOld|done]. }
  destruct (strict_eq _ _) eqn:E4 in H.
  { apply strict_eq_true in E4 as [E4 _].
    apply bind_returns in H as (r & σ1 & Eu & H).
    apply bind_returns in H as ([] & σ2 & Ei & H). apply ret_inv in H as [[= ->] ->].
    pose proof (updatePart_nextPart _ _ _ _ _ _ Eu) as Hk.
    pose proof (insertPartBefore_keeps_nextPart _ _ _ _ _ _ _ Ei) as Hk2.
    unfold keeps in Hk2.
    apply updatePart_returns in Eu as (-> & p & Hp & _). rewrite Hp.
    exists (hp ++ [p]), tp. split; [|lia]. split; cbn; try done.
    - by apply new_inv_head.
    - apply origin_head; [done|]. right. exists (oldTail L).
      split; [by apply IOld|]. by rewrite Hlen. }
  apply bind_returns in H as (maps & σ1 & Em & H).
  assert (Hmaps : nextPart σ1 = nextPart σ ∧
            ∀ om, maps.2 = Some om →
                  ∀ k i, om !! k = Some i → js_get VUndefined oks i = k).
  { destruct (newKeyToIndexMap L).
    - apply ret_inv in Em as [[= ->] ->]. done.
    - apply bind_returns in Em as ([] & σx & Ee & Em).
      apply emit_inv in Ee as [_ ->]. apply ret_inv in Em as [[= ->] ->].
      split; [done|]. intros om [= <-] k i Hk. by apply generateMap_Some in Hk as [_ ?]. }
  destruct Hmaps as [Hk1 Hmaps].
  apply bind_returns in H as (nm & σ1' & En & H). apply deref_inv in En as [En ->].
  destruct (decide (nm !! _ = None)) as [Hr1|Hr1] in H.
  { apply bind_returns in H as ([] & σ2 & Er & H). apply ret_inv in H as [[= ->] ->].
    pose proof (removePart_keeps_nextPart _ _ _ _ _ _ Er) as Hk2. unfold keeps in Hk2.
    exists hp, tp. split; [|lia]. by split. }
  destruct (decide (nm !! _ = None)) as [Hr2|Hr2] in H.
  { apply bind_returns in H as ([] & σ2 & Er & H). apply ret_inv in H as [[= ->] ->].
    pose proof (removePart_keeps_nextPart _ _ _ _ _ _ Er) as Hk2. unfold keeps in Hk2.
    exists hp, tp. split; [|lia]. by split. }
  apply bind_returns in H as (om & σ1' & Eo & H). apply deref_inv in Eo as [Eo ->].
  destruct (decide (_ = SNull)) as [Hnull|Hlive] in H.
  { apply bind_returns in H as (q & σ2 & Ec & H).
    apply bind_returns in H as (r & σ3 & Eu & H). apply ret_inv in H as [[= ->] ->].
    pose proof (createAndInsertPart_nextPart _ _ _ _ _ Ec) as [-> Hk2].
    pose proof (updatePart_nextPart _ _ _ _ _ _ Eu) as Hk3.
    exists (hp ++ [nextPart σ1]), tp. split; [|lia]. split; cbn; try done.
    - by apply new_inv_head.
    - apply origin_head; [done|]. left. lia. }
  apply bind_returns in H as (r & σ2 & Eu & H).
  apply bind_returns in H as ([] & σ3 & Ei & H).
  apply bind_returns in H as ([] & σ4 & Ew & H). apply ret_inv in H as [[= ->] ->].
  pose proof (updatePart_nextPart _ _ _ _ _ _ Eu) as Hk2.
  pose proof (insertPartBefore_keeps_nextPart _ _ _ _ _ _ _ Ei) as Hk3.
  pose proof (write_tombstone_keeps_nextPart _ _ _ _ _ Ew) as Hk4.
  unfold keeps in Hk3, Hk4.
  apply updatePart_returns in Eu as (-> & p & Hp & _).
  destruct (om !! js_get VUndefined nks (newHead L)) as [i|] eqn:Ei'; [|done].
  rewrite Hp.
  exists (hp ++ [p]), tp. split; [|lia]. split; cbn; try done.
  - by apply new_inv_head.
  - by apply old_same_tombstone.
  - apply origin_head; [done|]. right. exists i. split; [by apply IOld|].
    rewrite Hlen. by apply (Hmaps om Eo).
Qed.

Lemma main_loop_reuse k L hp tp σ L' σ' :
  reuse_inv L hp tp → (np0 ≤ nextPart σ)%nat →
  main_loop materialize fuel cp h oks nks nvs k L σ = (Returns L', σ') →
  ∃ hp' tp', reuse_inv L' hp' tp' ∧ (np0 ≤ nextPart σ')%nat.
Proof.
  revert L hp tp σ. induction k as [|k IH]; intros L hp tp σ I Hnp H; simpl in H.
  - destruct (decide _) as [|Hn]; [done|]. apply ret_inv in H as [[= ->] ->]. eauto.
  - destruct (decide _) as [[Ho Hn]|Hn]; [|apply ret_inv in H as [[= ->] ->]; eauto].
    apply bind_returns in H as (L1 & σ1 & Es & H).
    destruct (step_reuse L hp tp σ L1 σ1 I Hnp Hn Es) as (hp1 & tp1 & I1 & Hnp1).
    by eapply IH.
Qed.

Lemma add_loop_reuse k L hp tp σ L' σ' :
  reuse_inv L hp tp → (np0 ≤ nextPart σ)%nat →
  add_loop materialize fuel cp nvs k L σ = (Returns L', σ') →
  ∃ hp' tp', reuse_inv L' hp' tp' ∧ (np0 ≤ nextPart σ')%nat ∧ newTail L' < newHead L'.
Proof.
  revert L hp tp σ. induction k as [|k IH]; intros L hp tp σ I Hnp H; simpl in H.
  - destruct (decide _) as [|Hn]; [done|]. apply ret_inv in H as [[= ->] ->].
    exists hp, tp. split; [done|split; [done|lia]].
  - destruct (decide _) as [Hn|Hn];
      [|apply ret_inv in H as [[= ->] ->]; exists hp, tp; split; [done|split; [done|lia]]].
    destruct I as [INew IOld IHp ITp IMap].
    apply bind_returns in H as (q & σ1 & Ec & H).
    apply bind_returns in H as (r & σ2 & Eu & H).
    pose proof (createAndInsertPart_nextPart _ _ _ _ _ Ec) as [-> Hk2].
    pose proof (updatePart_nextPart _ _ _ _ _ _ Eu) as Hk3.
    refine (IH _ (hp ++ [nextPart σ]) tp _ _ _ H); [|lia].
    split; cbn; try done.
    + by apply new_inv_head.
    + apply origin_head; [done|]. by left.
Qed.

Lemma remove_loop_reuse k L hp tp σ L' σ' :
  reuse_inv L hp tp → (np0 ≤ nextPart σ)%nat →
  remove_loop fuel h k L σ = (Returns L', σ') →
  reuse_inv L' hp tp ∧ newHead L' = newHead L ∧ newTail L' = newTail L.
Proof.
  revert L σ. induction k as [|k IH]; intros L σ I Hnp H; simpl in H.
  - destruct (decide _) as [|Hn]; [done|]. by apply ret_inv in H as [[= ->] ->].
  - destruct (decide _) as [Ho|Hn]; [|by apply ret_inv in H as [[= ->] ->]].
    apply bind_returns in H as ([] & σ1 & Er & H).
    assert (Hk : nextPart σ1 = nextPart σ).
    { destruct (decide _); [by apply ret_inv in Er as [_ ->]|].
      by apply removePart_keeps_nextPart in Er. }
    apply IH in H as (I' & ? & ?); [done| |lia].
    destruct I as [INew IOld IHp ITp IMap]. by split.
Qed.

End KeyedReuse.

(** X9: a call of [repeat] that returns keeps the strict key-to-DOM
    mapping its documentation promises: the part persisted for an item is
    either a part allocated during the call, or a part of the previous
    list that was cached under the very key the item has now.  A part is
    never reused for a different key. *)
Theorem repeat_reuses_parts_by_key (fuel : nat) (items : list JsValue)
    (kfot t : option ItemFn) (h : option NodeRemovalHandler) (cp : PartRef)
    (σ σ' : State) :
  repeat materialize fuel items kfot t h (NodePartObj cp) σ = (Returns tt, σ') →
  ∃ ps, partListCache σ' !! cp = Some (SPart <$> ps) ∧
        length ps = length items ∧
        ∀ j p, ps !! j = Some p →
          (nextPart σ ≤ p)%nat ∨
          ∃ i, js_get SUndefined (default [] (partListCache σ !! cp)) i = SPart p ∧
               js_get VUndefined (default [] (keyListCache σ !! cp)) i
               = js_get VUndefined (new_keys (pass_keyFn kfot t) items) (Z.of_nat j).
Proof.
  intros H.
  apply repeat_returns in H
    as (nvs & L1 & L2 & L3 & σ1 & σ2 & σ3 & Hlen & _ & Hm & Ha & Hr & ->).
  cbv zeta in *.
  set (nks := new_keys (pass_keyFn kfot t) items) in *.
  set (oks := default [] (keyListCache σ !! cp)) in *.
  set (ops0 := default [] (partListCache σ !! cp)) in *.
  assert (I0 : reuse_inv oks nks (Z.of_nat (length nvs)) (nextPart σ) ops0
                 (initial_loop ops0 nvs) [] []).
  { split; cbn; try done.
    - apply new_inv_init. lia.
    - intros i p Hp. exact Hp. }
  destruct (main_loop_reuse _ _ _ _ _ _ _ _ _ _ _ _ _ _ _ _ I0 ltac:(done) Hm)
    as (hp1 & tp1 & I1 & Hn1).
  destruct (add_loop_reuse _ _ _ _ _ _ _ _ _ _ _ _ _ _ _ I1 Hn1 Ha)
    as (hp2 & tp2 & I2 & Hn2 & Hx2).
  edestruct remove_loop_reuse as (I3 & E1 & E2); [exact I2|exact Hn2|exact Hr|].
  destruct I3 as [INew _ IHp ITp _]. rewrite <- E1, <- E2 in Hx2.
  exists (hp2 ++ tp2). simpl. rewrite lookup_insert_eq. split; [|split].
  - f_equal. by eapply new_inv_done.
  - pose proof (new_inv_length _ _ _ _ _ _ INew Hx2). lia.
  - intros j p Hj. apply lookup_app_Some in Hj as [Hj|[Hge Hj]]; [by apply IHp|].
    apply ITp in Hj.
    pose proof (ni_hp_len _ _ _ _ _ _ INew). pose proof (ni_head _ _ _ _ _ _ INew).
    by replace (newTail L3 + 1 + Z.of_nat (j - length hp2)) with (Z.of_nat j) in Hj by lia.
Qed.


(** *** Each part holds the value of its item *)

Definition part_value (σ : State) (p : PartRef) : option JsValue :=
  value <$> parts σ !! p.

Lemma emit_keeps_parts e : preserves (keeps parts) (emit e).
Proof. by apply preserves_modify. Qed.
#[local] Hint Resolve emit_keeps_parts : pres.

Lemma insertPartBefore_keeps_parts fuel cp s r :
  preserves (keeps parts) (insertPartBefore fuel cp s r).
Proof. unfold insertPartBefore. pres. Qed.

Lemma removal_walk_keeps_parts fuel c h s e :
  preserves (keeps parts) (removal_walk fuel c h s e).
Proof.
  revert s. induction fuel as [|fuel IH]; intros s; simpl; pres.
  all: unfold token_commit; pres.
Qed.
#[local] Hint Resolve removal_walk_keeps_parts : pres.

Lemma removePart_keeps_parts fuel s h : preserves (keeps parts) (removePart fuel s h).
Proof. unfold removePart, removeNodesWithRemovalHandler. pres. Qed.

Lemma write_tombstone_keeps_parts cp ops : preserves (keeps parts) (write_tombstone cp ops).
Proof. unfold write_tombstone. pres. by apply preserves_modify. Qed.

(** [createAndInsertPart] adds the record of the new part and rewrites no
    other. *)
Lemma createAndInsertPart_parts cp b q σ σ' :
  createAndInsertPart cp b σ = (Returns q, σ') →
  ∀ p, p ≠ q → parts σ' !! p = parts σ !! p.
Proof.
  unfold createAndInsertPart, insertAfterNode. intros H. minv. derive_keeps non_dom.
  repeat match goal with
  | K : keeps non_dom _ _ |- _ => apply keeps_non_dom_parts in K; unfold keeps in K
  end.
  match goal with
  | E : newNodePart _ _ = _ |- _ => unfold newNodePart in E; injection E as <- <-
  end.
  intros p Hp. simpl. rewrite !lookup_insert_ne by done. congruence.
Qed.
Lemma updatePart_value fuel p v r σ σ' :
  updatePart materialize fuel (SPart p) v σ = (Returns r, σ') →
  r = SPart p ∧ nextPart σ' = nextPart σ ∧ part_value σ' p = Some v ∧
  ∀ q, q ≠ p → parts σ' !! q = parts σ !! q.
Proof.
  intros H. pose proof H as H'. apply updatePart_returns in H' as (-> & _).
  apply updatePart_parts in H as (Hn & d & Hd & Hp).
  split; [done|]. split; [done|]. unfold part_value. rewrite Hp. split.
  - by rewrite lookup_insert_eq.
  - intros q Hq. by rewrite lookup_insert_ne.
Qed.

(** ** The persisted parts are live *)

(** A part that has a record in the part store, with both of its boundary
    markers. *)
Definition marked (σ : State) (p : PartRef) : Prop :=
  ∃ s e, part_markers σ p = Some (Some s, Some e).

(** Part references are only added, and the parts that have their markers
    keep having markers. *)
Definition marks_kept : relation State := λ σ σ',
  (nextPart σ ≤ nextPart σ')%nat ∧ ∀ p, marked σ p → marked σ' p.

#[global] Instance marks_kept_po : PreOrder marks_kept.
Proof.
  split; [by split|]. intros x y z [H1 H2] [H3 H4]. split; [lia|auto].
Qed.

Lemma marks_kept_same σ σ' :
  keeps parts σ σ' → keeps nextPart σ σ' → marks_kept σ σ'.
Proof.
  unfold keeps, marks_kept, marked, part_markers. intros Hp Hn. by rewrite Hp, Hn.
Qed.

(** [updatePart] returns only for a part that has both markers: [commit]
    reads them. *)
Lemma updatePart_marked fuel p v r σ σ' :
  updatePart materialize fuel (SPart p) v σ = (Returns r, σ') → marked σ' p.
Proof.
  unfold updatePart, setValue, commit. intros H. minv. simpl in *.
  match goal with H : SPart _ = SPart _ |- _ => injection H as <- end.
  match goal with
  | H : <[_ := _]> _ !! _ = Some _ |- _ => rewrite lookup_insert_eq in H; injection H as <-
  end.
  simpl in *. unfold marked, part_markers. simpl. rewrite lookup_insert_eq. simpl.
  repeat match goal with H : _ = Some _ |- _ => rewrite H; clear H end.
  by eexists _, _.
Qed.

Lemma updatePart_marks fuel s v r σ σ' :
  updatePart materialize fuel s v σ = (Returns r, σ') →
  marks_kept σ σ' ∧ nextPart σ' = nextPart σ ∧
  ∃ p, s = SPart p ∧ r = SPart p ∧ marked σ' p.
Proof.
  intros H. pose proof H as H'. apply updatePart_returns in H' as (-> & p & -> & _).
  pose proof (updatePart_marked _ _ _ _ _ _ H) as Hm.
  apply updatePart_parts in H as (Hn & d & Hd & Hp).
  split; [|split; [done|by exists p]].
  split; [lia|]. intros q Hq. destruct (decide (q = p)) as [->|Hne]; [done|].
  unfold marked, part_markers in *. by rewrite Hp, lookup_insert_ne.
Qed.

(** A created part replaces no record but, possibly, the one at the next
    unused reference; once [updatePart] has returned for it, it has its
    markers. *)
Lemma create_update_marks fuel cp b q v r σ σ1 σ' :
  createAndInsertPart cp b σ = (Returns q, σ1) →
  updatePart materialize fuel (SPart q) v σ1 = (Returns r, σ') →
  marks_kept σ σ' ∧ marked σ' q ∧ q = nextPart σ ∧ nextPart σ' = S (nextPart σ).
Proof.
  intros Hc Hu.
  pose proof (createAndInsertPart_parts _ _ _ _ _ Hc) as Hp.
  apply createAndInsertPart_nextPart in Hc as [-> Hn].
  apply updatePart_marks in Hu as ([_ Hk] & Hn' & p & [= <-] & _ & Hm).
  split; [|split; [done|split; [done|lia]]].
  split; [lia|]. intros p Hq. destruct (decide (p = nextPart σ)) as [->|Hne]; [done|].
  apply Hk. unfold marked, part_markers in *. by rewrite Hp.
Qed.

(** A slot of the new list holds a part that has its markers and that was
    in the old list or has been allocated since the pass began in [σ0]. *)
Definition placed (σ0 : State) (ops0 : list Slot) (σ : State) (p : PartRef) : Prop :=
  marked σ p ∧ (SPart p ∈ ops0 ∨ (nextPart σ0 ≤ p < nextPart σ)%nat).

Lemma placed_mono σ0 ops0 σ σ' p :
  marks_kept σ σ' → placed σ0 ops0 σ p → placed σ0 ops0 σ' p.
Proof.
  intros [Hn Hk] [Hm Ho]. split; [by apply Hk|]. destruct Ho; [by left|right; lia].
Qed.

Lemma marks_kept_add_event e σ : marks_kept σ (add_event e σ).
Proof. by apply marks_kept_same. Qed.

Ltac live_facts :=
  repeat match goal with
  | E1 : createAndInsertPart _ _ _ = (Returns ?q, ?σb),
    E2 : updatePart _ _ (SPart ?q) _ ?σb = (Returns _, _) |- _ =>
      pose proof (create_update_marks _ _ _ _ _ _ _ _ _ E1 E2) as (? & ? & ? & ?);
      clear E1 E2
  | E : updatePart _ _ _ _ _ = (Returns _, _) |- _ =>
      apply updatePart_marks in E as (? & ? & ? & ? & ? & ?)
  | E : insertPartBefore _ _ _ _ ?σa = (_, ?σb) |- _ =>
      assert (marks_kept σa σb)
        by (apply marks_kept_same;
            [exact (insertPartBefore_keeps_parts _ _ _ _ _ _ _ E)
            |exact (insertPartBefore_keeps_nextPart _ _ _ _ _ _ _ E)]);
      clear E
  | E : removePart _ _ _ ?σa = (_, ?σb) |- _ =>
      assert (marks_kept σa σb)
        by (apply marks_kept_same;
            [exact (removePart_keeps_parts _ _ _ _ _ _ E)
            |exact (removePart_keeps_nextPart _ _ _ _ _ _ E)]);
      clear E
  | E : write_tombstone _ _ ?σa = (_, ?σb) |- _ =>
      assert (marks_kept σa σb)
        by (apply marks_kept_same;
            [exact (write_tombstone_keeps_parts _ _ _ _ _ E)
            |exact (write_tombstone_keeps_nextPart _ _ _ _ _ E)]);
      clear E
  end.

Ltac marks_chain k :=
  lazymatch k with
  | O => fail
  | S ?k' =>
      first [ reflexivity
            | eassumption
            | apply marks_kept_add_event
            | etrans; [eassumption|marks_chain k']
            | etrans; [apply marks_kept_add_event|marks_chain k'] ]
  end.

Ltac marked_now :=
  match goal with
  | Hm : marked ?σi ?x |- marked ?σf ?x =>
      first [ exact Hm
            | let K := fresh in
              assert (K : marks_kept σi σf) by marks_chain 4%nat;
              exact (proj2 K _ Hm) ]
  end.

Section Liveness.
Variables (fuel : nat) (cp : PartRef) (h : option NodeRemovalHandler).
Variables (oks nks nvs : list JsValue).
Variables (σ0 : State) (ops0 : list Slot) (n : Z).

Definition live_inv (L : Loop) (σ : State) : Prop :=
  (nextPart σ0 ≤ nextPart σ)%nat ∧
  old_within ops0 (oldParts L) ∧
  filled (placed σ0 ops0 σ) n (newParts L) (newHead L) (newTail L).

Lemma live_inv_mono L σ σ' :
  marks_kept σ σ' → live_inv L σ → live_inv L σ'.
Proof.
  intros K (Hn & Ho & Hf). split; [destruct K; lia|]. split; [done|].
  eapply filled_mono; [|done]. intros p. by apply placed_mono.
Qed.

Lemma step_live_inv L L' σ σ' :
  live_inv L σ → newHead L ≤ newTail L →
  step materialize fuel cp h oks nks nvs L σ = (Returns L', σ') →
  live_inv L' σ'.
Proof.
  intros HI Hle H.
  unfold step in H. cbv zeta in H.
  mrun; simpl; live_facts.
  1,2: exact HI.
  all: destruct HI as (Hn & Ho & Hf); subst.
  all: match goal with
       | |- live_inv _ ?σf =>
           assert (K : marks_kept σ σf) by marks_chain 4%nat;
           assert (Hf' : filled (placed σ0 ops0 σf) n (newParts L) (newHead L) (newTail L))
             by (eapply filled_mono; [|exact Hf]; intros ?; by apply placed_mono)
       end.
  all: split; [destruct K; lia|].
  all: split; [first [exact Ho|by apply old_within_tombstone]|]; simpl.
  all: try exact Hf'.
  all: first [apply filled_head_write|apply filled_tail_write]; [exact Hf'|done|].
  all: split; [marked_now|].
  all: first
    [ left; eapply Ho; eassumption
    | left;
      match goal with
      | Hm : match ?o with Some _ => _ | None => _ end = SPart _ |- _ =>
          destruct o; [|done]; eapply Ho; eassumption
      end
    | right; simpl in *; lia ].
Qed.

Lemma main_loop_live_inv k L L' σ σ' :
  live_inv L σ →
  main_loop materialize fuel cp h oks nks nvs k L σ = (Returns L', σ') →
  live_inv L' σ'.
Proof.
  revert L σ. induction k as [|k IH]; intros L σ HI H; simpl in H.
  - destruct (decide _); [done|]. by minv.
  - destruct (decide _) as [[_ Hle]|_]; [|by minv].
    minv. eapply IH; [|done]. by eapply step_live_inv.
Qed.

Lemma add_loop_live_inv k L L' σ σ' :
  live_inv L σ →
  add_loop materialize fuel cp nvs k L σ = (Returns L', σ') →
  live_inv L' σ' ∧ newTail L' < newHead L'.
Proof.
  revert L σ. induction k as [|k IH]; intros L σ HI H; simpl in H.
  - destruct (decide _); [done|]. minv. split; [done|lia].
  - destruct (decide _) as [Hle|Hgt]; [|minv; split; [done|lia]].
    minv. eapply IH; [|done].
    destruct HI as (Hn & Ho & Hf).
    destruct (create_update_marks _ _ _ _ _ _ _ _ _ E E0) as (K & Hm & -> & Hn').
    split; [lia|]. split; [done|]. simpl.
    apply filled_head_write; [|done|].
    + eapply filled_mono; [|exact Hf]. intros p. by apply placed_mono.
    + split; [done|]. right. lia.
Qed.

Lemma remove_loop_live_inv k L L' σ σ' :
  live_inv L σ →
  remove_loop fuel h k L σ = (Returns L', σ') →
  live_inv L' σ' ∧ newParts L' = newParts L ∧
  newHead L' = newHead L ∧ newTail L' = newTail L.
Proof.
  revert L σ. induction k as [|k IH]; intros L σ HI H; simpl in H.
  - destruct (decide _); [done|]. by minv.
  - destruct (decide _) as [Hle|Hgt]; [|by minv].
    minv. apply IH in H; [done|].
    assert (K : marks_kept σ σ1).
    { destruct (decide _); [by minv|].
      apply marks_kept_same;
        [exact (removePart_keeps_parts _ _ _ _ _ _ E)
        |exact (removePart_keeps_nextPart _ _ _ _ _ _ E)]. }
    by apply (live_inv_mono L σ σ1 K).
Qed.


End Liveness.

(** C10: after a call of [repeat] that returns, the part list and the key
    list persisted for the container part have the length of the item
    list, and no slot of the part list is a tombstone or a hole: every slot
    holds a part that has a record in the part store, with both of its
    boundary markers, and that was in the previous part list or was created
    during this call, under a reference that was unused before the call
    (and the creation is recorded in the trace). *)
Theorem repeat_persists_full_lists (fuel : nat) (items : list JsValue)
    (keyFnOrTemplate template : option ItemFn) (onRemove : option NodeRemovalHandler)
    (containerPart : PartRef) (σ σ' : State) :
  repeat materialize fuel items keyFnOrTemplate template onRemove
    (NodePartObj containerPart) σ = (Returns tt, σ') →
  ∃ (nps : list Slot) (nks : list JsValue) (evs : list Event),
    partListCache σ' !! containerPart = Some nps ∧
    keyListCache σ' !! containerPart = Some nks ∧
    length nps = length items ∧
    length nks = length items ∧
    trace σ' = evs ++ trace σ ∧
    Forall (λ s, ∃ p,
              s = SPart p ∧
              (∃ d st en, parts σ' !! p = Some d ∧
                          startNode d = Some st ∧ endNode d = Some en) ∧
              (SPart p ∈ default [] (partListCache σ !! containerPart) ∨
               (EvCreate p ∈ evs ∧ (nextPart σ ≤ p < nextPart σ')%nat))) nps.
Proof.
  intros H.
  destruct (repeat_fills_lists _ _ _ _ _ _ _ _ H)
    as (nps & nks & evs & Hp & Hk & Hl & Hlk & Ht & HF).
  exists nps, nks, evs. do 5 (split; [done|]).
  apply repeat_returns in H
    as (nvs & L1 & L2 & L3 & σ1 & σ2 & σ3 & Hlen & _ & Hm & Ha & Hr & ->).
  set (ops := default [] (partListCache σ !! containerPart)) in *.
  assert (H0 : live_inv σ ops (Z.of_nat (length nvs)) (initial_loop ops nvs) σ).
  { split; [done|]. split; [apply old_within_refl|]. apply filled_init. lia. }
  eapply main_loop_live_inv in Hm; [|done].
  eapply add_loop_live_inv in Ha as [Ha Hlt]; [|done].
  eapply remove_loop_live_inv in Hr as (Hr & Hnp & Hnh & Hnt); [|done].
  destruct Hr as (_ & _ & Hf).
  apply filled_done in Hf as [_ HF']; [|lia].
  simpl in Hp. rewrite lookup_insert_eq in Hp. injection Hp as <-.
  apply Forall_forall. intros s Hs.
  destruct (proj1 (Forall_forall _ _) HF s Hs) as (p & -> & Hprov).
  destruct (proj1 (Forall_forall _ _) HF' _ Hs) as (p' & [= <-] & (st & en & Hmk) & Hfresh).
  exists p. split; [done|]. split.
  - unfold part_markers in Hmk. simpl.
    destruct (parts σ3 !! p) as [d|] eqn:Ed; [|done].
    exists d, st, en. simpl in Hmk. by injection Hmk as -> ->.
  - simpl. destruct Hfresh as [Hold|Hnew]; [by left|].
    destruct Hprov as [Hold|Hev]; [by left|]. by right.
Qed.
Section Values.

Variables (fuel : nat) (cp : PartRef) (h : option NodeRemovalHandler).
Variables (oks nks nvs : list JsValue) (n m : Z) (np0 : nat).

Hypothesis nks_inj : ∀ i j, 0 ≤ i < n → 0 ≤ j < n →
  js_get VUndefined nks i = js_get VUndefined nks j → i = j.

(** The parts already placed are allocated, no longer stand in the window
    of the old array, and hold the value of their new index. *)
Record val_inv (L : Loop) (hp tp : list PartRef) (σ : State) : Prop := {
  vi_idx : idx_inv oks nks n m L hp tp;
  vi_inj : ∀ i i' p, js_get SUndefined (oldParts L) i = SPart p →
                     js_get SUndefined (oldParts L) i' = SPart p → i = i';
  vi_old : ∀ i p, js_get SUndefined (oldParts L) i = SPart p → (p < np0)%nat;
  vi_np : (np0 ≤ nextPart σ)%nat;
  vi_nodup : NoDup (hp ++ tp);
  vi_placed : ∀ p, p ∈ hp ++ tp →
    (p < nextPart σ)%nat ∧
    ∀ i, oldHead L ≤ i ≤ oldTail L → js_get SUndefined (oldParts L) i ≠ SPart p;
  vi_hp : ∀ j p, hp !! j = Some p →
    part_value σ p = Some (js_get VUndefined nvs (Z.of_nat j));
  vi_tp : ∀ j p, tp !! j = Some p →
    part_value σ p = Some (js_get VUndefined nvs (newTail L + 1 + Z.of_nat j));
}.

(** Nothing is placed: the window shrinks or the maps are built. *)
Lemma val_inv_skip L L' hp tp σ σ' :
  val_inv L hp tp σ → idx_inv oks nks n m L' hp tp →
  oldParts L' = oldParts L → oldHead L ≤ oldHead L' → oldTail L' ≤ oldTail L →
  newTail L' = newTail L →
  parts σ' = parts σ → nextPart σ' = nextPart σ →
  val_inv L' hp tp σ'.
Proof.
  intros [_ V1 V2 V3 Vn V4 V5 V6] I' Ho Hh Ht Hn Hp Hk. split; try done.
  - by rewrite Ho.
  - by rewrite Ho.
  - lia.
  - intros p Hin. destruct (V4 p Hin) as [H1 H2]. split; [lia|].
    intros i Hi. rewrite Ho. apply H2. lia.
  - intros j p Hj. unfold part_value. rewrite Hp. by apply V5.
  - intros j p Hj. unfold part_value. rewrite Hp, Hn. by apply V6.
Qed.

(** The part [p] of the slot [i] of the window is placed; its slot leaves
    the window or is overwritten. *)
Lemma val_inv_place L L' hp tp hp' tp' σ σ' i p j :
  val_inv L hp tp σ → idx_inv oks nks n m L' hp' tp' →
  old_same (oldParts L) (oldParts L') →
  oldHead L ≤ oldHead L' → oldTail L' ≤ oldTail L →
  oldHead L ≤ i ≤ oldTail L → js_get SUndefined (oldParts L) i = SPart p →
  (¬ (oldHead L' ≤ i ≤ oldTail L') ∨ js_get SUndefined (oldParts L') i ≠ SPart p) →
  (hp' = hp ++ [p] ∧ tp' = tp ∧ newTail L' = newTail L ∧ j = Z.of_nat (length hp) ∨
   hp' = hp ∧ tp' = p :: tp ∧ newTail L' = newTail L - 1 ∧ j = newTail L) →
  nextPart σ' = nextPart σ →
  part_value σ' p = Some (js_get VUndefined nvs j) →
  (∀ q, q ≠ p → parts σ' !! q = parts σ !! q) →
  val_inv L' hp' tp' σ'.
Proof.
  intros [_ V1 V2 V3 Vn V4 V5 V6] I' Hs Hh Ht Hi Hp Hgone Hshape Hk Hv Hfr.
  assert (Hne : ∀ q, q ∈ hp ++ tp → q ≠ p).
  { intros q Hq ->. destruct (V4 p Hq) as [_ H2]. by apply (H2 i). }
  assert (Hval : ∀ q, q ∈ hp ++ tp → part_value σ' q = part_value σ q).
  { intros q Hq. unfold part_value. rewrite Hfr; [done|by apply Hne]. }
  assert (Hpl : ∀ q, q ∈ p :: hp ++ tp →
            (q < nextPart σ')%nat ∧
            ∀ i', oldHead L' ≤ i' ≤ oldTail L' →
                  js_get SUndefined (oldParts L') i' ≠ SPart q).
  { intros q [->|Hq]%elem_of_cons.
    - split; [apply V2 in Hp; lia|]. intros i' Hi' Hq.
      assert (i' = i) as -> by (eapply V1; [by apply Hs|done]).
      destruct Hgone; done.
    - destruct (V4 q Hq) as [H1 H2]. split; [lia|]. intros i' Hi' Hq'.
      apply (H2 i'); [lia|]. by apply Hs. }
  split; try done.
  - intros i1 i2 q H1 H2. eapply V1; by apply Hs.
  - intros i1 q H1. eapply V2. by apply Hs.
  - lia.
  - assert (Hnp : p ∉ hp ++ tp) by (intros Hin; by apply (Hne p Hin)).
    destruct Hshape as [(-> & -> & _)|(-> & -> & _)].
    + rewrite <- app_assoc. simpl. apply NoDup_app in Vn as (Vh & Vd & Vt).
      apply NoDup_app. split; [done|]. split.
      * intros x Hx [->|Hx']%elem_of_cons; [apply Hnp; set_solver|by apply (Vd x)].
      * apply NoDup_cons. split; [set_solver|done].
    + apply NoDup_app in Vn as (Vh & Vd & Vt).
      apply NoDup_app. split; [done|]. split.
      * intros x Hx [->|Hx']%elem_of_cons; [apply Hnp; set_solver|by apply (Vd x)].
      * apply NoDup_cons. split; [set_solver|done].
  - intros q Hq. apply Hpl.
    destruct Hshape as [(-> & -> & _)|(-> & -> & _)]; set_solver.
  - destruct Hshape as [(-> & -> & Hn & ->)|(-> & -> & Hn & ->)].
    + intros j q Hj. apply lookup_app_Some in Hj as [Hj|[Hge Hj]].
      * rewrite Hval; [by apply V5|].
        apply elem_of_app. left. by eapply list_elem_of_lookup_2.
      * apply list_lookup_singleton_Some in Hj as [Hj ->].
        by replace j with (length hp) by lia.
    + intros j q Hj. rewrite Hval; [by apply V5|].
      apply elem_of_app. left. by eapply list_elem_of_lookup_2.
  - destruct Hshape as [(-> & -> & Hn & ->)|(-> & -> & Hn & ->)].
    + intros j q Hj. rewrite Hn. rewrite Hval; [by apply V6|].
      apply elem_of_app. right. by eapply list_elem_of_lookup_2.
    + intros [|j] q Hj; simpl in Hj.
      * injection Hj as <-. rewrite Hn.
        by replace (newTail L - 1 + 1 + Z.of_nat 0) with (newTail L) by lia.
      * rewrite Hn.
        replace (newTail L - 1 + 1 + Z.of_nat (S j)) with (newTail L + 1 + Z.of_nat j)
          by lia.
        rewrite Hval; [by apply V6|].
        apply elem_of_app. right. by eapply list_elem_of_lookup_2.
Qed.

(** A part created during the call is placed at the new head. *)
Lemma val_inv_create L L' hp tp σ σ' :
  val_inv L hp tp σ → idx_inv oks nks n m L' (hp ++ [nextPart σ]) tp →
  oldParts L' = oldParts L → oldHead L' = oldHead L → oldTail L' = oldTail L →
  newTail L' = newTail L →
  nextPart σ' = S (nextPart σ) →
  part_value σ' (nextPart σ) = Some (js_get VUndefined nvs (Z.of_nat (length hp))) →
  (∀ q, q ≠ nextPart σ → parts σ' !! q = parts σ !! q) →
  val_inv L' (hp ++ [nextPart σ]) tp σ'.
Proof.
  intros [_ V1 V2 V3 Vn V4 V5 V6] I' Ho Hh Ht Hn Hk Hv Hfr.
  assert (Hval : ∀ q, q ∈ hp ++ tp → part_value σ' q = part_value σ q).
  { intros q Hq. unfold part_value. rewrite Hfr; [done|].
    destruct (V4 q Hq) as [H1 _]. lia. }
  split; try done.
  - by rewrite Ho.
  - by rewrite Ho.
  - lia.
  - assert (Hnp : nextPart σ ∉ hp ++ tp).
    { intros Hin. destruct (V4 _ Hin) as [H1 _]. lia. }
    rewrite <- app_assoc. simpl. apply NoDup_app in Vn as (Vh & Vd & Vt).
    apply NoDup_app. split; [done|]. split.
    + intros x Hx [->|Hx']%elem_of_cons; [apply Hnp; set_solver|by apply (Vd x)].
    + apply NoDup_cons. split; [set_solver|done].
  - intros q Hq. rewrite Ho, Hh, Ht.
    assert (q = nextPart σ ∨ q ∈ hp ++ tp) as [Heq|Hq'] by set_solver.
    + subst q. split; [lia|]. intros i Hi Hq'. apply V2 in Hq'. lia.
    + destruct (V4 q Hq') as [H1 H2]. split; [lia|done].
  - intros j q Hj. apply lookup_app_Some in Hj as [Hj|[Hge Hj]].
    + rewrite Hval; [by apply V5|].
      apply elem_of_app. left. by eapply list_elem_of_lookup_2.
    + apply list_lookup_singleton_Some in Hj as [Hj <-].
      by replace j with (length hp) by lia.
  - intros j q Hj. rewrite Hn. rewrite Hval; [by apply V6|].
    apply elem_of_app. right. by eapply list_elem_of_lookup_2.
Qed.

Lemma step_values L hp tp σ L' σ' :
  val_inv L hp tp σ →
  oldHead L ≤ oldTail L → newHead L ≤ newTail L →
  step materialize fuel cp h oks nks nvs L σ = (Returns L', σ') →
  ∃ hp' tp', val_inv L' hp' tp' σ'.
Proof.
  intros V Ho Hn H. unfold step in H. cbv zeta in H.
  pose proof (vi_idx _ _ _ _ V) as I.
  pose proof I as [INew ILen ISlots [IW0 IWm] IKeys IMaps].
  pose proof INew as [N1 N2 N3 N4 N5 N6 N7].
  destruct (decide (js_get SUndefined (oldParts L) (oldHead L) = SNull)) as [Hoh|Hoh].
  { apply ret_inv in H as [[= ->] ->]. exists hp, tp.
    eapply val_inv_skip; [exact V| |done|cbn; lia|cbn; lia|done|done|done].
    split; cbn; try done; try lia.
    eapply keys_inv_shrink; [done|lia|lia|]. intros i Hi Hin Hout j Hj.
    assert (i = oldHead L) as -> by lia.
    destruct (IKeys _ Hi) as [[_ [p Hp]]|Hk]; [congruence|by apply Hk]. }
  destruct (decide (js_get SUndefined (oldParts L) (oldTail L) = SNull)) as [Hot|Hot].
  { apply ret_inv in H as [[= ->] ->]. exists hp, tp.
    eapply val_inv_skip; [exact V| |done|cbn; lia|cbn; lia|done|done|done].
    split; cbn; try done; try lia.
    eapply keys_inv_shrink; [done|lia|lia|]. intros i Hi Hin Hout j Hj.
    assert (i = oldTail L) as -> by lia.
    destruct (IKeys _ Hi) as [[_ [p Hp]]|Hk]; [congruence|by apply Hk]. }
  destruct (old_head_part _ _ _ _ L hp tp I Ho Hoh) as (ph & Hph & _).
  destruct (old_tail_part _ _ _ _ L hp tp I Ho Hot) as (pt & Hpt & _).
  rewrite ?Hph, ?Hpt in H.
  destruct (strict_eq _ _) eqn:E1 in H.
  { apply strict_eq_true in E1 as [E1 _].
    apply bind_returns in H as (r & σ1 & Eu & H).
    apply updatePart_value in Eu as (-> & Hk & Hv & Hfr).
    apply ret_inv in H as [[= ->] ->].
    exists (hp ++ [ph]), tp.
    eapply (val_inv_place L _ hp tp _ _ σ σ1 (oldHead L) ph);
      [exact V| |by intros ? ? ?|cbn; lia|cbn; lia|lia|done|left; cbn; lia
      |left; split; [done|split; [done|split; [done|reflexivity]]]|done| |done].
    - split; cbn; try done; try lia.
      + by apply new_inv_head.
      + eapply keys_inv_shrink; [done|lia|lia|]. intros i Hi Hin Hout j Hj.
        assert (i = oldHead L) as -> by lia.
        eapply key_used; [exact nks_inj|exact E1|lia|lia|lia].
      + eapply maps_ok_shrink; [done|lia|lia].
    - by rewrite N4. }
  destruct (strict_eq _ _) eqn:E2 in H.
  { apply strict_eq_true in E2 as [E2 _].
    apply bind_returns in H as (r & σ1 & Eu & H).
    apply updatePart_value in Eu as (-> & Hk & Hv & Hfr).
    apply ret_inv in H as [[= ->] ->].
    exists hp, (pt :: tp).
    eapply (val_inv_place L _ hp tp _ _ σ σ1 (oldTail L) pt);
      [exact V| |by intros ? ? ?|cbn; lia|cbn; lia|lia|done|left; cbn; lia
      |right; split; [done|split; [done|split; [done|reflexivity]]]|done|done|done].
    split; cbn; try done; try lia.
    + by apply new_inv_tail.
    + eapply keys_inv_shrink; [done|lia|lia|]. intros i Hi Hin Hout j Hj.
      assert (i = oldTail L) as -> by lia.
      eapply key_used; [exact nks_inj|exact E2|lia|lia|lia].
    + eapply maps_ok_shrink; [done|lia|lia]. }
  destruct (strict_eq _ _) eqn:E3 in H.
  { apply strict_eq_true in E3 as [E3 _].
    apply bind_returns in H as (r & σ1 & Eu & H).
    apply updatePart_value in Eu as (-> & Hk & Hv & Hfr).
    apply bind_returns in H as ([] & σ2 & Ei & H).
    pose proof (insertPartBefore_keeps_nextPart _ _ _ _ _ _ _ Ei) as Hk2.
    pose proof (insertPartBefore_keeps_parts _ _ _ _ _ _ _ Ei) as Hp2.
    unfold keeps in Hk2, Hp2.
    apply ret_inv in H as [[= ->] ->].
    exists hp, (ph :: tp).
    eapply (val_inv_place L _ hp tp _ _ σ σ2 (oldHead L) ph);
      [exact V| |by intros ? ? ?|cbn; lia|cbn; lia|lia|done|left; cbn; lia
      |right; split; [done|split; [done|split; [done|reflexivity]]]|congruence| |].
    - split; cbn; try done; try lia.
      + by apply new_inv_tail.
      + eapply keys_inv_shrink; [done|lia|lia|]. intros i Hi Hin Hout j Hj.
        assert (i = oldHead L) as -> by lia.
        eapply key_used; [exact nks_inj|exact E3|lia|lia|lia].
      + eapply maps_ok_shrink; [done|lia|lia].
    - unfold part_value in *. by rewrite Hp2.
    - intros q Hq. rewrite Hp2. by apply Hfr. }
  destruct (strict_eq _ _) eqn:E4 in H.
  { apply strict_eq_true in E4 as [E4 _].
    apply bind_returns in H as (r & σ1 & Eu & H).
    apply updatePart_value in Eu as (-> & Hk & Hv & Hfr).
    apply bind_returns in H as ([] & σ2 & Ei & H).
    pose proof (insertPartBefore_keeps_nextPart _ _ _ _ _ _ _ Ei) as Hk2.
    pose proof (insertPartBefore_keeps_parts _ _ _ _ _ _ _ Ei) as Hp2.
    unfold keeps in Hk2, Hp2.
    apply ret_inv in H as [[= ->] ->].
    exists (hp ++ [pt]), tp.
    eapply (val_inv_place L _ hp tp _ _ σ σ2 (oldTail L) pt);
      [exact V| |by intros ? ? ?|cbn; lia|cbn; lia|lia|done|left; cbn; lia
      |left; split; [done|split; [done|split; [done|reflexivity]]]|congruence| |].
    - split; cbn; try done; try lia.
      + by apply new_inv_head.
      + eapply keys_inv_shrink; [done|lia|lia|]. intros i Hi Hin Hout j Hj.
        assert (i = oldTail L) as -> by lia.
        eapply key_used; [exact nks_inj|exact E4|lia|lia|lia].
      + eapply maps_ok_shrink; [done|lia|lia].
    - unfold part_value in *. rewrite Hp2. by rewrite N4.
    - intros q Hq. rewrite Hp2. by apply Hfr. }
  apply bind_returns in H as (maps & σ1 & Em & H).
  assert (Hmaps : maps_ok oks nks m maps.1 maps.2 (newHead L) (newTail L) ∧
                  parts σ1 = parts σ ∧ nextPart σ1 = nextPart σ).
  { destruct (newKeyToIndexMap L) as [nm0|] eqn:En.
    - apply ret_inv in Em as [[= ->] ->]. split; [exact IMaps|done].
    - apply bind_returns in Em as ([] & σx & Ee & Em).
      apply emit_inv in Ee as [_ ->]. apply ret_inv in Em as [[= ->] ->].
      split; [by apply maps_ok_generate|done]. }
  destruct Hmaps as (Hmaps & Hp1 & Hk1).
  apply bind_returns in H as (nm & σ1' & En & H). apply deref_inv in En as [En ->].
  destruct (decide (nm !! _ = None)) as [Hr1|Hr1] in H.
  { apply bind_returns in H as ([] & σ2 & Er & H).
    pose proof (removePart_keeps_nextPart _ _ _ _ _ _ Er) as Hk2.
    pose proof (removePart_keeps_parts _ _ _ _ _ _ Er) as Hp2.
    unfold keeps in Hk2, Hp2.
    apply ret_inv in H as [[= ->] ->]. exists hp, tp.
    eapply val_inv_skip; [exact V| |done|cbn; lia|cbn; lia|done|congruence|congruence].
    split; cbn; try done; try lia.
    eapply keys_inv_shrink; [done|lia|lia|]. intros i Hi Hin Hout j Hj.
    assert (i = oldHead L) as -> by lia.
    intros Heq. by eapply (proj1 Hmaps nm En _ Hr1 j Hj). }
  destruct (decide (nm !! _ = None)) as [Hr2|Hr2] in H.
  { apply bind_returns in H as ([] & σ2 & Er & H).
    pose proof (removePart_keeps_nextPart _ _ _ _ _ _ Er) as Hk2.
    pose proof (removePart_keeps_parts _ _ _ _ _ _ Er) as Hp2.
    unfold keeps in Hk2, Hp2.
    apply ret_inv in H as [[= ->] ->]. exists hp, tp.
    eapply val_inv_skip; [exact V| |done|cbn; lia|cbn; lia|done|congruence|congruence].
    split; cbn; try done; try lia.
    eapply keys_inv_shrink; [done|lia|lia|]. intros i Hi Hin Hout j Hj.
    assert (i = oldTail L) as -> by lia.
    intros Heq. by eapply (proj1 Hmaps nm En _ Hr2 j Hj). }
  apply bind_returns in H as (om & σ1' & Eo & H). apply deref_inv in Eo as [Eo ->].
  assert (V1 : val_inv L hp tp σ1).
  { eapply val_inv_skip; [exact V|exact I|done|lia|lia|done|done|done]. }
  destruct (decide (_ = SNull)) as [Hnull|Hlive] in H.
  { apply bind_returns in H as (q & σ2 & Ec & H).
    pose proof (createAndInsertPart_nextPart _ _ _ _ _ Ec) as [-> Hk2].
    pose proof (createAndInsertPart_parts _ _ _ _ _ Ec) as Hp2.
    apply bind_returns in H as (r & σ3 & Eu & H).
    apply updatePart_value in Eu as (_ & Hk3 & Hv & Hfr).
    apply ret_inv in H as [[= ->] ->].
    exists (hp ++ [nextPart σ1]), tp.
    eapply (val_inv_create L _ hp tp σ1 σ3);
      [exact V1| |done|done|done|done|congruence|by rewrite N4|].
    - split; cbn; try done; try lia.
      + by apply new_inv_head.
      + eapply keys_inv_shrink; [done|lia|lia|]. intros i Hi Hin Hout. lia.
      + eapply maps_ok_shrink; [done|lia|lia].
    - intros q Hq. rewrite Hfr by done. by apply Hp2. }
  destruct (om !! js_get VUndefined nks (newHead L)) as [i|] eqn:Ei; [|done].
  destruct (proj2 Hmaps om Eo _ _ Ei) as [Hi Hki].
  destruct (ISlots i Hi) as [?|[p Hp]]; [done|].
  assert (Hwin : oldHead L ≤ i ≤ oldTail L).
  { destruct (IKeys i Hi) as [[Hw _]|Hk]; [done|].
    exfalso. apply (Hk (newHead L)); [lia|done]. }
  cbn [default] in H. rewrite Hp in H.
  apply bind_returns in H as (r & σ2 & Eu & H).
  apply updatePart_value in Eu as (-> & Hk2 & Hv & Hfr).
  apply bind_returns in H as ([] & σ3 & Eb & H).
  pose proof (insertPartBefore_keeps_nextPart _ _ _ _ _ _ _ Eb) as Hk3.
  pose proof (insertPartBefore_keeps_parts _ _ _ _ _ _ _ Eb) as Hp3.
  apply bind_returns in H as ([] & σ4 & Ew & H).
  pose proof (write_tombstone_keeps_nextPart _ _ _ _ _ Ew) as Hk4.
  pose proof (write_tombstone_keeps_parts _ _ _ _ _ Ew) as Hp4.
  unfold keeps in Hk3, Hp3, Hk4, Hp4.
  apply ret_inv in H as [[= ->] ->].
  exists (hp ++ [p]), tp.
  eapply (val_inv_place L _ hp tp _ _ σ1 σ4 i p);
    [exact V1| |cbn; apply old_same_tombstone; by intros ? ? ?|cbn; lia|cbn; lia|lia|done
    |right; cbn; rewrite js_get_set_eq by lia; done
    |left; split; [done|split; [done|split; [done|reflexivity]]]|congruence| |].
  - split; cbn; try done; try lia.
    + by apply new_inv_head.
    + rewrite js_set_in_range by lia. by rewrite length_insert.
    + intros i' Hi'. destruct (decide (i' = i)) as [->|Hne].
      * left. apply js_get_set_eq. lia.
      * rewrite js_get_set_ne by done. by apply ISlots.
    + eapply keys_inv_tombstone; [done|lia|lia|]. intros j Hj.
      eapply key_used; [exact nks_inj|exact Hki|lia|lia|lia].
    + eapply maps_ok_shrink; [done|lia|lia].
  - unfold part_value in *. rewrite Hp4, Hp3. by rewrite N4.
  - intros q Hq. rewrite Hp4, Hp3. by apply Hfr.
Qed.

Lemma main_loop_values k L hp tp σ L' σ' :
  val_inv L hp tp σ →
  main_loop materialize fuel cp h oks nks nvs k L σ = (Returns L', σ') →
  ∃ hp' tp', val_inv L' hp' tp' σ' ∧
             ¬ (oldHead L' ≤ oldTail L' ∧ newHead L' ≤ newTail L').
Proof.
  revert L hp tp σ. induction k as [|k IH]; intros L hp tp σ V H; simpl in H.
  - destruct (decide _) as [|Hn]; [done|]. apply ret_inv in H as [[= ->] ->]. eauto.
  - destruct (decide _) as [[Ho Hn]|Hn]; [|apply ret_inv in H as [[= ->] ->]; eauto].
    apply bind_returns in H as (L1 & σ1 & Es & H).
    destruct (step_values L hp tp σ L1 σ1 V Ho Hn Es) as (hp1 & tp1 & V1).
    by eapply IH.
Qed.

Lemma add_loop_values k L hp tp σ L' σ' :
  val_inv L hp tp σ →
  ¬ (oldHead L ≤ oldTail L ∧ newHead L ≤ newTail L) →
  add_loop materialize fuel cp nvs k L σ = (Returns L', σ') →
  ∃ hp' tp', val_inv L' hp' tp' σ' ∧ newTail L' < newHead L'.
Proof.
  revert L hp tp σ. induction k as [|k IH]; intros L hp tp σ V Hx H; simpl in H.
  - destruct (decide _) as [|Hn]; [done|]. apply ret_inv in H as [[= ->] ->].
    exists hp, tp. split; [done|lia].
  - destruct (decide _) as [Hn|Hn];
      [|apply ret_inv in H as [[= ->] ->]; exists hp, tp; split; [done|lia]].
    pose proof (vi_idx _ _ _ _ V) as [INew ILen ISlots [IW0 IWm] IKeys IMaps].
    pose proof (ni_hp_len _ _ _ _ _ _ INew) as N4.
    apply bind_returns in H as (q & σ1 & Ec & H).
    pose proof (createAndInsertPart_nextPart _ _ _ _ _ Ec) as [-> Hk2].
    pose proof (createAndInsertPart_parts _ _ _ _ _ Ec) as Hp2.
    apply bind_returns in H as (r & σ2 & Eu & H).
    apply updatePart_value in Eu as (_ & Hk3 & Hv & Hfr).
    refine (IH _ (hp ++ [nextPart σ]) tp _ _ _ H); [|cbn; lia].
    eapply (val_inv_create L _ hp tp σ σ2);
      [exact V| |done|done|done|done|congruence|by rewrite N4|].
    + split; cbn; try done; try lia.
      * by apply new_inv_head.
      * eapply keys_inv_shrink; [done|lia|lia|]. intros i Hi Hin Hout. lia.
      * eapply maps_ok_shrink; [done|lia|lia].
    + intros q Hq. rewrite Hfr by done. by apply Hp2.
Qed.

Lemma remove_loop_values k L hp tp σ L' σ' :
  val_inv L hp tp σ → newTail L < newHead L →
  remove_loop fuel h k L σ = (Returns L', σ') →
  val_inv L' hp tp σ' ∧ newTail L' < newHead L'.
Proof.
  revert L σ. induction k as [|k IH]; intros L σ V Hx H; simpl in H.
  - destruct (decide _) as [|Hn]; [done|]. by apply ret_inv in H as [[= ->] ->].
  - destruct (decide _) as [Ho|Hn]; [|by apply ret_inv in H as [[= ->] ->]].
    pose proof (vi_idx _ _ _ _ V) as [INew ILen ISlots [IW0 IWm] IKeys IMaps].
    apply bind_returns in H as ([] & σ1 & Er & H).
    assert (Hk : parts σ1 = parts σ ∧ nextPart σ1 = nextPart σ).
    { destruct (decide _); [by apply ret_inv in Er as [_ ->]|].
      split; [by apply removePart_keeps_parts in Er
             |by apply removePart_keeps_nextPart in Er]. }
    destruct Hk as [Hp1 Hk1].
    refine (IH _ _ _ _ H); [|cbn; lia].
    eapply val_inv_skip; [exact V| |done|cbn; lia|cbn; lia|done|done|done].
    split; cbn; try done; try lia.
    eapply keys_inv_shrink; [done|lia|lia|]. intros i Hi Hin Hout j Hj. lia.
Qed.

End Values.

(** X14: a call of [repeat] with unique keys that returns leaves, for each
    item, a part of its own holding the value the template gave for that
    item: the persisted parts are pairwise distinct, allocated, and the
    part of item [i] has committed the [i]-th new value.  The cached parts
    are only assumed to be pairwise distinct and allocated, which every
    returning call establishes again. *)
Theorem repeat_parts_hold_item_values (fuel : nat) (items : list JsValue)
    (kfot t : option ItemFn) (h : option NodeRemovalHandler) (cp : PartRef)
    (σ σ' : State) (ps0 : list PartRef) :
  default [] (partListCache σ !! cp) = SPart <$> ps0 →
  NoDup ps0 → Forall (λ p, (p < nextPart σ)%nat) ps0 →
  NoDup (new_keys (pass_keyFn kfot t) items) →
  repeat materialize fuel items kfot t h (NodePartObj cp) σ = (Returns tt, σ') →
  ∃ ps nvs,
    partListCache σ' !! cp = Some (SPart <$> ps) ∧
    (∀ tf, pass_template kfot t = Some tf → nvs = new_values tf items) ∧
    Forall2 (λ p v, part_value σ' p = Some v) ps nvs ∧
    NoDup ps ∧ Forall (λ p, (p < nextPart σ')%nat) ps.
Proof.
  intros Hc Hnd0 Hal Hnd H.
  apply repeat_returns in H
    as (nvs & L1 & L2 & L3 & σ1 & σ2 & σ3 & Hlen & Hv & Hm & Ha & Hr & ->).
  cbv zeta in *. rewrite Hc in Hm. unfold initial_loop in Hm.
  set (nks := new_keys (pass_keyFn kfot t) items) in *.
  set (oks := default [] (keyListCache σ !! cp)) in *.
  assert (Hinj : ∀ i j, 0 ≤ i < Z.of_nat (length nvs) → 0 ≤ j < Z.of_nat (length nvs) →
            js_get VUndefined nks i = js_get VUndefined nks j → i = j).
  { intros i j Hi Hj. apply NoDup_js_get_inj; [done| |];
      unfold nks; rewrite new_keys_length; lia. }
  assert (Hslot : ∀ i p, js_get SUndefined (SPart <$> ps0) i = SPart p →
            0 ≤ i ∧ ps0 !! Z.to_nat i = Some p).
  { intros i p Hp. apply js_get_part_lookup in Hp as [Hi Hp]. split; [done|].
    rewrite list_lookup_fmap in Hp. destruct (ps0 !! Z.to_nat i); [|done].
    by injection Hp as ->. }
  assert (V0 : val_inv oks nks nvs (Z.of_nat (length nvs)) (Z.of_nat (length ps0))
                 (nextPart σ)
                 (mkLoop (SPart <$> ps0) [] 0 (Z.of_nat (length (SPart <$> ps0)) - 1) 0
                         (Z.of_nat (length nvs) - 1) None None) [] [] σ).
  { split; cbn; try done.
    - apply idx_inv_initial. lia.
    - intros i i' p H1 H2. apply Hslot in H1 as [? H1]. apply Hslot in H2 as [? H2].
      pose proof (NoDup_lookup _ _ _ _ Hnd0 H1 H2). lia.
    - intros i p H1. apply Hslot in H1 as [_ H1].
      by eapply (Forall_lookup_1 _ _ _ _ Hal).
    - apply NoDup_nil_2.
    - intros p Hp. by apply elem_of_nil in Hp. }
  edestruct main_loop_values as (hp1 & tp1 & V1 & Hx1); [exact Hinj|exact V0|exact Hm|].
  edestruct add_loop_values as (hp2 & tp2 & V2 & Hn2); [exact Hinj|exact V1|exact Hx1|exact Ha|].
  edestruct remove_loop_values as (V3 & Hn3); [exact V2|exact Hn2|exact Hr|].
  destruct V3 as [I3 _ _ _ Vn Vp Vh Vt].
  pose proof (ix_new _ _ _ _ _ _ _ I3) as INew.
  exists (hp2 ++ tp2), nvs. simpl. rewrite lookup_insert_eq.
  split; [f_equal; by eapply new_inv_done|]. split; [done|].
  split; [|split; [done|]].
  - apply Forall2_same_length_lookup_2.
    + pose proof (new_inv_length _ _ _ _ _ _ INew Hn3). lia.
    + intros j p v Hj Hvj. unfold part_value. simpl.
      apply (js_get_lookup VUndefined) in Hvj. rewrite <- Hvj.
      apply lookup_app_Some in Hj as [Hj|[Hge Hj]]; [by apply Vh|].
      apply Vt in Hj.
      pose proof (ni_hp_len _ _ _ _ _ _ INew). pose proof (ni_head _ _ _ _ _ _ INew).
      by replace (newTail L3 + 1 + Z.of_nat (j - length hp2)) with (Z.of_nat j) in Hj by lia.
  - apply Forall_forall. intros p Hp. simpl. by apply Vp.
Qed.

(** ** The lists saved for the other container parts *)

Definition other_caches (cp : PartRef) : relation State := λ σ σ',
  ∀ q, q ≠ cp → partListCache σ' !! q = partListCache σ !! q ∧
               keyListCache σ' !! q = keyListCache σ !! q.

#[local] Instance other_caches_po cp : PreOrder (other_caches cp).
Proof.
  split; [by intros σ q _|].
  intros x y z H1 H2 q Hq. destruct (H1 q Hq), (H2 q Hq). split; congruence.
Qed.

Lemma keeps_caches_other cp σ σ' : keeps caches σ σ' → other_caches cp σ σ'.
Proof. unfold keeps, caches. intros [= H1 H2] q _. by rewrite H1, H2. Qed.

#[local] Hint Resolve createAndInsertPart_keeps_caches updatePart_keeps_caches
  insertPartBefore_keeps_caches removePart_keeps_caches : pres.

Ltac pres_other :=
  repeat first
    [ pres_step
    | eapply preserves_weaken; [apply keeps_caches_other|];
      solve [eauto with pres typeclass_instances] ].

Lemma write_tombstone_other cp ops : preserves (other_caches cp) (write_tombstone cp ops).
Proof.
  intros σ r σ' [= _ <-] q Hq. simpl. by rewrite lookup_alter_ne.
Qed.
#[local] Hint Resolve write_tombstone_other : pres.

Lemma step_other fuel cp h oks nks nvs L :
  preserves (other_caches cp) (step materialize fuel cp h oks nks nvs L).
Proof. unfold step. cbv zeta. repeat (destruct (decide _) || destruct (strict_eq _ _)); pres_other. Qed.

Lemma main_loop_other fuel cp h oks nks nvs k L :
  preserves (other_caches cp) (main_loop materialize fuel cp h oks nks nvs k L).
Proof.
  revert L. induction k as [|k IH]; intros L; simpl; destruct (decide _); pres_other.
  apply step_other.
Qed.

Lemma add_loop_other fuel cp nvs k L :
  preserves (other_caches cp) (add_loop materialize fuel cp nvs k L).
Proof.
  revert L. induction k as [|k IH]; intros L; simpl; destruct (decide _); pres_other.
Qed.

Lemma remove_loop_other fuel cp h k L :
  preserves (other_caches cp) (remove_loop fuel h k L).
Proof.
  revert L. induction k as [|k IH]; intros L; simpl; destruct (decide _); pres_other.
Qed.

Lemma build_new_other cp kf t items i ks vs :
  preserves (other_caches cp) (build_new kf t items i ks vs).
Proof. revert i ks vs. induction items as [|x items IH]; intros i ks vs; simpl; pres_other. Qed.

Lemma save_lists_other cp (nps : list Slot) (nks : list JsValue) :
  preserves (other_caches cp)
    (σ' ← get_state;
     modify (set_caches (<[cp := nps]> (partListCache σ')) (<[cp := nks]> (keyListCache σ')))).
Proof.
  intros σ r σ' [= _ <-] q Hq. simpl. by rewrite !lookup_insert_ne.
Qed.

(** X15: a call of [repeat] on a container part reads and writes the
    saved part and key lists of that part only: whatever the outcome
    (return, exception, no termination within the fuel), the lists saved
    for every other part are what they were before the call. *)
Theorem repeat_keeps_other_caches (fuel : nat) (items : list JsValue)
    (kfot t : option ItemFn) (h : option NodeRemovalHandler) (part : Part)
    (r : Outcome unit) (σ σ' : State) (q : PartRef) :
  part ≠ NodePartObj q →
  repeat materialize fuel items kfot t h part σ = (r, σ') →
  partListCache σ' !! q = partListCache σ !! q ∧
  keyListCache σ' !! q = keyListCache σ !! q.
Proof.
  intros Hq H. destruct part as [cp|o].
  - assert (Hne : q ≠ cp) by congruence.
    revert H. generalize σ r σ'. clear σ r σ'. intros σ r σ' H.
    enough (P : preserves (other_caches cp)
                  (repeat materialize fuel items kfot t h (NodePartObj cp)))
      by exact (P σ r σ' H q Hne).
    unfold repeat. destruct t; simpl.
    all: apply preserves_bind; [apply _|solve [eauto with pres typeclass_instances]|intros σ0].
    all: apply preserves_bind; [apply _|apply build_new_other|intros [ks vs]].
    all: apply preserves_bind; [apply _|apply main_loop_other|intros L1].
    all: apply preserves_bind; [apply _|apply add_loop_other|intros L2].
    all: apply preserves_bind; [apply _|apply remove_loop_other|intros L3].
    all: apply save_lists_other.
  - unfold repeat in H. by destruct t; injection H as _ <-.
Qed.

(** ** Termination of the pass *)

Lemma insert_content_sized c ds : ∀ σ e l1 l2,
  dom_wf σ c → children_of σ c = l1 ++ e :: l2 →
  ∃ σ', insert_content c (Some e) ds σ = (Returns tt, σ') ∧
        length (children_of σ' c) = (length (children_of σ c) + length ds)%nat.
Proof.
  induction ds as [|d ds IH]; intros σ e l1 l2 W Hl.
  - exists σ. split; [done|]. simpl. lia.
  - destruct (insert_fresh σ c d e l1 l2 W Hl) as [E W1].
    set (σ1 := set_dom _ _ (alloc_node d σ)) in *.
    assert (Hl1 : children_of σ1 c = (l1 ++ [nextNode σ]) ++ e :: l2).
    { unfold σ1. rewrite children_of_set_dom, lookup_insert_eq. simpl.
      by rewrite <- app_assoc. }
    destruct (IH σ1 e _ l2 W1 Hl1) as (σ' & E' & Hlen).
    exists σ'. split.
    + simpl. rewrite bind_unfold.
      rewrite bind_unfold in E.
      destruct (createNode d σ) as [[n| |] σn] eqn:En; try done.
      rewrite bind_unfold. rewrite E. done.
    + rewrite Hlen, Hl1, Hl. rewrite !length_app. simpl. lia.
Qed.

Ltac lens := repeat (progress (simpl; rewrite ?length_app)); simpl; lia.

Section Progress.

Variables (c : Node) (cp : PartRef) (cs ce : Node).
Variable fuel : nat.

Lemma updatePart_total σ A p C v :
  dom_inv c cp cs ce σ (A ++ p :: C) →
  (length (children_of σ c) ≤ fuel)%nat →
  ∃ σ', updatePart materialize fuel (SPart p) v σ = (Returns (SPart p), σ') ∧
        (length (children_of σ' c)
         ≤ length (children_of σ c) + length (materialize v))%nat.
Proof.
  intros D Hf.
  destruct (di_split c cp cs ce σ A p C D) as (s & e & m & X & Y & Hm & Hb & Hl & H1 & H2).
  pose proof (di_wf _ _ _ _ _ _ D) as W.
  apply part_markers_lookup in Hm as (d & Hp & Hs & He).
  unfold updatePart. rewrite bind_as_part, bind_emit.
  set (σa := add_event (EvUpdate p v) σ) in *.
  assert (Wa : dom_wf σa c) by (by apply dom_wf_add_event).
  rewrite (bind_of_returns _ _ _ _ _ (setValue_eval σa p d v Hp)).
  set (d1 := mkNodePart (startNode d) (endNode d) (options d) (value d) v) in *.
  set (σb := set_parts _ _ σa) in *.
  assert (Wb : dom_wf σb c) by (by eapply dom_wf_keeps; [..|exact Wa]).
  assert (Hlb : children_of σb c = (X ++ [s]) ++ m ++ e :: Y).
  { change (children_of σb c) with (children_of σ c). rewrite Hl.
    by rewrite <- ?app_assoc; simpl; rewrite <- ?app_assoc. }
  unfold commit.
  assert (Hpb : parts σb !! p = Some d1) by apply lookup_insert_eq.
  rewrite bind_unfold, (bind_getPart _ _ _ _ Hpb). simpl startNode. rewrite Hs.
  rewrite bind_deref, bind_get. simpl endNode. rewrite He.
  assert (Hsin : s ∈ children_of σb c) by (rewrite Hlb; set_solver).
  rewrite (wf_child_parent σb c s Wb Hsin).
  assert (Hns : nextSibling σb s = head (m ++ e :: Y)).
  { apply (wf_nextSibling σb c s X (m ++ e :: Y) Wb).
    rewrite Hlb. by rewrite <- app_assoc. }
  rewrite Hns.
  destruct (removeNodes_range c m (X ++ [s]) (e :: Y) σb Wb Hlb) as [HF Wc].
  assert (Hlm : (length m ≤ fuel)%nat).
  { rewrite Hl in Hf. rewrite !length_app in Hf. simpl in Hf. rewrite length_app in Hf. lia. }
  pose proof (fueled_enough _ _ _ _ _ _ HF Hlm) as Er. cbn beta in Er. simpl head in Er.
  rewrite (bind_of_returns _ _ _ _ _ Er).
  set (σc := set_dom _ _ σb) in *.
  assert (Hlc : children_of σc c = (X ++ [s]) ++ e :: Y).
  { unfold σc. by rewrite children_of_set_dom, lookup_insert_eq. }
  rewrite bind_deref, bind_get.
  assert (Hein : e ∈ children_of σc c) by (rewrite Hlc; set_solver).
  rewrite (wf_child_parent σc c e Wc Hein), bind_deref.
  destruct (insert_content_sized c (materialize (pendingValue d1)) σc e _ Y Wc Hlc)
    as (σd & E & Hld).
  rewrite (bind_of_returns _ _ _ _ _ E), bind_get.
  eexists. split; [reflexivity|].
  change (children_of (set_parts _ _ σd) c) with (children_of σd c).
  rewrite Hld, Hlc, Hl. simpl. rewrite !length_app. simpl. rewrite !length_app. simpl. lia.
Qed.

Lemma insertPartBefore_total_forward σ A p Mi C :
  dom_inv c cp cs ce σ (A ++ p :: Mi ++ C) →
  (length (children_of σ c) ≤ fuel)%nat →
  ∃ σ', insertPartBefore fuel cp (SPart p) (ref_of C) σ = (Returns tt, σ') ∧
        length (children_of σ' c) = length (children_of σ c).
Proof.
  intros D Hf.
  destruct (di_split c cp cs ce σ A p (Mi ++ C) D)
    as (s & e & m & X & Y & Hm & Hb & Hl & H1 & H2).
  pose proof (di_wf _ _ _ _ _ _ D) as W.
  pose proof (di_live _ _ _ _ _ _ D) as HL.
  assert (HLC : Forall (live σ) C).
  { apply Forall_app in HL as [_ HL]. apply Forall_cons in HL as [_ HL].
    by apply Forall_app in HL as [_ ?]. }
  rewrite fmap_app, <- app_assoc in H2.
  apply layout_app_inv in H2 as (YM & YC & -> & HM & HC).
  destruct (target_split ce σ C YC HLC HC) as (j & b & tl & -> & Hr & Hre).
  replace (X ++ (s :: m ++ [e]) ++ YM ++ j ++ b :: tl)
    with (X ++ (s :: m ++ [e]) ++ (YM ++ j) ++ b :: tl) in Hl
    by (by rewrite <- ?app_assoc; simpl; rewrite <- ?app_assoc).
  rewrite (insertPartBefore_eval c cp cs ce σ p s e (ref_of C) b fuel W
             (di_cp _ _ _ _ _ _ D) (di_cs_child _ _ _ _ _ _ D) Hm Hr).
  pose proof (wf_nodup _ _ W) as Hnd. rewrite Hl in Hnd.
  assert (Hns : nextSibling σ e = head ((YM ++ j) ++ b :: tl)).
  { apply (wf_nextSibling σ c e (X ++ s :: m) _ W).
    rewrite Hl. by rewrite <- ?app_assoc; simpl; rewrite <- ?app_assoc. }
  rewrite Hns. destruct (YM ++ j) as [|y Y1].
  - simpl. rewrite decide_True by done. by exists σ.
  - change (head ((y :: Y1) ++ b :: tl)) with (Some y).
    assert (y ≠ b) by notin_from Hnd.
    rewrite decide_False by congruence.
    assert (Wa : dom_wf (add_event (EvMove p) σ) c) by (by apply dom_wf_add_event).
    pose proof (reparentNodes_forward c (s :: m ++ [e]) X (y :: Y1) [] b tl _ Wa Hl
                  ltac:(done)) as HF.
    assert (Hlm : (length (s :: m ++ [e]) ≤ fuel)%nat).
    { rewrite Hl in Hf. rewrite !length_app in Hf. lia. }
    pose proof (fueled_enough _ _ _ _ _ _ HF Hlm) as Er. cbn beta in Er.
    eexists. split; [exact Er|].
    rewrite children_of_set_dom, lookup_insert_eq.
    change (children_of (add_event (EvMove p) σ) c) with (children_of σ c).
    rewrite Hl. lens.
Qed.

Lemma insertPartBefore_total_backward σ A q Mi p C :
  dom_inv c cp cs ce σ (A ++ q :: Mi ++ p :: C) →
  (length (children_of σ c) ≤ fuel)%nat →
  ∃ σ', insertPartBefore fuel cp (SPart p) (SPart q) σ = (Returns tt, σ') ∧
        length (children_of σ' c) = length (children_of σ c).
Proof.
  intros D Hf.
  replace (A ++ q :: Mi ++ p :: C) with ((A ++ q :: Mi) ++ p :: C) in D
    by (by rewrite <- ?app_assoc; simpl; rewrite <- ?app_assoc).
  destruct (di_split c cp cs ce σ _ p C D) as (s & e & m & X & Y & Hm & Hb & Hl & H1 & H2).
  pose proof (di_wf _ _ _ _ _ _ D) as W.
  pose proof (di_live _ _ _ _ _ _ D) as HL.
  apply Forall_app in HL as [HL HLpC]. apply Forall_app in HL as [HLA HLqM].
  apply Forall_cons in HLqM as [HLq HLM].
  destruct (live_bound σ q HLq) as (sq & eq & Hmq & Hbq).
  rewrite fmap_app, fmap_cons, Hbq in H1.
  replace (Single cs :: (bound_of σ <$> A) ++ Range sq eq :: (bound_of σ <$> Mi))
    with ((Single cs :: (bound_of σ <$> A)) ++ Range sq eq :: (bound_of σ <$> Mi))
    in H1 by done.
  apply layout_split in H1 as (X1 & blk & X2 & -> & Hblk & HA & HM).
  apply block_range_inv in Hblk as [mq ->].
  replace ((X1 ++ (sq :: mq ++ [eq]) ++ X2) ++ (s :: m ++ [e]) ++ Y)
    with (X1 ++ sq :: (mq ++ [eq] ++ X2) ++ (s :: m ++ [e]) ++ Y) in Hl
    by (by rewrite <- ?app_assoc; simpl; rewrite <- ?app_assoc).
  assert (Hr : ref_is ce σ (SPart q) sq) by (by exists (Some eq)).
  remember (mq ++ [eq] ++ X2) as X2' eqn:EX. clear EX.
  rewrite (insertPartBefore_eval c cp cs ce σ p s e (SPart q) sq fuel W
             (di_cp _ _ _ _ _ _ D) (di_cs_child _ _ _ _ _ _ D) Hm Hr).
  pose proof (wf_nodup _ _ W) as Hnd. rewrite Hl in Hnd.
  assert (Hns : nextSibling σ e = head Y).
  { apply (wf_nextSibling σ c e (X1 ++ sq :: X2' ++ s :: m) _ W).
    rewrite Hl. by rewrite <- ?app_assoc; simpl; rewrite <- ?app_assoc. }
  rewrite Hns.
  assert (Hne : head Y ≠ Some sq).
  { destruct Y as [|z Z]; [done|]. simpl.
    assert (sq ≠ z) by notin_from Hnd. congruence. }
  rewrite decide_False by done.
  assert (Wa : dom_wf (add_event (EvMove p) σ) c) by (by apply dom_wf_add_event).
  pose proof (reparentNodes_backward c (s :: m ++ [e]) X1 [] sq _ Y _ Wa Hl) as HF.
  assert (Hlm : (length (s :: m ++ [e]) ≤ fuel)%nat).
  { rewrite Hl in Hf. revert Hf. lens. }
  pose proof (fueled_enough _ _ _ _ _ _ HF Hlm) as Er. cbn beta in Er.
  eexists. split; [exact Er|].
  rewrite children_of_set_dom, lookup_insert_eq.
  change (children_of (add_event (EvMove p) σ) c) with (children_of σ c).
  rewrite Hl. lens.
Qed.

Lemma removePart_total σ A p C :
  dom_inv c cp cs ce σ (A ++ p :: C) →
  (length (children_of σ c) ≤ fuel)%nat →
  ∃ σ', removePart fuel (SPart p) None σ = (Returns tt, σ') ∧
        (length (children_of σ' c) ≤ length (children_of σ c))%nat.
Proof.
  intros D Hf.
  destruct (di_split c cp cs ce σ A p C D) as (s & e & m & X & Y & Hm & Hb & Hl & H1 & H2).
  pose proof (di_wf _ _ _ _ _ _ D) as W.
  apply part_markers_lookup in Hm as (d & Hd & Hds & Hde).
  destruct (removePart_plain p d s m e c X Y σ W Hd Hds Hde Hl) as [HF _].
  assert (Hlm : (S (S (length m)) ≤ fuel)%nat).
  { rewrite Hl in Hf. rewrite !length_app in Hf. simpl in Hf. rewrite length_app in Hf.
    simpl in Hf. lia. }
  pose proof (fueled_enough _ _ _ _ _ _ HF Hlm) as Er. cbn beta in Er.
  eexists. split; [exact Er|].
  rewrite children_of_set_dom, lookup_insert_eq.
  change (children_of (add_event (EvRemovePart p) σ) c) with (children_of σ c).
  rewrite Hl. lens.
Qed.

Lemma createAndInsertPart_total_dom σ A C :
  dom_inv c cp cs ce σ (A ++ C) →
  ∃ q σ', createAndInsertPart cp (ref_of C) σ = (Returns q, σ') ∧
          length (children_of σ' c) = S (S (length (children_of σ c))).
Proof.
  intros D. pose proof (di_live _ _ _ _ _ _ D) as HL.
  apply Forall_app in HL as [HLA HLC].
  pose proof (di_layout _ _ _ _ _ _ D) as Hlay. rewrite fmap_app in Hlay.
  replace (Single cs :: ((bound_of σ <$> A) ++ (bound_of σ <$> C)) ++ [Single ce])
    with ((Single cs :: (bound_of σ <$> A)) ++ ((bound_of σ <$> C) ++ [Single ce]))
    in Hlay by (by rewrite <- ?app_assoc; simpl; rewrite <- ?app_assoc).
  apply layout_app_inv in Hlay as (X & Y & Hl & H1 & H2).
  destruct (target_split ce σ C Y HLC H2) as (j & b & tl & -> & Hr & Hre).
  replace (X ++ j ++ b :: tl) with ((X ++ j) ++ b :: tl) in Hl
    by (by rewrite <- ?app_assoc; simpl; rewrite <- ?app_assoc).
  destruct (createAndInsertPart_total c cp cs ce σ (ref_of C) b _ tl
              (di_wf _ _ _ _ _ _ D) (di_cp _ _ _ _ _ _ D) (di_cs_child _ _ _ _ _ _ D) Hl Hr)
    as (q & σ' & E).
  exists q, σ'. split; [done|].
  destruct (createAndInsertPart_spec c cp cs ce σ (ref_of C) b _ tl q σ'
              (di_wf _ _ _ _ _ _ D) (di_cp _ _ _ _ _ _ D) (di_cs_child _ _ _ _ _ _ D) Hl Hr E)
    as (_ & Hl' & _).
  rewrite Hl', Hl. lens.
Qed.

End Progress.

Ltac flat := rewrite <- ?app_assoc; simpl; rewrite <- ?app_assoc; simpl.

Section PassProgress.

Variables (c : Node) (cp : PartRef) (cs ce : Node).
Variable fuel : nat.
Variables (oks nks nvs : list JsValue).
Variables (n m : Z).

Hypothesis nks_inj : ∀ i j, 0 ≤ i < n → 0 ≤ j < n →
  js_get VUndefined nks i = js_get VUndefined nks j → i = j.

(** The nodes the new values from [a] to [b] can still add to the
    container: two markers and the content for each. *)
Definition pass_cost (a b : Z) : nat :=
  sum_list_with (λ j, 2 + length (materialize (js_get VUndefined nvs j)))%nat
                (seqZ a (b - a + 1)).

Lemma pass_cost_head a b :
  a ≤ b →
  pass_cost a b
  = (2 + length (materialize (js_get VUndefined nvs a)) + pass_cost (a + 1) b)%nat.
Proof.
  intros H. unfold pass_cost. rewrite (seqZ_cons a) by lia. simpl.
  replace (Z.pred (b - a + 1)) with (b - (a + 1) + 1) by lia.
  by replace (Z.succ a) with (a + 1) by lia.
Qed.

Lemma pass_cost_last a b :
  a ≤ b →
  pass_cost a b
  = (pass_cost a (b - 1) + (2 + length (materialize (js_get VUndefined nvs b))))%nat.
Proof.
  intros H. unfold pass_cost.
  replace (b - a + 1) with ((b - 1 - a + 1) + 1) by lia.
  rewrite seqZ_app by lia. rewrite sum_list_with_app.
  replace (a + (b - 1 - a + 1)) with b by lia.
  rewrite (seqZ_cons b 1) by lia. rewrite (seqZ_nil (Z.succ b)) by lia. simpl. lia.
Qed.

Definition budget (L : Loop) (σ : State) : Prop :=
  (length (children_of σ c) + pass_cost (newHead L) (newTail L) ≤ fuel)%nat.

Definition gap (L : Loop) : nat :=
  (Z.to_nat (oldTail L - oldHead L + 1) + Z.to_nat (newTail L - newHead L + 1))%nat.

Definition maps_both (L : Loop) : Prop :=
  is_Some (newKeyToIndexMap L) → is_Some (oldKeyToIndexMap L).

Ltac step_done :=
  eexists _, _; split; [reflexivity|];
  unfold budget, gap, maps_both in *; cbn [oldParts newParts oldHead oldTail newHead newTail
                                          newKeyToIndexMap oldKeyToIndexMap fst snd].

Lemma step_total L hp tp hd σ :
  idx_inv oks nks n m L hp tp → dom_inv c cp cs ce σ (seq_of L hd tp) →
  oldHead L ≤ oldTail L → newHead L ≤ newTail L →
  budget L σ → maps_both L →
  ∃ L' σ', step materialize fuel cp None oks nks nvs L σ = (Returns L', σ') ∧
           budget L' σ' ∧ maps_both L' ∧ (gap L' < gap L)%nat.
Proof.
  intros I D Ho Hn HB HM. unfold step. cbv zeta.
  pose proof I as [INew ILen ISlots [IW0 IWm] IKeys IMaps].
  pose proof INew as [N1 N2 N3 N4 N5 N6 N7].
  pose proof (pass_cost_head _ _ Hn) as Hch.
  pose proof (pass_cost_last _ _ Hn) as Hcl.
  unfold seq_of in *.
  destruct (decide (js_get SUndefined (oldParts L) (oldHead L) = SNull)) as [Hoh|Hoh].
  { step_done. split; [done|split; [done|lia]]. }
  destruct (decide (js_get SUndefined (oldParts L) (oldTail L) = SNull)) as [Hot|Hot].
  { step_done. split; [done|split; [done|lia]]. }
  destruct (old_head_part oks nks n m L hp tp I Ho Hoh) as (ph & Hph & Hwh).
  destruct (old_tail_part oks nks n m L hp tp I Ho Hot) as (pt & Hpt & Hwt).
  rewrite ?Hph, ?Hpt.
  destruct (strict_eq (js_get VUndefined oks (oldHead L))
              (js_get VUndefined nks (newHead L))) eqn:E1.
  { rewrite Hwh in D.
    destruct (updatePart_total c cp cs ce fuel σ hd ph _
                (js_get VUndefined nvs (newHead L)) D ltac:(unfold budget in HB; lia))
      as (σ1 & Eu & Hl1).
    rewrite (bind_of_returns _ _ _ _ _ Eu).
    step_done. split; [lia|split; [done|lia]]. }
  set (W' := window_parts (oldParts L) (oldHead L + 1) (oldTail L)) in *.
  assert (Hf0 : (length (children_of σ c) ≤ fuel)%nat) by (unfold budget in HB; lia).
  destruct (strict_eq (js_get VUndefined oks (oldTail L))
              (js_get VUndefined nks (newTail L))) eqn:E2.
  { rewrite (Hwt (oldHead L)) in D by lia.
    set (W := window_parts (oldParts L) (oldHead L) (oldTail L - 1)) in *.
    replace (hd ++ (W ++ [pt]) ++ tp) with ((hd ++ W) ++ pt :: tp) in D by (by flat).
    destruct (updatePart_total c cp cs ce fuel σ (hd ++ W) pt _
                (js_get VUndefined nvs (newTail L)) D Hf0) as (σ1 & Eu & Hl1).
    rewrite (bind_of_returns _ _ _ _ _ Eu).
    step_done. split; [lia|split; [done|lia]]. }
  destruct (strict_eq (js_get VUndefined oks (oldHead L))
              (js_get VUndefined nks (newTail L))) eqn:E3.
  { rewrite Hwh in D.
    destruct (updatePart_total c cp cs ce fuel σ hd ph _
                (js_get VUndefined nvs (newTail L)) D Hf0) as (σ1 & Eu & Hl1).
    rewrite (bind_of_returns _ _ _ _ _ Eu).
    destruct (updatePart_dom c cp cs ce σ hd ph _ _ _ _ _ D Eu) as (_ & D1 & _).
    rewrite js_get_set_ne by lia. rewrite (new_inv_ref _ _ _ _ _ _ INew).
    destruct (insertPartBefore_total_forward c cp cs ce fuel σ1 hd ph W' tp D1
                ltac:(unfold budget in HB; lia)) as (σ2 & Ei & Hl2).
    rewrite (bind_of_returns _ _ _ _ _ Ei).
    step_done. split; [lia|split; [done|lia]]. }
  destruct (strict_eq (js_get VUndefined oks (oldTail L))
              (js_get VUndefined nks (newHead L))) eqn:E4.
  { assert (Hlt : oldHead L < oldTail L).
    { destruct (decide (oldHead L = oldTail L)) as [Heq|]; [|lia].
      rewrite Heq in E1. congruence. }
    rewrite Hwh in D. unfold W' in D. rewrite (Hwt (oldHead L + 1)) in D by lia.
    set (W := window_parts (oldParts L) (oldHead L + 1) (oldTail L - 1)) in *.
    replace (hd ++ (ph :: W ++ [pt]) ++ tp) with ((hd ++ ph :: W) ++ pt :: tp) in D
      by (by flat).
    destruct (updatePart_total c cp cs ce fuel σ (hd ++ ph :: W) pt _
                (js_get VUndefined nvs (newHead L)) D Hf0) as (σ1 & Eu & Hl1).
    rewrite (bind_of_returns _ _ _ _ _ Eu).
    destruct (updatePart_dom c cp cs ce σ (hd ++ ph :: W) pt _ _ _ _ _ D Eu)
      as (_ & D1 & _).
    replace ((hd ++ ph :: W) ++ pt :: tp) with (hd ++ ph :: W ++ pt :: tp) in D1
      by (by flat).
    destruct (insertPartBefore_total_backward c cp cs ce fuel σ1 hd ph W pt tp D1
                ltac:(unfold budget in HB; lia)) as (σ2 & Ei & Hl2).
    rewrite (bind_of_returns _ _ _ _ _ Ei).
    step_done. split; [lia|split; [done|lia]]. }
  (* stuck: no end matches *)
  set (gen := match newKeyToIndexMap L with
              | None =>
                  _ ← emit EvGenerateMaps;
                  mret (Some (generateMap nks (newHead L) (newTail L)),
                        Some (generateMap oks (oldHead L) (oldTail L)))
              | Some nm => mret (Some nm, oldKeyToIndexMap L)
              end).
  assert (Hgen : ∃ nm om σ1, gen σ = (Returns (Some nm, Some om), σ1) ∧
                   children_of σ1 c = children_of σ c).
  { unfold gen. destruct (newKeyToIndexMap L) as [nm|] eqn:En.
    - destruct (HM ltac:(done)) as [om Eo]. rewrite Eo. by exists nm, om, σ.
    - eexists _, _, _. rewrite bind_emit. split; [reflexivity|done]. }
  destruct Hgen as (nm & om & σ1 & Em & Hc1).
  edestruct stuck_maps as [Hmaps D1]; [exact I|exact D|exact Em|]. cbn [fst snd] in Hmaps.
  rewrite (bind_of_returns _ _ _ _ _ Em). cbn [fst snd]. rewrite bind_deref.
  assert (Hf1 : (length (children_of σ1 c) ≤ fuel)%nat) by (rewrite Hc1; lia).
  assert (Hlc : length (children_of σ1 c) = length (children_of σ c)) by (by rewrite Hc1).
  assert (HM' : is_Some (Some nm) → is_Some (Some om)) by (by intros _; eexists).
  destruct (decide (nm !! _ = None)) as [Hr1|Hr1].
  { rewrite Hwh in D1.
    destruct (removePart_total c cp cs ce fuel σ1 hd ph _ D1 Hf1) as (σ2 & Er & Hl2).
    rewrite (bind_of_returns _ _ _ _ _ Er).
    step_done. split; [lia|split; [done|lia]]. }
  destruct (decide (nm !! _ = None)) as [Hr2|Hr2].
  { rewrite (Hwt (oldHead L)) in D1 by lia.
    set (W := window_parts (oldParts L) (oldHead L) (oldTail L - 1)) in *.
    replace (hd ++ (W ++ [pt]) ++ tp) with ((hd ++ W) ++ pt :: tp) in D1 by (by flat).
    destruct (removePart_total c cp cs ce fuel σ1 (hd ++ W) pt _ D1 Hf1) as (σ2 & Er & Hl2).
    rewrite (bind_of_returns _ _ _ _ _ Er).
    step_done. split; [lia|split; [done|lia]]. }
  rewrite bind_deref. rewrite Hwh in D1.
  destruct (decide (_ = SNull)) as [Hnull|Hlive].
  { destruct (createAndInsertPart_total_dom c cp cs ce σ1 hd (ph :: W' ++ tp) D1)
      as (q & σ2 & Ec & Hl2).
    change (ref_of (ph :: W' ++ tp)) with (SPart ph) in Ec.
    rewrite (bind_of_returns _ _ _ _ _ Ec).
    destruct (createAndInsertPart_dom c cp cs ce σ1 hd (ph :: W' ++ tp) q σ2 D1 Ec)
      as (D2 & _ & _).
    destruct (updatePart_total c cp cs ce fuel σ2 hd q _
                (js_get VUndefined nvs (newHead L)) D2 ltac:(unfold budget in HB; lia)) as (σ3 & Eu & Hl3).
    rewrite (bind_of_returns _ _ _ _ _ Eu).
    step_done. split; [lia|split; [done|lia]]. }
  destruct (om !! js_get VUndefined nks (newHead L)) as [i|] eqn:Ei; [|done].
  destruct (proj2 Hmaps om eq_refl _ _ Ei) as [Hi Hki].
  destruct (ISlots i Hi) as [?|[p Hp]]; [done|].
  assert (Hwin : oldHead L ≤ i ≤ oldTail L).
  { destruct (IKeys i Hi) as [[Hw _]|Hk]; [done|].
    exfalso. apply (Hk (newHead L)); [lia|done]. }
  cbn [default]. rewrite Hp.
  assert (Ew : ∀ ops (σx : State),
            write_tombstone cp ops σx
            = (Returns tt, set_caches (alter (λ _, ops) cp (partListCache σx))
                                      (keyListCache σx) σx)) by done.
  destruct (decide (i = oldHead L)) as [->|Hih].
  { assert (p = ph) as -> by congruence.
    destruct (updatePart_total c cp cs ce fuel σ1 hd ph _
                (js_get VUndefined nvs (newHead L)) D1 Hf1) as (σ2 & Eu & Hl2).
    rewrite (bind_of_returns _ _ _ _ _ Eu).
    destruct (updatePart_dom c cp cs ce σ1 hd ph _ _ _ _ _ D1 Eu) as (_ & D2 & _).
    destruct (insertPartBefore_dom_self c cp cs ce σ2 hd ph (W' ++ tp) D2)
      as (need & σ3 & HF & Hneed & Hl3 & _ & _).
    assert (Hnf : (need ≤ fuel)%nat) by (unfold budget in HB; lia).
    rewrite (bind_of_returns _ _ _ _ _ (fueled_enough _ _ _ _ _ _ HF Hnf)).
    rewrite (bind_of_returns _ _ _ _ _ (Ew _ σ3)).
    step_done. split; [|split; [done|lia]].
    change (children_of (set_caches _ _ σ3) c) with (children_of σ3 c). lia. }
  destruct (window_parts_tombstone (oldParts L) (oldHead L + 1) i (oldTail L) p
              ltac:(lia) ltac:(lia) Hp) as [Hs1 Hs2].
  fold W' in Hs1.
  set (m1 := window_parts (oldParts L) (oldHead L + 1) (i - 1)) in *.
  set (m2 := window_parts (oldParts L) (i + 1) (oldTail L)) in *.
  rewrite Hs1 in D1.
  replace (hd ++ (ph :: m1 ++ p :: m2) ++ tp) with ((hd ++ ph :: m1) ++ p :: m2 ++ tp) in D1
    by (by flat).
  destruct (updatePart_total c cp cs ce fuel σ1 (hd ++ ph :: m1) p _
              (js_get VUndefined nvs (newHead L)) D1 Hf1) as (σ2 & Eu & Hl2).
  rewrite (bind_of_returns _ _ _ _ _ Eu).
  destruct (updatePart_dom c cp cs ce σ1 (hd ++ ph :: m1) p _ _ _ _ _ D1 Eu) as (_ & D2 & _).
  replace ((hd ++ ph :: m1) ++ p :: m2 ++ tp) with (hd ++ ph :: m1 ++ p :: m2 ++ tp) in D2
    by (by flat).
  destruct (insertPartBefore_total_backward c cp cs ce fuel σ2 hd ph m1 p (m2 ++ tp) D2
              ltac:(unfold budget in HB; lia)) as (σ3 & Eb & Hl3).
  rewrite (bind_of_returns _ _ _ _ _ Eb).
  rewrite (bind_of_returns _ _ _ _ _ (Ew _ σ3)).
  step_done. split; [|split; [done|lia]].
  change (children_of (set_caches _ _ σ3) c) with (children_of σ3 c). lia.
Qed.

Lemma main_loop_total k L hp tp hd σ :
  idx_inv oks nks n m L hp tp → dom_inv c cp cs ce σ (seq_of L hd tp) →
  budget L σ → maps_both L → (gap L ≤ k)%nat →
  ∃ L' σ', main_loop materialize fuel cp None oks nks nvs k L σ = (Returns L', σ') ∧
           budget L' σ' ∧ (gap L' ≤ gap L)%nat.
Proof.
  revert L hp tp hd σ. induction k as [|k IH]; intros L hp tp hd σ I D HB HM Hk; simpl.
  - destruct (decide _) as [[Ho Hn]|Hn]; [unfold gap in Hk; lia|]. by exists L, σ.
  - destruct (decide _) as [[Ho Hn]|Hn]; [|by exists L, σ].
    destruct (step_total L hp tp hd σ I D Ho Hn HB HM) as (L1 & σ1 & Es & HB1 & HM1 & Hg).
    edestruct step_order as (hp1 & tp1 & hd1 & I1 & D1 & _);
      [exact nks_inj|exact I|exact D|exact Ho|exact Hn|exact Es|].
    rewrite (bind_of_returns _ _ _ _ _ Es).
    destruct (IH L1 hp1 tp1 hd1 σ1 I1 D1 HB1 HM1 ltac:(lia)) as (L' & σ' & E & HB' & Hg').
    exists L', σ'. split; [done|]. split; [done|lia].
Qed.

Lemma add_loop_total k L hp tp hd σ :
  idx_inv oks nks n m L hp tp → dom_inv c cp cs ce σ (seq_of L hd tp) →
  ¬ (oldHead L ≤ oldTail L ∧ newHead L ≤ newTail L) →
  budget L σ → (Z.to_nat (newTail L - newHead L + 1) ≤ k)%nat →
  ∃ L' σ', add_loop materialize fuel cp nvs k L σ = (Returns L', σ') ∧
           (length (children_of σ' c) ≤ fuel)%nat ∧
           oldHead L' = oldHead L ∧ oldTail L' = oldTail L.
Proof.
  revert L hp tp hd σ. induction k as [|k IH]; intros L hp tp hd σ I D Hx HB Hk; simpl.
  - destruct (decide _) as [Hn|Hn]; [lia|]. exists L, σ. unfold budget in HB.
    split; [done|]. split; [lia|done].
  - destruct (decide _) as [Hn|Hn];
      [|exists L, σ; unfold budget in HB; split; [done|]; split; [lia|done]].
    pose proof I as [INew ILen ISlots [IW0 IWm] IKeys IMaps].
    pose proof (pass_cost_head _ _ Hn) as Hch. unfold budget in HB.
    assert (Hw : window_parts (oldParts L) (oldHead L) (oldTail L) = []).
    { unfold window_parts. rewrite window_empty by lia. done. }
    unfold seq_of in D. rewrite Hw in D. simpl in D.
    rewrite (new_inv_ref _ _ _ _ _ _ INew).
    destruct (createAndInsertPart_total_dom c cp cs ce σ hd tp D) as (q & σ1 & Ec & Hl1).
    rewrite (bind_of_returns _ _ _ _ _ Ec).
    destruct (createAndInsertPart_dom c cp cs ce σ hd tp q σ1 D Ec) as (D1 & _ & _).
    destruct (updatePart_total c cp cs ce fuel σ1 hd q _
                (js_get VUndefined nvs (newHead L)) D1 ltac:(lia)) as (σ2 & Eu & Hl2).
    rewrite (bind_of_returns _ _ _ _ _ Eu).
    destruct (updatePart_dom c cp cs ce σ1 hd q _ _ _ _ _ D1 Eu) as (_ & D2 & _).
    edestruct (IH (mkLoop (oldParts L)
                     (js_set SUndefined (newParts L) (newHead L) (SPart q))
                     (oldHead L) (oldTail L) (newHead L + 1) (newTail L)
                     (newKeyToIndexMap L) (oldKeyToIndexMap L)) (hp ++ [q]) tp (hd ++ [q]) σ2)
      as (L' & σ' & E & Hf' & Ho1 & Ho2).
    + split; cbn; try done; try lia.
      * by apply new_inv_head.
      * eapply keys_inv_shrink; [done|lia|lia|]. intros i Hi Hin Hout. lia.
      * eapply maps_ok_shrink; [done|lia|lia].
    + unfold seq_of. cbn [oldParts oldHead oldTail]. rewrite Hw. by flat.
    + cbn. lia.
    + unfold budget. cbn. lia.
    + cbn. lia.
    + exists L', σ'. by split.
Qed.

Lemma remove_loop_total k L hp tp hd σ :
  idx_inv oks nks n m L hp tp → dom_inv c cp cs ce σ (seq_of L hd tp) →
  newTail L < newHead L →
  (length (children_of σ c) ≤ fuel)%nat → (Z.to_nat (oldTail L - oldHead L + 1) ≤ k)%nat →
  ∃ L' σ', remove_loop fuel None k L σ = (Returns L', σ').
Proof.
  revert L σ. induction k as [|k IH]; intros L σ I D Hx Hf Hk; simpl.
  - destruct (decide _) as [Ho|Ho]; [lia|]. by exists L, σ.
  - destruct (decide _) as [Ho|Ho]; [|by exists L, σ].
    pose proof I as [INew ILen ISlots [IW0 IWm] IKeys IMaps].
    assert (I1 : idx_inv oks nks n m
                   (mkLoop (oldParts L) (newParts L) (oldHead L + 1) (oldTail L)
                           (newHead L) (newTail L) (newKeyToIndexMap L) (oldKeyToIndexMap L))
                   hp tp).
    { split; cbn; try done; try lia.
      eapply keys_inv_shrink; [done|lia|lia|]. intros i Hi Hin Hout j Hj. lia. }
    unfold seq_of in *.
    destruct (decide (js_get SUndefined (oldParts L) (oldHead L) = SNull)) as [Hoh|Hoh].
    + rewrite bind_ret. apply IH; [done| |done|done|cbn; lia].
      cbn [oldParts oldHead oldTail]. by rewrite <- window_parts_skip_head.
    + destruct (old_head_part oks nks n m L hp tp I Ho Hoh) as (ph & Hph & Hwh).
      rewrite Hph. rewrite Hwh in D.
      destruct (removePart_total c cp cs ce fuel σ hd ph _ D Hf) as (σ1 & Er & Hl1).
      rewrite (bind_of_returns _ _ _ _ _ Er).
      destruct (removePart_dom c cp cs ce σ hd ph _ _ _ _ D Er) as (D1 & _).
      apply IH; [done|done|done|lia|cbn; lia].
Qed.

End PassProgress.

Lemma sum_list_with_agree {A} (f g : A → nat) (l : list A) :
  (∀ x, x ∈ l → f x = g x) → sum_list_with f l = sum_list_with g l.
Proof.
  induction l as [|x l IH]; intros H; simpl; [done|].
  rewrite (H x) by set_solver. rewrite IH; [done|]. intros y Hy. apply H. set_solver.
Qed.

Lemma pass_cost_agree nvs nvs' a b :
  (∀ j, a ≤ j ≤ b → js_get VUndefined nvs j = js_get VUndefined nvs' j) →
  pass_cost nvs a b = pass_cost nvs' a b.
Proof.
  intros H. unfold pass_cost. apply sum_list_with_agree.
  intros j Hj. apply elem_of_seqZ in Hj. rewrite H by lia. done.
Qed.

Lemma pass_cost_all nvs :
  pass_cost nvs 0 (Z.of_nat (length nvs) - 1)
  = sum_list_with (λ v, 2 + length (materialize v))%nat nvs.
Proof.
  induction nvs as [|x l IH] using rev_ind; [done|].
  rewrite length_app. simpl.
  replace (Z.of_nat (length l + 1) - 1) with (Z.of_nat (length l)) by lia.
  rewrite pass_cost_last by lia. rewrite sum_list_with_app. simpl.
  rewrite (pass_cost_agree (l ++ [x]) l).
  - rewrite IH. f_equal.
    rewrite (js_get_lookup VUndefined (l ++ [x]) (length l) x); [lia|].
    by rewrite lookup_app_r, Nat.sub_diag by lia.
  - intros j Hj. unfold js_get. destruct (decide _); [|done].
    by rewrite lookup_app_l by lia.
Qed.

Lemma build_new_total kf tf items : ∀ i ks vs σ,
  ∃ r, build_new kf (Some tf) items i ks vs σ = (Returns r, σ).
Proof.
  induction items as [|x items IH]; intros i ks vs σ; simpl.
  - by eexists.
  - rewrite ?bind_deref. apply IH.
Qed.

(** X16: on a container whose cached parts lie in document order between
    the markers of the container part, a call of [repeat] with a template,
    unique keys and no removal handler returns: it throws no exception, and
    its loops and node walks end within the fuel, as soon as the fuel covers
    the cached parts, the items, the children of the container and, for
    each item, two markers and the nodes its value renders to. *)
Theorem repeat_returns_on_ordered_container c cp cs ce (fuel : nat)
    (items : list JsValue) (kfot t : option ItemFn) (tf : ItemFn)
    (σ : State) (ps0 : list PartRef) :
  dom_inv c cp cs ce σ ps0 →
  default [] (partListCache σ !! cp) = SPart <$> ps0 →
  NoDup (new_keys (pass_keyFn kfot t) items) →
  pass_template kfot t = Some tf →
  (length ps0 + length items + length (children_of σ c)
   + sum_list_with (λ v, 2 + length (materialize v)) (new_values tf items) ≤ fuel)%nat →
  ∃ σ', repeat materialize fuel items kfot t None (NodePartObj cp) σ = (Returns tt, σ').
Proof.
  intros D Hc Hnd Ht Hf.
  rewrite repeat_unfold, bind_get, Ht.
  destruct (build_new_total (pass_keyFn kfot t) tf items 0 [] [] σ) as ([nks nvs] & Eb).
  rewrite (bind_of_returns _ _ _ _ _ Eb). cbv beta iota.
  apply build_new_spec in Eb as (_ & -> & Hlen & Hv). specialize (Hv tf eq_refl).
  rewrite Hc. unfold initial_loop.
  set (nks := new_keys (pass_keyFn kfot t) items) in *.
  set (oks := default [] (keyListCache σ !! cp)) in *.
  assert (Hinj : ∀ i j, 0 ≤ i < Z.of_nat (length nvs) → 0 ≤ j < Z.of_nat (length nvs) →
            js_get VUndefined nks i = js_get VUndefined nks j → i = j).
  { intros i j Hi Hj. apply NoDup_js_get_inj; [done| |];
      unfold nks; rewrite new_keys_length; lia. }
  pose proof (idx_inv_initial oks nks (Z.of_nat (length nvs)) ps0 ltac:(lia)) as I0.
  set (L0 := mkLoop (SPart <$> ps0) [] 0 (Z.of_nat (length (SPart <$> ps0)) - 1) 0
                    (Z.of_nat (length nvs) - 1) None None) in *.
  assert (D0 : dom_inv c cp cs ce σ (seq_of L0 [] [])).
  { unfold seq_of, window_parts. cbn [oldParts oldHead oldTail L0].
    rewrite window_all, slot_parts_fmap, app_nil_r. done. }
  assert (HB0 : budget c fuel nvs L0 σ).
  { unfold budget. cbn [newHead newTail L0]. rewrite pass_cost_all, Hv. lia. }
  assert (HG0 : (gap L0 ≤ fuel)%nat).
  { unfold gap. cbn [oldHead oldTail newHead newTail L0]. rewrite length_fmap. lia. }
  assert (HM0 : maps_both L0) by (by intros [? ?]).
  edestruct main_loop_total as (L1 & σ1 & E1 & HB1 & HG1);
    [exact Hinj|exact I0|exact D0|exact HB0|exact HM0|exact HG0|].
  edestruct main_loop_order as (hp1 & tp1 & hd1 & I1 & D1 & Hx1 & _);
    [exact Hinj|exact I0|exact D0|exact E1|].
  rewrite (bind_of_returns _ _ _ _ _ E1).
  destruct (add_loop_total c cp cs ce fuel oks nks nvs _ _ fuel L1 hp1 tp1 hd1 σ1
              I1 D1 Hx1 HB1 ltac:(unfold gap in *; lia))
    as (L2 & σ2 & E2 & Hf2 & Ho2 & Ho2').
  edestruct add_loop_order as (hp2 & tp2 & hd2 & I2 & D2 & Hn2 & _);
    [exact I1|exact D1|exact Hx1|exact E2|].
  rewrite (bind_of_returns _ _ _ _ _ E2).
  destruct (remove_loop_total c cp cs ce fuel oks nks _ _ fuel L2 hp2 tp2 hd2 σ2
              I2 D2 Hn2 Hf2 ltac:(unfold gap in *; lia)) as (L3 & σ3 & E3).
  rewrite (bind_of_returns _ _ _ _ _ E3).
  by eexists.
Qed.


(** ** What matching heads leave in the part store *)

#[local] Instance SPart_inj : Inj (=) (=) SPart.
Proof. by intros p q [= ->]. Qed.

(** While the old head matches the new head, the loop rewrites the record
    of one cached part per iteration, giving it the value of its index;
    markers and part references stay as they are. *)
Lemma main_loop_heads_state fuel cp h oks nks nvs ps k : ∀ i σ σ' L',
  (∀ j, 0 ≤ j < Z.of_nat (length ps `min` length nvs) →
        strict_eq (js_get VUndefined oks j) (js_get VUndefined nks j) = true) →
  (i ≤ length ps `min` length nvs)%nat →
  main_loop materialize fuel cp h oks nks nvs k (heads_loop nvs ps i) σ = (Returns L', σ') →
  nextPart σ' = nextPart σ ∧
  (∀ q, part_markers σ' q = part_markers σ q) ∧
  (∀ q, q ∉ take (length ps `min` length nvs - i) (drop i ps) →
        parts σ' !! q = parts σ !! q) ∧
  (NoDup ps → ∀ j p, (i ≤ j < length ps `min` length nvs)%nat → ps !! j = Some p →
              part_value σ' p = Some (js_get VUndefined nvs (Z.of_nat j))).
Proof.
  induction k as [|k IH]; intros i σ σ' L' Hkeys Hi H; simpl in H.
  - destruct (decide _) as [|Hn]; [done|]. apply ret_inv in H as [[= ->] ->].
    split; [done|]. split; [done|]. split; [done|]. intros _ j p Hj. lia.
  - destruct (decide _) as [[H1 H2]|Hn].
    2:{ apply ret_inv in H as [[= ->] ->].
        split; [done|]. split; [done|]. split; [done|]. intros _ j p Hj. lia. }
    simpl in H1, H2.
    destruct (lookup_lt_is_Some_2 ps i) as [p Hp]; [lia|].
    destruct (lookup_lt_is_Some_2 ps (length ps - 1)) as [q Hq]; [lia|].
    apply bind_returns in H as (L1 & σ1 & Es & H).
    rewrite (step_head_head cp fuel h oks nks nvs _ p) in Es.
    + apply bind_returns in Es as (r & σ2 & Eu & Es).
      apply ret_inv in Es as [[= ->] ->].
      pose proof (updatePart_parts _ _ _ _ _ _ Eu) as (_ & d & Hd & Hparts).
      apply updatePart_value in Eu as (-> & Hn & Hv & Hothers).
      cbn [heads_loop oldParts newParts oldHead oldTail newHead newTail
           newKeyToIndexMap oldKeyToIndexMap] in H.
      replace (js_set SUndefined (SPart <$> take i ps) (Z.of_nat i) (SPart p))
        with (SPart <$> take (S i) ps) in H.
      2:{ rewrite (take_S_r _ _ _ Hp), fmap_app. simpl.
          rewrite <- (js_set_append SUndefined). f_equal.
          rewrite length_fmap, length_take. lia. }
      replace (Z.of_nat i + 1) with (Z.of_nat (S i)) in H by lia.
      apply (IH (S i)) in H as (Hn' & Hm' & Ho' & Hv'); [|done|lia].
      split; [congruence|]. split; [|split].
      * intros x. rewrite Hm'. unfold part_markers. rewrite Hparts.
        destruct (decide (x = p)) as [->|Hne].
        -- by rewrite lookup_insert_eq, Hd.
        -- by rewrite lookup_insert_ne.
      * intros x Hx. rewrite (drop_S _ _ _ Hp) in Hx.
        replace (length ps `min` length nvs - i)%nat
          with (S (length ps `min` length nvs - S i)) in Hx by lia.
        simpl in Hx.
        rewrite Ho' by (intros Hin; apply Hx; by right).
        apply Hothers. intros ->. apply Hx. left.
      * intros Hnd j x Hj Hx. destruct (decide (j = i)) as [->|Hne].
        -- assert (x = p) as -> by congruence.
           unfold part_value. rewrite Ho'; [exact Hv|].
           intros Hin. apply list_elem_of_lookup in Hin as [j' Hj'].
           apply lookup_take_Some in Hj' as [Hj' _].
           rewrite lookup_drop in Hj'.
           pose proof (NoDup_lookup _ _ _ _ Hnd Hp Hj'). lia.
        -- apply Hv'; [done|lia|done].
    + simpl. apply js_get_lookup. by rewrite list_lookup_fmap, Hp.
    + simpl. replace (Z.of_nat (length ps) - 1) with (Z.of_nat (length ps - 1)) by lia.
      rewrite (js_get_lookup SUndefined _ _ (SPart q)); [done|].
      by rewrite list_lookup_fmap, Hq.
    + simpl. apply Hkeys. lia.
Qed.

(** ** What the creation of the remaining parts leaves *)

(** The add loop allocates the next unused references, one per remaining
    value, gives each new part its value, and rewrites no record of a part
    that was allocated before. *)
Lemma add_loop_state fuel cp nvs k : ∀ L σ L' σ',
  add_loop materialize fuel cp nvs k L σ = (Returns L', σ') →
  let qs := seq (nextPart σ) (Z.to_nat (newTail L + 1 - newHead L)) in
  nextPart σ' = (nextPart σ + length qs)%nat ∧
  (∀ p, (p < nextPart σ)%nat → parts σ' !! p = parts σ !! p) ∧
  (∀ j q, qs !! j = Some q →
          part_value σ' q = Some (js_get VUndefined nvs (newHead L + Z.of_nat j))).
Proof.
  induction k as [|k IH]; intros L σ L' σ' H; simpl in H.
  - destruct (decide _) as [|Hn]; [done|]. apply ret_inv in H as [[= ->] ->].
    replace (Z.to_nat _) with 0%nat by lia. simpl.
    split; [lia|]. split; [done|]. by intros j q Hj.
  - destruct (decide _) as [Hle|Hn].
    2:{ apply ret_inv in H as [[= ->] ->].
        replace (Z.to_nat _) with 0%nat by lia. simpl.
        split; [lia|]. split; [done|]. by intros j q Hj. }
    apply bind_returns in H as (q & σ1 & Ec & H).
    apply bind_returns in H as (r & σ2 & Eu & H).
    pose proof (createAndInsertPart_parts _ _ _ _ _ Ec) as Hpc.
    pose proof (createAndInsertPart_nextPart _ _ _ _ _ Ec) as [-> Hn1].
    apply updatePart_value in Eu as (_ & Hn2 & Hvq & Hpu).
    apply IH in H as (Hn' & Ho' & Hv').
    cbn [newHead newTail] in *.
    replace (Z.to_nat (newTail L + 1 - newHead L))
      with (S (Z.to_nat (newTail L + 1 - (newHead L + 1)))) by lia.
    cbn zeta. simpl seq. rewrite Hn2, Hn1 in *.
    split; [simpl; lia|]. split.
    + intros p Hp. rewrite Ho' by lia. rewrite Hpu by lia. apply Hpc. lia.
    + intros [|j] x Hj; simpl in Hj.
      * injection Hj as <-. unfold part_value in *. rewrite Ho' by lia.
        by rewrite Z.add_0_r.
      * rewrite (Hv' j x Hj). do 2 f_equal. lia.
Qed.

(** X7: when the keys of the call agree, index by index, with the keys
    cached for the parts [ps] of the previous call, a call that returns
    only updates these parts in place, in order, then creates one part for
    each further item, in order, using the next unused part references:
    nothing is moved or removed and the key-to-index maps are not built.
    With no cached list (the first render of a container part) [ps] is
    empty and every item gets a new part.  In the part store the
    references of the new parts are allocated and no other, the parts
    allocated before keep their boundary markers, each new part holds the
    value of its item, and so does each cached part when the cached parts
    are pairwise distinct and allocated. *)
Theorem repeat_appends_after_matching_keys (fuel : nat) (items : list JsValue)
    (kfot t : option ItemFn) (h : option NodeRemovalHandler) (cp : PartRef)
    (σ σ' : State) (ps : list PartRef) :
  default [] (partListCache σ !! cp) = SPart <$> ps →
  (∀ i, 0 ≤ i < Z.of_nat (length ps) →
        strict_eq (js_get VUndefined (default [] (keyListCache σ !! cp)) i)
                  (js_get VUndefined (new_keys (pass_keyFn kfot t) items) i) = true) →
  (length ps ≤ length items)%nat →
  repeat materialize fuel items kfot t h (NodePartObj cp) σ = (Returns tt, σ') →
  ∃ nvs,
    length nvs = length items ∧
    (∀ tf, pass_template kfot t = Some tf → nvs = new_values tf items) ∧
    let qs := seq (nextPart σ) (length items - length ps) in
    partListCache σ' !! cp = Some (SPart <$> (ps ++ qs)) ∧
    keyListCache σ' !! cp = Some (new_keys (pass_keyFn kfot t) items) ∧
    trace σ' = rev (create_events nvs (Z.of_nat (length ps)) qs)
               ++ rev (update_events nvs 0 ps) ++ trace σ ∧
    nextPart σ' = (nextPart σ + (length items - length ps))%nat ∧
    (∀ p, (p < nextPart σ)%nat → part_markers σ' p = part_markers σ p) ∧
    (∀ j q, qs !! j = Some q →
            part_value σ' q = Some (js_get VUndefined nvs (Z.of_nat (length ps + j)))) ∧
    (NoDup ps → Forall (λ p, (p < nextPart σ)%nat) ps →
     ∀ j p, ps !! j = Some p →
            part_value σ' p = Some (js_get VUndefined nvs (Z.of_nat j))).
Proof.
  intros Hp Hk Hl H.
  apply repeat_returns in H
    as (nvs & L1 & L2 & L3 & σa & σb & σc & Hlv & Hv & Hm & Ha & Hr & ->).
  cbv zeta in *. rewrite Hp in Hm. rewrite heads_loop_initial in Hm.
  assert (Hl' : (length ps ≤ length nvs)%nat) by lia.
  assert (Hmin : (length ps `min` length nvs = length ps)%nat) by lia.
  assert (Hk' : ∀ j, 0 ≤ j < Z.of_nat (length ps `min` length nvs) →
            strict_eq (js_get VUndefined (default [] (keyListCache σ !! cp)) j)
                      (js_get VUndefined (new_keys (pass_keyFn kfot t) items) j) = true).
  { intros j Hj. apply Hk. lia. }
  pose proof (main_loop_heads_state _ _ _ _ _ _ _ _ 0%nat _ _ _ Hk' ltac:(lia) Hm)
    as (Hna & Hma & Hoa & Hva).
  pose proof (main_loop_heads_nextPart _ _ _ _ _ _ _ _ 0 _ _ _ Hk Hl' ltac:(lia) Hm) as Hn.
  eapply main_loop_heads_match in Hm as (_ & _ & HR); [|exact Hk|exact Hl'|lia].
  destruct (HR _ eq_refl) as [-> Ht]. clear HR. rewrite drop_0 in Ht.
  pose proof (add_loop_state _ _ _ _ _ _ _ _ Ha) as (Hnb & Hob & Hvb).
  apply add_loop_appends in Ha as (Hnp & Hop & Hoh & Hot & Hta).
  2:{ cbn. rewrite length_fmap, length_take. lia. }
  cbn [heads_loop newParts oldParts oldHead oldTail newHead newTail] in *.
  rewrite firstn_all in Hnp.
  replace (Z.to_nat (Z.of_nat (length nvs) - 1 + 1 - Z.of_nat (length ps)))
    with (length items - length ps)%nat in * by lia.
  rewrite Hn in *.
  assert (Hr' : newParts L3 = newParts L2 ∧ σc = σb).
  { rewrite remove_loop_done in Hr by lia. by apply ret_inv in Hr as [[= ->] ->]. }
  destruct Hr' as [Hr1 ->].
  exists nvs. split; [done|]. split; [done|]. cbv zeta. simpl.
  rewrite !lookup_insert_eq. split; [|split; [done|]].
  { by rewrite Hr1, Hnp, fmap_app. }
  split; [by rewrite Hta, Ht|].
  split; [by rewrite Hnb, length_seq|].
  split; [|split].
  - intros p Hlt. unfold part_markers in *. simpl. rewrite Hob by done. apply Hma.
  - intros j q Hj. specialize (Hvb j q Hj). unfold part_value in *. simpl.
    rewrite Hvb. do 2 f_equal. lia.
  - intros Hnd Hal j p Hj. unfold part_value in *. simpl.
    rewrite Hob by (by eapply (Forall_lookup_1 _ _ _ _ Hal)).
    apply Hva; [done| |done]. apply lookup_lt_Some in Hj. lia.
Qed.

(** ** What the removal of the remaining parts leaves *)

Lemma remove_loop_keeps_parts fuel h k L :
  preserves (keeps parts) (remove_loop fuel h k L).
Proof.
  pose proof removePart_keeps_parts.
  revert L. induction k as [|k IH]; intros L; simpl; destruct (decide _); pres.
Qed.

Lemma remove_loop_keeps_nextPart fuel h k L :
  preserves (keeps nextPart) (remove_loop fuel h k L).
Proof.
  pose proof removePart_keeps_nextPart.
  revert L. induction k as [|k IH]; intros L; simpl; destruct (decide _); pres_count.
Qed.

(** Matching heads leave the cached parts where they lie. *)
Lemma main_loop_heads_dom c cp cs ce fuel h oks nks nvs ps k : ∀ i σ σ' L',
  (∀ j, 0 ≤ j < Z.of_nat (length ps `min` length nvs) →
        strict_eq (js_get VUndefined oks j) (js_get VUndefined nks j) = true) →
  (i ≤ length ps `min` length nvs)%nat →
  dom_inv c cp cs ce σ ps →
  main_loop materialize fuel cp h oks nks nvs k (heads_loop nvs ps i) σ = (Returns L', σ') →
  dom_inv c cp cs ce σ' ps ∧ markers_kept σ σ' ∧
  L' = heads_loop nvs ps (length ps `min` length nvs).
Proof.
  induction k as [|k IH]; intros i σ σ' L' Hkeys Hi D H; simpl in H.
  - destruct (decide _) as [|Hn]; [done|]. apply ret_inv in H as [[= ->] ->].
    split; [done|]. split; [done|]. simpl in Hn. f_equal; lia.
  - destruct (decide _) as [[H1 H2]|Hn].
    2:{ apply ret_inv in H as [[= ->] ->].
        split; [done|]. split; [done|]. simpl in Hn. f_equal; lia. }
    simpl in H1, H2.
    destruct (lookup_lt_is_Some_2 ps i) as [p Hp]; [lia|].
    destruct (lookup_lt_is_Some_2 ps (length ps - 1)) as [q Hq]; [lia|].
    apply bind_returns in H as (L1 & σ1 & Es & H).
    rewrite (step_head_head cp fuel h oks nks nvs _ p) in Es.
    + apply bind_returns in Es as (r & σ2 & Eu & Es).
      apply ret_inv in Es as [[= ->] ->].
      rewrite <- (take_drop_middle ps i p Hp) in D.
      destruct (updatePart_dom c cp cs ce σ (take i ps) p (drop (S i) ps) _ _ _ _ D Eu)
        as (-> & D' & K).
      rewrite (take_drop_middle ps i p Hp) in D'.
      cbn [heads_loop oldParts newParts oldHead oldTail newHead newTail
           newKeyToIndexMap oldKeyToIndexMap] in H.
      replace (js_set SUndefined (SPart <$> take i ps) (Z.of_nat i) (SPart p))
        with (SPart <$> take (S i) ps) in H.
      2:{ rewrite (take_S_r _ _ _ Hp), fmap_app. simpl.
          rewrite <- (js_set_append SUndefined). f_equal.
          rewrite length_fmap, length_take. lia. }
      replace (Z.of_nat i + 1) with (Z.of_nat (S i)) in H by lia.
      apply (IH (S i)) in H as (D2 & K2 & ->); [|done|lia|done].
      split; [done|]. split; [by etrans|done].
    + simpl. apply js_get_lookup. by rewrite list_lookup_fmap, Hp.
    + simpl. replace (Z.of_nat (length ps) - 1) with (Z.of_nat (length ps - 1)) by lia.
      rewrite (js_get_lookup SUndefined _ _ (SPart q)); [done|].
      by rewrite list_lookup_fmap, Hq.
    + simpl. apply Hkeys. lia.
Qed.

(** Without a handler, removing a part takes its markers out of the
    container. *)
Lemma removePart_dom_plain c cp cs ce σ A p C fuel σ' :
  dom_inv c cp cs ce σ (A ++ p :: C) →
  removePart fuel (SPart p) None σ = (Returns tt, σ') →
  dom_inv c cp cs ce σ' (A ++ C) ∧ markers_kept σ σ' ∧
  children_of σ' c ⊆ children_of σ c ∧
  ∀ s e, part_markers σ p = Some (Some s, Some e) →
         s ∉ children_of σ' c ∧ e ∉ children_of σ' c.
Proof.
  intros D H. destruct (removePart_dom c cp cs ce σ A p C None fuel σ' D H) as [D' K].
  split; [done|]. split; [done|].
  destruct (di_split c cp cs ce σ A p C D) as (s & e & m & X & Y & Hm & Hb & Hl & H1 & H2).
  pose proof Hm as Hm0.
  apply part_markers_lookup in Hm as (d & Hd & Hds & Hde).
  destruct (removePart_plain p d s m e c X Y σ (di_wf _ _ _ _ _ _ D) Hd Hds Hde Hl)
    as [HF W'].
  apply (fueled_returns _ _ _ _ _ _ _ _ HF) in H as (_ & -> & _).
  rewrite children_of_set_dom, lookup_insert_eq. simpl. rewrite Hl.
  pose proof (wf_nodup _ _ (di_wf _ _ _ _ _ _ D)) as Hnd. rewrite Hl in Hnd.
  split.
  - intros x. rewrite !elem_of_app. tauto.
  - intros s' e' Hm'. rewrite Hm0 in Hm'. injection Hm' as <- <-.
    split; notin_from Hnd.
Qed.

Lemma remove_loop_dom_plain c cp cs ce fuel ps A k : ∀ L σ L' σ',
  remove_loop fuel None k L σ = (Returns L', σ') →
  oldParts L = SPart <$> ps → 0 ≤ oldHead L → oldTail L = Z.of_nat (length ps) - 1 →
  dom_inv c cp cs ce σ (A ++ drop (Z.to_nat (oldHead L)) ps) →
  dom_inv c cp cs ce σ' A ∧ markers_kept σ σ' ∧
  children_of σ' c ⊆ children_of σ c ∧
  ∀ p s e, p ∈ drop (Z.to_nat (oldHead L)) ps →
           part_markers σ p = Some (Some s, Some e) →
           s ∉ children_of σ' c ∧ e ∉ children_of σ' c.
Proof.
  induction k as [|k IH]; intros L σ L' σ' H Hops Hoh Hot D; simpl in H.
  - destruct (decide _) as [|Hn]; [done|]. apply ret_inv in H as [[= ->] ->].
    rewrite drop_ge in * by lia. rewrite app_nil_r in D.
    split; [done|]. split; [done|]. split; [done|]. intros p s e Hp.
    by apply elem_of_nil in Hp.
  - destruct (decide _) as [Hle|Hn].
    2:{ apply ret_inv in H as [[= ->] ->].
        rewrite drop_ge in * by lia. rewrite app_nil_r in D.
        split; [done|]. split; [done|]. split; [done|]. intros p s e Hp.
        by apply elem_of_nil in Hp. }
    destruct (lookup_lt_is_Some_2 ps (Z.to_nat (oldHead L))) as [p Hp]; [lia|].
    assert (Hg : js_get SUndefined (oldParts L) (oldHead L) = SPart p).
    { rewrite Hops. unfold js_get. rewrite decide_True by done.
      by rewrite list_lookup_fmap, Hp. }
    rewrite Hg in H. rewrite (decide_False (P := SPart p = SNull)) in H by done.
    apply bind_returns in H as ([] & σ1 & Er & H).
    rewrite (drop_S _ _ _ Hp) in D.
    destruct (removePart_dom_plain c cp cs ce σ A p _ fuel σ1 D Er) as (D1 & K1 & S1 & N1).
    apply IH in H as (D2 & K2 & S2 & N2); [|done|cbn; lia|done|].
    2:{ cbn [oldHead]. by replace (Z.to_nat (oldHead L + 1))
          with (S (Z.to_nat (oldHead L))) by lia. }
    cbn [oldHead] in N2.
    replace (Z.to_nat (oldHead L + 1)) with (S (Z.to_nat (oldHead L))) in N2 by lia.
    split; [done|]. split; [by etrans|]. split; [by etrans|].
    intros x s e Hx Hm. rewrite (drop_S _ _ _ Hp) in Hx.
    assert (Hxl : live σ x).
    { pose proof (di_live _ _ _ _ _ _ D) as HL. apply Forall_app in HL as [_ HL].
      by eapply Forall_forall in HL. }
    destruct (decide (x ∈ drop (S (Z.to_nat (oldHead L))) ps)) as [Hin|Hnin].
    + apply (N2 x s e Hin). destruct K1 as [_ K1]. rewrite K1; [done|apply Hxl].
    + apply elem_of_cons in Hx as [->|Hx]; [|done].
      destruct (N1 s e Hm) as [Hs He]. split; intros Hc; [apply Hs|apply He]; by apply S2.
Qed.

(** X8: when the call has no more items than the previous one and its
    keys agree, index by index, with the cached keys, a call that returns
    updates the first parts in place, in order, and then removes the parts
    of the items that are gone, in order (calling the removal handler, if
    any, along the way): it moves and creates nothing, and persists the
    parts it kept.  With no items at all every cached part is removed.
    In the part store no reference is allocated, every part keeps its
    boundary markers, the records of the parts that are not kept are as
    they were, and each kept part holds the value of its index (when the
    cached parts are pairwise distinct).  In the DOM, when the cached
    parts lay in document order in the container and there is no removal
    handler, the kept parts still do and the markers of the removed parts
    are no longer children of the container. *)
Theorem repeat_truncates_after_matching_keys (fuel : nat) (items : list JsValue)
    (kfot t : option ItemFn) (h : option NodeRemovalHandler) (cp : PartRef)
    (σ σ' : State) (ps : list PartRef) :
  default [] (partListCache σ !! cp) = SPart <$> ps →
  (∀ i, 0 ≤ i < Z.of_nat (length items) →
        strict_eq (js_get VUndefined (default [] (keyListCache σ !! cp)) i)
                  (js_get VUndefined (new_keys (pass_keyFn kfot t) items) i) = true) →
  (length items ≤ length ps)%nat →
  repeat materialize fuel items kfot t h (NodePartObj cp) σ = (Returns tt, σ') →
  ∃ nvs evs,
    length nvs = length items ∧
    (∀ tf, pass_template kfot t = Some tf → nvs = new_values tf items) ∧
    partListCache σ' !! cp = Some (SPart <$> take (length items) ps) ∧
    keyListCache σ' !! cp = Some (new_keys (pass_keyFn kfot t) items) ∧
    trace σ' = evs ++ rev (update_events nvs 0 (take (length items) ps)) ++ trace σ ∧
    filter (λ ev, is_handler_event ev = false) evs
    = rev (EvRemovePart <$> drop (length items) ps) ∧
    nextPart σ' = nextPart σ ∧
    (∀ q, part_markers σ' q = part_markers σ q) ∧
    (∀ q, q ∉ take (length items) ps → parts σ' !! q = parts σ !! q) ∧
    (NoDup ps → ∀ j p, (j < length items)%nat → ps !! j = Some p →
                part_value σ' p = Some (js_get VUndefined nvs (Z.of_nat j))) ∧
    (h = None → ∀ c cs ce,
       dom_inv c cp cs ce σ ps →
       dom_inv c cp cs ce σ' (take (length items) ps) ∧
       ∀ p s e, p ∈ drop (length items) ps →
                part_markers σ p = Some (Some s, Some e) →
                s ∉ children_of σ' c ∧ e ∉ children_of σ' c).
Proof.
  intros Hp Hk Hl H.
  apply repeat_returns in H
    as (nvs & L1 & L2 & L3 & σa & σb & σc & Hlv & Hv & Hm & Ha & Hr & ->).
  cbv zeta in *. rewrite Hp in Hm. rewrite heads_loop_initial in Hm.
  rewrite <- Hlv in Hk, Hl.
  assert (Hmin : (length ps `min` length nvs = length nvs)%nat) by lia.
  assert (Hk' : ∀ j, 0 ≤ j < Z.of_nat (length ps `min` length nvs) →
            strict_eq (js_get VUndefined (default [] (keyListCache σ !! cp)) j)
                      (js_get VUndefined (new_keys (pass_keyFn kfot t) items) j) = true).
  { intros j Hj. apply Hk. lia. }
  pose proof (main_loop_heads_state _ _ _ _ _ _ _ _ 0%nat _ _ _ Hk' ltac:(lia) Hm)
    as (Hna & Hma & Hoa & Hva).
  pose proof Hm as Hm0.
  apply main_loop_heads_short in Hm as [-> Ht]; [|done|done|lia].
  rewrite add_loop_done in Ha by (cbn; lia). apply ret_inv in Ha as [[= ->] ->].
  pose proof (remove_loop_keeps_parts _ _ _ _ _ _ _ Hr) as Hpr.
  pose proof (remove_loop_keeps_nextPart _ _ _ _ _ _ _ Hr) as Hnr.
  unfold keeps in Hpr, Hnr.
  pose proof Hr as Hr0.
  apply (remove_loop_removes fuel h ps) in Hr as (Hnp & evs & Hte & Hf);
    [|done|cbn; lia|done].
  cbn [heads_loop newParts oldHead] in *.
  rewrite Nat2Z.id in Hf. rewrite Nat.sub_0_r, drop_0 in Ht.
  exists nvs, evs. split; [done|]. split; [done|]. simpl.
  rewrite !lookup_insert_eq, <- Hlv. split; [by rewrite Hnp|]. split; [done|].
  split; [by rewrite Hte, Ht|]. split; [done|].
  split; [congruence|].
  split; [intros q; unfold part_markers in *; simpl; rewrite Hpr; apply Hma|].
  split; [|split].
  - intros q Hq. rewrite Hpr. apply Hoa.
    by rewrite Hmin, Nat.sub_0_r, drop_0.
  - intros Hnd j p Hj Hpj. unfold part_value in *. simpl. rewrite Hpr.
    apply Hva; [done|lia|done].
  - intros -> c cs ce D.
    destruct (main_loop_heads_dom c cp cs ce _ _ _ _ _ _ _ 0%nat _ _ _
                Hk' ltac:(lia) D Hm0) as (Da & Ka & _).
    destruct (remove_loop_dom_plain c cp cs ce fuel ps (take (length nvs) ps) _ _ _ _ _ Hr0)
      as (Dc & Kc & Sc & Nc); [done|cbn; lia|done| |].
    { cbn [heads_loop oldHead]. rewrite Nat2Z.id. by rewrite take_drop. }
    cbn [heads_loop oldHead] in Nc. rewrite Nat2Z.id in Nc.
    split.
    + by eapply dom_inv_frame; [..|exact Dc].
    + intros p s e Hin Hmk. change (children_of _ c) with (children_of σc c).
      apply (Nc p s e Hin). destruct Ka as [_ Ka]. rewrite Ka; [done|].
      pose proof (di_live _ _ _ _ _ _ D) as HL.
      eapply Forall_forall in HL; [apply HL|].
      apply list_elem_of_lookup in Hin as [j Hj]. rewrite lookup_drop in Hj.
      by eapply list_elem_of_lookup_2.
Qed.

(** C8: without a key function the keys are the positional indices; so
    when a call for [items] has returned and the next call, again without a
    key function, gets the list with one more item in front, every part of
    the first call is updated in place with the value now at its position,
    nothing is moved, and exactly one part is created, after them, for the
    last position.  In the part store: the new part has the reference that
    was the next unused one and holds the value of the last position; every
    other part keeps its boundary markers; and when the parts of the first
    call are pairwise distinct and allocated, each holds the value the
    template gives for the item now at its index.  In the DOM: when these
    parts lay in document order in the container, they still do, followed
    by the new part. *)
Theorem unkeyed_prepend_updates_in_place (fuel1 fuel2 : nat) (x : JsValue)
    (items : list JsValue)
    (keyFnOrTemplate1 template1 keyFnOrTemplate2 template2 : option ItemFn)
    (onRemove1 onRemove2 : option NodeRemovalHandler)
    (containerPart : PartRef) (σ0 σ1 σ2 : State) :
  template1 = None ∨ keyFnOrTemplate1 = None →
  template2 = None ∨ keyFnOrTemplate2 = None →
  repeat materialize fuel1 items keyFnOrTemplate1 template1 onRemove1
    (NodePartObj containerPart) σ0 = (Returns tt, σ1) →
  repeat materialize fuel2 (x :: items) keyFnOrTemplate2 template2 onRemove2
    (NodePartObj containerPart) σ1 = (Returns tt, σ2) →
  keyListCache σ1 !! containerPart
    = Some (VNumber <$> seqZ 0 (Z.of_nat (length items))) ∧
  keyListCache σ2 !! containerPart
    = Some (VNumber <$> seqZ 0 (Z.of_nat (length items) + 1)) ∧
  ∃ (ps : list PartRef) (q : PartRef) (nvs : list JsValue),
    length ps = length items ∧
    partListCache σ1 !! containerPart = Some (SPart <$> ps) ∧
    partListCache σ2 !! containerPart = Some (SPart <$> (ps ++ [q])) ∧
    (∀ tf, pass_template keyFnOrTemplate2 template2 = Some tf →
           nvs = new_values tf (x :: items)) ∧
    trace σ2 = EvUpdate q (js_get VUndefined nvs (Z.of_nat (length items)))
               :: EvCreate q
               :: rev (imap (λ i p, EvUpdate p (js_get VUndefined nvs (Z.of_nat i))) ps)
               ++ trace σ1 ∧
    q = nextPart σ1 ∧
    nextPart σ2 = S (nextPart σ1) ∧
    part_value σ2 q = Some (js_get VUndefined nvs (Z.of_nat (length items))) ∧
    (∀ p, p ≠ q → part_markers σ2 p = part_markers σ1 p) ∧
    (NoDup ps → Forall (λ p, (p < nextPart σ1)%nat) ps →
     ∀ i p, ps !! i = Some p →
            part_value σ2 p = Some (js_get VUndefined nvs (Z.of_nat i))) ∧
    (∀ c cs ce, dom_inv c containerPart cs ce σ1 ps →
                dom_inv c containerPart cs ce σ2 (ps ++ [q])).
Proof.
  intros Hk1 Hk2 H1 H2.
  assert (K1 : pass_keyFn keyFnOrTemplate1 template1 = None).
  { unfold pass_keyFn. destruct Hk1 as [->| ->]; [done|by destruct template1]. }
  assert (K2 : pass_keyFn keyFnOrTemplate2 template2 = None).
  { unfold pass_keyFn. destruct Hk2 as [->| ->]; [done|by destruct template2]. }
  apply repeat_leaves in H1 as (ps & Hl & Hp & Hk). rewrite K1 in Hk.
  pose proof H2 as Hcall.
  apply repeat_returns in H2
    as (nvs & L1 & L2 & L3 & σa & σb & σc & Hlv & Hv & Hm & Ha & Hr & ->).
  rewrite K2, Hp, Hk in *. simpl in Hm, Hlv.
  rewrite heads_loop_initial in Hm.
  assert (Hkeys : ∀ j, 0 ≤ j < Z.of_nat (length ps) →
            strict_eq (js_get VUndefined (new_keys None items) j)
                      (js_get VUndefined (new_keys None (x :: items)) j) = true).
  { intros i Hi. rewrite !js_get_new_keys_None; [by apply strict_eq_refl|simpl; lia|lia]. }
  pose proof Hm as Hm'.
  apply main_loop_heads_state in Hm' as (Hna & Hma & Hoa & Hva);
    [|intros j Hj; apply Hkeys; lia|lia].
  eapply main_loop_heads_match in Hm as (_ & Hc & HR); [|exact Hkeys|lia|lia].
  destruct (HR _ eq_refl) as [-> Ht]. clear HR.
  destruct fuel2 as [|k]; simpl in Ha; [by rewrite decide_True in Ha by lia|].
  rewrite decide_True in Ha by lia.
  apply bind_returns in Ha as (q & σd & Ec & Ha).
  apply bind_returns in Ha as (s & σe & Eu & Ha).
  rewrite add_loop_done in Ha by (simpl; lia). apply ret_inv in Ha as [[= ->] ->].
  rewrite remove_loop_done in Hr by (simpl; lia). apply ret_inv in Hr as [[= ->] ->].
  pose proof (createAndInsertPart_parts _ _ _ _ _ Ec) as Hpc.
  pose proof (createAndInsertPart_nextPart _ _ _ _ _ Ec) as [Hq Hnd].
  pose proof (updatePart_parts _ _ _ _ _ _ Eu) as (_ & d & Hd & Hparts).
  pose proof (updatePart_value _ _ _ _ _ _ Eu) as (_ & Hne & Hvq & Hpu).
  apply createAndInsertPart_returns in Ec.
  apply updatePart_returns in Eu as (_ & q' & [= <-] & Hu).
  simpl. rewrite !lookup_insert_eq.
  split; [by rewrite new_keys_None|].
  split.
  { rewrite new_keys_None. simpl length. do 3 f_equal. lia. }
  assert (Hcache : js_set SUndefined (SPart <$> take (length ps) ps)
                     (Z.of_nat (length ps)) (SPart q) = SPart <$> (ps ++ [q])).
  { rewrite firstn_all, fmap_app. simpl.
    rewrite <- (js_set_append SUndefined). by rewrite length_fmap. }
  exists ps, q, nvs. split; [done|]. split; [done|].
  split; [by rewrite Hcache|].
  split; [done|].
  split; [rewrite Hu, Ec, Ht, drop_0; by rewrite Hl|].
  split; [congruence|]. split; [congruence|].
  split; [unfold part_value in *; simpl; by rewrite <- Hl|].
  split; [|split].
  - intros p Hpq. unfold part_markers in *. simpl.
    rewrite Hpu by done. rewrite Hpc by done. apply Hma.
  - intros Hnodup Hall i p Hi. unfold part_value. simpl.
    assert (Hpq : p ≠ q).
    { pose proof (Forall_lookup_1 _ _ _ _ Hall Hi) as Hlt. simpl in Hlt. lia. }
    rewrite Hpu by done. rewrite Hpc by done.
    apply Hva; [done| |done]. apply lookup_lt_Some in Hi. lia.
  - intros c cs ce D.
    edestruct (repeat_order c containerPart cs ce (S k) (x :: items) keyFnOrTemplate2
                 template2 onRemove2 σ1) as (ps' & Hp' & _ & _ & _ & _ & D');
      [exact D| | | |exact Hcall|].
    + by rewrite Hp.
    + rewrite K2, new_keys_None. apply NoDup_fmap; [intros a b [= ->]; done|].
      apply NoDup_seqZ.
    + rewrite K2, new_keys_None. apply Forall_fmap, Forall_forall. by intros a _.
    + simpl in Hp'. rewrite lookup_insert_eq, Hcache in Hp'.
      injection Hp' as Hp'. apply (inj (fmap SPart)) in Hp'. by rewrite Hp'.
Qed.

End RepeatFacts.

(** ** Checking well-formedness of a concrete store *)

Definition dom_wf_conditions (σ : State) (c : Node) : Prop :=
  NoDup (children_of σ c) ∧
  Forall (λ n, parentOf σ !! n = Some c) (children_of σ c) ∧
  map_Forall (λ n p, p = c → n ∈ children_of σ c) (parentOf σ) ∧
  from_option (λ p, (p < nextNode σ)%nat ∧ parentOf σ !! p ≠ Some c) True
              (parentOf σ !! c) ∧
  map_Forall (λ n _, (n < nextNode σ)%nat) (parentOf σ) ∧
  (c < nextNode σ)%nat ∧
  is_Some (childNodes σ !! c).

#[global] Instance dom_wf_conditions_dec σ c : Decision (dom_wf_conditions σ c).
Proof.
  unfold dom_wf_conditions.
  destruct (parentOf σ !! c); simpl; apply _.
Defined.

Lemma dom_wf_checked (σ : State) (c : Node) :
  bool_decide (dom_wf_conditions σ c) = true → dom_wf σ c.
Proof.
  intros H. apply bool_decide_eq_true_1 in H.
  destruct H as (H1 & H2 & H3 & H4 & H5 & H6 & H7).
  split; try done.
  - intros n. split.
    + intros Hin. by eapply Forall_forall in H2.
    + intros Hp. by eapply H3.
  - intros p Hp. by rewrite Hp in H4.
  - intros n Hn. destruct (parentOf σ !! n) as [p|] eqn:E; [|done].
    apply H5 in E. lia.
Qed.

(** A container (node 0) holding the two markers (nodes 1 and 2) of the
    container part (part 0), before the first render. *)
Definition fresh_container : State :=
  mkState (<[0%nat := mkNodeData ELEMENT_NODE None]>
             (<[1%nat := mkNodeData COMMENT_NODE (Some ""%string)]>
                (<[2%nat := mkNodeData COMMENT_NODE (Some ""%string)]> ∅)))
          (<[1%nat := 0%nat]> (<[2%nat := 0%nat]> ∅))
          (<[0%nat := [1%nat; 2%nat]]> ∅)
          3%nat
          (<[0%nat := mkNodePart (Some 1%nat) (Some 2%nat) 0%nat VUndefined VUndefined]> ∅)
          1%nat ∅ ∅ [].

(** Values are rendered as one text node (strings) or as nothing. *)
Definition text_materialize (v : JsValue) : list NodeData :=
  match v with
  | VString s => [mkNodeData TEXT_NODE (Some s)]
  | _ => []
  end.

Definition item_key : ItemFn := λ item _, item.
Definition item_text : ItemFn := λ item _,
  match item with
  | VNumber 1 => VString "a"
  | VNumber 2 => VString "b"
  | VNumber 3 => VString "c"
  | _ => VString "z"
  end.

Definition keys_123 : list JsValue := [VNumber 1; VNumber 2; VNumber 3].
Definition keys_132 : list JsValue := [VNumber 1; VNumber 3; VNumber 2].

(** The state after rendering the items with keys 1, 2, 3. *)
Definition rendered_123 : State :=
  (repeat text_materialize 20 keys_123 (Some item_key) (Some item_text) None
     (NodePartObj 0%nat) fresh_container).2.

Lemma rendered_123_wf : dom_wf rendered_123 0%nat.
Proof. apply dom_wf_checked. vm_compute. reflexivity. Qed.

(** ** The theorems on concrete runs *)

Lemma repeat_persists_full_lists_witness :
  let items := [VNumber 2; VNumber 7] in
  let r := repeat text_materialize 20 items (Some item_key) (Some item_text) None
             (NodePartObj 0%nat) rendered_123 in
  r.1 = Returns tt ∧
  ∃ nps nks evs,
    partListCache r.2 !! 0%nat = Some nps ∧
    keyListCache r.2 !! 0%nat = Some nks ∧
    length nps = length items ∧
    length nks = length items ∧
    trace r.2 = evs ++ trace rendered_123 ∧
    Forall (λ s, ∃ p,
              s = SPart p ∧
              (∃ d st en, parts r.2 !! p = Some d ∧
                          startNode d = Some st ∧ endNode d = Some en) ∧
              (SPart p ∈ default [] (partListCache rendered_123 !! 0%nat) ∨
               (EvCreate p ∈ evs ∧ (nextPart rendered_123 ≤ p < nextPart r.2)%nat))) nps.
Proof.
  intros items r. split; [vm_compute; reflexivity|].
  apply (repeat_persists_full_lists text_materialize 20 items (Some item_key)
           (Some item_text) None 0%nat rendered_123 r.2).
  vm_compute. reflexivity.
Defined.

(** The state after rendering the items 2, 3 without a key function. *)
Definition rendered_23 : State :=
  (repeat text_materialize 20 [VNumber 2; VNumber 3] (Some item_text) None None
     (NodePartObj 0%nat) fresh_container).2.

Lemma rendered_23_part_list :
  partListCache rendered_23 !! 0%nat = Some [SPart 1%nat; SPart 2%nat].
Proof. vm_compute. reflexivity. Qed.

Lemma rendered_23_next_part : nextPart rendered_23 = 3%nat.
Proof. vm_compute. reflexivity. Qed.

Lemma rendered_23_ordered : dom_inv 0%nat 0%nat 1%nat 2%nat rendered_23 [1; 2]%nat.
Proof.
  assert (H0 : part_markers rendered_23 0%nat = Some (Some 1%nat, Some 2%nat))
    by (vm_compute; reflexivity).
  assert (H1 : part_markers rendered_23 1%nat = Some (Some 3%nat, Some 4%nat))
    by (vm_compute; reflexivity).
  assert (H2 : part_markers rendered_23 2%nat = Some (Some 6%nat, Some 7%nat))
    by (vm_compute; reflexivity).
  assert (Hc : children_of rendered_23 0%nat = [1; 3; 5; 4; 6; 8; 7; 2]%nat)
    by (vm_compute; reflexivity).
  split.
  - apply dom_wf_checked. vm_compute. reflexivity.
  - exact H0.
  - rewrite rendered_23_next_part. lia.
  - apply Forall_cons. split.
    { split; [rewrite rendered_23_next_part; lia|]. exists 3%nat, 4%nat. exact H1. }
    apply Forall_cons. split.
    { split; [rewrite rendered_23_next_part; lia|]. exists 6%nat, 7%nat. exact H2. }
    by apply Forall_nil.
  - unfold bound_of. rewrite !fmap_cons, fmap_nil, H1, H2, Hc.
    apply (layout_cons (Single 1%nat) _ [] [1%nat] _ (block_single _)).
    apply (layout_cons (Range 3 4)%nat _ [] _ _ (block_range 3%nat [5%nat] 4%nat)).
    apply (layout_cons (Range 6 7)%nat _ [] _ _ (block_range 6%nat [8%nat] 7%nat)).
    apply (layout_cons (Single 2%nat) _ [] [2%nat] [] (block_single _)).
    apply layout_nil.
Qed.

Lemma unkeyed_prepend_updates_in_place_witness :
  let r1 := repeat text_materialize 20 [VNumber 2; VNumber 3] (Some item_text) None None
              (NodePartObj 0%nat) fresh_container in
  let r2 := repeat text_materialize 20 [VNumber 1; VNumber 2; VNumber 3] (Some item_text)
              None None (NodePartObj 0%nat) rendered_23 in
  r1 = (Returns tt, rendered_23) ∧ r2.1 = Returns tt ∧
  keyListCache rendered_23 !! 0%nat = Some (VNumber <$> seqZ 0 2) ∧
  keyListCache r2.2 !! 0%nat = Some (VNumber <$> seqZ 0 3) ∧
  partListCache r2.2 !! 0%nat = Some [SPart 1%nat; SPart 2%nat; SPart 3%nat] ∧
  nextPart r2.2 = 4%nat ∧
  part_value r2.2 1%nat = Some (VString "a") ∧
  part_value r2.2 2%nat = Some (VString "b") ∧
  part_value r2.2 3%nat = Some (VString "c") ∧
  dom_inv 0%nat 0%nat 1%nat 2%nat r2.2 [1; 2; 3]%nat.
Proof.
  intros r1 r2.
  assert (E1 : r1 = (Returns tt, rendered_23)) by (vm_compute; reflexivity).
  split; [exact E1|]. split; [vm_compute; reflexivity|].
  destruct (unkeyed_prepend_updates_in_place text_materialize 20 20 (VNumber 1)
              [VNumber 2; VNumber 3] (Some item_text) None (Some item_text) None
              None None 0%nat fresh_container rendered_23 r2.2 (or_introl eq_refl)
              (or_introl eq_refl) E1)
    as (H1 & H2 & ps & q & nvs & Hl & Hp1 & Hp2 & Hv & _ & Hq & Hn & Hvq & _ & Hvals & Hd).
  - vm_compute. reflexivity.
  - rewrite rendered_23_part_list in Hp1. injection Hp1 as Hp1.
    destruct ps as [|a [|b [|? ?]]]; try discriminate Hl.
    injection Hp1 as <- <-.
    rewrite rendered_23_next_part in Hq, Hn, Hvals. subst q.
    rewrite (Hv item_text eq_refl) in Hvq, Hvals.
    split; [exact H1|]. split; [exact H2|]. split; [exact Hp2|]. split; [exact Hn|].
    assert (Hnd : NoDup [1; 2]%nat) by (apply (bool_decide_unpack _); vm_compute; exact I).
    assert (Hal : Forall (λ p, (p < 3)%nat) [1; 2]%nat).
    { apply Forall_cons. split; [lia|]. apply Forall_cons. split; [lia|].
      by apply Forall_nil. }
    split; [exact (Hvals Hnd Hal 0%nat 1%nat eq_refl)|].
    split; [exact (Hvals Hnd Hal 1%nat 2%nat eq_refl)|].
    split; [exact Hvq|exact (Hd 0%nat 1%nat 2%nat rendered_23_ordered)].
Defined.

Lemma rendered_123_children :
  children_of rendered_123 0%nat
  = [1; 3; 5; 4; 6; 8; 7; 9; 11; 10; 2]%nat.
Proof. vm_compute. reflexivity. Qed.

Lemma rendered_123_part_1 :
  parts rendered_123 !! 1%nat
  = Some (mkNodePart (Some 3%nat) (Some 4%nat) 0%nat (VString "a") (VString "a")).
Proof. vm_compute. reflexivity. Qed.

Lemma removal_with_handler_keeps_markers_witness :
  dom_wf rendered_123 0%nat ∧
  ∀ r σ',
    removePart 20 (SPart 1%nat) (Some (λ _, true)) rendered_123 = (r, σ') →
    3%nat ∈ children_of σ' 0%nat ∧ 4%nat ∈ children_of σ' 0%nat.
Proof.
  split; [exact rendered_123_wf|].
  intros r σ' H.
  destruct (removal_with_handler_keeps_markers rendered_123 0%nat rendered_123_wf)
    as (_ & H2 & _).
  refine (H2 20%nat (λ _, true) 1%nat _ 3%nat 4%nat r σ' rendered_123_part_1
            eq_refl eq_refl _ _ H).
  - rewrite rendered_123_children. apply list_elem_of_In. simpl. tauto.
  - rewrite rendered_123_children. apply list_elem_of_In. simpl. tauto.
Defined.





Lemma rendered_123_next_part : nextPart rendered_123 = 4%nat.
Proof. vm_compute. reflexivity. Qed.

Lemma rendered_123_markers :
  part_markers rendered_123 0%nat = Some (Some 1%nat, Some 2%nat) ∧
  part_markers rendered_123 1%nat = Some (Some 3%nat, Some 4%nat) ∧
  part_markers rendered_123 2%nat = Some (Some 6%nat, Some 7%nat) ∧
  part_markers rendered_123 3%nat = Some (Some 9%nat, Some 10%nat).
Proof. vm_compute. repeat split; reflexivity. Qed.

Lemma rendered_123_ordered : dom_inv 0%nat 0%nat 1%nat 2%nat rendered_123 [1; 2; 3]%nat.
Proof.
  destruct rendered_123_markers as (H0 & H1 & H2 & H3).
  split.
  - exact rendered_123_wf.
  - exact H0.
  - rewrite rendered_123_next_part. lia.
  - apply Forall_cons. split.
    { split; [rewrite rendered_123_next_part; lia|]. exists 3%nat, 4%nat. exact H1. }
    apply Forall_cons. split.
    { split; [rewrite rendered_123_next_part; lia|]. exists 6%nat, 7%nat. exact H2. }
    apply Forall_cons. split.
    { split; [rewrite rendered_123_next_part; lia|]. exists 9%nat, 10%nat. exact H3. }
    by apply Forall_nil.
  - unfold bound_of. rewrite !fmap_cons, fmap_nil, H1, H2, H3.
    rewrite rendered_123_children.
    apply (layout_cons (Single 1%nat) _ [] [1%nat] _ (block_single _)).
    apply (layout_cons (Range 3 4)%nat _ [] _ _ (block_range 3%nat [5%nat] 4%nat)).
    apply (layout_cons (Range 6 7)%nat _ [] _ _ (block_range 6%nat [8%nat] 7%nat)).
    apply (layout_cons (Range 9 10)%nat _ [] _ _ (block_range 9%nat [11%nat] 10%nat)).
    apply (layout_cons (Single 2%nat) _ [] [2%nat] [] (block_single _)).
    apply layout_nil.
Qed.

Lemma repeat_orders_parts_by_key_witness :
  let r := repeat text_materialize 20 keys_132 (Some item_key) (Some item_text) None
             (NodePartObj 0%nat) rendered_123 in
  r.1 = Returns tt ∧
  ∃ ps, partListCache r.2 !! 0%nat = Some (SPart <$> ps) ∧
        keyListCache r.2 !! 0%nat = Some keys_132 ∧
        length ps = 3%nat ∧
        Forall (live r.2) ps ∧
        layout (Single 1%nat :: (bound_of r.2 <$> ps) ++ [Single 2%nat])
               (children_of r.2 0%nat) ∧
        dom_inv 0%nat 0%nat 1%nat 2%nat r.2 ps.
Proof.
  intros r. split; [vm_compute; reflexivity|].
  apply (repeat_orders_parts_by_key text_materialize 0%nat 0%nat 1%nat 2%nat 20 keys_132
           (Some item_key) (Some item_text) None rendered_123 r.2 [1; 2; 3]%nat).
  - exact rendered_123_ordered.
  - vm_compute. reflexivity.
  - apply (bool_decide_unpack _). vm_compute. exact I.
  - apply (bool_decide_unpack _). vm_compute. exact I.
  - vm_compute. reflexivity.
Defined.


Lemma swap_moves_old_head_to_tail_witness :
  let r := repeat text_materialize 20 keys_132 (Some item_key) (Some item_text) None
             (NodePartObj 0%nat) rendered_123 in
  r.1 = Returns tt ∧
  ∃ v1 v2 v3,
    trace r.2 = [EvUpdate 3%nat v3; EvMove 2%nat; EvUpdate 2%nat v2; EvUpdate 1%nat v1]
                ++ trace rendered_123 ∧
    partListCache r.2 !! 0%nat = Some [SPart 1%nat; SPart 3%nat; SPart 2%nat] ∧
    keyListCache r.2 !! 0%nat = Some keys_132 ∧
    dom_inv 0%nat 0%nat 1%nat 2%nat r.2 [1; 3; 2]%nat.
Proof.
  intros r. split; [vm_compute; reflexivity|].
  apply (swap_moves_old_head_to_tail text_materialize 0%nat 0%nat 1%nat 2%nat 20 keys_132
           (Some item_key) (Some item_text) None rendered_123 r.2 1%nat 2%nat 3%nat
           (VNumber 1) (VNumber 2) (VNumber 3)).
  - exact rendered_123_ordered.
  - vm_compute. reflexivity.
  - vm_compute. reflexivity.
  - reflexivity.
  - discriminate.
  - apply (bool_decide_unpack _). vm_compute. exact I.
  - vm_compute. reflexivity.
Defined.

(** On the container rendered with keys 1, 2, 3, the call with keys
    1, 3, 2 returns having recorded four events, none of which is the
    building of the key-to-index maps: the loop never reaches its last
    branch. *)
Lemma swap_never_builds_the_maps :
  let r := repeat text_materialize 20 keys_132 (Some item_key) (Some item_text) None
             (NodePartObj 0%nat) rendered_123 in
  keyListCache rendered_123 !! 0%nat = Some keys_123 ∧
  r.1 = Returns tt ∧
  keyListCache r.2 !! 0%nat = Some keys_132 ∧
  trace r.2 = [EvUpdate 3%nat (VString "c"); EvMove 2%nat; EvUpdate 2%nat (VString "b");
               EvUpdate 1%nat (VString "a")] ++ trace rendered_123 ∧
  EvGenerateMaps ∉ trace r.2.
Proof.
  intros r.
  split; [vm_compute; reflexivity|]. split; [vm_compute; reflexivity|].
  split; [vm_compute; reflexivity|]. split; [vm_compute; reflexivity|].
  assert (Ht : trace r.2 =
    [EvUpdate 3%nat (VString "c"); EvMove 2%nat; EvUpdate 2%nat (VString "b");
     EvUpdate 1%nat (VString "a"); EvUpdate 3%nat (VString "c"); EvCreate 3%nat;
     EvUpdate 2%nat (VString "b"); EvCreate 2%nat; EvUpdate 1%nat (VString "a");
     EvCreate 1%nat]) by (vm_compute; reflexivity).
  rewrite Ht. intros Hin.
  repeat (apply elem_of_cons in Hin as [Hin|Hin]; [discriminate Hin|]).
  by apply elem_of_nil in Hin.
Qed.


(** ** A key that is [NaN] *)

(** A key function that gives every item the key [NaN]. *)
Definition nan_key : ItemFn := λ _ _, VNaN.

(** The first render of one item, keyed [NaN], in the fresh container. *)
Definition first_nan :=
  repeat text_materialize 20 [VNumber 1] (Some nan_key) (Some item_text) None
    (NodePartObj 0%nat) fresh_container.

(** The same call again. *)
Definition second_nan :=
  repeat text_materialize 20 [VNumber 1] (Some nan_key) (Some item_text) None
    (NodePartObj 0%nat) first_nan.2.

(** And once more. *)
Definition third_nan :=
  repeat text_materialize 20 [VNumber 1] (Some nan_key) (Some item_text) None
    (NodePartObj 0%nat) second_nan.2.

Lemma second_nan_children : children_of second_nan.2 0%nat = [1; 6; 4; 3; 2]%nat.
Proof. vm_compute. reflexivity. Qed.

Lemma second_nan_markers : part_markers second_nan.2 1%nat = Some (Some 3%nat, Some 4%nat).
Proof. vm_compute. reflexivity. Qed.

(** C1 (the code departs from the claim): one item whose key is [NaN],
    rendered twice.  The key list [[NaN]] has no duplicate and both calls
    return; the first leaves the part of the item (part 1, markers 3 and
    4) in order, around its text node.  In the second call [NaN === NaN] is
    false in every comparison of the loop, while the key-to-index maps do
    find [NaN]: the part is reused and moved before itself, which puts its
    content and its end marker before its start marker.  After the call
    the part persisted for the item does not lie in the container as a
    range from its start marker to its end marker. *)
Theorem nan_key_breaks_document_order :
  NoDup (new_keys (Some nan_key) [VNumber 1]) ∧
  first_nan.1 = Returns tt ∧
  partListCache first_nan.2 !! 0%nat = Some [SPart 1%nat] ∧
  part_markers first_nan.2 1%nat = Some (Some 3%nat, Some 4%nat) ∧
  children_of first_nan.2 0%nat = [1; 3; 5; 4; 2]%nat ∧
  dom_inv 0%nat 0%nat 1%nat 2%nat first_nan.2 [1%nat] ∧
  second_nan.1 = Returns tt ∧
  partListCache second_nan.2 !! 0%nat = Some [SPart 1%nat] ∧
  keyListCache second_nan.2 !! 0%nat = Some [VNaN] ∧
  part_markers second_nan.2 1%nat = Some (Some 3%nat, Some 4%nat) ∧
  children_of second_nan.2 0%nat = [1; 6; 4; 3; 2]%nat ∧
  ¬ layout (Single 1%nat :: (bound_of second_nan.2 <$> [1%nat]) ++ [Single 2%nat])
           (children_of second_nan.2 0%nat).
Proof.
  split; [apply (bool_decide_unpack _); vm_compute; exact I|].
  split; [vm_compute; reflexivity|]. split; [vm_compute; reflexivity|].
  assert (Hm1 : part_markers first_nan.2 1%nat = Some (Some 3%nat, Some 4%nat))
    by (vm_compute; reflexivity).
  assert (Hc1 : children_of first_nan.2 0%nat = [1; 3; 5; 4; 2]%nat)
    by (vm_compute; reflexivity).
  split; [exact Hm1|]. split; [exact Hc1|].
  split.
  { split.
    - apply dom_wf_checked. vm_compute. reflexivity.
    - vm_compute. reflexivity.
    - apply Nat.ltb_lt. vm_compute. reflexivity.
    - apply Forall_cons. split; [|by apply Forall_nil].
      split; [apply Nat.ltb_lt; vm_compute; reflexivity|].
      exists 3%nat, 4%nat. exact Hm1.
    - unfold bound_of. rewrite !fmap_cons, fmap_nil, Hm1, Hc1.
      apply (layout_cons (Single 1%nat) _ [] [1%nat] _ (block_single _)).
      apply (layout_cons (Range 3 4)%nat _ [] _ _ (block_range 3%nat [5%nat] 4%nat)).
      apply (layout_cons (Single 2%nat) _ [] [2%nat] [] (block_single _)).
      apply layout_nil. }
  split; [vm_compute; reflexivity|]. split; [vm_compute; reflexivity|].
  split; [vm_compute; reflexivity|].
  split; [exact second_nan_markers|]. split; [exact second_nan_children|].
  unfold bound_of. rewrite !fmap_cons, fmap_nil, second_nan_markers, second_nan_children.
  intros H.
  apply (layout_range_in 3%nat 4%nat) in H as (l1 & l2 & l3 & H);
    [|apply list_elem_of_In; simpl; tauto].
  do 3 (destruct l1 as [|? l1]; [discriminate H|injection H as <- H]).
  destruct l1 as [|? l1].
  - injection H as H. destruct l2 as [|? l2]; [discriminate H|injection H as <- H].
    by destruct l2.
  - injection H as <- H. destruct l1 as [|? l1]; [discriminate H|injection H as <- H].
    by destruct l1.
Qed.

(** C4 (the code departs from the claim): the same call twice in a row,
    with one item whose key is [NaN].  The second pass does not match the
    item at the head or at the tail: it builds the key-to-index maps and,
    besides updating the part, calls [insertPartBefore] on it, which
    reparents its nodes: the children of the container are in another
    order than after the first pass. *)
Theorem nan_key_second_pass_moves :
  first_nan.1 = Returns tt ∧
  second_nan.1 = Returns tt ∧
  keyListCache first_nan.2 !! 0%nat = Some [VNaN] ∧
  keyListCache second_nan.2 !! 0%nat = Some [VNaN] ∧
  trace first_nan.2 = [EvUpdate 1%nat (VString "a"); EvCreate 1%nat] ∧
  trace second_nan.2
  = [EvMove 1%nat; EvUpdate 1%nat (VString "a"); EvGenerateMaps] ++ trace first_nan.2 ∧
  children_of first_nan.2 0%nat = [1; 3; 5; 4; 2]%nat ∧
  children_of second_nan.2 0%nat = [1; 6; 4; 3; 2]%nat.
Proof. vm_compute. repeat split; reflexivity. Qed.

(** The third call, on the container the second one left, removes the end
    marker of the container part and throws. *)
Lemma nan_key_third_pass_throws :
  third_nan.1 = Throws TypeError ∧
  children_of third_nan.2 0%nat = [1; 6; 4; 3]%nat.
Proof. vm_compute. split; reflexivity. Qed.


(** ** Further properties of the template factory *)

Module TemplateFactoryMore.
Import TemplateFactory TemplateFactoryFacts.

Section MoreFacts.

Variable marker : string.
Variable segments : nat → list string.

Abbreviation tf := (templateFactory marker segments).
Abbreviation key_of := (content_key marker segments).

(** Every cached template was compiled from a result with the joined
    strings it is cached under, and the templates made so far are those of
    the content-keyed map, one for each key. *)
Record keyed_sound (σ : Caches) : Prop := {
  ks_key : ∀ k t, keyedTemplates σ !! k = Some t → key_of (source t) = k;
  ks_id : ∀ k t, keyedTemplates σ !! k = Some t → (template_id t < nextTemplate σ)%nat;
  ks_inj : ∀ k1 k2 t1 t2,
    keyedTemplates σ !! k1 = Some t1 → keyedTemplates σ !! k2 = Some t2 →
    template_id t1 = template_id t2 → k1 = k2;
  ks_size : size (keyedTemplates σ) = nextTemplate σ;
}.

Lemma keyed_sound_empty : keyed_sound empty_caches.
Proof. split; simpl; try done. Qed.

Lemma templateFactory_keyed_sound r σ : keyed_sound σ → keyed_sound (tf r σ).2.
Proof.
  intros [H1 H2 H3 H4].
  destruct (templateFactory_cases marker segments r σ) as
    [(tc & t & _ & _ & ->)|(tc & t & Htc & Hmiss & [[Hk ->]|(Hk & Ht & ->)])];
    [done|done|].
  split; simpl.
  - intros k t0 Hl. destruct (decide (key_of r = k)) as [<-|Hne].
    + rewrite lookup_insert_eq in Hl. injection Hl as <-. by subst t.
    + rewrite lookup_insert_ne in Hl by done. by apply H1.
  - intros k t0 Hl. destruct (decide (key_of r = k)) as [<-|Hne].
    + rewrite lookup_insert_eq in Hl. injection Hl as <-. subst t. simpl. lia.
    + rewrite lookup_insert_ne in Hl by done. apply H2 in Hl. lia.
  - intros k1 k2 t1 t2 Hl1 Hl2 Hid.
    destruct (decide (key_of r = k1)) as [<-|Hn1];
      destruct (decide (key_of r = k2)) as [<-|Hn2]; try done.
    + rewrite lookup_insert_eq in Hl1. rewrite lookup_insert_ne in Hl2 by done.
      injection Hl1 as <-. subst t. simpl in Hid. apply H2 in Hl2. lia.
    + rewrite lookup_insert_eq in Hl2. rewrite lookup_insert_ne in Hl1 by done.
      injection Hl2 as <-. subst t. simpl in Hid. apply H2 in Hl1. lia.
    + rewrite lookup_insert_ne in Hl1, Hl2 by done. by eapply H3.
  - rewrite map_size_insert_None by done. by rewrite H4.
Qed.

Lemma reachable_keyed_sound σ : reachable marker segments σ → keyed_sound σ.
Proof. induction 1; [apply keyed_sound_empty|by apply templateFactory_keyed_sound]. Qed.

(** X10: the template [templateFactory] returns was compiled from a result
    whose joined strings are those of the result passed in, on every cache
    state the factory can reach: a call never answers with the template of
    other static content. *)
Theorem templateFactory_returns_same_content (σ : Caches) (r : TemplateResult) :
  reachable marker segments σ → key_of (source (tf r σ).1) = key_of r.
Proof.
  intros Hreach.
  pose proof (reachable_agree marker segments σ Hreach) as Hinv.
  pose proof (reachable_keyed_sound _ (reachable_call _ _ r σ Hreach)) as [H1 _ _ _].
  destruct (templateFactory_populates marker segments r σ Hinv) as (Hk & _).
  by apply H1 in Hk.
Qed.

(** X11: the content-keyed map is shared by all result types: a result
    whose joined strings were seen before gets the template made then,
    even when that template was compiled from a result of another type
    (it is then a template whose source has a type other than the one
    asked for). *)
Theorem templateFactory_ignores_type (σ : Caches) (r1 r2 : TemplateResult)
    (rs : list TemplateResult) :
  reachable marker segments σ →
  key_of r1 = key_of r2 →
  keyedTemplates σ !! key_of r1 = None →
  let t1 := (tf r1 σ).1 in
  let σ2 := run_calls marker segments rs (tf r1 σ).2 in
  (tf r2 σ2).1 = t1 ∧ source t1 = r1.
Proof.
  intros Hreach Hkey Hnew t1 σ2.
  pose proof (reachable_agree marker segments σ Hreach) as Hinv.
  destruct (templateFactory_populates marker segments r1 σ Hinv) as (Hk & _).
  pose proof (templateFactory_agree marker segments r1 σ Hinv) as Hinv1.
  pose proof (run_calls_agree marker segments rs _ Hinv1) as Hinv2.
  destruct (run_calls_keeps marker segments rs _ Hinv1) as [K1 _].
  split.
  - apply templateFactory_keyed; [done|]. rewrite <- Hkey. by apply K1.
  - unfold t1.
    destruct (templateFactory_cases marker segments r1 σ) as
      [(tc & t & Hty & Hs & ->)|(tc & t & Htc & Hmiss & [[Hk' ->]|(Hk' & Ht & ->)])]; simpl.
    + pose proof (Hinv _ _ _ _ Hty Hs) as H. unfold content_key in Hnew. congruence.
    + congruence.
    + by subst t.
Qed.

(** X12: on every cache state the factory can reach, the number of
    templates created so far is the number of distinct joined strings
    seen: one [Template] object per static content, however many strings
    arrays and types carry it. *)
Theorem templateFactory_one_template_per_content (σ : Caches) :
  reachable marker segments σ →
  nextTemplate σ = size (keyedTemplates σ) ∧
  ∀ k1 k2 t1 t2,
    keyedTemplates σ !! k1 = Some t1 → keyedTemplates σ !! k2 = Some t2 →
    template_id t1 = template_id t2 → k1 = k2.
Proof.
  intros Hreach. destruct (reachable_keyed_sound σ Hreach) as [_ _ H3 H4].
  split; [done|exact H3].
Qed.

(** X13: a call repeated at once with the same result returns the same
    template and leaves the caches as the first call left them. *)
Theorem templateFactory_idempotent (σ : Caches) (r : TemplateResult) :
  tf r (tf r σ).2 = ((tf r σ).1, (tf r σ).2).
Proof.
  assert (Hhit : ∀ σ0 tc t, templateCaches σ0 !! type r = Some tc →
            tc !! strings r = Some t → tf r σ0 = (t, σ0)).
  { intros σ0 tc t H1 H2. unfold templateFactory. cbv zeta. rewrite H1, H2.
    by destruct σ0. }
  destruct (templateFactory_cases marker segments r σ) as
    [(tc & t & Hty & Hs & E)|(tc & t & Htc & Hmiss & [[Hk E]|(Hk & Ht & E)])];
    rewrite E; simpl.
  - by eapply Hhit.
  - eapply Hhit; simpl; by rewrite lookup_insert_eq.
  - eapply Hhit; simpl; by rewrite lookup_insert_eq.
Qed.

End MoreFacts.

End TemplateFactoryMore.
(** ** The further properties on concrete runs *)


Lemma rendered_123_counters : nextNode rendered_123 = 12%nat.
Proof. vm_compute. reflexivity. Qed.

Lemma reparentNodes_moves_run_witness :
  dom_wf rendered_123 0%nat ∧
  ∃ σ', reparentNodes 3 (Some 0%nat) (Some 3%nat) (Some 6%nat) (Some 2%nat) rendered_123
          = (Returns tt, σ') ∧
        children_of σ' 0%nat = [1; 6; 8; 7; 9; 11; 10; 3; 5; 4; 2]%nat.
Proof.
  split; [exact rendered_123_wf|].
  destruct (reparentNodes_moves_run rendered_123 0%nat rendered_123_wf) as [H _].
  destruct (H [1%nat] [3; 5; 4]%nat [6; 8; 7; 9; 11; 10]%nat 2%nat [] 3%nat
              rendered_123_children ltac:(discriminate) ltac:(simpl; lia))
    as (σ' & E & Hc & _).
  exists σ'. split; [exact E|exact Hc].
Defined.

Lemma removeNodes_removes_run_witness :
  dom_wf rendered_123 0%nat ∧
  ∃ σ', removeNodes 3 (Some 0%nat) (Some 3%nat) (Some 6%nat) rendered_123
          = (Returns tt, σ') ∧
        children_of σ' 0%nat = [1; 6; 8; 7; 9; 11; 10; 2]%nat.
Proof.
  split; [exact rendered_123_wf|].
  destruct (removeNodes_removes_run rendered_123 0%nat rendered_123_wf
              [1%nat] [3; 5; 4]%nat [6; 8; 7; 9; 11; 10; 2]%nat 3%nat
              rendered_123_children ltac:(simpl; lia))
    as (σ' & E & Hc & _).
  exists σ'. split; [exact E|exact Hc].
Defined.

Lemma removeNodes_without_end_throws_witness :
  dom_wf rendered_123 0%nat ∧
  ∃ σ', removeNodes 3 (Some 0%nat) (Some 10%nat) (Some 0%nat) rendered_123
          = (Throws TypeError, σ') ∧
        children_of σ' 0%nat = [1; 3; 5; 4; 6; 8; 7; 9; 11]%nat.
Proof.
  split; [exact rendered_123_wf|].
  destruct (removeNodes_without_end_throws rendered_123 0%nat rendered_123_wf
              [1; 3; 5; 4; 6; 8; 7; 9; 11]%nat [10; 2]%nat 0%nat 3%nat
              rendered_123_children
              ltac:(rewrite !elem_of_cons, elem_of_nil; lia) ltac:(simpl; lia))
    as (σ' & E & Hc & _).
  exists σ'. split; [exact E|exact Hc].
Defined.


Lemma createAndInsertPart_adds_empty_part_witness :
  dom_wf rendered_123 0%nat ∧
  ∃ σ', createAndInsertPart 0%nat SUndefined rendered_123 = (Returns 4%nat, σ') ∧
        children_of σ' 0%nat = [1; 3; 5; 4; 6; 8; 7; 9; 11; 10; 12; 13; 2]%nat ∧
        part_markers σ' 4%nat = Some (Some 12%nat, Some 13%nat).
Proof.
  split; [exact rendered_123_wf|].
  destruct rendered_123_markers as (H0 & _).
  destruct (createAndInsertPart_adds_empty_part 0%nat 0%nat 1%nat 2%nat rendered_123
              rendered_123_wf H0) with (ref := SUndefined) (b := 2%nat)
              (l1 := [1; 3; 5; 4; 6; 8; 7; 9; 11; 10]%nat) (l2 := @nil nat)
    as (σ' & E & Hc & Hm & _).
  - rewrite rendered_123_children. apply list_elem_of_In. simpl. tauto.
  - exact rendered_123_children.
  - reflexivity.
  - rewrite rendered_123_next_part in E, Hm. rewrite rendered_123_counters in Hc, Hm.
    exists σ'. split; [exact E|]. split; [exact Hc|exact Hm].
Defined.

Definition keys_1234 : list JsValue := [VNumber 1; VNumber 2; VNumber 3; VNumber 4].
Definition keys_12 : list JsValue := [VNumber 1; VNumber 2].

Lemma rendered_123_part_list :
  default [] (partListCache rendered_123 !! 0%nat) = SPart <$> [1; 2; 3]%nat.
Proof. vm_compute. reflexivity. Qed.

Lemma rendered_123_key_list :
  default [] (keyListCache rendered_123 !! 0%nat) = keys_123.
Proof. vm_compute. reflexivity. Qed.

Lemma repeat_appends_after_matching_keys_witness :
  let r := repeat text_materialize 20 keys_1234 (Some item_key) (Some item_text) None
             (NodePartObj 0%nat) rendered_123 in
  r.1 = Returns tt ∧
  partListCache r.2 !! 0%nat = Some (SPart <$> [1; 2; 3; 4]%nat) ∧
  trace r.2 = [EvUpdate 4%nat (VString "z"); EvCreate 4%nat;
               EvUpdate 3%nat (VString "c"); EvUpdate 2%nat (VString "b");
               EvUpdate 1%nat (VString "a")] ++ trace rendered_123 ∧
  nextPart r.2 = 5%nat ∧
  part_value r.2 4%nat = Some (VString "z") ∧
  part_value r.2 1%nat = Some (VString "a").
Proof.
  intros r. split; [vm_compute; reflexivity|].
  destruct (repeat_appends_after_matching_keys text_materialize 20 keys_1234
              (Some item_key) (Some item_text) None 0%nat rendered_123 r.2 [1; 2; 3]%nat)
    as (nvs & _ & Hv & Hp & _ & Ht & Hn & _ & Hq & Hvals).
  - exact rendered_123_part_list.
  - intros i Hi. rewrite rendered_123_key_list.
    assert (Hc : i = 0 ∨ i = 1 ∨ i = 2) by (simpl in Hi; lia).
    destruct Hc as [->|[->| ->]]; reflexivity.
  - simpl. lia.
  - vm_compute. reflexivity.
  - rewrite (Hv item_text eq_refl) in Ht, Hq, Hvals.
    rewrite rendered_123_next_part in Hp, Ht, Hn, Hq, Hvals.
    assert (Hnd : NoDup [1; 2; 3]%nat) by (apply (bool_decide_unpack _); vm_compute; exact I).
    assert (Hal : Forall (λ p, (p < 4)%nat) [1; 2; 3]%nat).
    { repeat (apply Forall_cons; split; [lia|]). by apply Forall_nil. }
    split; [exact Hp|]. split; [exact Ht|]. split; [exact Hn|].
    split; [exact (Hq 0%nat 4%nat eq_refl)|exact (Hvals Hnd Hal 0%nat 1%nat eq_refl)].
Defined.

Lemma repeat_truncates_after_matching_keys_witness :
  let r := repeat text_materialize 20 keys_12 (Some item_key) (Some item_text) None
             (NodePartObj 0%nat) rendered_123 in
  r.1 = Returns tt ∧
  partListCache r.2 !! 0%nat = Some (SPart <$> [1; 2]%nat) ∧
  (∃ evs, trace r.2 = evs ++ [EvUpdate 2%nat (VString "b"); EvUpdate 1%nat (VString "a")]
                          ++ trace rendered_123 ∧
          filter (λ ev, is_handler_event ev = false) evs = [EvRemovePart 3%nat]) ∧
  nextPart r.2 = 4%nat ∧
  part_value r.2 1%nat = Some (VString "a") ∧
  part_value r.2 2%nat = Some (VString "b") ∧
  dom_inv 0%nat 0%nat 1%nat 2%nat r.2 [1; 2]%nat ∧
  9%nat ∉ children_of r.2 0%nat ∧ 10%nat ∉ children_of r.2 0%nat.
Proof.
  intros r. split; [vm_compute; reflexivity|].
  destruct (repeat_truncates_after_matching_keys text_materialize 20 keys_12
              (Some item_key) (Some item_text) None 0%nat rendered_123 r.2
              [1; 2; 3]%nat)
    as (nvs & evs & _ & Hv & Hp & _ & Ht & Hf & Hn & _ & _ & Hvals & Hdom).
  - exact rendered_123_part_list.
  - intros i Hi. rewrite rendered_123_key_list.
    assert (Hc : i = 0 ∨ i = 1) by (simpl in Hi; lia).
    destruct Hc as [->| ->]; reflexivity.
  - simpl. lia.
  - vm_compute. reflexivity.
  - rewrite (Hv item_text eq_refl) in Ht, Hvals.
    assert (Hnd : NoDup [1; 2; 3]%nat) by (apply (bool_decide_unpack _); vm_compute; exact I).
    destruct (Hdom eq_refl 0%nat 1%nat 2%nat rendered_123_ordered) as [Hd Hgone].
    destruct rendered_123_markers as (_ & _ & _ & H3).
    destruct (Hgone 3%nat 9%nat 10%nat) as [H9 H10];
      [apply list_elem_of_In; simpl; tauto|exact H3|].
    split; [exact Hp|]. split; [exists evs; split; [exact Ht|exact Hf]|].
    split; [by rewrite Hn, rendered_123_next_part|].
    split; [exact (Hvals Hnd 0%nat 1%nat ltac:(simpl; lia) eq_refl)|].
    split; [exact (Hvals Hnd 1%nat 2%nat ltac:(simpl; lia) eq_refl)|].
    split; [exact Hd|]. split; [exact H9|exact H10].
Defined.

Lemma repeat_reuses_parts_by_key_witness :
  let r := repeat text_materialize 20 keys_132 (Some item_key) (Some item_text) None
             (NodePartObj 0%nat) rendered_123 in
  r.1 = Returns tt ∧
  ∃ ps, partListCache r.2 !! 0%nat = Some (SPart <$> ps) ∧ length ps = 3%nat.
Proof.
  intros r. split; [vm_compute; reflexivity|].
  destruct (repeat_reuses_parts_by_key text_materialize 20 keys_132
              (Some item_key) (Some item_text) None 0%nat rendered_123 r.2)
    as (ps & Hp & Hl & _).
  - vm_compute. reflexivity.
  - exists ps. split; [exact Hp|exact Hl].
Defined.

Lemma repeat_parts_hold_item_values_witness :
  let r := repeat text_materialize 20 keys_132 (Some item_key) (Some item_text) None
             (NodePartObj 0%nat) rendered_123 in
  r.1 = Returns tt ∧
  ∃ ps nvs, partListCache r.2 !! 0%nat = Some (SPart <$> ps) ∧
            nvs = new_values item_text keys_132 ∧
            Forall2 (λ p v, part_value r.2 p = Some v) ps nvs ∧
            NoDup ps.
Proof.
  intros r. split; [vm_compute; reflexivity|].
  destruct (repeat_parts_hold_item_values text_materialize 20 keys_132
              (Some item_key) (Some item_text) None 0%nat rendered_123 r.2
              [1; 2; 3]%nat)
    as (ps & nvs & Hp & Hv & Hf & Hn & _).
  - vm_compute. reflexivity.
  - apply (bool_decide_unpack _). vm_compute. exact I.
  - rewrite rendered_123_next_part.
    apply Forall_cons. split; [lia|]. apply Forall_cons. split; [lia|].
    apply Forall_cons. split; [lia|]. by apply Forall_nil.
  - apply (bool_decide_unpack _). vm_compute. exact I.
  - vm_compute. reflexivity.
  - exists ps, nvs. split; [exact Hp|]. split; [by apply Hv|]. split; [exact Hf|exact Hn].
Defined.

Lemma repeat_keeps_other_caches_witness :
  let r := repeat text_materialize 20 keys_132 (Some item_key) (Some item_text) None
             (NodePartObj 1%nat) rendered_123 in
  NodePartObj 1%nat ≠ NodePartObj 0%nat ∧
  partListCache r.2 !! 0%nat = partListCache rendered_123 !! 0%nat ∧
  keyListCache r.2 !! 0%nat = keyListCache rendered_123 !! 0%nat.
Proof.
  intros r. split; [congruence|].
  apply (repeat_keeps_other_caches text_materialize 20 keys_132
           (Some item_key) (Some item_text) None (NodePartObj 1%nat) r.1
           rendered_123 r.2 0%nat).
  - congruence.
  - vm_compute. reflexivity.
Defined.

Lemma repeat_returns_on_ordered_container_witness :
  ∃ σ', repeat text_materialize 40 keys_132 (Some item_key) (Some item_text) None
          (NodePartObj 0%nat) rendered_123 = (Returns tt, σ').
Proof.
  apply (repeat_returns_on_ordered_container text_materialize 0%nat 0%nat 1%nat 2%nat 40
           keys_132 (Some item_key) (Some item_text) item_text rendered_123
           [1; 2; 3]%nat).
  - exact rendered_123_ordered.
  - vm_compute. reflexivity.
  - apply (bool_decide_unpack _). vm_compute. exact I.
  - reflexivity.
  - apply Nat.leb_le. vm_compute. reflexivity.
Defined.

Module TemplateFactoryMoreWitnesses.
Import TemplateFactory TemplateFactoryFacts TemplateFactoryMore.

Lemma templateFactory_returns_same_content_witness :
  let m := "{{lit-7}}"%string in
  let r := mkResult "html" 0 in
  reachable m demo_segments empty_caches ∧
  content_key m demo_segments (source (templateFactory m demo_segments r empty_caches).1)
  = content_key m demo_segments r.
Proof.
  intros m r. split; [constructor|].
  exact (templateFactory_returns_same_content m demo_segments empty_caches r
           (reachable_init _ _)).
Defined.

Lemma templateFactory_ignores_type_witness :
  let m := "{{lit-7}}"%string in
  let r1 := mkResult "html" 0 in
  let r2 := mkResult "svg" 1 in
  reachable m demo_segments empty_caches ∧
  (templateFactory m demo_segments r2
     (run_calls m demo_segments [] (templateFactory m demo_segments r1 empty_caches).2)).1
  = (templateFactory m demo_segments r1 empty_caches).1 ∧
  type (source (templateFactory m demo_segments r1 empty_caches).1) = "html"%string.
Proof.
  intros m r1 r2. split; [constructor|].
  destruct (templateFactory_ignores_type m demo_segments empty_caches r1 r2 []
              (reachable_init _ _) eq_refl eq_refl) as [H1 H2].
  split; [exact H1|]. by rewrite H2.
Defined.

(** Two strings arrays with different contents. *)
Definition two_segments (s : nat) : list string :=
  match s with
  | O => ["<p>"; "</p>"]%string
  | _ => ["<b>"; "</b>"]%string
  end.

(** The caches after compiling a result for each of them. *)
Definition two_templates : Caches :=
  (templateFactory "{{lit-7}}" two_segments (mkResult "html" 1)
     (templateFactory "{{lit-7}}" two_segments (mkResult "html" 0) empty_caches).2).2.

Lemma templateFactory_one_template_per_content_witness :
  let m := "{{lit-7}}"%string in
  reachable m two_segments two_templates ∧
  nextTemplate two_templates = 2%nat ∧
  size (keyedTemplates two_templates) = 2%nat ∧
  ∀ k1 k2 t1 t2,
    keyedTemplates two_templates !! k1 = Some t1 →
    keyedTemplates two_templates !! k2 = Some t2 →
    template_id t1 = template_id t2 → k1 = k2.
Proof.
  intros m.
  assert (R : reachable m two_segments two_templates).
  { apply reachable_call, reachable_call, reachable_init. }
  split; [exact R|]. split; [vm_compute; reflexivity|].
  destruct (templateFactory_one_template_per_content m two_segments two_templates R)
    as [H1 H2].
  split; [|exact H2]. rewrite <- H1. vm_compute. reflexivity.
Defined.

End TemplateFactoryMoreWitnesses.

